(** * JobBot runner: a shallow embedding of [server/runner.mjs]

    The runner drives a browser through Playwright, fills application forms
    from a profile and appends one CSV row per URL.  The browser, the file
    system and the clock are outside the program: the embedding keeps every
    call the code makes to them as a node of a program tree ([Prog]) and lets
    an arbitrary [Driver] answer it, so that a theorem quantified over drivers
    holds for every page the runner can meet. *)

From Stdlib Require Import String Ascii List ZArith Bool Arith Lia.
Import ListNotations.
Open Scope string_scope.

(* ====================================================================== *)
(** * Strings as the JavaScript code uses them *)
(* ====================================================================== *)

Module Js.

Definition quote : ascii := Ascii false true false false false true false false.
Definition comma : ascii := ","%char.
Definition newline : ascii := "010"%char.

Definition chr (c : ascii) : string := String c EmptyString.

(** [!value] for a value that is a string. *)
Definition isEmpty (s : string) : bool :=
  match s with EmptyString => true | String _ _ => false end.

(** [!value] for a value that is a string or [undefined]. *)
Definition truthy (v : option string) : bool :=
  match v with
  | None => false
  | Some s => negb (isEmpty s)
  end.

(** [a || b] on strings. *)
Definition orElse (a : option string) (b : string) : string :=
  match a with
  | Some s => if isEmpty s then b else s
  | None => b
  end.

(** [a || b] where [b] may be [undefined] as well. *)
Definition orElseOpt (a b : option string) : option string :=
  if truthy a then a else b.

Fixpoint startsWith (p s : string) : bool :=
  match p, s with
  | EmptyString, _ => true
  | String a p', String b s' => Ascii.eqb a b && startsWith p' s'
  | String _ _, EmptyString => false
  end.

(** [s.includes(p)] *)
Fixpoint includes (s p : string) : bool :=
  startsWith p s
  || match s with
     | EmptyString => false
     | String _ s' => includes s' p
     end.

Fixpoint drop (n : nat) (s : string) : string :=
  match n, s with
  | O, _ => s
  | S n', String _ s' => drop n' s'
  | S _, EmptyString => EmptyString
  end.

Fixpoint take (n : nat) (s : string) : string :=
  match n, s with
  | S n', String c s' => String c (take n' s')
  | _, _ => EmptyString
  end.

(** [s.replace(/^www\./, '')] *)
Definition stripWww (s : string) : string :=
  if startsWith "www." s then drop 4 s else s.

Definition lowerChar (c : ascii) : ascii :=
  let n := nat_of_ascii c in
  if ((65 <=? n)%nat && (n <=? 90)%nat)%bool then ascii_of_nat (n + 32) else c.

(** [s.toLowerCase()] on the ASCII range. *)
Fixpoint toLowerCase (s : string) : string :=
  match s with
  | EmptyString => EmptyString
  | String c s' => String (lowerChar c) (toLowerCase s')
  end.

Fixpoint join (sep : string) (l : list string) : string :=
  match l with
  | [] => ""
  | [x] => x
  | x :: l' => x ++ sep ++ join sep l'
  end.

Definition digit (n : nat) : string :=
  chr (ascii_of_nat (48 + n)).

Fixpoint showNatAux (fuel n : nat) (acc : string) : string :=
  match fuel with
  | O => acc
  | S fuel' =>
      let acc' := digit (n mod 10) ++ acc in
      match n / 10 with
      | O => acc'
      | q => showNatAux fuel' q acc'
      end
  end.

(** [String(n)] for a non-negative integer. *)
Definition showNat (n : nat) : string := showNatAux (S n) n "".

Definition showZ (z : Z) : string :=
  match z with
  | Zneg _ => "-" ++ showNat (Z.to_nat (- z))
  | _ => showNat (Z.to_nat z)
  end.

Definition showBool (b : bool) : string := if b then "true" else "false".

End Js.

(* ====================================================================== *)
(** * CSV output: [escapeCsvValue] and the line built by [appendCsv] *)
(* ====================================================================== *)

Module Csv.
Import Js.

Definition isSpecial (c : ascii) : bool :=
  Ascii.eqb c quote || Ascii.eqb c comma || Ascii.eqb c newline.

(** The test of the regular expression that matches a double quote, a
    comma or a line feed anywhere in [s]. *)
Fixpoint regexTestSpecial (s : string) : bool :=
  match s with
  | EmptyString => false
  | String c s' => isSpecial c || regexTestSpecial s'
  end.

(** The global replacement of every double quote by two of them. *)
Fixpoint doubleQuotes (s : string) : string :=
  match s with
  | EmptyString => EmptyString
  | String c s' =>
      if Ascii.eqb c quote
      then String quote (String quote (doubleQuotes s'))
      else String c (doubleQuotes s')
  end.

(** [escapeCsvValue] after [String(value ?? '')] has been taken. *)
Definition escapeCsvValue (stringValue : string) : string :=
  if regexTestSpecial stringValue
  then chr quote ++ doubleQuotes stringValue ++ chr quote
  else stringValue.

(** The header written by [ensureOutFiles]. *)
Definition csvHeader : string :=
  "version,timestamp_start,timestamp_end,status,company,job_title,source,url,resume_used,notes,job_id"
  ++ chr newline.

(** The argument of [appendCsv]. *)
Record Row := mkRow {
  tsStart : string;
  tsEnd : string;
  status : string;
  company : string;
  title : string;
  source : string;
  url : string;
  resume : string;
  notes : string;
  jobId : string
}.

(** The eleven cells of a row before escaping; the leading [1] is the
    format version and [x || ''] is the identity on strings. *)
Definition rowCells (row : Row) : list string :=
  [ "1"; tsStart row; tsEnd row; status row; company row; title row;
    source row; url row; resume row; notes row; jobId row ].

Definition csvLine (row : Row) : string :=
  join "," (map escapeCsvValue (rowCells row)) ++ chr newline.

(** ** A reader for the format

    The reader is not part of the runner: it is the usual CSV reader (the
    quoting of RFC 4180, the line ends of the common readers).  Cells are
    separated by commas.  Outside quotes a record ends at a line feed, at a
    carriage return, or at a carriage return followed by a line feed.  A cell
    that starts with a double quote runs to the closing quote; a doubled
    quote inside it stands for one quote, and commas and line ends inside it
    are data. *)

Definition carriage : ascii := "013"%char.

Definition isBreak (c : ascii) : bool := Ascii.eqb c newline || Ascii.eqb c carriage.

(** The input after a line end that began with [c]: the line feed that
    follows a carriage return belongs to the same line end. *)
Definition afterBreak (c : ascii) (rest : string) : string :=
  if Ascii.eqb c carriage then
    match rest with
    | String c2 rest2 => if Ascii.eqb c2 newline then rest2 else rest
    | EmptyString => rest
    end
  else rest.

Inductive ReaderState := FieldStart | Unquoted | Quoted | QuoteSeen.

(** Reads one record; returns its cells and the rest of the input. *)
Fixpoint readRecord (st : ReaderState) (cur : string) (cells : list string)
         (input : string) : option (list string * string) :=
  match input with
  | EmptyString =>
      match st with
      | Quoted => None
      | _ => Some ((cells ++ [cur])%list, EmptyString)
      end
  | String c rest =>
      match st with
      | FieldStart =>
          if Ascii.eqb c quote then readRecord Quoted "" cells rest
          else if Ascii.eqb c comma then readRecord FieldStart "" (cells ++ [""])%list rest
          else if isBreak c then Some ((cells ++ [""])%list, afterBreak c rest)
          else readRecord Unquoted (chr c) cells rest
      | Unquoted =>
          if Ascii.eqb c quote then None
          else if Ascii.eqb c comma then readRecord FieldStart "" (cells ++ [cur])%list rest
          else if isBreak c then Some ((cells ++ [cur])%list, afterBreak c rest)
          else readRecord Unquoted (cur ++ chr c) cells rest
      | Quoted =>
          if Ascii.eqb c quote then readRecord QuoteSeen cur cells rest
          else readRecord Quoted (cur ++ chr c) cells rest
      | QuoteSeen =>
          if Ascii.eqb c quote then readRecord Quoted (cur ++ chr quote) cells rest
          else if Ascii.eqb c comma then readRecord FieldStart "" (cells ++ [cur])%list rest
          else if isBreak c then Some ((cells ++ [cur])%list, afterBreak c rest)
          else None
      end
  end.

(** Reads a text that holds exactly one cell. *)
Definition readCell (text : string) : option string :=
  match readRecord FieldStart "" [] text with
  | Some ([cell], EmptyString) => Some cell
  | _ => None
  end.

(** Does the value hold a carriage return? *)
Fixpoint hasCarriage (s : string) : bool :=
  match s with
  | EmptyString => false
  | String c s' => Ascii.eqb c carriage || hasCarriage s'
  end.

(** The values whose escaped form keeps every carriage return inside
    quotes: those that are quoted and those that hold none. *)
Definition readsBack (s : string) : bool := regexTestSpecial s || negb (hasCarriage s).

Definition rowReadsBack (row : Row) : bool := forallb readsBack (rowCells row).

End Csv.

(* ====================================================================== *)
(** * The calls the runner makes and the programs built from them *)
(* ====================================================================== *)

(** A thrown value: [error?.message] is absent for a value that is not an
    [Error]. *)
Record Exn := mkExn { message : option string }.

Inductive Result (A : Type) : Type :=
| Ok (a : A)
| Err (e : Exn).
Arguments Ok {A} a.
Arguments Err {A} e.

Inductive Role := Textbox | Combobox | Radio | Group.

(** Playwright locators as the runner builds them. *)
Inductive Locator :=
| Css (selector : string)               (* page.locator(selector) *)
| ByLabel (text : string)               (* page.getByLabel(text, { exact: false }) *)
| ByRole (role : Role) (name : string)  (* page.getByRole(role, { name, exact: false }) *)
| Inside (scope inner : Locator)        (* scope.getByRole(...) *)
| First (l : Locator).                  (* l.first() *)

(** What [page.evaluate] hands back to [extractMeta]. *)
Record PageData := mkPageData {
  pd_title : string;
  pd_siteName : option string;
  pd_company : option string
}.

(** One visible control as [debugFormFields] reads it. *)
Record FieldInfo := mkFieldInfo {
  fi_tag : string;
  fi_type : string;
  fi_name : string;
  fi_id : string;
  fi_placeholder : string;
  fi_label : string;
  fi_ariaLabel : string;
  fi_dataField : string;
  fi_dataName : string;
  fi_className : string
}.

(** Asynchronous calls: each one may reject. *)
Inductive Cmd :=
(* node:fs *)
| Mkdir (path : string)
| Access (path : string)
| WriteFile (path content : string)
| AppendFile (path content : string)
| ReadFile (path : string)
(* browser session *)
| Launch
| NewContext
| NewPage
| CloseContext
| CloseBrowser
(* page *)
| Goto (url : string)
| WaitForTimeout (ms : Z)
| PageFill (selector value : string)
| EvalMeta
| EvalFieldCount
| EvalFormFields
| EvalHoldBanner (msg : string)
| WaitForClose
(* locator *)
| Count (l : Locator)
| IsVisible (l : Locator)
| Fill (l : Locator) (value : string)
| SelectOptionLabel (l : Locator) (label : string)
| SelectOptionValue (l : Locator) (value : string)
| PressSequentially (l : Locator) (text : string)
| SetInputFiles (l : Locator) (path : string)
| Check (l : Locator)
| Click (l : Locator).

Definition Resp (c : Cmd) : Type :=
  match c with
  | ReadFile _ => string
  | EvalMeta => PageData
  | EvalFieldCount => nat
  | EvalFormFields => list FieldInfo
  | Count _ => nat
  | IsVisible _ => bool
  | _ => unit
  end.

(** Synchronous reads that cannot throw. *)
Inductive Sys :=
| DateNow      (* Date.now() *)
| DateISO      (* new Date().toISOString() *)
| PageUrl.     (* page.url() *)

Definition SysResp (s : Sys) : Type :=
  match s with
  | DateNow => Z
  | DateISO => string
  | PageUrl => string
  end.

(** A program is the tree of the calls it may make.  [Stuck] stands for a
    loop that used up the iteration bound of the model. *)
Inductive Prog (A : Type) : Type :=
| Ret (a : A)
| Throw (e : Exn)
| Stuck
| Await (c : Cmd) (k : Result (Resp c) -> Prog A)
| Sync (s : Sys) (k : SysResp s -> Prog A)
| Log (msg : string) (k : Prog A).
Arguments Ret {A} a.
Arguments Throw {A} e.
Arguments Stuck {A}.
Arguments Await {A} c k.
Arguments Sync {A} s k.
Arguments Log {A} msg k.

Fixpoint bind {A B : Type} (p : Prog A) (f : A -> Prog B) : Prog B :=
  match p with
  | Ret a => f a
  | Throw e => Throw e
  | Stuck => Stuck
  | Await c k => Await c (fun r => bind (k r) f)
  | Sync s k => Sync s (fun r => bind (k r) f)
  | Log msg k => Log msg (bind k f)
  end.

(** [try { p } catch (e) { h e }] *)
Fixpoint try_catch {A : Type} (p : Prog A) (h : Exn -> Prog A) : Prog A :=
  match p with
  | Ret a => Ret a
  | Throw e => h e
  | Stuck => Stuck
  | Await c k => Await c (fun r => try_catch (k r) h)
  | Sync s k => Sync s (fun r => try_catch (k r) h)
  | Log msg k => Log msg (try_catch k h)
  end.

Declare Scope prog_scope.
Delimit Scope prog_scope with prog.
Notation "x <- p ;; q" := (bind p (fun x => q))
  (at level 100, p at next level, right associativity) : prog_scope.
Notation "p ;; q" := (bind p (fun _ => q))
  (at level 100, right associativity) : prog_scope.
Notation "' pat <- p ;; q" := (bind p (fun x => match x with pat => q end))
  (at level 100, pat pattern, p at next level, right associativity) : prog_scope.
Open Scope prog_scope.

(** [await call] *)
Definition await (c : Cmd) : Prog (Resp c) :=
  Await c (fun r => match r with Ok a => Ret a | Err e => Throw e end).

Definition sync (s : Sys) : Prog (SysResp s) := Sync s (fun r => Ret r).

Definition log (msg : string) : Prog unit := Log msg (Ret tt).

(** [try { p } finally { fin }] *)
Definition try_finally {A : Type} (p : Prog A) (fin : Prog unit) : Prog A :=
  r <- try_catch (a <- p ;; Ret (Ok a)) (fun e => Ret (Err e)) ;;
  fin ;;
  match r with
  | Ok a => Ret a
  | Err e => Throw e
  end.

(** ** Running a program against a driver *)

Record Driver (W : Type) := mkDriver {
  answer : forall c : Cmd, W -> W * Result (Resp c);
  observe : forall s : Sys, W -> W * SysResp s
}.
Arguments answer {W} d c w.
Arguments observe {W} d s w.

Inductive Event :=
| ECall (c : Cmd) (r : Result (Resp c))
| ESync (s : Sys) (r : SysResp s)
| ELog (msg : string).

Inductive Outcome (A : Type) : Type :=
| Done (a : A)
| Raised (e : Exn)
| Diverged.
Arguments Done {A} a.
Arguments Raised {A} e.
Arguments Diverged {A}.

Fixpoint run {W A : Type} (d : Driver W) (p : Prog A) (w : W)
  : W * list Event * Outcome A :=
  match p with
  | Ret a => (w, [], Done a)
  | Throw e => (w, [], Raised e)
  | Stuck => (w, [], Diverged)
  | Await c k =>
      let '(w1, r) := answer d c w in
      let '(w2, tr, o) := run d (k r) w1 in
      (w2, ECall c r :: tr, o)
  | Sync s k =>
      let '(w1, r) := observe d s w in
      let '(w2, tr, o) := run d (k r) w1 in
      (w2, ESync s r :: tr, o)
  | Log msg k =>
      let '(w2, tr, o) := run d k w in
      (w2, ELog msg :: tr, o)
  end.

Definition finalWorld {W A} (x : W * list Event * Outcome A) : W := fst (fst x).
Definition trace {W A} (x : W * list Event * Outcome A) : list Event := snd (fst x).
Definition outcome {W A} (x : W * list Event * Outcome A) : Outcome A := snd x.

(** The calls that change the page: values, selections, files, clicks. *)
Definition isWrite (c : Cmd) : bool :=
  match c with
  | PageFill _ _ | Fill _ _ | SelectOptionLabel _ _ | SelectOptionValue _ _
  | PressSequentially _ _ | SetInputFiles _ _ | Check _ | Click _ => true
  | _ => false
  end.

Fixpoint calls (tr : list Event) : list Cmd :=
  match tr with
  | [] => []
  | ECall c _ :: tr' => c :: calls tr'
  | _ :: tr' => calls tr'
  end.

Definition writes (tr : list Event) : list Cmd := filter isWrite (calls tr).

(* ====================================================================== *)
(** * Field label registry and structural selectors *)
(* ====================================================================== *)

Record Labels := mkLabels {
  l_firstName : list string;
  l_lastName : list string;
  l_fullName : list string;
  l_phone : list string;
  l_email : list string;
  l_gender : list string;
  l_personalUrl : list string;
  l_cv : list string;
  l_country : list string;
  l_tax : list string;
  l_notice : list string;
  l_salary : list string;
  l_referred : list string;
  l_linkedin : list string;
  l_github : list string
}.

Definition FIELD_LABELS : Labels := {|
  l_firstName := ["First name"; "Given name"; "Vorname"; "Prénom"; "First Name"; "Firstname"];
  l_lastName := ["Last name"; "Family name"; "Surname"; "Nachname"; "Nom"; "Last Name"; "Lastname"];
  l_fullName := ["Full name"; "Your full name"; "Name (full)"; "Full Name"; "Name"];
  l_phone := ["Phone"; "Phone number"; "Telefon"; "Téléphone"; "Phone Number"; "Mobile"; "Telephone"];
  l_email := ["Email"; "E-mail"; "Email address"; "E-Mail"; "E-mail address"; "Email Address"];
  l_gender := ["Gender"; "Gender to which you identify as"; "Geschlecht"];
  l_personalUrl := ["Personal URL"; "Website"; "Portfolio"; "Personal site"; "Homepage"; "Website URL"];
  l_cv := ["Curriculum vitae"; "CV"; "Resume"; "Lebenslauf"; "Resume/CV"; "Cover Letter"];
  l_country := ["What country do you currently live in"; "Country"; "Current country"; "Location"];
  l_tax := ["Tax residence"; "Where is your tax residence"];
  l_notice := ["Notice period"; "What is your notice period"];
  l_salary := ["Salary expectations"; "What are your salary expectations"; "Salary (EUR)";
               "Expected salary"; "Salary"];
  l_referred := ["Were you referred"; "Referral"; "Referred by"];
  l_linkedin := ["LinkedIn"; "LinkedIn profile"; "LinkedIn URL"; "LinkedIn Profile"];
  l_github := ["GitHub"; "GitHub profile"; "GitHub URL"; "GitHub Profile"; "Github"; "Github profile"]
|}.

Definition q : string := Js.chr Js.quote.

Definition FIRST_NAME_SELECTORS : list string :=
  [ "input[name*=first i]"; "input[id*=first i]"; "input[placeholder*=first i]";
    "input[name*=" ++ q ++ "firstName" ++ q ++ "]"; "input[id*=" ++ q ++ "firstName" ++ q ++ "]";
    "input[name*=" ++ q ++ "first_name" ++ q ++ "]"; "input[id*=" ++ q ++ "first_name" ++ q ++ "]" ].

Definition LAST_NAME_SELECTORS : list string :=
  [ "input[name*=last i]"; "input[id*=last i]"; "input[placeholder*=last i]";
    "input[name*=" ++ q ++ "lastName" ++ q ++ "]"; "input[id*=" ++ q ++ "lastName" ++ q ++ "]";
    "input[name*=" ++ q ++ "last_name" ++ q ++ "]"; "input[id*=" ++ q ++ "last_name" ++ q ++ "]" ].

Definition FULL_NAME_SELECTORS : list string :=
  [ "input[autocomplete=" ++ q ++ "name" ++ q ++ "]";
    "input[name=" ++ q ++ "fullName" ++ q ++ "]"; "input[id=" ++ q ++ "fullName" ++ q ++ "]";
    "input[name=" ++ q ++ "fullname" ++ q ++ "]"; "input[id=" ++ q ++ "fullname" ++ q ++ "]";
    "input[placeholder*=" ++ q ++ "full name" ++ q ++ " i]";
    "input[aria-label*=" ++ q ++ "full name" ++ q ++ " i]";
    "input[name*=" ++ q ++ "full_name" ++ q ++ "]"; "input[id*=" ++ q ++ "full_name" ++ q ++ "]" ].

Definition attrSelectors (tag word : string) (attrs : list string) : list string :=
  map (fun attr => tag ++ "[" ++ attr ++ "*=" ++ q ++ word ++ q ++ " i]") attrs.

(** [generateFieldSelectors(fieldType, variations)] *)
Definition generateFieldSelectors (fieldType : string) (variations : list string)
  : list string :=
  let attrs := ["name"; "id"; "placeholder"; "data-field"; "data-name"] in
  (attrSelectors "input" fieldType attrs
   ++ flat_map (fun variation => attrSelectors "input" variation attrs) variations)%list.

(** The object [GENERIC_SELECTORS], read at a key. *)
Definition GENERIC_SELECTORS (fieldType : string) : option (list string) :=
  if String.eqb fieldType "email" then
    Some (("input[type=" ++ q ++ "email" ++ q ++ "]") :: generateFieldSelectors "email" [])
  else if String.eqb fieldType "phone" then
    Some (("input[type=" ++ q ++ "tel" ++ q ++ "]")
            :: generateFieldSelectors "phone" ["mobile"; "telephone"])
  else if String.eqb fieldType "salary" then
    Some (generateFieldSelectors "salary" []
            ++ attrSelectors "select" "salary" ["name"; "id"])%list
  else if String.eqb fieldType "linkedin" then
    Some (generateFieldSelectors "linkedin"
            ["linked_in"; "social_linkedin"; "profile_linkedin"; "url_linkedin"])
  else if String.eqb fieldType "github" then
    Some (generateFieldSelectors "github"
            ["git_hub"; "social_github"; "profile_github"; "url_github"])
  else if String.eqb fieldType "website" then
    Some (generateFieldSelectors "website" ["portfolio"; "url"; "homepage"])
  else if String.eqb fieldType "twitter" then
    Some (generateFieldSelectors "twitter" ["social_twitter"; "profile_twitter"; "url_twitter"])
  else if String.eqb fieldType "facebook" then
    Some (generateFieldSelectors "facebook" ["social_facebook"; "profile_facebook"; "url_facebook"])
  else if String.eqb fieldType "instagram" then
    Some (generateFieldSelectors "instagram"
            ["social_instagram"; "profile_instagram"; "url_instagram"])
  else if String.eqb fieldType "experience" then
    Some (generateFieldSelectors "experience"
            ["work_experience"; "job_experience"; "professional_experience"])
  else if String.eqb fieldType "education" then
    Some (generateFieldSelectors "education" ["educational_background"; "academic_background"])
  else if String.eqb fieldType "skills" then
    Some (generateFieldSelectors "skills"
            ["technical_skills"; "professional_skills"; "competencies"])
  else None.

(* ====================================================================== *)
(** * Profile and runtime library *)
(* ====================================================================== *)

(** The optional keys of [config/user.json] that the runner reads. *)
Record Extras := mkExtras {
  x_phone : option string;
  x_linkedin : option string;
  x_github : option string;
  x_website : option string;
  x_gender : option string;
  x_location : option string;
  x_taxResidence : option string;
  x_noticePeriod : option string;
  x_salary : option string;
  x_referredBy : option string
}.

(** [JSON.parse(rawConfig)] read at the keys the runner uses. *)
Record RawUser := mkRawUser {
  raw_firstName : option string;
  raw_lastName : option string;
  raw_email : option string;
  raw_resumePath : option string;
  raw_extras : Extras
}.

(** The profile once [loadUser] has checked the required keys. *)
Record User := mkUser {
  firstName : string;
  lastName : string;
  email : string;
  resumePath : string;
  extras : Extras
}.

Definition phone (u : User) := x_phone (extras u).
Definition linkedin (u : User) := x_linkedin (extras u).
Definition github (u : User) := x_github (extras u).
Definition website (u : User) := x_website (extras u).
Definition gender (u : User) := x_gender (extras u).
Definition location (u : User) := x_location (extras u).
Definition taxResidence (u : User) := x_taxResidence (extras u).
Definition noticePeriod (u : User) := x_noticePeriod (extras u).
Definition salary (u : User) := x_salary (extras u).
Definition referredBy (u : User) := x_referredBy (extras u).

(** Library functions of Node that the runner calls and that are not
    modelled further: SHA-1, the URL parser, the JSON parser, path
    resolution and the decimal formatting of a duration. *)
Record Runtime := mkRuntime {
  sha1Hex : string -> string;              (* createHash('sha1').update(s).digest('hex') *)
  urlHostname : string -> Result string;   (* new URL(s).hostname *)
  parseUserJson : string -> Result RawUser;(* JSON.parse(s) *)
  resolvePath : string -> string;          (* resolve(__dirname, '..', p) *)
  secondsFixed1 : Z -> string              (* (ms / 1000).toFixed(1) *)
}.

Definition CONFIG_PATH : string := "config/user.json".
Definition OUT_DIR : string := "output".
Definition CSV_PATH : string := "output/applied.csv".

(* ====================================================================== *)
(** * File management and logging *)
(* ====================================================================== *)

Definition ensureOutFiles : Prog unit :=
  try_catch (await (Mkdir OUT_DIR)) (fun _ => Ret tt) ;;
  try_catch (await (Access CSV_PATH))
            (fun _ => await (WriteFile CSV_PATH Csv.csvHeader)).

Definition appendCsv (row : Csv.Row) : Prog unit :=
  await (AppendFile CSV_PATH (Csv.csvLine row)).

(* ====================================================================== *)
(** * Configuration *)
(* ====================================================================== *)

Definition requireField (field : string) (v : option string) : Prog string :=
  match v with
  | Some s =>
      if Js.isEmpty s
      then Throw (mkExn (Some ("Missing required field " ++ q ++ field ++ q ++ " in " ++ CONFIG_PATH)))
      else Ret s
  | None =>
      Throw (mkExn (Some ("Missing required field " ++ q ++ field ++ q ++ " in " ++ CONFIG_PATH)))
  end.

Definition loadUser (rt : Runtime) : Prog User :=
  rawConfig <- await (ReadFile CONFIG_PATH) ;;
  match parseUserJson rt rawConfig with
  | Err e => Throw e
  | Ok userConfig =>
      first <- requireField "firstName" (raw_firstName userConfig) ;;
      last <- requireField "lastName" (raw_lastName userConfig) ;;
      mail <- requireField "email" (raw_email userConfig) ;;
      resume <- requireField "resumePath" (raw_resumePath userConfig) ;;
      Ret {| firstName := first; lastName := last; email := mail;
             resumePath := resolvePath rt resume;
             extras := raw_extras userConfig |}
  end.

(* ====================================================================== *)
(** * Page metadata extraction *)
(* ====================================================================== *)

Record Meta := mkMeta {
  m_company : string;
  m_title : string;
  m_source : string
}.

Definition defaultMeta : Meta :=
  {| m_company := ""; m_title := ""; m_source := "Other" |}.

Definition sourceMap : list (string * string) :=
  [ ("greenhouse.io", "Greenhouse");
    ("lever.co", "Lever");
    ("myworkdayjobs", "Workday");
    ("personio", "Personio");
    ("join.com", "Personio");
    ("smartrecruiters", "SmartRecruiters");
    ("linkedin.com", "LinkedIn") ].

Fixpoint firstSource (entries : list (string * string)) (hostname : string) : string :=
  match entries with
  | [] => "Other"
  | (domain, source) :: rest =>
      if Js.includes hostname domain then source else firstSource rest hostname
  end.

Definition getJobBoardSource (hostname : string) : string :=
  firstSource sourceMap hostname.

Definition extractMeta (rt : Runtime) : Prog Meta :=
  try_catch
    (pageData <- await EvalMeta ;;
     pageUrl <- sync PageUrl ;;
     match urlHostname rt pageUrl with
     | Err e => Throw e
     | Ok hostname =>
         let source := getJobBoardSource hostname in
         let company :=
           Js.orElse (pd_company pageData)
                     (Js.orElse (pd_siteName pageData) (Js.stripWww hostname)) in
         let title := pd_title pageData in
         Ret {| m_company := company; m_title := title; m_source := source |}
     end)
    (fun _ => Ret defaultMeta).

(* ====================================================================== *)
(** * Form filling helpers *)
(* ====================================================================== *)

(** [for (const x of xs) { try { body } catch { } }] where [body] answers
    [true] when it left the function through [return true]. *)
Fixpoint forEachTry {X : Type} (xs : list X) (body : X -> Prog bool) : Prog bool :=
  match xs with
  | [] => Ret false
  | x :: rest =>
      returned <- try_catch (body x) (fun _ => Ret false) ;;
      if returned then Ret true else forEachTry rest body
  end.

Definition positive (n : nat) : bool := negb (Nat.eqb n 0).

Definition fillTextByLabel (labels : list string) (value : option string)
           (fieldName : string) : Prog bool :=
  if negb (Js.truthy value) then
    log ("fill: skip " ++ fieldName ++ " – empty value") ;;
    Ret false
  else
    let value := Js.orElse value "" in
    returned <- forEachTry labels (fun label =>
      let input := ByLabel label in
      n <- await (Count input) ;;
      if positive n then
        await (Fill (First input) value) ;;
        log ("fill: ok   " ++ fieldName ++ " via label " ++ q ++ label ++ q) ;;
        Ret true
      else Ret false) ;;
    if returned then Ret true else
    returned <- forEachTry labels (fun label =>
      let textbox := ByRole Textbox label in
      n <- await (Count textbox) ;;
      if positive n then
        await (Fill (First textbox) value) ;;
        log ("fill: ok   " ++ fieldName ++ " via role name " ++ q ++ label ++ q) ;;
        Ret true
      else Ret false) ;;
    if returned then Ret true else
    log ("fill: miss " ++ fieldName) ;;
    Ret false.

Definition clickRadioByLabel (labels : list string) (optionText : option string)
           (fieldName : string) : Prog bool :=
  if negb (Js.truthy optionText) then Ret false
  else
    let optionText := Js.orElse optionText "" in
    returned <- forEachTry labels (fun groupLabel =>
      let group := ByRole Group groupLabel in
      n <- await (Count group) ;;
      if positive n then
        let radio := First (Inside group (ByRole Radio optionText)) in
        m <- await (Count radio) ;;
        if positive m then
          try_catch (await (Check radio)) (fun _ => await (Click radio)) ;;
          log ("radio: ok   " ++ fieldName ++ "=" ++ q ++ optionText ++ q
               ++ " via group " ++ q ++ groupLabel ++ q) ;;
          Ret true
        else Ret false
      else Ret false) ;;
    if returned then Ret true else
    returned <- try_catch
      (let radio := First (ByRole Radio optionText) in
       m <- await (Count radio) ;;
       if positive m then
         try_catch (await (Check radio)) (fun _ => await (Click radio)) ;;
         log ("radio: ok   " ++ fieldName ++ "=" ++ q ++ optionText ++ q ++ " (global)") ;;
         Ret true
       else Ret false)
      (fun _ => Ret false) ;;
    if returned then Ret true else
    log ("radio: miss " ++ fieldName ++ "=" ++ q ++ optionText ++ q) ;;
    Ret false.

Definition selectByLabel (labels : list string) (value : option string)
           (fieldName : string) : Prog bool :=
  if negb (Js.truthy value) then
    log ("select: skip " ++ fieldName ++ " – empty value") ;;
    Ret false
  else
    let value := Js.orElse value "" in
    returned <- forEachTry labels (fun label =>
      let select := ByLabel label in
      n <- await (Count select) ;;
      if positive n then
        let element := First select in
        try_catch
          (try_catch (await (SelectOptionLabel element value))
             (fun _ => try_catch (await (SelectOptionValue element value))
                         (fun _ => await (Fill element value))) ;;
           log ("select: ok   " ++ fieldName ++ "=" ++ q ++ value ++ q
                ++ " via label " ++ q ++ label ++ q) ;;
           Ret true)
          (fun _ => Ret false)
      else Ret false) ;;
    if returned then Ret true else
    returned <- forEachTry labels (fun label =>
      let combobox := ByRole Combobox label in
      n <- await (Count combobox) ;;
      if positive n then
        let element := First combobox in
        try_catch (await (Fill element value))
                  (fun _ => await (PressSequentially element value)) ;;
        log ("select: ok   " ++ fieldName ++ " via combobox " ++ q ++ label ++ q ++ " (typed)") ;;
        Ret true
      else Ret false) ;;
    if returned then Ret true else
    log ("select: miss " ++ fieldName) ;;
    Ret false.

Definition setFileByLabel (labels : list string) (filePath : option string)
           (fieldName : string) : Prog bool :=
  if negb (Js.truthy filePath) then Ret false
  else
    let filePath := Js.orElse filePath "" in
    returned <- forEachTry labels (fun label =>
      let fileInput := ByLabel label in
      n <- await (Count fileInput) ;;
      if positive n then
        let element := First fileInput in
        await (SetInputFiles element filePath) ;;
        log ("upload: ok   " ++ fieldName ++ " via label " ++ q ++ label ++ q) ;;
        Ret true
      else Ret false) ;;
    if returned then Ret true else
    returned <- try_catch
      (let fileInputs := Css "input[type=file]" in
       n <- await (Count fileInputs) ;;
       if positive n then
         await (SetInputFiles (First fileInputs) filePath) ;;
         log ("upload: ok   " ++ fieldName ++ " via generic file input") ;;
         Ret true
       else Ret false)
      (fun _ => Ret false) ;;
    if returned then Ret true else
    log ("upload: miss " ++ fieldName) ;;
    Ret false.

(** The body of the loop of [findFirstVisibleSelector] and of the first loop
    of [fillGenericField]: is the first match of the locator there and
    visible?  A failing visibility check counts as visible. *)
Definition isThereAndVisible (locator : Locator) : Prog bool :=
  n <- await (Count locator) ;;
  if positive n
  then try_catch (await (IsVisible locator)) (fun _ => Ret true)
  else Ret false.

Fixpoint findFirstVisibleSelector (selectors : list string) (label : string)
  : Prog (option string) :=
  match selectors with
  | [] =>
      log ("detect: no " ++ label ++ " found") ;;
      Ret None
  | selector :: rest =>
      let locator := First (Css selector) in
      found <- try_catch
        (isVisible <- isThereAndVisible locator ;;
         if isVisible then
           log ("detect: found " ++ label ++ " via " ++ selector) ;;
           Ret true
         else Ret false)
        (fun _ => Ret false) ;;
      if found then Ret (Some selector) else findFirstVisibleSelector rest label
  end.

(** The locator of the nearby-text fallback of [fillGenericField]. *)
Definition nearbyInput (fieldType : string) : Locator :=
  First (Css ("text=" ++ Js.toLowerCase fieldType ++ " >> .. >> input")).

Definition fillGenericField (fieldType : string) (value : option string)
           (fieldName : string) : Prog bool :=
  if negb (Js.truthy value) then
    log ("generic: skip " ++ fieldName ++ " – empty value") ;;
    Ret false
  else
    let value := Js.orElse value "" in
    let selectors :=
      match GENERIC_SELECTORS fieldType with
      | Some l => l
      | None => []
      end in
    returned <- forEachTry selectors (fun selector =>
      let locator := First (Css selector) in
      isVisible <- isThereAndVisible locator ;;
      if isVisible then
        await (Fill locator value) ;;
        log ("generic: ok   " ++ fieldName ++ " via " ++ selector) ;;
        Ret true
      else Ret false) ;;
    if returned then Ret true else
    returned <- try_catch
      (let fieldText := Js.toLowerCase fieldType in
       isVisible <- isThereAndVisible (nearbyInput fieldType) ;;
       if isVisible then
         await (Fill (nearbyInput fieldType) value) ;;
         log ("generic: ok   " ++ fieldName ++ " via nearby text " ++ q ++ fieldText ++ q) ;;
         Ret true
       else Ret false)
      (fun _ => Ret false) ;;
    if returned then Ret true else
    log ("generic: miss " ++ fieldName) ;;
    Ret false.

Definition showHoldBanner (msg : string) : Prog unit :=
  await (EvalHoldBanner msg).

(* ====================================================================== *)
(** * Form stability and the debug listing *)
(* ====================================================================== *)

(** The [while] loop of [waitForFormStability].  [fuel] bounds the number
    of iterations of the model; the code itself is bounded by the clock. *)
Fixpoint stabilityLoop (fuel : nat) (maxWaitTime startTime : Z)
         (previousFieldCount stableCount : nat) : Prog bool :=
  match fuel with
  | O => Stuck
  | S fuel' =>
      now <- sync DateNow ;;
      if (now - startTime <? maxWaitTime)%Z then
        currentFieldCount <- await EvalFieldCount ;;
        if Nat.eqb currentFieldCount previousFieldCount then
          let stableCount := S stableCount in
          if (3 <=? stableCount)%nat then
            now' <- sync DateNow ;;
            log ("form: stable with " ++ Js.showNat currentFieldCount ++ " fields after "
                 ++ Js.showZ (now' - startTime) ++ "ms") ;;
            Ret true
          else
            await (WaitForTimeout 500) ;;
            stabilityLoop fuel' maxWaitTime startTime currentFieldCount stableCount
        else
          log ("form: field count changed from " ++ Js.showNat previousFieldCount
               ++ " to " ++ Js.showNat currentFieldCount) ;;
          await (WaitForTimeout 500) ;;
          stabilityLoop fuel' maxWaitTime startTime currentFieldCount 0
      else
        log ("form: timeout waiting for stability, final count: "
             ++ Js.showNat previousFieldCount) ;;
        Ret false
  end.

Definition waitForFormStability (fuel : nat) (maxWaitTime : Z) : Prog bool :=
  startTime <- sync DateNow ;;
  stabilityLoop fuel maxWaitTime startTime 0 0.

Definition defaultMaxWaitTime : Z := 5000.

Fixpoint logAll (msgs : list string) : Prog unit :=
  match msgs with
  | [] => Ret tt
  | msg :: rest => log msg ;; logAll rest
  end.

Definition attr (name value : string) : string :=
  " " ++ name ++ "=" ++ q ++ value ++ q.

Definition fieldHead (f : FieldInfo) : string :=
  fi_tag f ++ "[type=" ++ q ++ fi_type f ++ q ++ "]"
  ++ attr "name" (fi_name f) ++ attr "id" (fi_id f)
  ++ attr "placeholder" (fi_placeholder f) ++ attr "label" (fi_label f).

Definition fieldLine (f : FieldInfo) : string :=
  "  " ++ fieldHead f ++ attr "aria-label" (fi_ariaLabel f)
  ++ attr "data-field" (fi_dataField f) ++ attr "data-name" (fi_dataName f)
  ++ attr "class" (fi_className f).

Definition commonFieldTypes : list string :=
  [ "linkedin"; "github"; "twitter"; "facebook"; "instagram";
    "portfolio"; "website"; "url"; "phone"; "email"; "salary";
    "experience"; "education"; "skills" ].

Definition searchText (f : FieldInfo) : string :=
  Js.toLowerCase
    (Js.join " " [ fi_name f; fi_id f; fi_placeholder f; fi_label f;
                   fi_ariaLabel f; fi_dataField f; fi_dataName f ]).

Definition upperChar (c : ascii) : ascii :=
  let n := nat_of_ascii c in
  if ((97 <=? n)%nat && (n <=? 122)%nat)%bool then ascii_of_nat (n - 32) else c.

Fixpoint toUpperCase (s : string) : string :=
  match s with
  | EmptyString => EmptyString
  | String c s' => String (upperChar c) (toUpperCase s')
  end.

Definition detectFields (fields : list FieldInfo) : list (string * list FieldInfo) :=
  flat_map
    (fun fieldType =>
       match filter (fun f => Js.includes (searchText f) fieldType) fields with
       | [] => []
       | matchingFields => [(fieldType, matchingFields)]
       end)
    commonFieldTypes.

Definition messageText (e : Exn) : string :=
  match message e with
  | Some m => m
  | None => "undefined"
  end.

Definition debugFormFields : Prog unit :=
  try_catch
    (fields <- await EvalFormFields ;;
     log ("debug: found " ++ Js.showNat (length fields) ++ " visible form fields:") ;;
     logAll (map fieldLine fields) ;;
     match detectFields fields with
     | [] => log "debug: no fields found matching common field type keywords"
     | detected =>
         log "debug: found fields matching common types:" ;;
         logAll (flat_map
                   (fun entry =>
                      ("  " ++ toUpperCase (fst entry) ++ ": "
                       ++ Js.showNat (length (snd entry)) ++ " field(s)")
                        :: map (fun f => "    " ++ fieldHead f) (snd entry))
                   detected)
     end)
    (fun error => log ("debug: error analyzing form fields: " ++ messageText error)).

(* ====================================================================== *)
(** * Main runner *)
(* ====================================================================== *)

Record Registry := mkRegistry {
  labelsOf : Labels;
  firstSelectors : list string;
  lastSelectors : list string;
  fullSelectors : list string
}.

Definition registry : Registry := {|
  labelsOf := FIELD_LABELS;
  firstSelectors := FIRST_NAME_SELECTORS;
  lastSelectors := LAST_NAME_SELECTORS;
  fullSelectors := FULL_NAME_SELECTORS
|}.

Definition ignore {A : Type} (p : Prog A) : Prog unit := p ;; Ret tt.

(** [await page.fill(selector, value).catch(() => { })] *)
Definition pageFillQuietly (selector value : string) : Prog unit :=
  try_catch (await (PageFill selector value)) (fun _ => Ret tt).

(** NAME FIELDS: prefer first and last; the full name only if both are
    absent. *)
Definition fillNameFields (reg : Registry) (user : User) : Prog unit :=
  firstSelector <- findFirstVisibleSelector (firstSelectors reg) "firstName" ;;
  lastSelector <- findFirstVisibleSelector (lastSelectors reg) "lastName" ;;
  fullSelector <- findFirstVisibleSelector (fullSelectors reg) "fullName (strict)" ;;
  match firstSelector, lastSelector, fullSelector with
  | Some firstSelector, Some lastSelector, _ =>
      pageFillQuietly firstSelector (firstName user) ;;
      log ("fill: ok   firstName→" ++ firstSelector) ;;
      pageFillQuietly lastSelector (lastName user) ;;
      log ("fill: ok   lastName →" ++ lastSelector)
  | None, None, Some fullSelector =>
      let fullName := firstName user ++ " " ++ lastName user in
      pageFillQuietly fullSelector fullName ;;
      log ("fill: ok   fullName→" ++ fullSelector)
  | _, _, _ =>
      fillTextByLabel (l_firstName (labelsOf reg)) (Some (firstName user)) "firstName" ;;
      ignore (fillTextByLabel (l_lastName (labelsOf reg)) (Some (lastName user)) "lastName")
  end.

Definition urlFields : Locator :=
  Css ("input[type=" ++ q ++ "url" ++ q ++ "], input[placeholder*=" ++ q ++ "url" ++ q
       ++ " i], input[name*=" ++ q ++ "url" ++ q ++ " i]").

(** [if (!filled) await fallback] *)
Definition unless (filled : bool) (fallback : Prog bool) : Prog unit :=
  if filled then Ret tt else ignore fallback.

(** CONTACT & SOCIAL LINKS: generic selectors first, then label-based. *)
Definition fillContactFields (user : User) : Prog unit :=
  let L := FIELD_LABELS in
  emailFilled <- fillGenericField "email" (Some (email user)) "email" ;;
  phoneFilled <- fillGenericField "phone" (phone user) "phone" ;;
  salaryFilled <- fillGenericField "salary" (salary user) "salary" ;;
  linkedinFilled <- fillGenericField "linkedin" (Some (Js.orElse (linkedin user) "")) "linkedin" ;;
  githubFilled <- fillGenericField "github" (Some (Js.orElse (github user) "")) "github" ;;
  websiteFilled <- fillGenericField "website" (Some (Js.orElse (website user) "")) "website" ;;
  unless emailFilled (fillTextByLabel (l_email L) (Some (email user)) "email") ;;
  unless phoneFilled (fillTextByLabel (l_phone L) (phone user) "phone") ;;
  unless salaryFilled (fillTextByLabel (l_salary L) (salary user) "salary") ;;
  unless linkedinFilled
    (fillTextByLabel (l_linkedin L) (Some (Js.orElse (linkedin user) "")) "linkedin") ;;
  unless githubFilled
    (fillTextByLabel (l_github L) (Some (Js.orElse (github user) "")) "github") ;;
  unless websiteFilled
    (fillTextByLabel (l_personalUrl L)
       (Some (Js.orElse (website user) (Js.orElse (linkedin user) ""))) "personalUrl") ;;
  if (negb linkedinFilled && Js.truthy (linkedin user))%bool then
    try_catch
      (count <- await (Count urlFields) ;;
       if positive count then
         await (Fill (First urlFields) (Js.orElse (linkedin user) "")) ;;
         log "fallback: filled LinkedIn URL in first URL field"
       else Ret tt)
      (fun _ => Ret tt)
  else Ret tt.

(** FILE UPLOAD *)
Definition uploadResume (L : Labels) (user : User) : Prog unit :=
  ignore (setFileByLabel (l_cv L) (Some (resumePath user)) "cv").

(** ADDITIONAL QUESTIONS & SELECTS *)
Definition fillAdditionalQuestions (L : Labels) (user : User) : Prog unit :=
  (if Js.truthy (gender user)
   then ignore (clickRadioByLabel (l_gender L) (gender user) "gender")
   else Ret tt) ;;
  selectByLabel (l_country L) (Some (Js.orElse (location user) "Germany")) "country" ;;
  selectByLabel (l_tax L) (Some (Js.orElse (taxResidence user) "Germany")) "tax" ;;
  let noticeValue := Js.orElse (noticePeriod user) "Immediate" in
  fillTextByLabel (l_notice L) (Some noticeValue) "notice" ;;
  let salaryValue := Js.orElse (salary user) "Flexible" in
  fillTextByLabel (l_salary L) (Some salaryValue) "salary" ;;
  ignore (fillTextByLabel (l_referred L) (Some (Js.orElse (referredBy user) "")) "referred").

Definition holdBannerText : string :=
  "EasyApply: Fill missing fields and submit. When done, CLOSE this tab to continue the batch.".

(** SUBMISSION & COMPLETION: answers the final [status] and [notes].  The
    assignment of [filled] before the banner is overwritten on every path
    that leaves this block normally. *)
Definition holdForReview : Prog (string * string) :=
  log "submit: form filled, user must manually submit and close tab" ;;
  showHoldBanner holdBannerText ;;
  try_catch
    (await WaitForClose ;;
     log "submit: tab closed by user, marking as submitted" ;;
     Ret ("submitted", "form submitted and tab closed by user"))
    (fun _ =>
       log "submit: error waiting for tab close" ;;
       Ret ("error", "error waiting for tab close")).

(** [error?.message || 'unknown error'] *)
Definition errorNotes (error : Exn) : string :=
  Js.orElse (message error) "unknown error".

(** The [catch] clause of the URL loop. *)
Definition reportError (meta : Meta) (error : Exn) : Prog (Meta * (string * string)) :=
  log ("[easyapply] ERROR: " ++ messageText error) ;;
  Ret (meta, ("error", errorNotes error)).

(** Everything between [extractMeta] and the end of the [try] block. *)
Definition fillAndHold (fuel : nat) (user : User) (meta : Meta) : Prog (string * string) :=
  log ("meta: company=" ++ q ++ m_company meta ++ q ++ " title=" ++ q ++ m_title meta ++ q
       ++ " source=" ++ m_source meta) ;;
  isStable <- waitForFormStability fuel defaultMaxWaitTime ;;
  (if isStable then Ret tt
   else log "form: form may still be loading, proceeding with current state") ;;
  debugFormFields ;;
  fillNameFields registry user ;;
  fillContactFields user ;;
  uploadResume FIELD_LABELS user ;;
  fillAdditionalQuestions FIELD_LABELS user ;;
  holdForReview.

(** The [try ... catch] of the URL loop.  The variable [meta] keeps what
    [extractMeta] assigned when a later statement throws, so the handler is
    written once for a throw before the assignment and once for a throw
    after it. *)
Definition attempt (fuel : nat) (rt : Runtime) (user : User) (url : string)
  : Prog (Meta * (string * string)) :=
  try_catch
    (await (Goto url) ;;
     await (WaitForTimeout 1200) ;;
     meta <- extractMeta rt ;;
     try_catch
       (outcome <- fillAndHold fuel user meta ;; Ret (meta, outcome))
       (reportError meta))
    (reportError defaultMeta).

(** One iteration of the URL loop around its [try ... catch]. *)
Definition processUrlWith (rt : Runtime) (user : User) (total jobNumber : nat)
           (url : string) (attempted : Prog (Meta * (string * string))) : Prog unit :=
  tsStart <- sync DateISO ;;
  let jobId := Js.take 12 (sha1Hex rt (url ++ tsStart)) in
  startTime <- sync DateNow ;;
  log (Js.chr Js.newline ++ "--- job " ++ Js.showNat jobNumber ++ "/" ++ Js.showNat total ++ " ---") ;;
  log ("nav: " ++ url) ;;
  result <- attempted ;;
  let meta := fst result in
  let status := fst (snd result) in
  let notes := snd (snd result) in
  tsEnd <- sync DateISO ;;
  endTime <- sync DateNow ;;
  let duration := secondsFixed1 rt (endTime - startTime) in
  appendCsv {| Csv.tsStart := tsStart; Csv.tsEnd := tsEnd; Csv.status := status;
               Csv.company := m_company meta; Csv.title := m_title meta;
               Csv.source := m_source meta; Csv.url := url;
               Csv.resume := resumePath user; Csv.notes := notes; Csv.jobId := jobId |} ;;
  log ("done: status=" ++ status ++ " duration=" ++ duration ++ "s").

Definition processUrl (fuel : nat) (rt : Runtime) (user : User)
           (total jobNumber : nat) (url : string) : Prog unit :=
  processUrlWith rt user total jobNumber url (attempt fuel rt user url).

Fixpoint urlLoop (step : nat -> string -> Prog unit) (i : nat) (urls : list string)
  : Prog unit :=
  match urls with
  | [] => Ret tt
  | url :: rest => step (S i) url ;; urlLoop step (S i) rest
  end.

Definition runBatch (fuel : nat) (rt : Runtime) (urls : list string) : Prog unit :=
  ensureOutFiles ;;
  user <- loadUser rt ;;
  await Launch ;;
  await NewContext ;;
  await NewPage ;;
  log ("batch: starting " ++ Js.showNat (length urls) ++ " URL(s)") ;;
  try_finally
    (urlLoop (processUrl fuel rt user (length urls)) 0 urls)
    (await CloseContext ;;
     await CloseBrowser ;;
     log "batch: finished").

(* ====================================================================== *)
(** * The auto-submit configuration of the runner *)
(* ====================================================================== *)

(** The revision of [server/runner.mjs] whose [runBatch(urls, options)]
    ends each URL with the submit step.  Its helpers are the ones above; its
    registry is smaller and it fills the contact fields by label only. *)
Module AutoSubmit.

(** The registry [L] of this revision; it has no [github] entry. *)
Definition L : Labels := {|
  l_firstName := ["First name"; "Given name"; "Vorname"; "Prénom"];
  l_lastName := ["Last name"; "Family name"; "Surname"; "Nachname"; "Nom"];
  l_fullName := ["Full name"; "Your full name"; "Name (full)"];
  l_phone := ["Phone"; "Phone number"; "Telefon"; "Téléphone"];
  l_email := ["Email"; "E-mail"; "Email address"; "E-Mail"];
  l_gender := ["Gender"; "Gender to which you identify as"; "Geschlecht"];
  l_personalUrl := ["Personal URL"; "Website"; "Portfolio"; "Personal site"; "Homepage"];
  l_cv := ["Curriculum vitae"; "CV"; "Resume"; "Lebenslauf"];
  l_country := ["What country do you currently live in"; "Country"; "Current country"];
  l_tax := ["Tax residence"; "Where is your tax residence"];
  l_notice := ["Notice period"; "What is your notice period"];
  l_salary := ["Salary expectations"; "What are your salary expectations"; "Salary (EUR)"];
  l_referred := ["Were you referred"; "Referral"; "Referred by"];
  l_linkedin := ["LinkedIn"; "LinkedIn profile"; "LinkedIn URL"];
  l_github := []
|}.

Definition FIRST_SELECTORS : list string :=
  [ "input[name*=first i]"; "input[id*=first i]"; "input[placeholder*=first i]" ].

Definition LAST_SELECTORS : list string :=
  [ "input[name*=last i]"; "input[id*=last i]"; "input[placeholder*=last i]" ].

Definition FULLNAME_STRICT : list string :=
  [ "input[autocomplete=" ++ q ++ "name" ++ q ++ "]";
    "input[name=" ++ q ++ "fullName" ++ q ++ "]";
    "input[id=" ++ q ++ "fullName" ++ q ++ "]";
    "input[name=" ++ q ++ "fullname" ++ q ++ "]";
    "input[id=" ++ q ++ "fullname" ++ q ++ "]";
    "input[placeholder*=" ++ q ++ "full name" ++ q ++ " i]";
    "input[aria-label*=" ++ q ++ "full name" ++ q ++ " i]" ].

Definition registry : Registry := {|
  labelsOf := L;
  firstSelectors := FIRST_SELECTORS;
  lastSelectors := LAST_SELECTORS;
  fullSelectors := FULLNAME_STRICT
|}.

(** Contact / Links *)
Definition fillContactFields (user : User) : Prog unit :=
  fillTextByLabel (l_email L) (Some (email user)) "email" ;;
  fillTextByLabel (l_phone L) (phone user) "phone" ;;
  fillTextByLabel (l_personalUrl L)
    (Some (Js.orElse (website user) (Js.orElse (linkedin user) ""))) "personalUrl" ;;
  ignore (fillTextByLabel (l_linkedin L) (Some (Js.orElse (linkedin user) "")) "linkedin").

Definition submit : Locator :=
  First (Css (Js.join ", "
    [ "button:has-text(" ++ q ++ "Apply" ++ q ++ ")";
      "button:has-text(" ++ q ++ "Submit" ++ q ++ ")";
      "button:has-text(" ++ q ++ "Bewerben" ++ q ++ ")";
      "button:has-text(" ++ q ++ "Absenden" ++ q ++ ")";
      "[role=button]:has-text(" ++ q ++ "Apply" ++ q ++ ")";
      "input[type=submit]" ])).

(** Submit step: answers [status] and [notes]; [notes] is still the
    empty string it was initialised with when the control is clicked. *)
Definition submitStep (autoSubmit : bool) : Prog (string * string) :=
  hasSubmit <- await (Count submit) ;;
  log ("submit: candidate present=" ++ Js.showBool (positive hasSubmit)
       ++ " autoSubmit=" ++ Js.showBool autoSubmit) ;;
  if (positive hasSubmit && autoSubmit)%bool then
    try_catch (await (Click submit)) (fun _ => Ret tt) ;;
    log "submit: clicked" ;;
    Ret ("clicked", "")
  else if (positive hasSubmit && negb autoSubmit)%bool then
    log "submit: skipped (autoSubmit disabled)" ;;
    Ret ("skipped", "autoSubmit=false")
  else
    log "submit: no obvious button found" ;;
    Ret ("skipped", "no submit button").

(** Everything between [extractMeta] and the end of the [try] block. *)
Definition fillAndSubmit (autoSubmit : bool) (user : User) (meta : Meta)
  : Prog (string * string) :=
  log ("meta: company=" ++ q ++ m_company meta ++ q ++ " title=" ++ q ++ m_title meta ++ q
       ++ " source=" ++ m_source meta) ;;
  fillNameFields registry user ;;
  fillContactFields user ;;
  uploadResume L user ;;
  fillAdditionalQuestions L user ;;
  submitStep autoSubmit.

Definition attempt (autoSubmit : bool) (rt : Runtime) (user : User) (url : string)
  : Prog (Meta * (string * string)) :=
  try_catch
    (await (Goto url) ;;
     await (WaitForTimeout 1200) ;;
     meta <- extractMeta rt ;;
     try_catch
       (outcome <- fillAndSubmit autoSubmit user meta ;; Ret (meta, outcome))
       (reportError meta))
    (reportError defaultMeta).

Definition processUrl (autoSubmit : bool) (rt : Runtime) (user : User)
           (total jobNumber : nat) (url : string) : Prog unit :=
  processUrlWith rt user total jobNumber url (attempt autoSubmit rt user url).

Definition runBatch (rt : Runtime) (urls : list string) (autoSubmit : bool) : Prog unit :=
  ensureOutFiles ;;
  user <- loadUser rt ;;
  await Launch ;;
  await NewContext ;;
  await NewPage ;;
  log ("batch: starting " ++ Js.showNat (length urls) ++ " URL(s), autoSubmit="
       ++ Js.showBool autoSubmit) ;;
  try_finally
    (urlLoop (processUrl autoSubmit rt user (length urls)) 0 urls)
    (await CloseContext ;;
     await CloseBrowser ;;
     log "batch: finished").

End AutoSubmit.

(* ====================================================================== *)
(** * Trace observations and a scripted driver for concrete runs *)
(* ====================================================================== *)

(** The counts that the polls of the stability detector received. *)
Fixpoint pollCounts (tr : list Event) : list nat :=
  match tr with
  | [] => []
  | ECall c r :: tr' =>
      match c as c0 return Result (Resp c0) -> list nat with
      | EvalFieldCount => fun r0 =>
          match r0 with
          | Ok n => n :: pollCounts tr'
          | Err _ => pollCounts tr'
          end
      | _ => fun _ => pollCounts tr'
      end r
  | _ :: tr' => pollCounts tr'
  end.

(** The lines appended to the CSV file. *)
Fixpoint appended (tr : list Event) : list string :=
  match tr with
  | [] => []
  | ECall (AppendFile _ line) _ :: tr' => line :: appended tr'
  | _ :: tr' => appended tr'
  end.

(** The stability polls and the pauses between them, in order. *)
Fixpoint pollsAndPauses (l : list Cmd) : list Cmd :=
  match l with
  | [] => []
  | EvalFieldCount :: l' => EvalFieldCount :: pollsAndPauses l'
  | WaitForTimeout ms :: l' => WaitForTimeout ms :: pollsAndPauses l'
  | _ :: l' => pollsAndPauses l'
  end.

Definition isCount (c : Cmd) : option Locator :=
  match c with
  | Count l => Some l
  | _ => None
  end.

(** The locators whose matches were counted, in order. *)
Fixpoint probes (l : list Cmd) : list Locator :=
  match l with
  | [] => []
  | c :: l' =>
      match isCount c with
      | Some loc => loc :: probes l'
      | None => probes l'
      end
  end.

Definition role_eqb (a b : Role) : bool :=
  match a, b with
  | Textbox, Textbox | Combobox, Combobox | Radio, Radio | Group, Group => true
  | _, _ => false
  end.

Fixpoint locator_eqb (a b : Locator) : bool :=
  match a, b with
  | Css x, Css y => String.eqb x y
  | ByLabel x, ByLabel y => String.eqb x y
  | ByRole r x, ByRole s y => role_eqb r s && String.eqb x y
  | Inside p c, Inside p' c' => locator_eqb p p' && locator_eqb c c'
  | First x, First y => locator_eqb x y
  | _, _ => false
  end.

(** Is locator [l] among the [cands]? *)
Definition among (cands : list Locator) (l : Locator) : bool :=
  existsb (locator_eqb l) cands.

(** A simulated world: a clock, the CSV file and the counts the next polls
    of the page will see (the last one repeats). *)
Record Sim := mkSim {
  sim_now : Z;
  sim_csv : option string;
  sim_counts : list nat
}.

(** A simulated page: which locators match something, and which calls
    reject.  Matches are visible; a pause advances the clock by its length. *)
Record Page := mkPage {
  page_matches : Locator -> nat;
  page_rejects : Cmd -> option Exn;
  page_data : PageData;
  page_url : string
}.

Definition nextCount (w : Sim) : nat * Sim :=
  match sim_counts w with
  | [] => (0, w)
  | [n] => (n, w)
  | n :: rest => (n, {| sim_now := sim_now w; sim_csv := sim_csv w; sim_counts := rest |})
  end.

Definition simAnswer (pg : Page) (c : Cmd) (w : Sim) : Sim * Result (Resp c) :=
  match page_rejects pg c with
  | Some e => (w, Err e)
  | None =>
      match c as c0 return Sim * Result (Resp c0) with
      | Mkdir _ => (w, Ok tt)
      | Access _ =>
          match sim_csv w with
          | Some _ => (w, Ok tt)
          | None => (w, Err (mkExn (Some "ENOENT: no such file or directory")))
          end
      | WriteFile _ content =>
          ({| sim_now := sim_now w; sim_csv := Some content; sim_counts := sim_counts w |}, Ok tt)
      | AppendFile _ content =>
          ({| sim_now := sim_now w;
              sim_csv := Some (Js.orElse (sim_csv w) "" ++ content);
              sim_counts := sim_counts w |}, Ok tt)
      | ReadFile _ => (w, Ok "{}")
      | Launch => (w, Ok tt)
      | NewContext => (w, Ok tt)
      | NewPage => (w, Ok tt)
      | CloseContext => (w, Ok tt)
      | CloseBrowser => (w, Ok tt)
      | Goto _ => (w, Ok tt)
      | WaitForTimeout ms =>
          ({| sim_now := (sim_now w + Z.max 0 ms)%Z; sim_csv := sim_csv w;
              sim_counts := sim_counts w |}, Ok tt)
      | PageFill _ _ => (w, Ok tt)
      | EvalMeta => (w, Ok (page_data pg))
      | EvalFieldCount => let '(n, w') := nextCount w in (w', Ok n)
      | EvalFormFields => (w, Ok [])
      | EvalHoldBanner _ => (w, Ok tt)
      | WaitForClose => (w, Ok tt)
      | Count l => (w, Ok (page_matches pg l))
      | IsVisible _ => (w, Ok true)
      | Fill _ _ => (w, Ok tt)
      | SelectOptionLabel _ _ => (w, Ok tt)
      | SelectOptionValue _ _ => (w, Ok tt)
      | PressSequentially _ _ => (w, Ok tt)
      | SetInputFiles _ _ => (w, Ok tt)
      | Check _ => (w, Ok tt)
      | Click _ => (w, Ok tt)
      end
  end.

Definition simObserve (pg : Page) (s : Sys) (w : Sim) : Sim * SysResp s :=
  match s as s0 return Sim * SysResp s0 with
  | DateNow => (w, sim_now w)
  | DateISO => (w, "2024-01-01T00:00:00.000Z")
  | PageUrl => (w, page_url pg)
  end.

Definition simDriver (pg : Page) : Driver Sim :=
  {| answer := simAnswer pg; observe := simObserve pg |}.

Definition emptyPage : Page := {|
  page_matches := fun _ => 0;
  page_rejects := fun _ => None;
  page_data := {| pd_title := "Engineer"; pd_siteName := None; pd_company := Some "Acme" |};
  page_url := "https://boards.greenhouse.io/acme/jobs/1"
|}.

(** A page on which exactly the locators [cands] match one element. *)
Definition pageWith (cands : list Locator) : Page := {|
  page_matches := fun l => if among cands l then 1 else 0;
  page_rejects := fun _ => None;
  page_data := page_data emptyPage;
  page_url := page_url emptyPage
|}.

Definition sim0 : Sim := {| sim_now := 0; sim_csv := None; sim_counts := [] |}.

Definition simRuntime : Runtime := {|
  sha1Hex := fun _ => "da39a3ee5e6b4b0d3255bfef95601890afd80709";
  urlHostname := fun u =>
    if Js.startsWith "https://" u
    then Ok (Js.take 20 (Js.drop 8 u))
    else Err (mkExn (Some "Invalid URL"));
  parseUserJson := fun _ => Err (mkExn (Some "Unexpected end of JSON input"));
  resolvePath := fun p => p;
  secondsFixed1 := fun ms => Js.showZ (ms / 1000)
|}.

Definition noExtras : Extras := {|
  x_phone := None; x_linkedin := None; x_github := None; x_website := None;
  x_gender := None; x_location := None; x_taxResidence := None;
  x_noticePeriod := None; x_salary := None; x_referredBy := None
|}.

Definition jane : User := {|
  firstName := "Jane"; lastName := "Doe"; email := "a@b.com";
  resumePath := "config/resume.pdf"; extras := noExtras
|}.

Definition firstInput : Locator := First (Css "input[name*=first i]").
Definition lastInput : Locator := First (Css "input[name*=last i]").
Definition fullInput : Locator := First (Css ("input[autocomplete=" ++ q ++ "name" ++ q ++ "]")).

(** A world whose page shows the given field counts to successive polls. *)
Definition simCounts (counts : list nat) : Sim :=
  {| sim_now := 0; sim_csv := None; sim_counts := counts |}.

Definition defaultsControls : list Locator :=
  [ByLabel "What country do you currently live in"; ByLabel "Tax residence";
   ByLabel "Notice period"; ByLabel "Salary expectations"].

Definition defaultsPage : Page := pageWith defaultsControls.

(* ====================================================================== *)
(** * Properties of program trees *)
(* ====================================================================== *)

(** Every call the program can make satisfies [P]. *)
Inductive Uses (P : Cmd -> Prop) {A : Type} : Prog A -> Prop :=
| Uses_Ret : forall a, Uses P (Ret a)
| Uses_Throw : forall e, Uses P (Throw e)
| Uses_Stuck : Uses P Stuck
| Uses_Await : forall c k, P c -> (forall r, Uses P (k r)) -> Uses P (Await c k)
| Uses_Sync : forall s k, (forall r, Uses P (k r)) -> Uses P (Sync s k)
| Uses_Log : forall msg k, Uses P k -> Uses P (Log msg k).

(** The program never runs out of its iteration bound. *)
Inductive Bounded {A : Type} : Prog A -> Prop :=
| Bounded_Ret : forall a, Bounded (Ret a)
| Bounded_Throw : forall e, Bounded (Throw e)
| Bounded_Await : forall c k, (forall r, Bounded (k r)) -> Bounded (Await c k)
| Bounded_Sync : forall s k, (forall r, Bounded (k r)) -> Bounded (Sync s k)
| Bounded_Log : forall msg k, Bounded k -> Bounded (Log msg k).

(** The program always returns: no exception escapes it. *)
Inductive Returns {A : Type} : Prog A -> Prop :=
| Returns_Ret : forall a, Returns (Ret a)
| Returns_Await : forall c k, (forall r, Returns (k r)) -> Returns (Await c k)
| Returns_Sync : forall s k, (forall r, Returns (k r)) -> Returns (Sync s k)
| Returns_Log : forall msg k, Returns k -> Returns (Log msg k).

Definition notWrite (c : Cmd) : Prop := isWrite c = false.

Definition notAppend (c : Cmd) : Prop :=
  match c with
  | AppendFile _ _ => False
  | _ => True
  end.

(** A clock for the worlds of a driver: [Date.now()] reads it, nothing
    turns it back and a pause that resolves advances it by its length. *)
Record Timed {W : Type} (d : Driver W) (time : W -> Z) : Prop := mkTimed {
  now_reads : forall w, snd (observe d DateNow w) = time w;
  sync_mono : forall s w, (time w <= time (fst (observe d s w)))%Z;
  call_mono : forall c w, (time w <= time (fst (answer d c w)))%Z;
  pause_advances : forall ms w w',
      answer d (WaitForTimeout ms) w = (w', Ok tt) ->
      (time w + ms <= time w')%Z
}.

(** Appending to the log file succeeds. *)
Definition AppendsSucceed {W : Type} (d : Driver W) : Prop :=
  forall path line w, snd (answer d (AppendFile path line) w) = Ok tt.

(** Four equal counts in a row somewhere in the list. *)
Fixpoint hasEqualRun4 (l : list nat) : bool :=
  match l with
  | a :: t =>
      match t with
      | b :: c :: d :: _ =>
          (Nat.eqb a b && Nat.eqb b c && Nat.eqb c d) || hasEqualRun4 t
      | _ => false
      end
  | [] => false
  end.

(** Three equal counts in a row somewhere in the list. *)
Fixpoint hasEqualRun3 (l : list nat) : bool :=
  match l with
  | a :: t =>
      match t with
      | b :: c :: _ => (Nat.eqb a b && Nat.eqb b c) || hasEqualRun3 t
      | _ => false
      end
  | [] => false
  end.

(** What the reader does when a cell is complete and [tail] follows. *)
Definition afterCell (cur : string) (cells : list string) (tail : string)
  : option (list string * string) :=
  match tail with
  | EmptyString => Some ((cells ++ [cur])%list, EmptyString)
  | String c t =>
      if Ascii.eqb c Js.comma then Csv.readRecord Csv.FieldStart "" (cells ++ [cur])%list t
      else Some ((cells ++ [cur])%list, t)
  end.

(** [tail] is the end of the input or starts with a separator. *)
Definition delimited (tail : string) : Prop :=
  match tail with
  | EmptyString => True
  | String c _ => c = Js.comma \/ c = Js.newline
  end.


(** The file behind [CSV_PATH] as a driver may implement it: [csv w] is its
    content, [None] when it does not exist.  Creating the directory and
    probing the file leave it alone, the probe fails exactly when the file
    is absent, and a write that resolves replaces the content. *)
Record FileSystem {W : Type} (d : Driver W) (csv : W -> option string) : Prop :=
  mkFileSystem {
  fs_mkdir : forall path w, csv (fst (answer d (Mkdir path) w)) = csv w;
  fs_access_keeps : forall w, csv (fst (answer d (Access CSV_PATH) w)) = csv w;
  fs_access_absent : forall w,
      csv w = None -> exists e, snd (answer d (Access CSV_PATH) w) = Err e;
  fs_access_present : forall w,
      csv w <> None -> snd (answer d (Access CSV_PATH) w) = Ok tt;
  fs_write : forall content w,
      match answer d (WriteFile CSV_PATH content) w with
      | (w', Ok _) => csv w' = Some content
      | (w', Err _) => csv w' = csv w
      end
}.

Definition isWriteFile (c : Cmd) : bool :=
  match c with
  | WriteFile _ _ => true
  | _ => false
  end.

(** How often the file was (re)written from scratch. *)
Definition fileWrites (tr : list Event) : nat :=
  length (filter isWriteFile (calls tr)).

(** [p] run [n] times in a row. *)
Fixpoint times (n : nat) (p : Prog unit) : Prog unit :=
  match n with
  | O => Ret tt
  | S n' => p ;; times n' p
  end.

(** The status and notes the submit step decides on, from the number of
    submit-like controls found and the auto-submit flag. *)
Definition submitVerdict (found : nat) (autoSubmit : bool) : string * string :=
  if positive found then
    if autoSubmit then ("clicked", "") else ("skipped", "autoSubmit=false")
  else ("skipped", "no submit button").



(** [k] rounds of a poll followed by a pause of 500 ms, then [tail]. *)
Fixpoint pacing (k : nat) (tail : list Cmd) : list Cmd :=
  match k with
  | O => tail
  | S k' => EvalFieldCount :: WaitForTimeout 500 :: pacing k' tail
  end.

(** The values that [Date.now()] returned. *)
Fixpoint clockReadings (tr : list Event) : list Z :=
  match tr with
  | [] => []
  | ESync s r :: tr' =>
      match s as s0 return SysResp s0 -> list Z with
      | DateNow => fun now => now :: clockReadings tr'
      | _ => fun _ => clockReadings tr'
      end r
  | _ :: tr' => clockReadings tr'
  end.

(** What a finished run of the stability loop says about the counts it
    polled.  [previous] and [stable] are the loop variables at its start:
    the last [S stable] counts seen so far were all [previous]. *)
Definition stabilityPost (maxWaitTime startTime : Z) (previous stable : nat)
           (tr : list Event) (o : Outcome bool) : Prop :=
  let history := (repeat previous (S stable) ++ pollCounts tr)%list in
  match o with
  | Done true =>
      hasEqualRun4 history = true
      /\ hasEqualRun4 (removelast history) = false
      /\ exists k, pollsAndPauses (calls tr) = pacing k [EvalFieldCount]
  | Done false =>
      hasEqualRun4 history = false
      /\ (exists k, pollsAndPauses (calls tr) = pacing k [])
      /\ clockReadings tr <> []
      /\ (maxWaitTime <= last (clockReadings tr) startTime - startTime)%Z
  | _ => True
  end.

(** The locators that a [fill] resolved on. *)
Fixpoint okFills (tr : list Event) : list Locator :=
  match tr with
  | [] => []
  | ECall c r :: tr' =>
      match c as c0 return Result (Resp c0) -> list Locator with
      | Fill l _ => fun r0 =>
          match r0 with
          | Ok _ => l :: okFills tr'
          | Err _ => okFills tr'
          end
      | _ => fun _ => okFills tr'
      end r
  | _ :: tr' => okFills tr'
  end.

(** A probe of the accessible-label or accessible-role strategy. *)
Definition isLabelProbe (c : Cmd) : bool :=
  match c with
  | Count (ByLabel _) | Count (ByRole _ _) => true
  | _ => false
  end.

(** A probe of the structural-pattern strategy or of the nearby-text
    heuristic: the first match of a CSS or text selector. *)
Definition isSelectorProbe (c : Cmd) : bool :=
  match c with
  | Count (First (Css _)) => true
  | _ => false
  end.

Definition notLabelProbe (c : Cmd) : Prop := isLabelProbe c = false.
Definition notSelectorProbe (c : Cmd) : Prop := isSelectorProbe c = false.

(** The calls of the program satisfy [P1] up to some point and [P2] from
    there on. *)
Inductive TwoPhase (P1 P2 : Cmd -> Prop) {A : Type} : Prog A -> Prop :=
| TwoPhase_switch : forall p, Uses P2 p -> TwoPhase P1 P2 p
| TwoPhase_Await : forall c k,
    P1 c -> (forall r, TwoPhase P1 P2 (k r)) -> TwoPhase P1 P2 (Await c k)
| TwoPhase_Sync : forall s k,
    (forall r, TwoPhase P1 P2 (k r)) -> TwoPhase P1 P2 (Sync s k)
| TwoPhase_Log : forall msg k, TwoPhase P1 P2 k -> TwoPhase P1 P2 (Log msg k).

(** The structural locators of a generic field, in the order tried. *)
Definition structuralLocators (fieldType : string) : list Locator :=
  map (fun selector => First (Css selector))
      match GENERIC_SELECTORS fieldType with
      | Some l => l
      | None => []
      end.

(** The position of the first occurrence of [x]. *)
Fixpoint indexOf (x : Locator) (l : list Locator) : option nat :=
  match l with
  | [] => None
  | y :: l' =>
      if locator_eqb x y then Some 0
      else match indexOf x l' with
           | Some i => Some (S i)
           | None => None
           end
  end.

(** The label [l] always matches at least one control on the page. *)
Definition Present {W : Type} (d : Driver W) (l : string) : Prop :=
  forall w, exists n, snd (answer d (Count (ByLabel l)) w) = Ok (S n).

(** Run against [d], the program never exhausts its iteration bound. *)
Definition Ends {W A : Type} (d : Driver W) (p : Prog A) : Prop :=
  forall w, outcome (run d p w) <> Diverged.

(** Run against [d], whatever the program returns satisfies [Q]. *)
Definition Yields {W A : Type} (d : Driver W) (p : Prog A) (Q : A -> Prop) : Prop :=
  forall w a, outcome (run d p w) = Done a -> Q a.

(** The [try] block of the URL loop of [runBatch] as one sequence: what
    [attempt] protects. *)
Definition tryBlock (fuel : nat) (rt : Runtime) (user : User) (url : string)
  : Prog (Meta * (string * string)) :=
  await (Goto url) ;;
  await (WaitForTimeout 1200) ;;
  meta <- extractMeta rt ;;
  outcome <- fillAndHold fuel user meta ;;
  Ret (meta, outcome).

(** The world in which the [try] block of a URL starts: the start stamps
    have been read. *)
Definition afterStamps {W : Type} (d : Driver W) (w : W) : W :=
  fst (observe d DateNow (fst (observe d DateISO w))).

(** The two ways the hold step ends without throwing. *)
Definition held (result : string * string) : Prop :=
  result = ("submitted", "form submitted and tab closed by user")
  \/ result = ("error", "error waiting for tab close").

(** A simulated page that is [emptyPage] except that the calls [bad]
    reject with the message [msg]. *)
Definition failingPage (bad : Cmd -> bool) (msg : string) : Page := {|
  page_matches := fun _ => 0;
  page_rejects := fun c => if bad c then Some (mkExn (Some msg)) else None;
  page_data := page_data emptyPage;
  page_url := page_url emptyPage
|}.

Definition isWaitForClose (c : Cmd) : bool :=
  match c with
  | WaitForClose => true
  | _ => false
  end.

Definition isGoto (c : Cmd) : bool :=
  match c with
  | Goto _ => true
  | _ => false
  end.

(** [guarded] does what [plain] does, except that an exception of [plain]
    may have been turned into the error result of the URL loop. *)
Definition Guarded {W : Type} (d : Driver W)
           (guarded plain : Prog (Meta * (string * string))) : Prop :=
  forall w,
    calls (trace (run d guarded w)) = calls (trace (run d plain w))
    /\ match outcome (run d plain w) with
       | Done x => outcome (run d guarded w) = Done x
       | Raised e =>
           outcome (run d guarded w) = Raised e
           \/ exists meta, outcome (run d guarded w) = Done (meta, ("error", errorNotes e))
       | Diverged => outcome (run d guarded w) = Diverged
       end.

(** [protected] is [plain] inside the [try ... catch] of the URL loop: it
    never throws, and an exception of [plain] has become status [error] with
    the notes of the exception. *)
Definition Protects {W : Type} (d : Driver W)
           (protected plain : Prog (Meta * (string * string))) : Prop :=
  forall w,
    calls (trace (run d protected w)) = calls (trace (run d plain w))
    /\ match outcome (run d plain w) with
       | Done x => outcome (run d protected w) = Done x
       | Raised e =>
           exists meta, outcome (run d protected w) = Done (meta, ("error", errorNotes e))
       | Diverged => outcome (run d protected w) = Diverged
       end.

(** The [try] block of the URL loop of the auto-submit revision as one
    sequence: what [AutoSubmit.attempt] protects. *)
Definition autoTryBlock (autoSubmit : bool) (rt : Runtime) (user : User) (url : string)
  : Prog (Meta * (string * string)) :=
  await (Goto url) ;;
  await (WaitForTimeout 1200) ;;
  meta <- extractMeta rt ;;
  outcome <- AutoSubmit.fillAndSubmit autoSubmit user meta ;;
  Ret (meta, outcome).

(** Run against [d], whatever the program returns satisfies [Q] together
    with the calls made on the way. *)
Definition YieldsT {W A : Type} (d : Driver W) (p : Prog A)
           (Q : list Cmd -> A -> Prop) : Prop :=
  forall w a, outcome (run d p w) = Done a -> Q (calls (trace (run d p w))) a.

Definition isSubmitClick (c : Cmd) : bool :=
  match c with
  | Click l => locator_eqb l AutoSubmit.submit
  | _ => false
  end.

Definition notSubmitClick (c : Cmd) : Prop := isSubmitClick c = false.

(** What a returned submit step says: its result is the verdict on some
    count of submit-like controls the page answered, and a [clicked] status
    comes with a click on the control. *)
Definition submitted {W : Type} (d : Driver W) (autoSubmit : bool)
           (made : list Cmd) (result : string * string) : Prop :=
  (exists w n, snd (answer d (Count AutoSubmit.submit) w) = Ok n
               /\ result = submitVerdict n autoSubmit)
  /\ (fst result = "clicked" -> In (Click AutoSubmit.submit) made).

(** A page with a button that reads Apply. *)
Definition applyPage : Page := pageWith [AutoSubmit.submit].

(* ====================================================================== *)
(** * Properties of every run of a program *)
(* ====================================================================== *)

(** [always p Q]: whatever the calls and the clock answer, the run of [p]
    ends with a trace and an outcome that satisfy [Q]. *)
Fixpoint always {A : Type} (p : Prog A) (Q : list Event -> Outcome A -> Prop) : Prop :=
  match p with
  | Ret a => Q [] (Done a)
  | Throw e => Q [] (Raised e)
  | Stuck => Q [] Diverged
  | Await c k => forall r, always (k r) (fun t o => Q (ECall c r :: t) o)
  | Sync s k => forall r, always (k r) (fun t o => Q (ESync s r :: t) o)
  | Log msg k => always k (fun t o => Q (ELog msg :: t) o)
  end.

Definition resolved {c : Cmd} (r : Result (Resp c)) : bool :=
  match r with
  | Ok _ => true
  | Err _ => false
  end.

(** The calls that resolved, in order. *)
Fixpoint okCalls (tr : list Event) : list Cmd :=
  match tr with
  | [] => []
  | ECall c r :: tr' => if resolved r then c :: okCalls tr' else okCalls tr'
  | _ :: tr' => okCalls tr'
  end.

(** The writes to the page that resolved, in order. *)
Definition okWrites (tr : list Event) : list Cmd := filter isWrite (okCalls tr).

(** A helper that answers [true] made exactly one write that resolved; one
    that answers [false] made none. *)
Definition firstSuccessWins (t : list Event) (o : Outcome bool) : Prop :=
  exists b, o = Done b /\ length (okWrites t) = if b then 1 else 0.

(** One round of a search loop: like [firstSuccessWins], and a round that
    throws has written nothing. *)
Definition roundWins (t : list Event) (o : Outcome bool) : Prop :=
  match o with
  | Done b => length (okWrites t) = if b then 1 else 0
  | Raised _ => okWrites t = []
  | Diverged => False
  end.

(* ====================================================================== *)
(** * Search order of the helpers *)
(* ====================================================================== *)

(** A page that does not change while it is looked at: every call is
    answered by [page], whatever happened before. *)
Definition staticDriver (page : forall c : Cmd, Result (Resp c)) : Driver unit :=
  {| answer := fun c w => (w, page c);
     observe := fun s w =>
       match s as s0 return unit * SysResp s0 with
       | DateNow => (w, 0%Z)
       | DateISO => (w, "")
       | PageUrl => (w, "")
       end |}.

(** Does [locator] match an element of [page] that counts as visible?  A
    count that fails is no match; a visibility check that fails counts as
    visible. *)
Definition shows (page : forall c : Cmd, Result (Resp c)) (locator : Locator) : bool :=
  match page (Count locator) with
  | Ok n =>
      positive n
      && match page (IsVisible locator) with
         | Ok isVisible => isVisible
         | Err _ => true
         end
  | Err _ => false
  end.

(** What one round of a search loop over locators leaves in the trace: one
    probe of the locator of the round, and a resolved fill of its first
    match exactly when the round answers [true]. *)
Definition probeRound (locator : Locator) (t : list Event) (o : Outcome bool) : Prop :=
  probes (calls t) = [locator]
  /\ match o with
     | Done true => okFills t = [First locator]
     | Done false | Raised _ => okFills t = []
     | Diverged => False
     end.

(** What a search loop over the locators [locs] leaves in the trace: the
    locators were probed in order up to the one whose fill resolved, or all
    of them when none did. *)
Definition probeLoop (locs : list Locator) (t : list Event) (o : Outcome bool) : Prop :=
  exists k,
    probes (calls t) = firstn k locs
    /\ match o with
       | Done true =>
           exists j l, k = S j /\ nth_error locs j = Some l /\ okFills t = [First l]
       | Done false => length locs <= k /\ okFills t = []
       | _ => False
       end.

(** The locators that [fillTextByLabel] tries, in order. *)
Definition textLocators (labels : list string) : list Locator :=
  (map ByLabel labels ++ map (ByRole Textbox) labels)%list.

(** The write that the code tries on an element before it falls back to
    [c], in [selectByLabel]. *)
Definition selectFallback (c : Cmd) : option Cmd :=
  match c with
  | SelectOptionValue l v => Some (SelectOptionLabel l v)
  | Fill (First (ByLabel x)) v => Some (SelectOptionValue (First (ByLabel x)) v)
  | PressSequentially l v => Some (Fill l v)
  | _ => None
  end.

(** The same in [clickRadioByLabel]. *)
Definition radioFallback (c : Cmd) : option Cmd :=
  match c with
  | Click l => Some (Check l)
  | _ => None
  end.

Definition rejectedCall (c : Cmd) (ev : option Event) : Prop :=
  exists e, ev = Some (ECall c (Err e)).

(** Every fallback call of the trace comes directly after the call it
    falls back from, and that call was rejected.  [prev] is the event before
    the trace. *)
Fixpoint afterFailure (fallback : Cmd -> option Cmd) (prev : option Event)
         (tr : list Event) : Prop :=
  match tr with
  | [] => True
  | ev :: tr' =>
      match ev with
      | ECall c _ =>
          match fallback c with
          | Some preferred => rejectedCall preferred prev
          | None => True
          end
      | _ => True
      end
      /\ afterFailure fallback (Some ev) tr'
  end.

(** A piece of trace that satisfies [afterFailure] wherever it is put. *)
Definition escalates (fallback : Cmd -> option Cmd) (t : list Event) : Prop :=
  forall prev, afterFailure fallback prev t.

(** What [findFirstVisibleSelector] leaves in the trace: no write, the
    selectors probed in order up to the one it answers, or all of them when
    it answers [null]. *)
Definition selectorSearch (selectors : list string) (t : list Event)
           (o : Outcome (option string)) : Prop :=
  writes t = []
  /\ exists k,
      probes (calls t) = map (fun s => First (Css s)) (firstn k selectors)
      /\ match o with
         | Done None => length selectors <= k
         | Done (Some s) => exists j, k = S j /\ nth_error selectors j = Some s
         | _ => False
         end.

(* ====================================================================== *)
(** * Configuration, metadata and the debug listing *)
(* ====================================================================== *)

(** The required keys of the profile, in the order [loadUser] checks them. *)
Definition requiredFields : list string :=
  ["firstName"; "lastName"; "email"; "resumePath"].

(** [userConfig[field]] for a required key. *)
Definition rawField (userConfig : RawUser) (field : string) : option string :=
  if String.eqb field "firstName" then raw_firstName userConfig
  else if String.eqb field "lastName" then raw_lastName userConfig
  else if String.eqb field "email" then raw_email userConfig
  else if String.eqb field "resumePath" then raw_resumePath userConfig
  else None.

(** The first required key whose value is missing or empty. *)
Definition firstMissing (userConfig : RawUser) : option string :=
  find (fun field => negb (Js.truthy (rawField userConfig field))) requiredFields.

(** The error that [loadUser] throws for a missing key. *)
Definition missingField (field : string) : Exn :=
  mkExn (Some ("Missing required field " ++ q ++ field ++ q ++ " in " ++ CONFIG_PATH)).

(** The revisions of the runner before [getJobBoardSource] and the search
    text of [debugFormFields] were introduced. *)
Module Previous.

(** The source of a host as [extractMeta] computed it inline. *)
Definition sourceOfHost (host : string) : string :=
  if Js.includes host "greenhouse.io" then "Greenhouse"
  else if Js.includes host "lever.co" then "Lever"
  else if Js.includes host "myworkdayjobs" then "Workday"
  else if (Js.includes host "personio" || Js.includes host "join.com")%bool then "Personio"
  else if Js.includes host "smartrecruiters" then "SmartRecruiters"
  else if Js.includes host "linkedin.com" then "LinkedIn"
  else "Other".

(** The filter of [debugFormFields]: one test per attribute. *)
Definition matchesType (fieldType : string) (field : FieldInfo) : bool :=
  (Js.includes (Js.toLowerCase (fi_name field)) fieldType
   || Js.includes (Js.toLowerCase (fi_id field)) fieldType
   || Js.includes (Js.toLowerCase (fi_placeholder field)) fieldType
   || Js.includes (Js.toLowerCase (fi_label field)) fieldType
   || Js.includes (Js.toLowerCase (fi_ariaLabel field)) fieldType
   || Js.includes (Js.toLowerCase (fi_dataField field)) fieldType
   || Js.includes (Js.toLowerCase (fi_dataName field)) fieldType)%bool.

Definition detectFields (fields : list FieldInfo) : list (string * list FieldInfo) :=
  flat_map
    (fun fieldType =>
       match filter (matchesType fieldType) fields with
       | [] => []
       | matchingFields => [(fieldType, matchingFields)]
       end)
    commonFieldTypes.

End Previous.

(** Does the string hold a space? *)
Fixpoint hasSpace (s : string) : bool :=
  match s with
  | EmptyString => false
  | String c s' => Ascii.eqb c " "%char || hasSpace s'
  end.

(** The company that [extractMeta] settles on. *)
Definition companyOf (pageData : PageData) (hostname : string) : string :=
  if Js.truthy (pd_company pageData) then Js.orElse (pd_company pageData) ""
  else if Js.truthy (pd_siteName pageData) then Js.orElse (pd_siteName pageData) ""
  else Js.stripWww hostname.

(* ====================================================================== *)
(** * The time budget of the stability detector *)
(* ====================================================================== *)

Definition isPoll (c : Cmd) : bool :=
  match c with
  | EvalFieldCount => true
  | _ => false
  end.

(** How often the page was asked for its number of fields. *)
Definition polls (tr : list Event) : nat := length (filter isPoll (calls tr)).

(* ====================================================================== *)
(** * The log file as a whole *)
(* ====================================================================== *)

(** The names of the columns, as the header written by [ensureOutFiles]
    lists them. *)
Definition headerCells : list string :=
  [ "version"; "timestamp_start"; "timestamp_end"; "status"; "company"; "job_title";
    "source"; "url"; "resume_used"; "notes"; "job_id" ].

(** Reads the records of a file one after the other with the reader of the
    format; [fuel] bounds their number. *)
Fixpoint readRecords (fuel : nat) (input : string) : option (list (list string)) :=
  match fuel with
  | O => None
  | S fuel' =>
      match input with
      | EmptyString => Some []
      | _ =>
          match Csv.readRecord Csv.FieldStart "" [] input with
          | Some (cells, rest) =>
              match readRecords fuel' rest with
              | Some records => Some (cells :: records)
              | None => None
              end
          | None => None
          end
      end
  end.

(** A file has fewer records than characters. *)
Definition readFile (input : string) : option (list (list string)) :=
  readRecords (S (String.length input)) input.

(** The lines of a file put together. *)
Definition joinLines (lines : list string) : string := fold_right append "" lines.

(** What a call does to the file behind [CSV_PATH] when it resolves
    ([ok]): [writeFile] replaces its content, [appendFile] adds to it and
    creates the file when it is absent. *)
Definition fileStep (c : Cmd) (ok : bool) (content : option string) : option string :=
  match c with
  | WriteFile path text =>
      if (ok && String.eqb path CSV_PATH)%bool then Some text else content
  | AppendFile path text =>
      if (ok && String.eqb path CSV_PATH)%bool
      then Some (Js.orElse content "" ++ text)
      else content
  | _ => content
  end.

(** The content of the file after the calls of a trace. *)
Fixpoint fileAfter (content : option string) (tr : list Event) : option string :=
  match tr with
  | [] => content
  | ECall c r :: tr' => fileAfter (fileStep c (resolved r) content) tr'
  | _ :: tr' => fileAfter content tr'
  end.

Definition isAbsent (content : option string) : bool :=
  match content with
  | None => true
  | Some _ => false
  end.

Definition isFileChange (c : Cmd) : bool :=
  match c with
  | WriteFile _ _ | AppendFile _ _ => true
  | _ => false
  end.

(** A driver that keeps the log file as Node does: [csv w] is the content
    of the file behind [CSV_PATH] in world [w], [None] when the file is
    absent.  A write that resolves replaces the content, an append that
    resolves adds to it and creates the file when it is absent, a call that
    is rejected and any other call leave it alone, and probing the file
    fails exactly when it is absent. *)
Record LogStore {W : Type} (d : Driver W) (csv : W -> option string) : Prop :=
  mkLogStore {
  store_other : forall c w, isFileChange c = false -> csv (fst (answer d c w)) = csv w;
  store_write : forall text w,
      csv (fst (answer d (WriteFile CSV_PATH text) w))
      = if resolved (snd (answer d (WriteFile CSV_PATH text) w))
        then Some text else csv w;
  store_append : forall text w,
      csv (fst (answer d (AppendFile CSV_PATH text) w))
      = if resolved (snd (answer d (AppendFile CSV_PATH text) w))
        then Some (Js.orElse (csv w) "" ++ text) else csv w;
  store_sync : forall s w, csv (fst (observe d s w)) = csv w;
  store_access : forall w,
      resolved (snd (answer d (Access CSV_PATH) w)) = negb (isAbsent (csv w))
}.

(** The only file that is written or appended to is the log. *)
Definition logPathOnly (c : Cmd) : Prop :=
  match c with
  | WriteFile path _ | AppendFile path _ => path = CSV_PATH
  | _ => True
  end.

(** No file is written from scratch, and the only file appended to is the
    log. *)
Definition appendsOnly (c : Cmd) : Prop :=
  match c with
  | WriteFile _ _ => False
  | AppendFile path _ => path = CSV_PATH
  | _ => True
  end.

(** A profile that passes the check of [loadUser], and a runtime whose
    JSON parser answers it. *)
Definition janeRaw : RawUser := {|
  raw_firstName := Some "Jane"; raw_lastName := Some "Doe";
  raw_email := Some "a@b.com"; raw_resumePath := Some "config/resume.pdf";
  raw_extras := noExtras
|}.

Definition janeRuntime : Runtime := {|
  sha1Hex := sha1Hex simRuntime;
  urlHostname := urlHostname simRuntime;
  parseUserJson := fun _ => Ok janeRaw;
  resolvePath := resolvePath simRuntime;
  secondsFixed1 := secondsFixed1 simRuntime
|}.

Fixpoint isRadioOption (l : Locator) : bool :=
  match l with
  | ByRole Radio _ => true
  | Inside _ inner => isRadioOption inner
  | First l' => isRadioOption l'
  | _ => false
  end.

(** The calls that look at the form of the open page or fill it: no call
    to the file system or the browser session, no navigation, no hold banner
    or wait for the tab, and no click other than on a radio option. *)
Definition isFillStep (c : Cmd) : bool :=
  match c with
  | Mkdir _ | Access _ | WriteFile _ _ | AppendFile _ _ | ReadFile _
  | Launch | NewContext | NewPage | CloseContext | CloseBrowser | Goto _
  | EvalHoldBanner _ | WaitForClose => false
  | Click l => isRadioOption l
  | _ => true
  end.

Definition fillStep (c : Cmd) : Prop := isFillStep c = true.

(** The calls on the open page: the fill steps, the hold banner, the wait
    for the tab and any click. *)
Definition isPageCall (c : Cmd) : bool :=
  match c with
  | EvalHoldBanner _ | WaitForClose | Click _ => true
  | _ => isFillStep c
  end.

Definition pageCall (c : Cmd) : Prop := isPageCall c = true.

(** No click other than on a radio option. *)
Definition radioClicksOnly (c : Cmd) : Prop :=
  match c with
  | Click l => isRadioOption l = true
  | _ => True
  end.

(** The URLs that were navigated to, in order. *)
Fixpoint gotos (l : list Cmd) : list string :=
  match l with
  | [] => []
  | Goto url :: l' => url :: gotos l'
  | _ :: l' => gotos l'
  end.

Definition isSessionCall (c : Cmd) : bool :=
  match c with
  | Launch | NewContext | NewPage | CloseContext | CloseBrowser => true
  | _ => false
  end.

(** The calls that open and close the browser session, in order. *)
Definition sessionCalls (tr : list Event) : list Cmd := filter isSessionCall (calls tr).

(** The status values that the manual-review runner records. *)
Definition manualStatus (status : string) : Prop :=
  status = "submitted" \/ status = "error".

(** The status values that the auto-submit revision records. *)
Definition autoStatus (status : string) : Prop :=
  status = "clicked" \/ status = "skipped" \/ status = "error".

(** A row for [url] and the resume of [user] whose status satisfies
    [allowed]. *)
Definition rowFor (allowed : string -> Prop) (user : User) (url : string)
           (row : Csv.Row) : Prop :=
  Csv.url row = url /\ Csv.resume row = resumePath user /\ allowed (Csv.status row).

(** The lines that were appended to the log file: the appends that
    resolved. *)
Fixpoint logged (tr : list Event) : list string :=
  match tr with
  | [] => []
  | ECall c r :: tr' =>
      match c with
      | AppendFile path line =>
          if (resolved r && String.eqb path CSV_PATH)%bool
          then line :: logged tr'
          else logged tr'
      | _ => logged tr'
      end
  | _ :: tr' => logged tr'
  end.

(** What a run of [fillAndHold] leaves in the trace: fill steps, then at
    most the hold banner and the wait for the tab to close. *)
Definition holdLast (t : list Event) (o : Outcome (string * string)) : Prop :=
  exists pre tail,
    calls t = (pre ++ tail)%list
    /\ Forall fillStep pre
    /\ (tail = [] \/ tail = [EvalHoldBanner holdBannerText]
        \/ tail = [EvalHoldBanner holdBannerText; WaitForClose])
    /\ (forall x, o = Done x -> tail = [EvalHoldBanner holdBannerText; WaitForClose]).

(** The trace ends with an append to the log that was rejected with [e]. *)
Definition endsWithRejectedAppend (t : list Event) (e : Exn) : Prop :=
  exists t0 line, t = (t0 ++ [ECall (AppendFile CSV_PATH line) (Err e)])%list.

(** What the guarded [try] block of one URL leaves: one navigation, to
    the URL; nothing appended to the log; no exception; and a status that
    is [allowed]. *)
Definition attemptSpec (allowed : string -> Prop) (url : string)
           (t : list Event) (o : Outcome (Meta * (string * string))) : Prop :=
  gotos (calls t) = [url]
  /\ appended t = []
  /\ match o with
     | Done x => allowed (fst (snd x))
     | Raised _ => False
     | Diverged => True
     end.

(** What one round of the URL loop leaves: one navigation, one line
    handed to the log, which is a record of the URL, and an exception only
    when the append was rejected. *)
Definition stepSpec (allowed : string -> Prop) (user : User) (url : string)
           (t : list Event) (o : Outcome unit) : Prop :=
  gotos (calls t) = [url]
  /\ match o with
     | Done _ =>
         exists row, rowFor allowed user url row
                     /\ appended t = [Csv.csvLine row] /\ logged t = [Csv.csvLine row]
     | Raised e =>
         exists row, rowFor allowed user url row
                     /\ appended t = [Csv.csvLine row] /\ logged t = []
                     /\ endsWithRejectedAppend t e
     | Diverged => appended t = [] /\ logged t = []
     end.

(** What the URL loop leaves: the rows handed to the log, one per URL in
    the order of the URLs, all but possibly the last one appended. *)
Definition loopSpec (allowed : string -> Prop) (user : User) (urls : list string)
           (t : list Event) (o : Outcome unit) : Prop :=
  exists rows j,
    Forall (fun row => Csv.resume row = resumePath user /\ allowed (Csv.status row)) rows
    /\ appended t = map Csv.csvLine rows
    /\ map Csv.url rows = firstn (length rows) urls
    /\ logged t = map Csv.csvLine (firstn j rows)
    /\ match o with
       | Done _ =>
           gotos (calls t) = urls /\ length rows = length urls /\ logged t = appended t
       | Raised e =>
           endsWithRejectedAppend t e /\ gotos (calls t) = firstn (length rows) urls
           /\ 1 <= length rows
       | Diverged =>
           gotos (calls t) = firstn (S (length rows)) urls /\ length rows < length urls
       end.

(** Whatever the program returns satisfies [R]. *)
Definition result {A : Type} (R : A -> Prop) (t : list Event) (o : Outcome A) : Prop :=
  forall a, o = Done a -> R a.

(** Neither a navigation nor an append to the log. *)
Definition quietCall (c : Cmd) : Prop :=
  match c with
  | Goto _ | AppendFile _ _ => False
  | _ => True
  end.

(** What a whole batch leaves: the URLs visited in order, and the rows
    handed to the log, one per URL visited, in the same order. *)
Definition batchSpec (allowed : string -> Prop) (urls : list string)
           (t : list Event) (o : Outcome unit) : Prop :=
  (exists k, gotos (calls t) = firstn k urls)
  /\ exists rows j,
      Forall (fun row => allowed (Csv.status row)) rows
      /\ appended t = map Csv.csvLine rows
      /\ map Csv.url rows = firstn (length rows) urls
      /\ logged t = map Csv.csvLine (firstn j rows)
      /\ (forall a, o = Done a ->
                    gotos (calls t) = urls /\ length rows = length urls
                    /\ logged t = appended t).

Definition notSession (c : Cmd) : Prop := isSessionCall c = false.

(** Neither a session call nor a navigation. *)
Definition quietSession (c : Cmd) : Prop :=
  match c with
  | Goto _ => False
  | _ => isSessionCall c = false
  end.

(** What a batch does with the browser session.  When the page was
    opened and the run ended, the context was closed, and the browser after
    it unless closing the context was rejected, in which case that error is
    the one thrown.  When the page was not opened, nothing was closed. *)
Definition sessionSpec (t : list Event) (o : Outcome unit) : Prop :=
  (In NewPage (okCalls t) -> o <> Diverged ->
   (In CloseContext (okCalls t)
    /\ sessionCalls t = [Launch; NewContext; NewPage; CloseContext; CloseBrowser])
   \/ (sessionCalls t = [Launch; NewContext; NewPage; CloseContext]
       /\ exists e, o = Raised e /\ In (ECall CloseContext (Err e)) t))
  /\ (~ In NewPage (okCalls t) ->
      sessionCalls t = [] \/ sessionCalls t = [Launch]
      \/ sessionCalls t = [Launch; NewContext]
      \/ sessionCalls t = [Launch; NewContext; NewPage])
  /\ (forall url, In (Goto url) (calls t) -> In NewPage (okCalls t)).

(** A click on anything other than a radio option. *)
Definition isButtonClick (c : Cmd) : bool :=
  match c with
  | Click l => negb (isRadioOption l)
  | _ => false
  end.

Definition buttonClicks (t : list Event) : list Cmd := filter isButtonClick (calls t).

(** The clicks of the auto-submit revision: on a radio option, or on the
    submit control when the flag is set. *)
Definition allowedClick (autoSubmit : bool) (c : Cmd) : Prop :=
  match c with
  | Click l => isRadioOption l = true \/ (autoSubmit = true /\ l = AutoSubmit.submit)
  | _ => True
  end.

Definition atMostOneButton {A : Type} (t : list Event) (o : Outcome A) : Prop :=
  length (buttonClicks t) <= 1.

Definition oncePerVisit {A : Type} (t : list Event) (o : Outcome A) : Prop :=
  length (buttonClicks t) <= length (gotos (calls t)).

(* ====================================================================== *)
(** * The web server and the page that posts to it *)
(* ====================================================================== *)

(** [server/server.mjs] keeps one flag, [running], and one handler,
    [app.post('/jobs', ...)], which starts a batch of the runner;
    [client/app.js] is the click handler of the page that posts the lines of
    a textarea to it.  Both normalise the list of URLs with
    [String.prototype.trim] and [filter(Boolean)].  A string holds the UTF-8
    bytes of its text, so a white-space character of ECMAScript is one, two
    or three bytes long. *)

Module Web.

Definition code (c : ascii) : nat := nat_of_ascii c.

(** TAB, LF, VT, FF, CR and SPACE. *)
Definition space1 (a : ascii) : bool :=
  ((9 <=? code a)%nat && (code a <=? 13)%nat) || (code a =? 32)%nat.

(** U+00A0, the no-break space. *)
Definition space2 (a b : ascii) : bool :=
  (code a =? 194)%nat && (code b =? 160)%nat.

(** U+1680, U+2000 to U+200A, U+2028, U+2029, U+202F, U+205F, U+3000 and
    U+FEFF: the other space separators, the line and paragraph separators
    and the byte order mark. *)
Definition space3 (a b c : ascii) : bool :=
  ((code a =? 225)%nat && (code b =? 154)%nat && (code c =? 128)%nat)
  || ((code a =? 226)%nat && (code b =? 128)%nat
      && (((128 <=? code c)%nat && (code c <=? 138)%nat)
          || (code c =? 168)%nat || (code c =? 169)%nat || (code c =? 175)%nat))
  || ((code a =? 226)%nat && (code b =? 129)%nat && (code c =? 159)%nat)
  || ((code a =? 227)%nat && (code b =? 128)%nat && (code c =? 128)%nat)
  || ((code a =? 239)%nat && (code b =? 187)%nat && (code c =? 191)%nat).

(** Drops the white space a string starts with.  With [back] the string is
    read from its end, so the bytes of a character come in reverse. *)
Fixpoint trimLead (back : bool) (s : string) : string :=
  match s with
  | String a s1 =>
      if space1 a then trimLead back s1
      else
        match s1 with
        | String b s2 =>
            if (if back then space2 b a else space2 a b) then trimLead back s2
            else
              match s2 with
              | String c s3 =>
                  if (if back then space3 c b a else space3 a b c)
                  then trimLead back s3
                  else s
              | EmptyString => s
              end
        | EmptyString => s
        end
  | EmptyString => s
  end.

(** Does the string start with a white-space character? *)
Definition headSpace (back : bool) (s : string) : bool :=
  match s with
  | String a s1 =>
      space1 a
      || match s1 with
         | String b s2 =>
             (if back then space2 b a else space2 a b)
             || match s2 with
                | String c _ => if back then space3 c b a else space3 a b c
                | EmptyString => false
                end
         | EmptyString => false
         end
  | EmptyString => false
  end.

Definition reverse (s : string) : string :=
  string_of_list_ascii (rev (list_ascii_of_string s)).

Definition trimStart (s : string) : string := trimLead false s.

Definition trimEnd (s : string) : string := reverse (trimLead true (reverse s)).

(** [s.trim()] *)
Definition trim (s : string) : string := trimEnd (trimStart s).

Definition CR : ascii := "013"%char.
Definition LF : ascii := "010"%char.

(** [s.split(/\r?\n/)]: the pieces between the line feeds, without the
    carriage return that stands right before a line feed. *)
Fixpoint splitLines (s : string) : list string :=
  match s with
  | EmptyString => [""]
  | String c s1 =>
      if Ascii.eqb c LF then "" :: splitLines s1
      else
        let keep :=
          match splitLines s1 with
          | piece :: pieces => String c piece :: pieces
          | [] => [String c ""]
          end in
        match s1 with
        | String c2 s2 =>
            if (Ascii.eqb c CR && Ascii.eqb c2 LF)%bool then "" :: splitLines s2 else keep
        | EmptyString => keep
        end
  end.

(** [list.filter(Boolean)] on strings. *)
Definition filterBoolean (l : list string) : list string :=
  filter (fun s => negb (Js.isEmpty s)) l.

#[local] Set Warnings "-register-all".

(** A value that [JSON.parse] gives.  A number is held by the text that
    [String] gives for it; an object by its own keys. *)
Inductive Json : Type :=
| JNull
| JBool (b : bool)
| JNum (shown : string)
| JStr (s : string)
| JArr (items : list Json)
| JObj (fields : list (string * Json)).

Fixpoint lookup (key : string) (fields : list (string * Json)) : option Json :=
  match fields with
  | [] => None
  | (k, v) :: rest => if String.eqb k key then Some v else lookup key rest
  end.

(** [body?.urls], where [None] is [undefined]. *)
Definition urlsOf (body : option Json) : option Json :=
  match body with
  | Some (JObj fields) => lookup "urls" fields
  | _ => None
  end.

Definition TYPE_ERROR : Exn := mkExn (Some "Cannot convert object to primitive value").

Definition hasKey (key : string) (fields : list (string * Json)) : bool :=
  match lookup key fields with Some _ => true | None => false end.

(** The first exception of a list of results, or all their values. *)
Fixpoint sequence {A : Type} (l : list (Result A)) : Result (list A) :=
  match l with
  | [] => Ok []
  | Err e :: _ => Err e
  | Ok a :: rest =>
      match sequence rest with
      | Ok l' => Ok (a :: l')
      | Err e => Err e
      end
  end.

(** [String(u)].  An array is joined with commas, where [null] gives the
    empty string; an object gives [[object Object]] through
    [Object.prototype.toString], unless it has a key [toString] of its own:
    no parsed value can be called, and the conversion throws a
    [TypeError]. *)
Fixpoint jsString (u : Json) : Result string :=
  match u with
  | JNull => Ok "null"
  | JBool b => Ok (Js.showBool b)
  | JNum shown => Ok shown
  | JStr s => Ok s
  | JArr items =>
      match sequence (map (fun x => match x with
                                    | JNull => Ok ""
                                    | _ => jsString x
                                    end) items) with
      | Ok parts => Ok (Js.join "," parts)
      | Err e => Err e
      end
  | JObj fields => if hasKey "toString" fields then Err TYPE_ERROR else Ok "[object Object]"
  end.

(** [Array.isArray(req.body?.urls)
       ? req.body.urls.map(u => String(u).trim()).filter(Boolean) : []] *)
Definition normalise (body : option Json) : Result (list string) :=
  match urlsOf body with
  | Some (JArr items) =>
      match sequence (map (fun u => match jsString u with
                                    | Ok s => Ok (trim s)
                                    | Err e => Err e
                                    end) items) with
      | Ok urls => Ok (filterBoolean urls)
      | Err e => Err e
      end
  | _ => Ok []
  end.

(** What [res.status(n).json(...)] sends: the status and the keys [ok],
    [error] and [count] of the body. *)
Record Response := mkResponse {
  res_status : nat;
  res_ok : bool;
  res_error : option string;
  res_count : option nat
}.

(** The state of the server: the flag, and the batches whose promise has
    not settled yet. *)
Record Server := mkServer {
  running : bool;
  pending : list (list string)
}.

Definition initial : Server := {| running := false; pending := [] |}.

(** [app.post('/jobs', async (req, res) => { ... })] *)
Definition postJobs (st : Server) (body : option Json) : Server * Response :=
  match normalise body with
  | Ok urls =>
      if (length urls =? 0)%nat then
        (st, mkResponse 400 false (Some "No URLs provided") None)
      else if running st then
        (st, mkResponse 409 false (Some "Batch already running. Try again later.") None)
      else
        ({| running := true; pending := (pending st ++ [urls])%list |},
         mkResponse 200 true None (Some (length urls)))
  | Err e =>
      (st, mkResponse 500 false (Some (Js.orElse (message e) "Unknown error")) None)
  end.

Fixpoint removeNth {A : Type} (n : nat) (l : list A) : list A :=
  match l, n with
  | [], _ => []
  | _ :: rest, O => rest
  | x :: rest, S n' => x :: removeNth n' rest
  end.

(** [.finally(() => { running = false; })], run when the promise of the
    batch at [n] settles, whether [runBatch] returned or threw. *)
Definition settled (n : nat) (st : Server) : option Server :=
  match nth_error (pending st) n with
  | Some _ => Some {| running := false; pending := removeNth n (pending st) |}
  | None => None
  end.

Inductive ServerEvent : Type :=
| Post (body : option Json)
| Settled (n : nat).

(** The server after a sequence of requests and settled batches, with the
    responses it has sent; [None] where a batch settles that is not
    pending. *)
Fixpoint serve (evs : list ServerEvent) (st : Server) : option (Server * list Response) :=
  match evs with
  | [] => Some (st, [])
  | Post body :: rest =>
      let '(st1, response) := postJobs st body in
      match serve rest st1 with
      | Some (st2, responses) => Some (st2, response :: responses)
      | None => None
      end
  | Settled n :: rest =>
      match settled n st with
      | Some st1 => serve rest st1
      | None => None
      end
  end.

(** At most one batch is pending, and the flag is set exactly then. *)
Definition oneBatch (st : Server) : Prop :=
  (running st = true /\ exists urls, pending st = [urls])
  \/ (running st = false /\ pending st = []).

(** A list as both ends leave it: no string is empty and none has white
    space at either end. *)
Definition clean (urls : list string) : Prop :=
  Forall (fun u => u <> "" /\ trim u = u) urls.

(** ** The page *)

(** [raw.split(/\r?\n/).map(s => s.trim()).filter(Boolean)] *)
Definition clientUrls (raw : string) : list string :=
  filterBoolean (map trim (splitLines raw)).

(** The string has no line feed. *)
Definition singleLine (u : string) : Prop := Js.includes u (Js.chr LF) = false.

(** The body that [express.json()] parses from
    [JSON.stringify({ urls })]. *)
Definition requestBody (urls : list string) : Json :=
  JObj [("urls", JArr (map JStr urls))].

(** The later page: [JSON.stringify({ urls, autoSubmit })]. *)
Definition requestBodyAutoSubmit (urls : list string) (autoSubmit : bool) : Json :=
  JObj [("urls", JArr (map JStr urls)); ("autoSubmit", JBool autoSubmit)].

(** [res.ok] of [fetch]: a status from 200 to 299. *)
Definition fetchOk (response : Response) : bool :=
  ((200 <=? res_status response)%nat && (res_status response <=? 299)%nat)%bool.

(** The text the page shows when the response has arrived, where
    [statusText] is the reason phrase of the response. *)
Definition statusAfter (statusText : string) (response : Response) : string :=
  if (negb (fetchOk response) || negb (res_ok response))%bool then
    "Error: " ++ Js.orElse (res_error response) statusText
  else
    "Batch started for "
      ++ match res_count response with
         | Some n => Js.showNat n
         | None => "undefined"
         end
      ++ " URL(s). Check the browser window.".

(** The two pages: the first sends the URLs, the later one the state of
    its check box as well. *)
Inductive Client : Type :=
| FirstPage
| AutoSubmitPage (checked : bool).

Definition bodyOf (page : Client) (urls : list string) : Json :=
  match page with
  | FirstPage => requestBody urls
  | AutoSubmitPage checked => requestBodyAutoSubmit urls checked
  end.

(** ** From the page to the server *)

Definition backslash : ascii := ascii_of_nat 92.

Definition hexDigit (n : nat) : ascii :=
  if (n <? 10)%nat then ascii_of_nat (48 + n) else ascii_of_nat (87 + n).

(** One character of a string as [JSON.stringify] writes it. *)
Definition quoteChar (c : ascii) : string :=
  let n := code c in
  if Ascii.eqb c Js.quote then String backslash (Js.chr Js.quote)
  else if Ascii.eqb c backslash then String backslash (Js.chr backslash)
  else if (n =? 8)%nat then String backslash "b"
  else if (n =? 9)%nat then String backslash "t"
  else if (n =? 10)%nat then String backslash "n"
  else if (n =? 12)%nat then String backslash "f"
  else if (n =? 13)%nat then String backslash "r"
  else if (n <? 32)%nat then
    String backslash ("u00" ++ Js.chr (hexDigit (n / 16)) ++ Js.chr (hexDigit (n mod 16)))
  else Js.chr c.

Fixpoint quoteChars (s : string) : string :=
  match s with
  | EmptyString => EmptyString
  | String c s' => quoteChar c ++ quoteChars s'
  end.

Definition quoteJson (s : string) : string :=
  Js.chr Js.quote ++ quoteChars s ++ Js.chr Js.quote.

(** [JSON.stringify(value)] *)
Fixpoint stringify (value : Json) : string :=
  match value with
  | JNull => "null"
  | JBool b => Js.showBool b
  | JNum shown => shown
  | JStr s => quoteJson s
  | JArr items => "[" ++ Js.join "," (map stringify items) ++ "]"
  | JObj fields =>
      "{" ++ Js.join "," (map (fun field => quoteJson (fst field) ++ ":"
                                            ++ stringify (snd field)) fields) ++ "}"
  end.

(** [express.json({ limit: '1mb' })]: a body of more bytes is not parsed
    and the request is answered with status 413 by the error handler of
    Express, before the handler of [/jobs] is reached. *)
Definition BODY_LIMIT : nat := 1024 * 1024.

Definition tooLarge (body : Json) : bool :=
  (BODY_LIMIT <? String.length (stringify body))%nat.

(** What becomes of the request of [fetch]: it does not reach the server
    and [fetch] rejects; it is handled but the response does not arrive and
    [fetch] rejects; or it is handled and the response arrives. *)
Inductive Transport : Type :=
| Unreachable (message : string)
| ResponseLost (message : string)
| Delivered.

(** The server when a request with [body] arrives: the middleware, then
    the handler.  [None] is the answer 413, whose body is not JSON. *)
Definition receive (st : Server) (body : Json) : Server * option Response :=
  if tooLarge body then (st, None)
  else let '(st1, response) := postJobs st (Some body) in (st1, Some response).

(** The click handler against a server in state [st]: the state of the
    server afterwards and the text of the status line.  Nothing is sent when
    the textarea has no line that is not blank.  [statusText] is the reason
    phrase of the response and [parseError] the message with which
    [res.json()] rejects a body that is not JSON; a rejection of [fetch] or
    of [res.json()] ends in the [catch] clause. *)
Definition click (page : Client) (statusText parseError : string) (net : Transport)
           (raw : string) (st : Server) : Server * string :=
  let urls := clientUrls raw in
  if (length urls =? 0)%nat then (st, "No URLs found.")
  else
    match net with
    | Unreachable message => (st, "Network error: " ++ message)
    | ResponseLost message =>
        (fst (receive st (bodyOf page urls)), "Network error: " ++ message)
    | Delivered =>
        match receive st (bodyOf page urls) with
        | (st1, Some response) => (st1, statusAfter statusText response)
        | (st1, None) => (st1, "Network error: " ++ parseError)
        end
    end.

End Web.

(* ====================================================================== *)
(** * Profiles and forms for the examples *)
(* ====================================================================== *)

(** A profile that gives location, tax residence and salary and omits the
    notice period. *)
Definition noNotice : User := {|
  firstName := "Jane"; lastName := "Doe"; email := "a@b.com";
  resumePath := "config/resume.pdf";
  extras := {| x_phone := None; x_linkedin := None; x_github := None; x_website := None;
               x_gender := None; x_location := Some "Austria";
               x_taxResidence := Some "Austria"; x_noticePeriod := None;
               x_salary := Some "70000"; x_referredBy := None |}
|}.

(** The answers that the waits for the tab to close got, in order. *)
Fixpoint closeWaits (t : list Event) : list (Result unit) :=
  match t with
  | [] => []
  | ECall c r :: t' =>
      match c as c0 return Result (Resp c0) -> list (Result unit) with
      | WaitForClose => fun r0 => r0 :: closeWaits t'
      | _ => fun _ => closeWaits t'
      end r
  | _ :: t' => closeWaits t'
  end.

Definition notCloseWait (c : Cmd) : Prop := isWaitForClose c = false.

(** How the wait for the tab to close decides what a block returns: the
    block waits at most once, returns [submitted] when the wait resolved and
    [error] with the fixed notes when it was rejected, and does not return at
    all when it never came to wait. *)
Definition closeDecides {A : Type} (get : A -> string * string)
           (t : list Event) (o : Outcome A) : Prop :=
  match closeWaits t with
  | [] => forall x, o <> Done x
  | [Ok _] => exists x, o = Done x
                        /\ get x = ("submitted", "form submitted and tab closed by user")
  | [Err _] => exists x, o = Done x /\ get x = ("error", "error waiting for tab close")
  | _ => False
  end.

(** The number of clicks on something other than a radio option before the
    first navigation and after each navigation, in the order of the
    navigations. *)
Fixpoint clicksPerVisit (l : list Cmd) : list nat :=
  match l with
  | [] => [0]
  | c :: l' =>
      let counts := clicksPerVisit l' in
      match c with
      | Goto _ => 0 :: counts
      | _ => if isButtonClick c then S (hd 0 counts) :: tl counts else counts
      end
  end.

(** No such click before the first navigation, and at most one after each
    navigation. *)
Definition oneClickPerVisit (t : list Event) : Prop :=
  hd 0 (clicksPerVisit (calls t)) = 0
  /\ Forall (fun n => n <= 1) (clicksPerVisit (calls t)).

(* ====================================================================== *)
(** * The contact block, field by field *)
(* ====================================================================== *)

(** The locators of the generic fill of a field: its structural patterns,
    then the nearby text, in the order tried. *)
Definition genericLocators (fieldType : string) : list Locator :=
  (structuralLocators fieldType ++ [nearbyInput fieldType])%list.

(** The six fields of the contact block: the field type of the generic
    fill, the labels of the label-based fallback and the value that the
    fallback is called with. *)
Definition contactFields (user : User) : list (string * list string * option string) :=
  let L := FIELD_LABELS in
  [ ("email", l_email L, Some (email user));
    ("phone", l_phone L, phone user);
    ("salary", l_salary L, salary user);
    ("linkedin", l_linkedin L, Some (Js.orElse (linkedin user) ""));
    ("github", l_github L, Some (Js.orElse (github user) ""));
    ("website", l_personalUrl L,
     Some (Js.orElse (website user) (Js.orElse (linkedin user) ""))) ].

(** Did a fill through a locator of the generic fill of the field
    resolve? *)
Definition filledGenerically (fieldType : string) (t : list Event) : bool :=
  existsb (among (genericLocators fieldType)) (okFills t).

(** A lookup by accessible label or by the role textbox with one of the
    [labels]. *)
Definition isLabelOf (labels : list string) (l : Locator) : bool :=
  match l with
  | ByLabel text | ByRole Textbox text => existsb (String.eqb text) labels
  | _ => false
  end.

(** Was a control looked up by one of the [labels]? *)
Definition labelProbed (labels : list string) (t : list Event) : bool :=
  existsb (isLabelOf labels) (probes (calls t)).

(** A call that neither fills through a generic locator of the field nor
    looks a control up by one of its labels. *)
Definition neutralFor (fieldType : string) (labels : list string) (c : Cmd) : Prop :=
  match c with
  | Fill l _ => among (genericLocators fieldType) l = false
  | Count l => isLabelOf labels l = false
  | _ => True
  end.

(** A call of the generic fill of the field. *)
Definition genericFor (fieldType : string) (labels : list string) (c : Cmd) : Prop :=
  match c with
  | Fill l _ => among (genericLocators fieldType) l = true
  | Count l => isLabelOf labels l = false
  | _ => isWrite c = false
  end.

Definition untouched (fieldType : string) (labels : list string) (t : list Event) : Prop :=
  filledGenerically fieldType t = false /\ labelProbed labels t = false.

(** The first of the labels was looked up, when there is a value to fill
    in. *)
Definition fallbackRan (labels : list string) (value : option string)
           (t : list Event) : Prop :=
  Js.truthy value = true ->
  forall first rest, labels = first :: rest -> In (ByLabel first) (probes (calls t)).

(** The label-based strategies are the fallback of the generic fill: they
    do not run for a field that was filled through a generic locator, and
    they do run for a field that was not. *)
Definition fallbackOnly (fieldType : string) (labels : list string) (value : option string)
           (t : list Event) : Prop :=
  (filledGenerically fieldType t = true -> labelProbed labels t = false)
  /\ (filledGenerically fieldType t = false -> fallbackRan labels value t).

(** The rest of the block after the generic fill of the field answered
    [filled]. *)
Definition afterGeneric (fieldType : string) (labels : list string) (value : option string)
           (filled : bool) (t : list Event) : Prop :=
  filledGenerically fieldType t = false
  /\ (filled = true -> labelProbed labels t = false)
  /\ (filled = false -> fallbackRan labels value t).

(* ====================================================================== *)
(** * The name fields on a page that does not change *)
(* ====================================================================== *)




(* ====================================================================== *)
(** * A form of input controls *)
(* ====================================================================== *)

(** An [input] element with the attributes that the name selectors look
    at, and whether it is visible. *)
Record Control := mkControl {
  c_name : option string;
  c_id : option string;
  c_placeholder : option string;
  c_autocomplete : option string;
  c_ariaLabel : option string;
  c_visible : bool
}.

Inductive Attr := AttrName | AttrId | AttrPlaceholder | AttrAutocomplete | AttrAriaLabel.

(** [[attr="text"]], [[attr*="text"]] and [[attr*=text i]]. *)
Inductive Operator := Equals | Contains | ContainsAnyCase.

(** An attribute selector [input[attr op text]]; [a_quoted] tells whether
    the text is written in quotes. *)
Record AttrSelector := mkAttrSelector {
  a_attr : Attr;
  a_operator : Operator;
  a_quoted : bool;
  a_text : string
}.

Definition attrName (a : Attr) : string :=
  match a with
  | AttrName => "name"
  | AttrId => "id"
  | AttrPlaceholder => "placeholder"
  | AttrAutocomplete => "autocomplete"
  | AttrAriaLabel => "aria-label"
  end.

(** The selector as the runner writes it. *)
Definition render (a : AttrSelector) : string :=
  "input[" ++ attrName (a_attr a)
  ++ match a_operator a with Equals => "=" | _ => "*=" end
  ++ (if a_quoted a then q ++ a_text a ++ q else a_text a)
  ++ match a_operator a with ContainsAnyCase => " i" | _ => "" end
  ++ "]".

Definition nameSelectorsOf (word camel snake : string) : list AttrSelector :=
  [ mkAttrSelector AttrName ContainsAnyCase false word;
    mkAttrSelector AttrId ContainsAnyCase false word;
    mkAttrSelector AttrPlaceholder ContainsAnyCase false word;
    mkAttrSelector AttrName Contains true camel;
    mkAttrSelector AttrId Contains true camel;
    mkAttrSelector AttrName Contains true snake;
    mkAttrSelector AttrId Contains true snake ].

Definition fullNameSelectors : list AttrSelector :=
  [ mkAttrSelector AttrAutocomplete Equals true "name";
    mkAttrSelector AttrName Equals true "fullName";
    mkAttrSelector AttrId Equals true "fullName";
    mkAttrSelector AttrName Equals true "fullname";
    mkAttrSelector AttrId Equals true "fullname";
    mkAttrSelector AttrPlaceholder ContainsAnyCase true "full name";
    mkAttrSelector AttrAriaLabel ContainsAnyCase true "full name";
    mkAttrSelector AttrName Contains true "full_name";
    mkAttrSelector AttrId Contains true "full_name" ].

(** The selectors of the three name lists, parsed. *)
Definition nameSelectors : list AttrSelector :=
  (nameSelectorsOf "first" "firstName" "first_name"
   ++ nameSelectorsOf "last" "lastName" "last_name"
   ++ fullNameSelectors)%list.

Definition parseSelector (selector : string) : option AttrSelector :=
  find (fun a => String.eqb (render a) selector) nameSelectors.

Definition attribute (a : Attr) (c : Control) : option string :=
  match a with
  | AttrName => c_name c
  | AttrId => c_id c
  | AttrPlaceholder => c_placeholder c
  | AttrAutocomplete => c_autocomplete c
  | AttrAriaLabel => c_ariaLabel c
  end.

(** Does the control match the attribute selector?  An attribute that is
    not there matches nothing. *)
Definition satisfies (a : AttrSelector) (c : Control) : bool :=
  match attribute (a_attr a) c with
  | None => false
  | Some v =>
      match a_operator a with
      | Equals => String.eqb v (a_text a)
      | Contains => Js.includes v (a_text a)
      | ContainsAnyCase => Js.includes (Js.toLowerCase v) (Js.toLowerCase (a_text a))
      end
  end.

(** Does the control match the selector?  Selectors other than those of
    the name lists match no control of the form. *)
Definition matchesSelector (selector : string) (c : Control) : bool :=
  match parseSelector selector with
  | Some a => satisfies a c
  | None => false
  end.

(** A form: its controls in document order, each with its current value. *)
Definition Form := list (Control * string).

(** [page.fill(selector, value)] and [locator.first().fill(value)]: the
    value of the first control that matches is replaced; the call is
    rejected when there is none or it is not visible. *)
Fixpoint fillFirst (selector value : string) (form : Form) : option Form :=
  match form with
  | [] => None
  | (c, old) :: rest =>
      if matchesSelector selector c
      then if c_visible c then Some ((c, value) :: rest) else None
      else option_map (cons (c, old)) (fillFirst selector value rest)
  end.

Definition firstMatch (selector : string) (form : Form) : option Control :=
  option_map fst (find (fun entry => matchesSelector selector (fst entry)) form).

Definition noElement : Exn := mkExn (Some "Timeout 30000ms exceeded.").

(** The calls of the name step answered by a form; every other call is
    answered as on a page without controls. *)
Definition formAnswer (c : Cmd) (form : Form) : Form * Result (Resp c) :=
  match c as c0 return Form * Result (Resp c0) with
  | Count (First (Css selector)) =>
      (form, Ok (match firstMatch selector form with Some _ => 1 | None => 0 end))
  | IsVisible (First (Css selector)) =>
      (form, Ok (match firstMatch selector form with
                 | Some control => c_visible control
                 | None => false
                 end))
  | PageFill selector value =>
      match fillFirst selector value form with
      | Some form' => (form', Ok tt)
      | None => (form, Err noElement)
      end
  | Fill (First (Css selector)) value =>
      match fillFirst selector value form with
      | Some form' => (form', Ok tt)
      | None => (form, Err noElement)
      end
  | c0 => (form, snd (simAnswer emptyPage c0 sim0))
  end.

Definition formDriver : Driver Form :=
  {| answer := formAnswer;
     observe := fun s form => (form, snd (simObserve emptyPage s sim0)) |}.


(* ====================================================================== *)
(** * Sanity checks of the embedding on concrete inputs *)
(* ====================================================================== *)

Example escape_plain : Csv.escapeCsvValue "abc" = "abc".
Proof. reflexivity. Qed.

Example escape_mixed :
  Csv.readCell (Csv.escapeCsvValue ("a,b" ++ Js.chr Js.quote ++ "c" ++ Js.chr Js.newline ++ "d"))
  = Some ("a,b" ++ Js.chr Js.quote ++ "c" ++ Js.chr Js.newline ++ "d").
Proof. reflexivity. Qed.

Example generic_email_selectors :
  GENERIC_SELECTORS "email"
  = Some [ "input[type=" ++ q ++ "email" ++ q ++ "]";
           "input[name*=" ++ q ++ "email" ++ q ++ " i]";
           "input[id*=" ++ q ++ "email" ++ q ++ " i]";
           "input[placeholder*=" ++ q ++ "email" ++ q ++ " i]";
           "input[data-field*=" ++ q ++ "email" ++ q ++ " i]";
           "input[data-name*=" ++ q ++ "email" ++ q ++ " i]" ].
Proof. reflexivity. Qed.

(* ====================================================================== *)
(** * Running composed programs *)
(* ====================================================================== *)

Arguments Csv.csvHeader : simpl never.

Section RunFacts.

Context {W : Type} (d : Driver W).

Lemma run_bind {A B : Type} (p : Prog A) (f : A -> Prog B) (w : W) :
  run d (bind p f) w =
  match run d p w with
  | (w1, t1, Done a) =>
      match run d (f a) w1 with
      | (w2, t2, o2) => (w2, (t1 ++ t2)%list, o2)
      end
  | (w1, t1, Raised e) => (w1, t1, Raised e)
  | (w1, t1, Diverged) => (w1, t1, Diverged)
  end.
Proof.
  revert w; induction p as [a|e| |c k IH|s k IH|msg k IH]; intro w; simpl.
  - destruct (run d (f a) w) as [[w2 t2] o2]; reflexivity.
  - reflexivity.
  - reflexivity.
  - destruct (answer d c w) as [w1 r]. rewrite IH.
    destruct (run d (k r) w1) as [[w2 t2] [a|e|]]; try reflexivity.
    destruct (run d (f a) w2) as [[w3 t3] o3]; reflexivity.
  - destruct (observe d s w) as [w1 r]. rewrite IH.
    destruct (run d (k r) w1) as [[w2 t2] [a|e|]]; try reflexivity.
    destruct (run d (f a) w2) as [[w3 t3] o3]; reflexivity.
  - rewrite IH.
    destruct (run d k w) as [[w2 t2] [a|e|]]; try reflexivity.
    destruct (run d (f a) w2) as [[w3 t3] o3]; reflexivity.
Qed.

Lemma run_try_catch {A : Type} (p : Prog A) (h : Exn -> Prog A) (w : W) :
  run d (try_catch p h) w =
  match run d p w with
  | (w1, t1, Raised e) =>
      match run d (h e) w1 with
      | (w2, t2, o2) => (w2, (t1 ++ t2)%list, o2)
      end
  | other => other
  end.
Proof.
  revert w; induction p as [a|e| |c k IH|s k IH|msg k IH]; intro w; simpl.
  - reflexivity.
  - destruct (run d (h e) w) as [[w2 t2] o2]; reflexivity.
  - reflexivity.
  - destruct (answer d c w) as [w1 r]. rewrite IH.
    destruct (run d (k r) w1) as [[w2 t2] [a|e|]]; try reflexivity.
    destruct (run d (h e) w2) as [[w3 t3] o3]; reflexivity.
  - destruct (observe d s w) as [w1 r]. rewrite IH.
    destruct (run d (k r) w1) as [[w2 t2] [a|e|]]; try reflexivity.
    destruct (run d (h e) w2) as [[w3 t3] o3]; reflexivity.
  - rewrite IH.
    destruct (run d k w) as [[w2 t2] [a|e|]]; try reflexivity.
    destruct (run d (h e) w2) as [[w3 t3] o3]; reflexivity.
Qed.

Lemma Returns_run {A : Type} (p : Prog A) :
  Returns p -> forall w, exists a, outcome (run d p w) = Done a.
Proof.
  induction 1 as [a|c k _ IH|s k _ IH|msg k _ IH]; intro w; simpl.
  - exists a; reflexivity.
  - destruct (answer d c w) as [w1 r]. destruct (IH r w1) as [a Ha].
    exists a. unfold outcome in *. destruct (run d (k r) w1) as [[? ?] ?]; exact Ha.
  - destruct (observe d s w) as [w1 r]. destruct (IH r w1) as [a Ha].
    exists a. unfold outcome in *. destruct (run d (k r) w1) as [[? ?] ?]; exact Ha.
  - destruct (IH w) as [a Ha].
    exists a. unfold outcome in *. destruct (run d k w) as [[? ?] ?]; exact Ha.
Qed.

Lemma Bounded_run {A : Type} (p : Prog A) :
  Bounded p -> forall w, outcome (run d p w) <> Diverged.
Proof.
  induction 1 as [a|e|c k _ IH|s k _ IH|msg k _ IH]; intro w; simpl.
  - discriminate.
  - discriminate.
  - destruct (answer d c w) as [w1 r]. specialize (IH r w1).
    unfold outcome in *. destruct (run d (k r) w1) as [[? ?] ?]; exact IH.
  - destruct (observe d s w) as [w1 r]. specialize (IH r w1).
    unfold outcome in *. destruct (run d (k r) w1) as [[? ?] ?]; exact IH.
  - specialize (IH w).
    unfold outcome in *. destruct (run d k w) as [[? ?] ?]; exact IH.
Qed.

Lemma Uses_run (P : Cmd -> Prop) {A : Type} (p : Prog A) :
  Uses P p -> forall w, Forall P (calls (trace (run d p w))).
Proof.
  induction 1 as [a|e| |c k Hc _ IH|s k _ IH|msg k _ IH]; intro w; simpl;
    try (constructor; fail).
  - destruct (answer d c w) as [w1 r]. specialize (IH r w1).
    unfold trace in *. destruct (run d (k r) w1) as [[? ?] ?]; simpl in *.
    constructor; assumption.
  - destruct (observe d s w) as [w1 r]. specialize (IH r w1).
    unfold trace in *. destruct (run d (k r) w1) as [[? ?] ?]; exact IH.
  - specialize (IH w).
    unfold trace in *. destruct (run d k w) as [[? ?] ?]; exact IH.
Qed.

Lemma outcome_Await {A : Type} (c : Cmd) (k : Result (Resp c) -> Prog A) (w : W) :
  outcome (run d (Await c k) w)
  = outcome (run d (k (snd (answer d c w))) (fst (answer d c w))).
Proof.
  simpl. destruct (answer d c w) as [w1 r]. simpl.
  destruct (run d (k r) w1) as [[? ?] ?]. reflexivity.
Qed.

Lemma outcome_Sync {A : Type} (s : Sys) (k : SysResp s -> Prog A) (w : W) :
  outcome (run d (Sync s k) w)
  = outcome (run d (k (snd (observe d s w))) (fst (observe d s w))).
Proof.
  simpl. destruct (observe d s w) as [w1 r]. simpl.
  destruct (run d (k r) w1) as [[? ?] ?]. reflexivity.
Qed.

Lemma outcome_Log {A : Type} (msg : string) (k : Prog A) (w : W) :
  outcome (run d (Log msg k) w) = outcome (run d k w).
Proof. simpl. destruct (run d k w) as [[? ?] ?]. reflexivity. Qed.

Lemma trace_Await {A : Type} (c : Cmd) (k : Result (Resp c) -> Prog A) (w : W) :
  trace (run d (Await c k) w)
  = ECall c (snd (answer d c w))
      :: trace (run d (k (snd (answer d c w))) (fst (answer d c w))).
Proof.
  simpl. destruct (answer d c w) as [w1 r]. simpl.
  destruct (run d (k r) w1) as [[? ?] ?]. reflexivity.
Qed.

Lemma trace_Sync {A : Type} (s : Sys) (k : SysResp s -> Prog A) (w : W) :
  trace (run d (Sync s k) w)
  = ESync s (snd (observe d s w))
      :: trace (run d (k (snd (observe d s w))) (fst (observe d s w))).
Proof.
  simpl. destruct (observe d s w) as [w1 r]. simpl.
  destruct (run d (k r) w1) as [[? ?] ?]. reflexivity.
Qed.

Lemma trace_Log {A : Type} (msg : string) (k : Prog A) (w : W) :
  trace (run d (Log msg k) w) = ELog msg :: trace (run d k w).
Proof. simpl. destruct (run d k w) as [[? ?] ?]. reflexivity. Qed.

End RunFacts.

Lemma calls_app (t1 t2 : list Event) :
  calls (t1 ++ t2) = (calls t1 ++ calls t2)%list.
Proof.
  induction t1 as [|[c r|s r|msg] t1 IH]; simpl; rewrite ?IH; reflexivity.
Qed.

Lemma writes_app (t1 t2 : list Event) :
  writes (t1 ++ t2) = (writes t1 ++ writes t2)%list.
Proof. unfold writes. rewrite calls_app, filter_app. reflexivity. Qed.

Lemma appended_app (t1 t2 : list Event) :
  appended (t1 ++ t2) = (appended t1 ++ appended t2)%list.
Proof.
  induction t1 as [|[c r|s r|msg] t1 IH]; simpl; rewrite ?IH; try reflexivity.
  destruct c; simpl; rewrite ?IH; reflexivity.
Qed.

Lemma pollCounts_app (t1 t2 : list Event) :
  pollCounts (t1 ++ t2) = (pollCounts t1 ++ pollCounts t2)%list.
Proof.
  induction t1 as [|[c r|s r|msg] t1 IH]; simpl; rewrite ?IH; try reflexivity.
  destruct c; try reflexivity. destruct r; simpl; rewrite ?IH; reflexivity.
Qed.


Lemma notAppend_appended (tr : list Event) :
  Forall notAppend (calls tr) -> appended tr = [].
Proof.
  induction tr as [|[c r|s r|msg] tr IH]; simpl; intro H; auto.
  inversion H as [|? ? Hc Hr]; subst.
  destruct c; simpl in *; auto. contradiction.
Qed.

(** ** Composition rules for the three tree properties *)

Lemma Uses_bind (P : Cmd -> Prop) {A B : Type} (p : Prog A) (f : A -> Prog B) :
  Uses P p -> (forall a, Uses P (f a)) -> Uses P (bind p f).
Proof. induction 1; intros Hf; simpl; try constructor; auto. Qed.

Lemma Uses_try_catch (P : Cmd -> Prop) {A : Type} (p : Prog A) (h : Exn -> Prog A) :
  Uses P p -> (forall e, Uses P (h e)) -> Uses P (try_catch p h).
Proof. induction 1; intros Hh; simpl; try constructor; auto. Qed.

Lemma Uses_await (P : Cmd -> Prop) (c : Cmd) : P c -> Uses P (await c).
Proof. intro H. constructor; [exact H|]. intros [a|e]; constructor. Qed.

Lemma Uses_sync (P : Cmd -> Prop) (s : Sys) : Uses P (sync s).
Proof. constructor. intro r. constructor. Qed.

Lemma Uses_log (P : Cmd -> Prop) (msg : string) : Uses P (log msg).
Proof. constructor. constructor. Qed.

Lemma Bounded_bind {A B : Type} (p : Prog A) (f : A -> Prog B) :
  Bounded p -> (forall a, Bounded (f a)) -> Bounded (bind p f).
Proof. induction 1; intros Hf; simpl; try constructor; auto. Qed.

Lemma Bounded_try_catch {A : Type} (p : Prog A) (h : Exn -> Prog A) :
  Bounded p -> (forall e, Bounded (h e)) -> Bounded (try_catch p h).
Proof. induction 1; intros Hh; simpl; try constructor; auto. Qed.

Lemma Bounded_await (c : Cmd) : Bounded (await c).
Proof. constructor. intros [a|e]; constructor. Qed.

Lemma Bounded_sync (s : Sys) : Bounded (sync s).
Proof. constructor. intro r. constructor. Qed.

Lemma Bounded_log (msg : string) : Bounded (log msg).
Proof. constructor. constructor. Qed.

Lemma Returns_Bounded {A : Type} (p : Prog A) : Returns p -> Bounded p.
Proof. induction 1; constructor; auto. Qed.

Lemma Returns_bind {A B : Type} (p : Prog A) (f : A -> Prog B) :
  Returns p -> (forall a, Returns (f a)) -> Returns (bind p f).
Proof. induction 1; intros Hf; simpl; try constructor; auto. Qed.

Lemma Returns_try_catch {A : Type} (p : Prog A) (h : Exn -> Prog A) :
  Bounded p -> (forall e, Returns (h e)) -> Returns (try_catch p h).
Proof. induction 1; intros Hh; simpl; try constructor; auto. Qed.

Lemma Returns_sync (s : Sys) : Returns (sync s).
Proof. constructor. intro r. constructor. Qed.

Lemma Returns_log (msg : string) : Returns (log msg).
Proof. constructor. constructor. Qed.

Lemma In_calls_bind_l {W A B : Type} (d : Driver W) (p : Prog A) (f : A -> Prog B) (w : W) (c : Cmd) :
  In c (calls (trace (run d p w))) ->
  In c (calls (trace (run d (bind p f) w))).
Proof.
  rewrite run_bind. destruct (run d p w) as [[w1 t1] [a|e|]]; unfold trace; cbn [fst snd];
    try (intro H; exact H).
  destruct (run d (f a) w1) as [[w2 t2] o2]. cbn [fst snd].
  rewrite calls_app. intro H. apply in_or_app. left. exact H.
Qed.

Lemma In_calls_bind_r {W A B : Type} (d : Driver W) (p : Prog A) (f : A -> Prog B) (w : W) (c : Cmd) :
  Returns p ->
  (forall a w1, In c (calls (trace (run d (f a) w1)))) ->
  In c (calls (trace (run d (bind p f) w))).
Proof.
  intros R H. rewrite run_bind.
  destruct (Returns_run d p R w) as [a Ha].
  destruct (run d p w) as [[w1 t1] o1]. unfold outcome in Ha. cbn [snd] in Ha. subst o1.
  specialize (H a w1).
  destruct (run d (f a) w1) as [[w2 t2] o2]. unfold trace in *. cbn [fst snd] in *.
  rewrite calls_app. apply in_or_app. right. exact H.
Qed.

(* ====================================================================== *)
(** * The helpers never throw, and what they call *)
(* ====================================================================== *)

Lemma Returns_forEachTry {X : Type} (xs : list X) (body : X -> Prog bool) :
  (forall x, Bounded (body x)) -> Returns (forEachTry xs body).
Proof.
  intro Hb. induction xs as [|x xs IH]; simpl.
  - constructor.
  - apply Returns_bind.
    + apply Returns_try_catch; [apply Hb | intro; constructor].
    + intros [|]; [constructor | exact IH].
Qed.

Lemma Uses_forEachTry (P : Cmd -> Prop) {X : Type} (xs : list X) (body : X -> Prog bool) :
  (forall x, Uses P (body x)) -> Uses P (forEachTry xs body).
Proof.
  intro Hb. induction xs as [|x xs IH]; simpl.
  - constructor.
  - apply Uses_bind.
    + apply Uses_try_catch; [apply Hb | intro; constructor].
    + intros [|]; [constructor | exact IH].
Qed.

Lemma Returns_logAll (msgs : list string) : Returns (logAll msgs).
Proof.
  induction msgs as [|m msgs IH]; simpl; [constructor|].
  constructor. exact IH.
Qed.

Lemma Uses_logAll (P : Cmd -> Prop) (msgs : list string) : Uses P (logAll msgs).
Proof.
  induction msgs as [|m msgs IH]; simpl; [constructor|].
  constructor. exact IH.
Qed.

(** Structural proof search over a program tree. *)
Ltac tree_step :=
  first
    [ apply Returns_forEachTry | apply Uses_forEachTry
    | apply Returns_logAll | apply Uses_logAll
    | apply Returns_Bounded; apply Returns_logAll
    | apply Returns_bind | apply Returns_try_catch
    | apply Returns_sync | apply Returns_log | apply Returns_Ret
    | apply Bounded_bind | apply Bounded_try_catch
    | match goal with
      | |- Bounded (await _) => unfold await; constructor; intros [?|?]; constructor
      end
    | apply Bounded_sync | apply Bounded_log
    | apply Bounded_Ret | apply Bounded_Throw
    | apply Uses_bind | apply Uses_try_catch
    | match goal with
      | |- Uses _ (await _) =>
          unfold await; constructor;
          [first [reflexivity | exact I | solve [auto]] | intros [?|?]; constructor]
      end
    | apply Uses_sync | apply Uses_log
    | apply Uses_Ret | apply Uses_Throw | apply Uses_Stuck
    | apply Returns_Bounded; assumption
    | assumption
    | match goal with
      | |- notWrite _ => reflexivity
      | |- notAppend _ => exact I
      | |- Returns (Log _ _) => constructor
      | |- Returns (Sync _ _) => constructor
      | |- Bounded (Log _ _) => constructor
      | |- Bounded (Sync _ _) => constructor
      | |- Bounded (Await _ _) => constructor
      | |- Uses _ (Log _ _) => constructor
      | |- Uses _ (Sync _ _) => constructor
      | |- Uses _ (Await _ _) => constructor
      end
    | match goal with
      | |- context [if ?b then _ else _] => destruct b
      | |- context [match ?x with _ => _ end] => destruct x
      end ].

Ltac tree := intros; repeat (tree_step; intros).

Lemma fillTextByLabel_Returns labels value fieldName :
  Returns (fillTextByLabel labels value fieldName).
Proof. unfold fillTextByLabel. tree. Qed.

Lemma clickRadioByLabel_Returns labels optionText fieldName :
  Returns (clickRadioByLabel labels optionText fieldName).
Proof. unfold clickRadioByLabel. tree. Qed.

Lemma selectByLabel_Returns labels value fieldName :
  Returns (selectByLabel labels value fieldName).
Proof. unfold selectByLabel. tree. Qed.

Lemma setFileByLabel_Returns labels filePath fieldName :
  Returns (setFileByLabel labels filePath fieldName).
Proof. unfold setFileByLabel. tree. Qed.

Lemma isThereAndVisible_Bounded locator : Bounded (isThereAndVisible locator).
Proof. unfold isThereAndVisible. tree. Qed.

Lemma findFirstVisibleSelector_Returns selectors label :
  Returns (findFirstVisibleSelector selectors label).
Proof.
  induction selectors as [|s rest IH]; cbn [findFirstVisibleSelector].
  - tree.
  - apply Returns_bind.
    + apply Returns_try_catch; [|tree].
      apply Bounded_bind; [apply isThereAndVisible_Bounded|]. tree.
    + intros [|]; [constructor | exact IH].
Qed.

Lemma fillGenericField_Returns fieldType value fieldName :
  Returns (fillGenericField fieldType value fieldName).
Proof.
  unfold fillGenericField.
  destruct (negb (Js.truthy value)); [tree|].
  apply Returns_bind.
  - apply Returns_forEachTry. intro x.
    apply Bounded_bind; [apply isThereAndVisible_Bounded|]. tree.
  - intros [|]; [constructor|].
    apply Returns_bind.
    + apply Returns_try_catch; [|tree].
      apply Bounded_bind; [apply isThereAndVisible_Bounded|]. tree.
    + tree.
Qed.

Lemma debugFormFields_Returns : Returns debugFormFields.
Proof. unfold debugFormFields. tree. Qed.

Lemma extractMeta_Returns rt : Returns (extractMeta rt).
Proof. unfold extractMeta. tree. Qed.

Lemma fillNameFields_Returns reg user : Returns (fillNameFields reg user).
Proof.
  unfold fillNameFields, pageFillQuietly, ignore.
  repeat (apply Returns_bind; [apply findFirstVisibleSelector_Returns | intros]).
  destruct a as [f|]; destruct a0 as [l|]; destruct a1 as [u|];
    repeat first [ apply fillTextByLabel_Returns | tree_step; intros ].
Qed.

(* ====================================================================== *)
(** * CSV escaping and reading *)
(* ====================================================================== *)

Section CsvFacts.

Import Js Csv.

Lemma append_assoc (a b c : string) : (a ++ b) ++ c = a ++ (b ++ c).
Proof. induction a as [|x a IH]; simpl; [reflexivity | rewrite IH; reflexivity]. Qed.

Lemma append_nil_r (a : string) : a ++ "" = a.
Proof. induction a as [|x a IH]; simpl; [reflexivity | rewrite IH; reflexivity]. Qed.

Lemma isSpecial_false (c : ascii) :
  isSpecial c = false ->
  Ascii.eqb c quote = false /\ Ascii.eqb c comma = false /\ Ascii.eqb c newline = false.
Proof.
  unfold isSpecial. intro H.
  apply orb_false_elim in H as [H H3]. apply orb_false_elim in H as [H1 H2].
  auto.
Qed.

Lemma regexTestSpecial_spec (s : string) :
  regexTestSpecial s = true <->
  exists c, In c (list_ascii_of_string s) /\ (c = quote \/ c = comma \/ c = newline).
Proof.
  induction s as [|x s IH]; simpl.
  - split; [discriminate | intros [c [[] _]]].
  - rewrite orb_true_iff, IH. unfold isSpecial. rewrite !orb_true_iff, !Ascii.eqb_eq.
    split.
    + intros [H | [c [Hin Hc]]].
      * exists x. split; [left; reflexivity | tauto].
      * exists c. split; [right; exact Hin | exact Hc].
    + intros [c [[Hx | Hin] Hc]].
      * subst c. left. tauto.
      * right. exists c. split; assumption.
Qed.

Lemma isBreak_false (c : ascii) :
  Ascii.eqb c newline = false -> Ascii.eqb c carriage = false -> isBreak c = false.
Proof. unfold isBreak. intros -> ->. reflexivity. Qed.

Lemma read_unquoted (s cur : string) (cells : list string) (tail : string) :
  regexTestSpecial s = false -> hasCarriage s = false ->
  readRecord Unquoted cur cells (s ++ tail) = readRecord Unquoted (cur ++ s) cells tail.
Proof.
  revert cur. induction s as [|x s IH]; intros cur H Hcr; simpl in *.
  - rewrite append_nil_r. reflexivity.
  - apply orb_false_elim in H as [Hx Hs].
    apply orb_false_elim in Hcr as [Hxr Hsr].
    destruct (isSpecial_false _ Hx) as [Hq [Hc Hn]].
    rewrite Hq, Hc, (isBreak_false _ Hn Hxr), IH by assumption.
    rewrite append_assoc. reflexivity.
Qed.

Lemma read_unquoted_end (cur : string) (cells : list string) (tail : string) :
  delimited tail ->
  readRecord Unquoted cur cells tail = afterCell cur cells tail.
Proof.
  destruct tail as [|c t]; simpl; [reflexivity|].
  intros [-> | ->]; reflexivity.
Qed.

Lemma read_start_end (cells : list string) (tail : string) :
  delimited tail ->
  readRecord FieldStart "" cells tail = afterCell "" cells tail.
Proof.
  destruct tail as [|c t]; simpl; [reflexivity|].
  intros [-> | ->]; reflexivity.
Qed.

Lemma read_quoted (s cur : string) (cells : list string) (tail : string) :
  readRecord Quoted cur cells (doubleQuotes s ++ tail)
  = readRecord Quoted (cur ++ s) cells tail.
Proof.
  revert cur. induction s as [|x s IH]; intro cur; simpl.
  - rewrite append_nil_r. reflexivity.
  - destruct (Ascii.eqb x quote) eqn:Hx; simpl.
    + apply Ascii.eqb_eq in Hx. subst x.
      rewrite IH, append_assoc. reflexivity.
    + rewrite Hx, IH, append_assoc. reflexivity.
Qed.

Lemma read_quote_seen_end (cur : string) (cells : list string) (tail : string) :
  delimited tail ->
  readRecord QuoteSeen cur cells tail = afterCell cur cells tail.
Proof.
  destruct tail as [|c t]; simpl; [reflexivity|].
  intros [-> | ->]; reflexivity.
Qed.

Lemma read_escaped (s : string) (cells : list string) (tail : string) :
  readsBack s = true ->
  delimited tail ->
  readRecord FieldStart "" cells (escapeCsvValue s ++ tail) = afterCell s cells tail.
Proof.
  intros Hs' Hd. unfold escapeCsvValue. unfold readsBack in Hs'.
  destruct (regexTestSpecial s) eqn:Hs.
  - rewrite !append_assoc. simpl.
    rewrite read_quoted. simpl. apply read_quote_seen_end. exact Hd.
  - simpl in Hs'. apply negb_true_iff in Hs'.
    destruct s as [|x s].
    + simpl. apply read_start_end. exact Hd.
    + simpl in *. apply orb_false_elim in Hs as [Hx Hs].
      apply orb_false_elim in Hs' as [Hxr Hsr].
      destruct (isSpecial_false _ Hx) as [Hq [Hc Hn]].
      rewrite Hq, Hc, (isBreak_false _ Hn Hxr), read_unquoted by assumption.
      apply read_unquoted_end. exact Hd.
Qed.

Lemma afterCell_comma (cur : string) (cells : list string) (t : string) :
  afterCell cur cells ("," ++ t) = readRecord FieldStart "" (cells ++ [cur])%list t.
Proof. reflexivity. Qed.

Lemma read_cells (x : string) (xs cells : list string) (rest : string) :
  Forall (fun cell => readsBack cell = true) (x :: xs) ->
  readRecord FieldStart "" cells
             (join "," (map escapeCsvValue (x :: xs)) ++ chr newline ++ rest)
  = Some ((cells ++ x :: xs)%list, rest).
Proof.
  revert x cells. induction xs as [|y xs IH]; intros x cells Hall;
    inversion Hall as [|x' l' Hx Hxs]; subst.
  - simpl join. rewrite read_escaped by (try assumption; simpl; right; reflexivity).
    reflexivity.
  - change (join "," (map escapeCsvValue (x :: y :: xs)))
      with (escapeCsvValue x ++ "," ++ join "," (map escapeCsvValue (y :: xs))).
    rewrite !append_assoc.
    rewrite read_escaped by (try assumption; simpl; left; reflexivity).
    rewrite afterCell_comma, IH, <- app_assoc by assumption. reflexivity.
Qed.

Lemma first_carriage (s : string) :
  hasCarriage s = true ->
  exists a b, s = a ++ String carriage b /\ hasCarriage a = false.
Proof.
  induction s as [|x s IH]; simpl; [discriminate|].
  destruct (Ascii.eqb x carriage) eqn:Hx; simpl.
  - intros _. apply Ascii.eqb_eq in Hx. subst x. exists "", s. split; reflexivity.
  - intro H. destruct (IH H) as (a & b & -> & Ha).
    exists (String x a), b. split; [reflexivity|]. simpl. rewrite Hx. exact Ha.
Qed.

Lemma regexTestSpecial_app (a b : string) :
  regexTestSpecial (a ++ b) = (regexTestSpecial a || regexTestSpecial b)%bool.
Proof.
  induction a as [|x a IH]; simpl; [reflexivity|]. rewrite IH, orb_assoc. reflexivity.
Qed.

(** An unquoted cell is cut at its first carriage return. *)
Lemma read_cut (a b : string) :
  regexTestSpecial a = false -> hasCarriage a = false ->
  readRecord FieldStart "" [] (a ++ String carriage b) = Some ([a], afterBreak carriage b).
Proof.
  intros Ha Hcr. destruct a as [|x a].
  - reflexivity.
  - simpl in *. apply orb_false_elim in Ha as [Hx Ha].
    apply orb_false_elim in Hcr as [Hxr Hcr].
    destruct (isSpecial_false _ Hx) as [Hq [Hc Hn]].
    rewrite Hq, Hc, (isBreak_false _ Hn Hxr), read_unquoted by assumption.
    reflexivity.
Qed.

Lemma append_longer (a b : string) (c : ascii) : a <> a ++ String c b.
Proof.
  intro H. apply (f_equal String.length) in H.
  assert (Hlen : forall u v, String.length (u ++ v) = String.length u + String.length v).
  { intros u v. induction u as [|y u IH]; simpl; [reflexivity | rewrite IH; reflexivity]. }
  rewrite Hlen in H. simpl in H. lia.
Qed.

Lemma readCell_escaped (s : string) :
  readCell (escapeCsvValue s) = Some s <-> readsBack s = true.
Proof.
  split.
  - intro H. unfold readsBack.
    destruct (regexTestSpecial s) eqn:Hs; [reflexivity|].
    destruct (hasCarriage s) eqn:Hcr; [|reflexivity]. exfalso.
    unfold escapeCsvValue in H. rewrite Hs in H.
    destruct (first_carriage s Hcr) as (a & b & -> & Ha).
    rewrite regexTestSpecial_app in Hs. apply orb_false_elim in Hs as [Hsa _].
    unfold readCell in H. rewrite (read_cut a b Hsa Ha) in H.
    destruct (afterBreak carriage b); [|discriminate].
    injection H as H. exact (append_longer a b carriage H).
  - intro H. unfold readCell.
    rewrite <- (append_nil_r (escapeCsvValue s)).
    rewrite (read_escaped s [] "" H I). reflexivity.
Qed.

End CsvFacts.

(** C4 (as the code has it).  [escapeCsvValue] leaves a value as it is
    unless it holds a comma, a double quote or a line feed; then it wraps the
    value in double quotes with every inner quote doubled.  Reading the
    escaped cell back with the CSV reader gives the original string exactly
    when the value is quoted or holds no carriage return: a carriage return
    is not among the characters that the code tests for.  A whole line
    written by [appendCsv] reads back as its eleven cells when each of them
    is such a value. *)
Theorem escapeCsvValue_roundtrip :
  forall s : string,
    (Csv.regexTestSpecial s = true <->
     exists c, In c (list_ascii_of_string s)
               /\ (c = Js.quote \/ c = Js.comma \/ c = Js.newline))
    /\ (Csv.regexTestSpecial s = true ->
        Csv.escapeCsvValue s = Js.chr Js.quote ++ Csv.doubleQuotes s ++ Js.chr Js.quote)
    /\ (Csv.regexTestSpecial s = false -> Csv.escapeCsvValue s = s)
    /\ (Csv.readCell (Csv.escapeCsvValue s) = Some s <->
        (Csv.regexTestSpecial s = true \/ Csv.hasCarriage s = false))
    /\ (forall row rest,
          Csv.rowReadsBack row = true ->
          Csv.readRecord Csv.FieldStart "" [] (Csv.csvLine row ++ rest)
          = Some (Csv.rowCells row, rest)).
Proof.
  intro s. split; [apply regexTestSpecial_spec|].
  split; [intro H; unfold Csv.escapeCsvValue; rewrite H; reflexivity|].
  split; [intro H; unfold Csv.escapeCsvValue; rewrite H; reflexivity|].
  split.
  - rewrite readCell_escaped. unfold Csv.readsBack.
    rewrite orb_true_iff, negb_true_iff. reflexivity.
  - intros row rest Hrow. unfold Csv.csvLine.
    rewrite append_assoc. apply read_cells.
    apply Forall_forall. intros cell Hin.
    unfold Csv.rowReadsBack in Hrow. rewrite forallb_forall in Hrow. exact (Hrow cell Hin).
Qed.

(** C4 as stated fails for a carriage return.  A value with a carriage
    return and no comma, quote or line feed is written without quotes; the
    reader ends the record at the carriage return, so the cell read back is
    the text before it and the rest of the value starts a record of its
    own. *)
Lemma bare_carriage_return_is_not_quoted :
  let value := "Timeout exceeded" ++ Js.chr Csv.carriage ++ "retry later" in
  Csv.regexTestSpecial value = false
  /\ Csv.escapeCsvValue value = value
  /\ Csv.readRecord Csv.FieldStart "" [] (Csv.escapeCsvValue value ++ ",x" ++ Js.chr Js.newline)
     = Some (["Timeout exceeded"], "retry later,x" ++ Js.chr Js.newline)
  /\ Csv.readCell (Csv.escapeCsvValue value) = None.
Proof. vm_compute. repeat split; reflexivity. Qed.

(* ====================================================================== *)
(** * Empty values, log initialisation, metadata *)
(* ====================================================================== *)

(** C3. When the value handed to a field-resolution helper is empty or
    undefined, the helper (text fill, generic fill, select, radio, file
    upload) answers [false] at once: it makes no call to the page at all,
    hence no write, and leaves the world as it was. *)
Theorem empty_value_is_skipped :
  forall (W : Type) (d : Driver W) (w : W)
         (labels : list string) (fieldType fieldName : string) (value : option string),
    Js.truthy value = false ->
    let skipped (r : W * list Event * Outcome bool) :=
      outcome r = Done false /\ calls (trace r) = [] /\ finalWorld r = w in
    skipped (run d (fillTextByLabel labels value fieldName) w)
    /\ skipped (run d (fillGenericField fieldType value fieldName) w)
    /\ skipped (run d (selectByLabel labels value fieldName) w)
    /\ skipped (run d (clickRadioByLabel labels value fieldName) w)
    /\ skipped (run d (setFileByLabel labels value fieldName) w).
Proof.
  intros W d w labels fieldType fieldName value H skipped. subst skipped.
  unfold fillTextByLabel, fillGenericField, selectByLabel, clickRadioByLabel,
    setFileByLabel.
  rewrite H. cbn. repeat split; reflexivity.
Qed.

Lemma empty_value_is_skipped_witness :
  let r := run (simDriver emptyPage) (fillTextByLabel (l_phone FIELD_LABELS) None "phone") sim0 in
  Js.truthy None = false
  /\ outcome r = Done false /\ calls (trace r) = [] /\ finalWorld r = sim0.
Proof.
  split; [reflexivity|].
  exact (proj1 (empty_value_is_skipped Sim (simDriver emptyPage) sim0
                  (l_phone FIELD_LABELS) "phone" "phone" None eq_refl)).
Defined.

Section LogFile.

Context {W : Type} (d : Driver W) (csv : W -> option string).
Hypothesis FS : FileSystem d csv.

Lemma ensureOutFiles_present (w : W) :
  csv w <> None ->
  csv (finalWorld (run d ensureOutFiles w)) = csv w
  /\ fileWrites (trace (run d ensureOutFiles w)) = 0
  /\ outcome (run d ensureOutFiles w) = Done tt.
Proof.
  intro Hp. unfold ensureOutFiles. cbn.
  pose proof (fs_mkdir d csv FS OUT_DIR w) as Hm.
  destruct (answer d (Mkdir OUT_DIR) w) as [w1 r1]. simpl in Hm.
  assert (Hp1 : csv w1 <> None) by (rewrite Hm; exact Hp).
  pose proof (fs_access_keeps d csv FS w1) as Hk.
  pose proof (fs_access_present d csv FS w1 Hp1) as Ha.
  destruct r1 as [[]|e1]; cbn;
    destruct (answer d (Access CSV_PATH) w1) as [w2 r2]; simpl in Hk, Ha; subst r2;
    cbn; repeat split; congruence.
Qed.

Lemma ensureOutFiles_absent (w : W) :
  csv w = None ->
  fileWrites (trace (run d ensureOutFiles w)) = 1
  /\ (outcome (run d ensureOutFiles w) = Done tt ->
      csv (finalWorld (run d ensureOutFiles w)) = Some Csv.csvHeader)
  /\ (outcome (run d ensureOutFiles w) <> Done tt ->
      csv (finalWorld (run d ensureOutFiles w)) = None).
Proof.
  intro Hn. unfold ensureOutFiles. cbn.
  pose proof (fs_mkdir d csv FS OUT_DIR w) as Hm.
  destruct (answer d (Mkdir OUT_DIR) w) as [w1 r1]. simpl in Hm.
  assert (Hn1 : csv w1 = None) by (rewrite Hm; exact Hn).
  pose proof (fs_access_keeps d csv FS w1) as Hk.
  destruct (fs_access_absent d csv FS w1 Hn1) as [e Ha].
  destruct r1 as [[]|e1]; cbn;
    destruct (answer d (Access CSV_PATH) w1) as [w2 r2]; simpl in Hk, Ha; subst r2;
    cbn;
    pose proof (fs_write d csv FS Csv.csvHeader w2) as Hw;
    destruct (answer d (WriteFile CSV_PATH Csv.csvHeader) w2) as [w3 r3];
    destruct r3 as [[]|e3]; cbn;
    (split; [reflexivity|]); split; intro H;
    try discriminate; try congruence; try (exfalso; apply H; reflexivity).
Qed.

Lemma ensureOutFiles_times (n : nat) (w : W) :
  fileWrites (trace (run d (times n ensureOutFiles) w)) <= 1
  /\ (csv w <> None ->
      fileWrites (trace (run d (times n ensureOutFiles) w)) = 0
      /\ csv (finalWorld (run d (times n ensureOutFiles) w)) = csv w
      /\ outcome (run d (times n ensureOutFiles) w) = Done tt).
Proof.
  revert w. induction n as [|n IH]; intro w.
  - unfold fileWrites, trace, finalWorld, outcome. simpl. split; [lia | intros _; auto].
  - cbn [times]. rewrite run_bind.
    destruct (csv w) as [content|] eqn:Hc.
    + assert (Hp : csv w <> None) by congruence.
      destruct (ensureOutFiles_present w Hp) as [Hk [Hz Ho]].
      destruct (run d ensureOutFiles w) as [[w1 t1] o1].
      unfold finalWorld, trace, outcome in Hk, Hz, Ho. simpl in Hk, Hz, Ho. subst o1.
      assert (Hp1 : csv w1 <> None) by congruence.
      destruct (IH w1) as [_ IH1]. destruct (IH1 Hp1) as [Hz1 [Hk1 Ho1]].
      destruct (run d (times n ensureOutFiles) w1) as [[w2 t2] o2].
      unfold finalWorld, trace, outcome in *. simpl in *.
      unfold fileWrites in *. rewrite calls_app, filter_app, length_app, Hz, Hz1.
      split; [lia|]. intros _. repeat split; congruence.
    + split; [|intro H; congruence].
      destruct (ensureOutFiles_absent w Hc) as [H1 [Hd Hnd]].
      destruct (run d ensureOutFiles w) as [[w1 t1] o1].
      unfold finalWorld, trace, outcome in H1, Hd, Hnd. simpl in H1, Hd, Hnd.
      destruct o1 as [[]|e|]; unfold trace; simpl; try lia.
      assert (Hp1 : csv w1 <> None) by (rewrite Hd by reflexivity; discriminate).
      destruct (IH w1) as [_ IH1]. destruct (IH1 Hp1) as [Hz1 _].
      destruct (run d (times n ensureOutFiles) w1) as [[w2 t2] o2].
      unfold trace in *. simpl in *.
      unfold fileWrites in *. rewrite calls_app, filter_app, length_app, H1, Hz1. lia.
Qed.

End LogFile.

(** C5. Log initialisation is idempotent.  On a file system where the probe
    of the CSV file fails exactly when the file is absent: a run of
    [ensureOutFiles] that finds the file leaves its content alone and
    writes nothing; a run that finds no file writes once, the header; and
    however often the step is run in a row, the file is written at most
    once, so the header never appears twice. *)
Theorem ensureOutFiles_idempotent :
  forall (W : Type) (d : Driver W) (csv : W -> option string),
    FileSystem d csv ->
    forall (w : W) (n : nat),
      (csv w <> None ->
       csv (finalWorld (run d ensureOutFiles w)) = csv w
       /\ fileWrites (trace (run d ensureOutFiles w)) = 0
       /\ outcome (run d ensureOutFiles w) = Done tt)
      /\ (csv w = None ->
          fileWrites (trace (run d ensureOutFiles w)) = 1
          /\ (outcome (run d ensureOutFiles w) = Done tt ->
              csv (finalWorld (run d ensureOutFiles w)) = Some Csv.csvHeader))
      /\ fileWrites (trace (run d (times n ensureOutFiles) w)) <= 1
      /\ (csv w <> None ->
          csv (finalWorld (run d (times n ensureOutFiles) w)) = csv w).
Proof.
  intros W d csv FS w n.
  split; [apply ensureOutFiles_present; exact FS|].
  split.
  - intro Hn. destruct (ensureOutFiles_absent d csv FS w Hn) as [H1 [H2 _]]. auto.
  - destruct (ensureOutFiles_times d csv FS n w) as [H1 H2].
    split; [exact H1|]. intro Hp. apply H2. exact Hp.
Qed.

Lemma simDriver_FileSystem : FileSystem (simDriver emptyPage) sim_csv.
Proof.
  constructor.
  - intros path w. reflexivity.
  - intro w. cbn. destruct (sim_csv w) eqn:E; cbn; rewrite ?E; reflexivity.
  - intros w H. cbn. rewrite H. eexists; reflexivity.
  - intros w H. cbn. destruct (sim_csv w); [reflexivity | congruence].
  - intros content w. reflexivity.
Qed.

Lemma ensureOutFiles_idempotent_witness :
  FileSystem (simDriver emptyPage) sim_csv
  /\ fileWrites (trace (run (simDriver emptyPage) (times 3 ensureOutFiles) sim0)) <= 1.
Proof.
  split.
  - exact simDriver_FileSystem.
  - exact (proj1 (proj2 (proj2
      (ensureOutFiles_idempotent Sim (simDriver emptyPage) sim_csv
         simDriver_FileSystem sim0 3)))).
Defined.

Example ensureOutFiles_twice_one_header :
  sim_csv (finalWorld (run (simDriver emptyPage) (times 2 ensureOutFiles) sim0))
  = Some Csv.csvHeader.
Proof. reflexivity. Qed.

Lemma firstSource_other (entries : list (string * string)) (hostname : string) :
  (forall domain source, In (domain, source) entries -> Js.includes hostname domain = false) ->
  firstSource entries hostname = "Other".
Proof.
  induction entries as [|[domain source] rest IH]; intro H; simpl.
  - reflexivity.
  - rewrite (H domain source) by (left; reflexivity).
    apply IH. intros d0 s0 Hin. apply (H d0 s0). right. exact Hin.
Qed.

(** C7. [extractMeta] never fails: whatever the page and the URL parser do,
    it returns a record.  When the in-page evaluation rejects, or the URL
    of the page does not parse, the record is the default one (empty
    company and title, source [Other]); otherwise the source is read off
    the hostname, and a hostname that contains none of the job-board domains
    of the table gives [Other]. *)
Theorem extractMeta_never_fails :
  forall (W : Type) (d : Driver W) (rt : Runtime) (w : W),
    let r := run d (extractMeta rt) w in
    let w1 := fst (answer d EvalMeta w) in
    let parsed := urlHostname rt (snd (observe d PageUrl w1)) in
    (exists m, outcome r = Done m)
    /\ (forall e, snd (answer d EvalMeta w) = Err e -> outcome r = Done defaultMeta)
    /\ (forall pageData e,
          snd (answer d EvalMeta w) = Ok pageData -> parsed = Err e ->
          outcome r = Done defaultMeta)
    /\ (forall pageData hostname,
          snd (answer d EvalMeta w) = Ok pageData -> parsed = Ok hostname ->
          exists company title,
            outcome r = Done {| m_company := company; m_title := title;
                                m_source := getJobBoardSource hostname |})
    /\ defaultMeta = {| m_company := ""; m_title := ""; m_source := "Other" |}
    /\ (forall hostname,
          (forall domain source,
              In (domain, source) sourceMap -> Js.includes hostname domain = false) ->
          getJobBoardSource hostname = "Other").
Proof.
  intros W d rt w r w1 parsed. subst r w1 parsed.
  assert (Hother : forall hostname,
             (forall domain source,
                 In (domain, source) sourceMap -> Js.includes hostname domain = false) ->
             getJobBoardSource hostname = "Other")
    by (intros hostname H; apply firstSource_other; exact H).
  unfold extractMeta. cbn -[getJobBoardSource sourceMap In].
  destruct (answer d EvalMeta w) as [w1 [pageData|e0]]; cbn.
  - destruct (observe d PageUrl w1) as [w2 pageUrl]; cbn.
    destruct (urlHostname rt pageUrl) as [hostname|e1]; cbn.
    + split; [eexists; reflexivity|].
      split; [intros e H; discriminate|].
      split; [intros pd e _ H; discriminate|].
      split; [intros pd h _ H; injection H as <-; eexists; eexists; reflexivity|].
      split; [reflexivity | exact Hother].
    + split; [eexists; reflexivity|].
      split; [intros e H; discriminate|].
      split; [intros pd e _ _; reflexivity|].
      split; [intros pd h _ H; discriminate|].
      split; [reflexivity | exact Hother].
  - split; [eexists; reflexivity|].
    split; [intros e _; reflexivity|].
    split; [intros pd e H; discriminate|].
    split; [intros pd h H; discriminate|].
    split; [reflexivity | exact Hother].
Qed.

Example source_greenhouse : getJobBoardSource "boards.greenhouse.io" = "Greenhouse".
Proof. reflexivity. Qed.

Example source_join : getJobBoardSource "join.com" = "Personio".
Proof. reflexivity. Qed.

Example source_unknown : getJobBoardSource "careers.example.org" = "Other".
Proof. reflexivity. Qed.

Example extractMeta_on_sim :
  outcome (run (simDriver emptyPage) (extractMeta simRuntime) sim0)
  = Done {| m_company := "Acme"; m_title := "Engineer"; m_source := "Greenhouse" |}.
Proof. reflexivity. Qed.

(* ====================================================================== *)
(** * The submit step of the auto-submit configuration *)
(* ====================================================================== *)

Lemma submitStep_run {W : Type} (d : Driver W) (autoSubmit : bool) (w : W) (n : nat) :
  snd (answer d (Count AutoSubmit.submit) w) = Ok n ->
  let r := run d (AutoSubmit.submitStep autoSubmit) w in
  outcome r = Done (submitVerdict n autoSubmit)
  /\ writes (trace r)
     = if (positive n && autoSubmit)%bool then [Click AutoSubmit.submit] else [].
Proof.
  intro H. unfold AutoSubmit.submitStep. cbn.
  destruct (answer d (Count AutoSubmit.submit) w) as [w1 r1]. simpl in H. subst r1.
  cbn. unfold submitVerdict.
  destruct (positive n); destruct autoSubmit; cbn; auto.
  destruct (answer d (Click AutoSubmit.submit) w1) as [w2 [[]|e]]; cbn; auto.
Qed.

(* ====================================================================== *)
(** * Name fields *)
(* ====================================================================== *)

Lemma findFirstVisibleSelector_Uses (P : Cmd -> Prop) selectors label :
  (forall l, P (Count l)) -> (forall l, P (IsVisible l)) ->
  Uses P (findFirstVisibleSelector selectors label).
Proof.
  intros Hc Hv.
  induction selectors as [|s rest IH]; cbn [findFirstVisibleSelector].
  - tree.
  - apply Uses_bind.
    + apply Uses_try_catch; [|tree].
      unfold isThereAndVisible. tree.
    + intros [|]; [constructor | exact IH].
Qed.


Lemma findFirstVisibleSelector_In {W : Type} (d : Driver W) selectors label (w : W) s :
  outcome (run d (findFirstVisibleSelector selectors label) w) = Done (Some s) ->
  In s selectors.
Proof.
  revert w. induction selectors as [|x rest IH]; intro w;
    cbn [findFirstVisibleSelector].
  - cbn. discriminate.
  - rewrite run_bind.
    destruct (run d (try_catch _ _) w) as [[w1 t1] [[|]|e|]]; cbn.
    + intro H. injection H as <-. left. reflexivity.
    + specialize (IH w1). unfold outcome in *.
      destruct (run d (findFirstVisibleSelector rest label) w1) as [[w2 t2] o2].
      cbn in *. intro H. right. apply IH. exact H.
    + discriminate.
    + discriminate.
Qed.

Lemma pageFillQuietly_run {W : Type} (d : Driver W) selector value (w : W) :
  outcome (run d (pageFillQuietly selector value) w) = Done tt
  /\ writes (trace (run d (pageFillQuietly selector value) w)) = [PageFill selector value].
Proof.
  unfold pageFillQuietly. cbn.
  destruct (answer d (PageFill selector value) w) as [w1 [[]|e]]; cbn; auto.
Qed.


Section Names.

Context {W : Type} (d : Driver W) (reg : Registry) (user : User).


End Names.

Example names_split_even_with_full_name_present :
  writes (trace (run (simDriver (pageWith [firstInput; lastInput; fullInput]))
                     (fillNameFields registry jane) sim0))
  = [PageFill "input[name*=first i]" "Jane"; PageFill "input[name*=last i]" "Doe"].
Proof. vm_compute. reflexivity. Qed.

Example names_full_only :
  writes (trace (run (simDriver (pageWith [fullInput]))
                     (fillNameFields registry jane) sim0))
  = [PageFill ("input[autocomplete=" ++ q ++ "name" ++ q ++ "]") "Jane Doe"].
Proof. vm_compute. reflexivity. Qed.

Example names_by_label_when_only_first_found :
  writes (trace (run (simDriver (pageWith [firstInput; fullInput; ByLabel "First name";
                                           ByLabel "Last name"]))
                     (fillNameFields registry jane) sim0))
  = [Fill (First (ByLabel "First name")) "Jane"; Fill (First (ByLabel "Last name")) "Doe"].
Proof. vm_compute. reflexivity. Qed.

(* ====================================================================== *)
(** * Form stability *)
(* ====================================================================== *)

Arguments Js.showNat : simpl never.
Arguments Js.showZ : simpl never.

Lemma hasEqualRun4_short (l : list nat) :
  length l <= 3 -> hasEqualRun4 l = false.
Proof.
  destruct l as [|a [|b [|c [|e l]]]]; simpl; intro H; try reflexivity; lia.
Qed.

Lemma hasEqualRun4_skip (previous stable c : nat) (cs : list nat) :
  stable < 3 -> c <> previous ->
  hasEqualRun4 (repeat previous (S stable) ++ c :: cs) = hasEqualRun4 (c :: cs).
Proof.
  intros Hs Hc.
  assert (E : Nat.eqb previous c = false) by (apply Nat.eqb_neq; congruence).
  destruct stable as [|[|[|stable]]]; try lia;
    destruct cs as [|x [|y [|z cs]]]; simpl;
    rewrite ?E, ?andb_false_r, ?andb_false_l; simpl; reflexivity.
Qed.

Lemma hasEqualRun4_skip_removelast (previous stable c : nat) (cs : list nat) :
  stable < 3 -> c <> previous ->
  hasEqualRun4 (removelast (repeat previous (S stable) ++ c :: cs))
  = hasEqualRun4 (removelast (c :: cs)).
Proof.
  intros Hs Hc. rewrite removelast_app by discriminate.
  destruct cs as [|x cs].
  - cbn [removelast]. rewrite app_nil_r.
    rewrite hasEqualRun4_short by (rewrite repeat_length; lia). reflexivity.
  - change (removelast (c :: x :: cs)) with (c :: removelast (x :: cs)).
    apply hasEqualRun4_skip; assumption.
Qed.

Lemma repeat_shift (x : nat) (n : nat) (l : list nat) :
  (repeat x (S n) ++ l = repeat x n ++ x :: l)%list.
Proof.
  induction n as [|n IH]; [reflexivity|].
  change (repeat x (S (S n))) with (x :: repeat x (S n)).
  change (repeat x (S n)) with (x :: repeat x n) at 2.
  simpl app. f_equal. exact IH.
Qed.

Lemma hasEqualRun4_four (x : nat) : hasEqualRun4 (repeat x 3 ++ [x]) = true.
Proof. simpl. rewrite !Nat.eqb_refl. reflexivity. Qed.

Section Stability.

Context {W : Type} (d : Driver W).

Lemma stabilityLoop_post (maxWaitTime startTime : Z) (fuel : nat) :
  forall (w : W) (previous stable : nat),
    stable < 3 ->
    stabilityPost maxWaitTime startTime previous stable
      (trace (run d (stabilityLoop fuel maxWaitTime startTime previous stable) w))
      (outcome (run d (stabilityLoop fuel maxWaitTime startTime previous stable) w)).
Proof.
  induction fuel as [|fuel IH]; intros w previous stable Hs.
  - exact I.
  - cbn [stabilityLoop]. cbn [bind sync run].
    destruct (observe d DateNow w) as [w1 now].
    destruct (now - startTime <? maxWaitTime)%Z eqn:Hnow.
    + cbn -[Nat.leb Z.ltb Z.sub hasEqualRun4 repeat removelast]. destruct (answer d EvalFieldCount w1) as [w2 [c|e]]; [|exact I].
      cbn -[Nat.leb Z.ltb Z.sub hasEqualRun4 repeat removelast]. destruct (Nat.eqb c previous) eqn:Hc.
      * apply Nat.eqb_eq in Hc. subst c.
        destruct (3 <=? S stable)%nat eqn:H3.
        -- cbn -[Nat.leb Z.ltb Z.sub hasEqualRun4 repeat removelast]. destruct (observe d DateNow w2) as [w3 now']. cbn.
           apply Nat.leb_le in H3. assert (stable = 2) by lia. subst stable.
           split; [apply hasEqualRun4_four|].
           split; [reflexivity|]. exists 0. reflexivity.
        -- apply Nat.leb_gt in H3.
           cbn -[Nat.leb Z.ltb Z.sub hasEqualRun4 repeat removelast]. destruct (answer d (WaitForTimeout 500) w2) as [w3 [[]|e]]; [|exact I].
           cbn -[Nat.leb Z.ltb Z.sub stabilityLoop hasEqualRun4 repeat removelast].
           specialize (IH w3 previous (S stable) ltac:(lia)).
           destruct (run d (stabilityLoop fuel maxWaitTime startTime previous (S stable)) w3)
             as [[w4 t4] o4].
           unfold trace, outcome in *. cbn [fst snd] in *.
           unfold stabilityPost in *. cbn [pollCounts calls pollsAndPauses clockReadings].
           rewrite repeat_shift in IH.
           destruct o4 as [[|]|e|]; auto.
           ++ destruct IH as (Ha & Hb & k & Hk). repeat split; auto.
              exists (S k). cbn [pacing]. rewrite Hk. reflexivity.
           ++ destruct IH as (Ha & (k & Hk) & Hne & Hd). repeat split; auto.
              ** exists (S k). cbn [pacing]. rewrite Hk. reflexivity.
              ** discriminate.
              ** destruct (clockReadings t4); [congruence | exact Hd].
      * apply Nat.eqb_neq in Hc.
        cbn -[Nat.leb Z.ltb Z.sub hasEqualRun4 repeat removelast]. destruct (answer d (WaitForTimeout 500) w2) as [w3 [[]|e]]; [|exact I].
           cbn -[Nat.leb Z.ltb Z.sub stabilityLoop hasEqualRun4 repeat removelast].
        specialize (IH w3 c 0 ltac:(lia)).
        destruct (run d (stabilityLoop fuel maxWaitTime startTime c 0) w3)
          as [[w4 t4] o4].
        unfold trace, outcome in *. cbn [fst snd] in *.
        unfold stabilityPost in *. cbn [pollCounts calls pollsAndPauses clockReadings].
        change (repeat c 1 ++ pollCounts t4)%list with (c :: pollCounts t4) in IH.
        destruct o4 as [[|]|e|]; auto.
        -- destruct IH as (Ha & Hb & k & Hk).
           rewrite hasEqualRun4_skip, hasEqualRun4_skip_removelast by assumption.
           repeat split; auto.
           exists (S k). cbn [pacing]. rewrite Hk. reflexivity.
        -- destruct IH as (Ha & (k & Hk) & Hne & Hd).
           rewrite hasEqualRun4_skip by assumption.
           repeat split; auto.
           ++ exists (S k). cbn [pacing]. rewrite Hk. reflexivity.
           ++ discriminate.
           ++ destruct (clockReadings t4); [congruence | exact Hd].
    + cbn -[Nat.leb Z.ltb Z.sub hasEqualRun4 repeat removelast]. apply Z.ltb_ge in Hnow.
      split; [apply hasEqualRun4_short; rewrite app_nil_r, repeat_length; lia|].
      split; [exists 0; reflexivity|]. split; [discriminate | exact Hnow].
Qed.

End Stability.

Section StabilityClock.

Context {W : Type} (d : Driver W) (time : W -> Z).
Hypothesis T : Timed d time.

Lemma stabilityLoop_terminates (maxWaitTime startTime : Z) (fuel : nat) :
  forall (w : W) (previous stable : nat),
    (startTime + maxWaitTime - time w <= 500 * Z.of_nat fuel)%Z ->
    outcome (run d (stabilityLoop (S fuel) maxWaitTime startTime previous stable) w)
    <> Diverged.
Proof.
  induction fuel as [|fuel IH]; intros w previous stable Hb;
    cbn [stabilityLoop]; unfold sync, await, log; cbn [bind];
    rewrite outcome_Sync, (now_reads d time T w);
    pose proof (sync_mono d time T DateNow w) as Hm;
    destruct (time w - startTime <? maxWaitTime)%Z eqn:Hnow;
    try (rewrite outcome_Log; cbn; discriminate);
    apply Z.ltb_lt in Hnow; [lia|].
  rewrite outcome_Await.
  pose proof (call_mono d time T EvalFieldCount (fst (observe d DateNow w))) as Hm2.
  destruct (answer d EvalFieldCount (fst (observe d DateNow w))) as [w2 [c|e]];
    cbn [fst snd bind] in *; [|cbn; discriminate].
  assert (Hpause : forall p s,
             outcome
               (run d (Await (WaitForTimeout 500)
                         (fun r => bind match r with
                                        | Ok a => Ret a
                                        | Err e => Throw e
                                        end
                                     (fun _ => stabilityLoop (S fuel) maxWaitTime
                                                             startTime p s))) w2)
             <> Diverged).
  { intros p s. rewrite outcome_Await.
    pose proof (pause_advances d time T 500 w2) as Hp.
    destruct (answer d (WaitForTimeout 500) w2) as [w3 [[]|e]];
      cbn [fst snd bind]; [|cbn; discriminate].
    specialize (Hp w3 eq_refl). apply IH. lia. }
  destruct (Nat.eqb c previous).
  - destruct (3 <=? S stable)%nat.
    + rewrite outcome_Sync, outcome_Log. cbn. discriminate.
    + apply Hpause.
  - rewrite outcome_Log. apply Hpause.
Qed.

Lemma waitForFormStability_terminates (maxWaitTime : Z) (fuel : nat) (w : W) :
  (maxWaitTime <= 500 * Z.of_nat fuel)%Z ->
  outcome (run d (waitForFormStability (S fuel) maxWaitTime) w) <> Diverged.
Proof.
  intro Hb. unfold waitForFormStability, sync. cbn [bind].
  rewrite outcome_Sync, (now_reads d time T w).
  pose proof (sync_mono d time T DateNow w) as Hm.
  apply stabilityLoop_terminates. lia.
Qed.

End StabilityClock.

Lemma simDriver_Timed (pg : Page) : Timed (simDriver pg) sim_now.
Proof.
  constructor.
  - intro w. reflexivity.
  - intros s w. destruct s; cbn; lia.
  - intros c w. cbn. unfold simAnswer.
    destruct (page_rejects pg c); [cbn; lia|].
    destruct c; cbn; try lia.
    + destruct (sim_csv w); cbn; lia.
    + unfold nextCount. destruct (sim_counts w) as [|n [|m l]]; cbn; lia.
  - intros ms w w'. cbn. unfold simAnswer.
    destruct (page_rejects pg (WaitForTimeout ms)); [discriminate|].
    intro H. injection H as <-. cbn. lia.
Qed.

(** C6 (as the code has it).  The detector polls the field count and pauses
    500 ms after every poll that does not end it.  It returns [true] at the
    first poll that makes four equal values in a row in the sequence that
    starts with the initial [0] and continues with the polled counts, that
    is at the third poll in a row that equals the value before it; it
    returns [false] only when no such run occurred and the clock read at the
    top of the loop shows [maxWaitTime] elapsed.  With a clock that pauses
    advance, eleven iterations are enough for the default of 5000 ms: the
    detector always ends. *)
Theorem waitForFormStability_spec :
  forall (W : Type) (d : Driver W) (fuel : nat) (maxWaitTime : Z) (w : W),
    let r := run d (waitForFormStability fuel maxWaitTime) w in
    let history := 0 :: pollCounts (trace r) in
    (outcome r = Done true ->
     hasEqualRun4 history = true
     /\ hasEqualRun4 (removelast history) = false
     /\ exists k, pollsAndPauses (calls (trace r)) = pacing k [EvalFieldCount])
    /\ (outcome r = Done false ->
        hasEqualRun4 history = false
        /\ (exists k, pollsAndPauses (calls (trace r)) = pacing k [])
        /\ exists startTime later,
            clockReadings (trace r) = startTime :: later
            /\ later <> []
            /\ (maxWaitTime <= last later startTime - startTime)%Z)
    /\ (forall time n,
          Timed d time ->
          fuel = S n ->
          (maxWaitTime <= 500 * Z.of_nat n)%Z ->
          outcome r <> Diverged)
    /\ defaultMaxWaitTime = 5000%Z.
Proof.
  intros W d fuel maxWaitTime w r history.
  assert (Hpost :
            exists startTime tr,
              trace r = ESync DateNow startTime :: tr
              /\ stabilityPost maxWaitTime startTime 0 0 tr (outcome r)).
  { subst r. unfold waitForFormStability. cbn [bind sync run].
    destruct (observe d DateNow w) as [w1 start]. cbn [bind].
    pose proof (stabilityLoop_post d maxWaitTime start fuel w1 0 0 ltac:(lia)) as H.
    destruct (run d (stabilityLoop fuel maxWaitTime start 0 0) w1) as [[w2 t2] o2].
    exists start, t2. split; [reflexivity | exact H]. }
  destruct Hpost as (start & tr & Htr & Hpost).
  subst history. rewrite Htr. cbn [pollCounts calls pollsAndPauses clockReadings].
  unfold stabilityPost in Hpost.
  change (repeat 0 1 ++ pollCounts tr)%list with (0 :: pollCounts tr) in Hpost.
  split; [intro Ho; rewrite Ho in Hpost; exact Hpost|].
  split.
  { intro Ho. rewrite Ho in Hpost. destruct Hpost as (Ha & Hk & Hne & Hd).
    split; [exact Ha|]. split; [exact Hk|].
    exists start, (clockReadings tr). repeat split; assumption. }
  split; [|reflexivity].
  intros time n T -> Hb. subst r.
  apply (waitForFormStability_terminates d time T). exact Hb.
Qed.

Lemma waitForFormStability_spec_witness :
  Timed (simDriver emptyPage) sim_now
  /\ (5000 <= 500 * Z.of_nat 10)%Z
  /\ outcome (run (simDriver emptyPage) (waitForFormStability 11 5000) (simCounts [4]))
     <> Diverged.
Proof.
  split; [apply simDriver_Timed|].
  split; [lia|].
  exact (proj1 (proj2 (proj2
    (waitForFormStability_spec Sim (simDriver emptyPage) 11 5000 (simCounts [4]))))
    sim_now 10 (simDriver_Timed emptyPage) eq_refl ltac:(lia)).
Defined.

(** C6 as stated fails: the first three polls return the same count, 5, and
    the detector does not return [true] there; it polls on, the count
    changes, and the run ends with [false] at the timeout. *)
Lemma three_equal_polls_do_not_stabilise :
  let r := run (simDriver emptyPage) (waitForFormStability 11 5000)
               (simCounts [5; 5; 5; 6; 7; 8; 9; 10; 11; 12; 13]) in
  pollCounts (trace r) = [5; 5; 5; 6; 7; 8; 9; 10; 11; 12]
  /\ hasEqualRun3 (pollCounts (trace r)) = true
  /\ outcome r = Done false.
Proof. vm_compute. repeat split; reflexivity. Qed.

Example stable_page_needs_four_polls :
  let r := run (simDriver emptyPage) (waitForFormStability 11 5000) (simCounts [5]) in
  pollCounts (trace r) = [5; 5; 5; 5] /\ outcome r = Done true.
Proof. vm_compute. split; reflexivity. Qed.

Example empty_page_needs_three_polls :
  let r := run (simDriver emptyPage) (waitForFormStability 11 5000) (simCounts [0]) in
  pollCounts (trace r) = [0; 0; 0] /\ outcome r = Done true.
Proof. vm_compute. split; reflexivity. Qed.

(* ====================================================================== *)
(** * Order of the strategies for the generic fields *)
(* ====================================================================== *)

Lemma TwoPhase_bind (P1 P2 : Cmd -> Prop) {A B : Type} (p : Prog A) (f : A -> Prog B) :
  Uses P1 p -> (forall a, TwoPhase P1 P2 (f a)) -> TwoPhase P1 P2 (bind p f).
Proof.
  induction 1 as [a|e| |c k Hc _ IH|s k _ IH|msg k _ IH]; intro Hf; simpl.
  - apply Hf.
  - apply TwoPhase_switch. constructor.
  - apply TwoPhase_switch. constructor.
  - apply TwoPhase_Await; [exact Hc|]. intro r. apply IH. exact Hf.
  - apply TwoPhase_Sync. intro r. apply IH. exact Hf.
  - apply TwoPhase_Log. apply IH. exact Hf.
Qed.

Lemma TwoPhase_run (P1 P2 : Cmd -> Prop) {W A : Type} (d : Driver W) (p : Prog A) :
  TwoPhase P1 P2 p ->
  forall w, exists t1 t2,
      trace (run d p w) = (t1 ++ t2)%list
      /\ Forall P1 (calls t1) /\ Forall P2 (calls t2).
Proof.
  induction 1 as [p Hp|c k Hc _ IH|s k _ IH|msg k _ IH]; intro w.
  - exists [], (trace (run d p w)). split; [reflexivity|].
    split; [constructor | apply Uses_run; exact Hp].
  - simpl. destruct (answer d c w) as [w1 r].
    destruct (IH r w1) as (t1 & t2 & Ht & H1 & H2).
    unfold trace in *. destruct (run d (k r) w1) as [[w2 t] o]. simpl in *.
    exists (ECall c r :: t1), t2. subst t. split; [reflexivity|].
    split; [constructor; assumption | exact H2].
  - simpl. destruct (observe d s w) as [w1 r].
    destruct (IH r w1) as (t1 & t2 & Ht & H1 & H2).
    unfold trace in *. destruct (run d (k r) w1) as [[w2 t] o]. simpl in *.
    exists (ESync s r :: t1), t2. subst t. split; [reflexivity|].
    split; assumption.
  - simpl. destruct (IH w) as (t1 & t2 & Ht & H1 & H2).
    unfold trace in *. destruct (run d k w) as [[w2 t] o]. simpl in *.
    exists (ELog msg :: t1), t2. subst t. split; [reflexivity|].
    split; assumption.
Qed.

Lemma fillGenericField_Uses_notLabelProbe fieldType value fieldName :
  Uses notLabelProbe (fillGenericField fieldType value fieldName).
Proof. unfold fillGenericField, isThereAndVisible, notLabelProbe. tree. Qed.

Lemma fillTextByLabel_Uses_notSelectorProbe labels value fieldName :
  Uses notSelectorProbe (fillTextByLabel labels value fieldName).
Proof. unfold fillTextByLabel, notSelectorProbe. tree. Qed.

Lemma fillContactFields_TwoPhase (user : User) :
  TwoPhase notLabelProbe notSelectorProbe (fillContactFields user).
Proof.
  unfold fillContactFields.
  repeat (apply TwoPhase_bind; [apply fillGenericField_Uses_notLabelProbe | intros]).
  apply TwoPhase_switch.
  unfold unless, ignore, urlFields.
  repeat first [ apply fillTextByLabel_Uses_notSelectorProbe
               | tree_step; intros ].
Qed.

Lemma probes_app (l1 l2 : list Cmd) : probes (l1 ++ l2) = (probes l1 ++ probes l2)%list.
Proof.
  induction l1 as [|c l1 IH]; simpl; [reflexivity|].
  destruct (isCount c); simpl; rewrite IH; reflexivity.
Qed.

Lemma okFills_app (t1 t2 : list Event) : okFills (t1 ++ t2) = (okFills t1 ++ okFills t2)%list.
Proof.
  induction t1 as [|[c r|s r|msg] t1 IH]; simpl; rewrite ?IH; try reflexivity.
  destruct c; try reflexivity. destruct r; simpl; rewrite ?IH; reflexivity.
Qed.

Section Generic.

Context {W : Type} (d : Driver W).

(** One round of the selector loop of [fillGenericField], or its
    nearby-text block: one probe of [locator], and a resolved fill exactly
    when the round answers [true]. *)
Lemma generic_round (locator : Locator) (value okMsg : string) (w : W) :
  exists w' t b,
    run d (try_catch
             (isVisible <- isThereAndVisible locator ;;
              if isVisible then
                await (Fill locator value) ;; log okMsg ;; Ret true
              else Ret false)
             (fun _ => Ret false)) w = (w', t, Done b)
    /\ probes (calls t) = [locator]
    /\ okFills t = if b then [locator] else [].
Proof.
  unfold isThereAndVisible. cbn.
  destruct (answer d (Count locator) w) as [w1 [n|e]]; cbn;
    [|eexists; eexists; exists false; repeat split; reflexivity].
  destruct (positive n); cbn;
    [|eexists; eexists; exists false; repeat split; reflexivity].
  destruct (answer d (IsVisible locator) w1) as [w2 [[|]|e]]; cbn;
    try (eexists; eexists; exists false; repeat split; reflexivity);
    destruct (answer d (Fill locator value) w2) as [w3 [[]|e']]; cbn;
    first [ eexists; eexists; exists true; repeat split; reflexivity
          | eexists; eexists; exists false; repeat split; reflexivity ].
Qed.

Lemma generic_loop (selectors : list string) (value fieldName : string) (w : W) :
  exists w' t b k,
    run d (forEachTry selectors (fun selector =>
             let locator := First (Css selector) in
             isVisible <- isThereAndVisible locator ;;
             if isVisible then
               await (Fill locator value) ;;
               log ("generic: ok   " ++ fieldName ++ " via " ++ selector) ;;
               Ret true
             else Ret false)) w = (w', t, Done b)
    /\ probes (calls t) = map (fun s => First (Css s)) (firstn k selectors)
    /\ (b = false -> firstn k selectors = selectors /\ okFills t = [])
    /\ (b = true -> exists s, okFills t = [First (Css s)] /\ In s selectors).
Proof.
  match goal with |- context [forEachTry _ ?f] => set (body := f) end.
  revert w. induction selectors as [|s rest IH]; intro w.
  - exists w, [], false, 0. cbn. repeat split; try reflexivity. discriminate.
  - cbn [forEachTry]. rewrite run_bind.
    destruct (generic_round (First (Css s)) value
                ("generic: ok   " ++ fieldName ++ " via " ++ s) w)
      as (w1 & t1 & b1 & E1 & Hp1 & Hf1).
    change (run d (try_catch (body s) (fun _ => Ret false)) w = (w1, t1, Done b1)) in E1.
    rewrite E1.
    destruct b1.
    + cbn [run]. exists w1, (t1 ++ [])%list, true, 1.
      rewrite app_nil_r. split; [reflexivity|].
      split; [exact Hp1|]. split; [discriminate|].
      intros _. exists s. split; [exact Hf1 | left; reflexivity].
    + destruct (IH w1) as (w2 & t2 & b2 & k & E2 & Hp2 & Hfalse & Htrue).
      rewrite E2. exists w2, (t1 ++ t2)%list, b2, (S k).
      split; [reflexivity|].
      split; [rewrite calls_app, probes_app, Hp1, Hp2; reflexivity|].
      split.
      * intro Hb. destruct (Hfalse Hb) as [Hk Ho].
        split; [cbn [firstn]; rewrite Hk; reflexivity|].
        rewrite okFills_app, Hf1, Ho. reflexivity.
      * intro Hb. destruct (Htrue Hb) as (s' & Ho & Hin).
        exists s'. split; [rewrite okFills_app, Hf1, Ho; reflexivity|].
        right. exact Hin.
Qed.

End Generic.

Lemma fillGenericField_shape {W : Type} (d : Driver W)
      (fieldType value fieldName : string) (w : W) :
  value <> "" ->
  let r := run d (fillGenericField fieldType (Some value) fieldName) w in
  exists b,
    outcome r = Done b
    /\ ((b = true
         /\ (exists k, probes (calls (trace r)) = firstn k (structuralLocators fieldType))
         /\ exists l, okFills (trace r) = [l] /\ In l (structuralLocators fieldType))
        \/ (probes (calls (trace r))
            = (structuralLocators fieldType ++ [nearbyInput fieldType])%list
            /\ okFills (trace r) = if b then [nearbyInput fieldType] else [])).
Proof.
  intros Hv r. subst r. unfold fillGenericField.
  destruct value as [|c0 value0]; [congruence|].
  cbn [Js.truthy Js.isEmpty negb Js.orElse].
  set (value := String c0 value0).
  set (selectors := match GENERIC_SELECTORS fieldType with Some l => l | None => [] end).
  cbv zeta.
  rewrite run_bind.
  destruct (generic_loop d selectors value fieldName w)
    as (w1 & t1 & b1 & k & E1 & Hp1 & Hfalse & Htrue).
  match goal with
  | |- context [run d (forEachTry selectors ?f) w] =>
      change (run d (forEachTry selectors f) w) with
        (run d (forEachTry selectors (fun selector =>
             let locator := First (Css selector) in
             isVisible <- isThereAndVisible locator ;;
             if isVisible then
               await (Fill locator value) ;;
               log ("generic: ok   " ++ fieldName ++ " via " ++ selector) ;;
               Ret true
             else Ret false)) w)
  end.
  rewrite E1.
  destruct b1.
  - cbn [run]. exists true. unfold outcome, trace. cbn [fst snd].
    split; [reflexivity|]. left. split; [reflexivity|].
    rewrite app_nil_r. split.
    + exists k. rewrite Hp1. unfold structuralLocators. fold selectors.
      symmetry. apply firstn_map.
    + destruct (Htrue eq_refl) as (s & Ho & Hin).
      exists (First (Css s)). split; [exact Ho|].
      unfold structuralLocators. fold selectors.
      apply in_map_iff. exists s. split; [reflexivity | exact Hin].
  - destruct (Hfalse eq_refl) as [Hk Ho].
    rewrite run_bind.
    destruct (generic_round d (nearbyInput fieldType) value
                ("generic: ok   " ++ fieldName ++ " via nearby text " ++ q
                 ++ Js.toLowerCase fieldType ++ q) w1)
      as (w2 & t2 & b2 & E2 & Hp2 & Hf2).
    match goal with
    | |- context [run d (try_catch ?p ?h) w1] =>
        change (run d (try_catch p h) w1) with
          (run d (try_catch
             (isVisible <- isThereAndVisible (nearbyInput fieldType) ;;
              if isVisible then
                await (Fill (nearbyInput fieldType) value) ;;
                log ("generic: ok   " ++ fieldName ++ " via nearby text " ++ q
                     ++ Js.toLowerCase fieldType ++ q) ;;
                Ret true
              else Ret false)
             (fun _ => Ret false)) w1)
    end.
    rewrite E2.
    exists b2.
    assert (Hshape : probes (calls (t1 ++ t2))
                     = (structuralLocators fieldType ++ [nearbyInput fieldType])%list
                     /\ okFills (t1 ++ t2) = if b2 then [nearbyInput fieldType] else []).
    { rewrite calls_app, probes_app, okFills_app, Hp1, Hp2, Hk, Ho, Hf2.
      split; reflexivity. }
    destruct Hshape as [Hs1 Hs2].
    destruct b2; cbn [run bind log]; unfold outcome, trace; cbn [fst snd].
    + split; [reflexivity|]. right. rewrite !app_nil_r.
      split; [exact Hs1 | exact Hs2].
    + split; [reflexivity|]. right.
      rewrite !calls_app, !probes_app, !okFills_app in *.
      cbn [calls probes okFills app]. rewrite !app_nil_r.
      split; [exact Hs1 | exact Hs2].
Qed.

(** C8 as stated fails.  On a page where nothing matches, the nearby-text
    probe for the email field is the seventh probe and the first label probe
    for it comes later.  On a page where the nearby text and the label
    [Email] both match, the value is written through the nearby-text
    locator and the label is never probed. *)
Lemma nearby_text_tried_before_labels :
  let blank := probes (calls (trace (run (simDriver emptyPage)
                                         (fillContactFields jane) sim0))) in
  let both := run (simDriver (pageWith [nearbyInput "email"; ByLabel "Email"]))
                  (fillContactFields jane) sim0 in
  indexOf (nearbyInput "email") blank = Some 6
  /\ indexOf (ByLabel "Email") blank = Some 7
  /\ indexOf (ByRole Textbox "Email") blank = Some 13
  /\ writes (trace both) = [Fill (nearbyInput "email") "a@b.com"]
  /\ indexOf (ByLabel "Email") (probes (calls (trace both))) = None.
Proof. vm_compute. repeat split; reflexivity. Qed.

(* ====================================================================== *)
(** * Built-in defaults of the additional questions *)
(* ====================================================================== *)

Section Defaults.

Context {W : Type} (d : Driver W).

Lemma selectByLabel_first (l : string) (ls : list string) (value fieldName : string) (w : W) :
  value <> "" ->
  In (Count (ByLabel l))
     (calls (trace (run d (selectByLabel (l :: ls) (Some value) fieldName) w)))
  /\ (Present d l ->
      In (SelectOptionLabel (First (ByLabel l)) value)
         (calls (trace (run d (selectByLabel (l :: ls) (Some value) fieldName) w)))).
Proof.
  intro Hv. destruct value as [|c0 v0]; [congruence|].
  unfold selectByLabel.
  cbn [Js.truthy Js.isEmpty negb Js.orElse forEachTry bind try_catch await].
  rewrite trace_Await. cbn [calls].
  split; [left; reflexivity|].
  intro Hp. destruct (Hp w) as [n Hn]. rewrite Hn.
  cbn [bind try_catch positive Nat.eqb negb].
  rewrite trace_Await. cbn [calls]. right. left. reflexivity.
Qed.

Lemma fillTextByLabel_first (l : string) (ls : list string) (value fieldName : string) (w : W) :
  value <> "" ->
  In (Count (ByLabel l))
     (calls (trace (run d (fillTextByLabel (l :: ls) (Some value) fieldName) w)))
  /\ (Present d l ->
      In (Fill (First (ByLabel l)) value)
         (calls (trace (run d (fillTextByLabel (l :: ls) (Some value) fieldName) w)))).
Proof.
  intro Hv. destruct value as [|c0 v0]; [congruence|].
  unfold fillTextByLabel.
  cbn [Js.truthy Js.isEmpty negb Js.orElse forEachTry bind try_catch await].
  rewrite trace_Await. cbn [calls].
  split; [left; reflexivity|].
  intro Hp. destruct (Hp w) as [n Hn]. rewrite Hn.
  cbn [bind try_catch positive Nat.eqb negb].
  rewrite trace_Await. cbn [calls]. right. left. reflexivity.
Qed.

End Defaults.

Lemma In_writes (c : Cmd) (tr : list Event) :
  In c (calls tr) -> isWrite c = true -> In c (writes tr).
Proof. intros H1 H2. unfold writes. apply filter_In. split; assumption. Qed.

Lemma orElse_default (value : option string) (default : string) :
  Js.truthy value = false -> Js.orElse value default = default.
Proof. destruct value as [[|? ?]|]; try reflexivity; discriminate. Qed.

Lemma gender_Returns (L : Labels) (user : User) :
  Returns (if Js.truthy (gender user)
           then ignore (clickRadioByLabel (l_gender L) (gender user) "gender")
           else Ret tt).
Proof.
  destruct (Js.truthy (gender user)); [|constructor].
  unfold ignore. apply Returns_bind; [apply clickRadioByLabel_Returns|].
  intro; constructor.
Qed.

(** C10. Each of the four fields is filled with its built-in default when
    the profile omits it, whatever the profile says about the other three.
    When [location] is missing or empty the block of additional questions
    still probes the first country label and, on a page where that label
    matches a control, issues the write of [Germany]; the same holds for
    [taxResidence] with [Germany], for [noticePeriod] with [Immediate] and
    for [salary] with [Flexible].  This holds for the label registry of
    either revision of the runner. *)
Theorem defaults_fill_absent_fields :
  forall (W : Type) (d : Driver W) (L : Labels) (user : User) (w : W)
         (country tax notice pay : string) (cs ts ns ps : list string),
    l_country L = country :: cs ->
    l_tax L = tax :: ts ->
    l_notice L = notice :: ns ->
    l_salary L = pay :: ps ->
    let tr := trace (run d (fillAdditionalQuestions L user) w) in
    (Js.truthy (location user) = false ->
     In (Count (ByLabel country)) (calls tr)
     /\ (Present d country ->
         In (SelectOptionLabel (First (ByLabel country)) "Germany") (writes tr)))
    /\ (Js.truthy (taxResidence user) = false ->
        In (Count (ByLabel tax)) (calls tr)
        /\ (Present d tax ->
            In (SelectOptionLabel (First (ByLabel tax)) "Germany") (writes tr)))
    /\ (Js.truthy (noticePeriod user) = false ->
        In (Count (ByLabel notice)) (calls tr)
        /\ (Present d notice -> In (Fill (First (ByLabel notice)) "Immediate") (writes tr)))
    /\ (Js.truthy (salary user) = false ->
        In (Count (ByLabel pay)) (calls tr)
        /\ (Present d pay -> In (Fill (First (ByLabel pay)) "Flexible") (writes tr))).
Proof.
  intros W d L user w country tax notice pay cs ts ns ps Hc Ht Hn Hp tr.
  pose proof (gender_Returns L user) as Rg.
  subst tr. split; [|split; [|split]].
  - intro Habsent.
    assert (H : forall x,
      (x = Count (ByLabel country)
       \/ (Present d country /\ x = SelectOptionLabel (First (ByLabel country)) "Germany")) ->
      In x (calls (trace (run d (fillAdditionalQuestions L user) w)))).
    { intros x Hx. unfold fillAdditionalQuestions.
      rewrite Hc, (orElse_default _ "Germany" Habsent).
      apply In_calls_bind_r; [exact Rg|]. intros _ w1.
      apply In_calls_bind_l.
      destruct (selectByLabel_first d country cs "Germany" "country" w1 ltac:(discriminate))
        as [H1 H2].
      destruct Hx as [->|[Hpres ->]]; [exact H1 | exact (H2 Hpres)]. }
    split; [apply H; left; reflexivity|].
    intro P. apply In_writes; [apply H; right; auto | reflexivity].
  - intro Habsent.
    assert (H : forall x,
      (x = Count (ByLabel tax)
       \/ (Present d tax /\ x = SelectOptionLabel (First (ByLabel tax)) "Germany")) ->
      In x (calls (trace (run d (fillAdditionalQuestions L user) w)))).
    { intros x Hx. unfold fillAdditionalQuestions.
      rewrite Ht, (orElse_default _ "Germany" Habsent).
      apply In_calls_bind_r; [exact Rg|]. intros _ w1.
      apply In_calls_bind_r; [apply selectByLabel_Returns|]. intros _ w2.
      apply In_calls_bind_l.
      destruct (selectByLabel_first d tax ts "Germany" "tax" w2 ltac:(discriminate))
        as [H1 H2].
      destruct Hx as [->|[Hpres ->]]; [exact H1 | exact (H2 Hpres)]. }
    split; [apply H; left; reflexivity|].
    intro P. apply In_writes; [apply H; right; auto | reflexivity].
  - intro Habsent.
    assert (H : forall x,
      (x = Count (ByLabel notice)
       \/ (Present d notice /\ x = Fill (First (ByLabel notice)) "Immediate")) ->
      In x (calls (trace (run d (fillAdditionalQuestions L user) w)))).
    { intros x Hx. unfold fillAdditionalQuestions.
      rewrite Hn, (orElse_default _ "Immediate" Habsent). cbv zeta.
      apply In_calls_bind_r; [exact Rg|]. intros _ w1.
      apply In_calls_bind_r; [apply selectByLabel_Returns|]. intros _ w2.
      apply In_calls_bind_r; [apply selectByLabel_Returns|]. intros _ w3.
      apply In_calls_bind_l.
      destruct (fillTextByLabel_first d notice ns "Immediate" "notice" w3 ltac:(discriminate))
        as [H1 H2].
      destruct Hx as [->|[Hpres ->]]; [exact H1 | exact (H2 Hpres)]. }
    split; [apply H; left; reflexivity|].
    intro P. apply In_writes; [apply H; right; auto | reflexivity].
  - intro Habsent.
    assert (H : forall x,
      (x = Count (ByLabel pay)
       \/ (Present d pay /\ x = Fill (First (ByLabel pay)) "Flexible")) ->
      In x (calls (trace (run d (fillAdditionalQuestions L user) w)))).
    { intros x Hx. unfold fillAdditionalQuestions.
      rewrite Hp, (orElse_default _ "Flexible" Habsent). cbv zeta.
      apply In_calls_bind_r; [exact Rg|]. intros _ w1.
      apply In_calls_bind_r; [apply selectByLabel_Returns|]. intros _ w2.
      apply In_calls_bind_r; [apply selectByLabel_Returns|]. intros _ w3.
      apply In_calls_bind_r; [apply fillTextByLabel_Returns|]. intros _ w4.
      apply In_calls_bind_l.
      destruct (fillTextByLabel_first d pay ps "Flexible" "salary" w4 ltac:(discriminate))
        as [H1 H2].
      destruct Hx as [->|[Hpres ->]]; [exact H1 | exact (H2 Hpres)]. }
    split; [apply H; left; reflexivity|].
    intro P. apply In_writes; [apply H; right; auto | reflexivity].
Qed.

Lemma sim_Present (cands : list Locator) (l : string) :
  among cands (ByLabel l) = true -> Present (simDriver (pageWith cands)) l.
Proof.
  intros H w. exists 0. cbn. rewrite H. reflexivity.
Qed.

Lemma defaults_fill_absent_fields_witness :
  let tr := trace (run (simDriver defaultsPage)
                       (fillAdditionalQuestions FIELD_LABELS noNotice) sim0) in
  Js.truthy (noticePeriod noNotice) = false
  /\ Js.truthy (salary noNotice) = true
  /\ Present (simDriver defaultsPage) "Notice period"
  /\ In (Count (ByLabel "Notice period")) (calls tr)
  /\ In (Fill (First (ByLabel "Notice period")) "Immediate") (writes tr).
Proof.
  split; [reflexivity|]. split; [reflexivity|].
  split; [apply (sim_Present defaultsControls); reflexivity|].
  pose proof (proj1 (proj2 (proj2
    (defaults_fill_absent_fields Sim (simDriver defaultsPage) FIELD_LABELS noNotice sim0
       "What country do you currently live in" "Tax residence" "Notice period"
       "Salary expectations" _ _ _ _
       eq_refl eq_refl eq_refl eq_refl))) eq_refl) as [H1 H2].
  split; [exact H1|].
  exact (H2 (sim_Present defaultsControls "Notice period" eq_refl)).
Defined.

Example one_absent_field_gets_its_default :
  writes (trace (run (simDriver defaultsPage)
                     (fillAdditionalQuestions FIELD_LABELS noNotice) sim0))
  = [ SelectOptionLabel (First (ByLabel "What country do you currently live in")) "Austria";
      SelectOptionLabel (First (ByLabel "Tax residence")) "Austria";
      Fill (First (ByLabel "Notice period")) "Immediate";
      Fill (First (ByLabel "Salary expectations")) "70000" ].
Proof. vm_compute. reflexivity. Qed.

Example defaults_written_on_page :
  writes (trace (run (simDriver defaultsPage)
                     (fillAdditionalQuestions FIELD_LABELS jane) sim0))
  = [ SelectOptionLabel (First (ByLabel "What country do you currently live in")) "Germany";
      SelectOptionLabel (First (ByLabel "Tax residence")) "Germany";
      Fill (First (ByLabel "Notice period")) "Immediate";
      Fill (First (ByLabel "Salary expectations")) "Flexible" ].
Proof. vm_compute. reflexivity. Qed.

Example defaults_written_on_page_auto_submit :
  writes (trace (run (simDriver defaultsPage)
                     (fillAdditionalQuestions AutoSubmit.L jane) sim0))
  = [ SelectOptionLabel (First (ByLabel "What country do you currently live in")) "Germany";
      SelectOptionLabel (First (ByLabel "Tax residence")) "Germany";
      Fill (First (ByLabel "Notice period")) "Immediate";
      Fill (First (ByLabel "Salary expectations")) "Flexible" ].
Proof. vm_compute. reflexivity. Qed.

(* ====================================================================== *)
(** * One URL of the batch *)
(* ====================================================================== *)

Section Semantic.

Context {W : Type} (d : Driver W).

Lemma Bounded_Ends {A : Type} (p : Prog A) : Bounded p -> Ends d p.
Proof. intros H w. apply Bounded_run. exact H. Qed.

Lemma Ends_bind {A B : Type} (p : Prog A) (f : A -> Prog B) :
  Ends d p -> (forall a, Ends d (f a)) -> Ends d (bind p f).
Proof.
  intros Hp Hf w. rewrite run_bind. specialize (Hp w).
  destruct (run d p w) as [[w1 t1] [a|e|]]; unfold outcome in *; cbn [snd] in *;
    try discriminate; try congruence.
  specialize (Hf a w1). destruct (run d (f a) w1) as [[w2 t2] o2]. exact Hf.
Qed.

Lemma Ends_try_catch {A : Type} (p : Prog A) (h : Exn -> Prog A) :
  Ends d p -> (forall e, Ends d (h e)) -> Ends d (try_catch p h).
Proof.
  intros Hp Hh w. rewrite run_try_catch. specialize (Hp w).
  destruct (run d p w) as [[w1 t1] [a|e|]]; unfold outcome in *; cbn [snd] in *;
    try discriminate; try congruence.
  specialize (Hh e w1). destruct (run d (h e) w1) as [[w2 t2] o2]. exact Hh.
Qed.

Lemma Yields_bind {A B : Type} (p : Prog A) (f : A -> Prog B) (Q : B -> Prop) :
  (forall a, Yields d (f a) Q) -> Yields d (bind p f) Q.
Proof.
  intros Hf w b. rewrite run_bind.
  destruct (run d p w) as [[w1 t1] [a|e|]]; unfold outcome; cbn [snd];
    try discriminate.
  specialize (Hf a w1 b). destruct (run d (f a) w1) as [[w2 t2] o2]. exact Hf.
Qed.

(** A protected block always decides: it returns what the block returned
    or what the handler made of the exception. *)
Lemma try_catch_decides {A : Type} (p : Prog A) (m : Exn -> string) (h : Exn -> A)
      (w : W) :
  outcome (run d p w) <> Diverged ->
  exists a,
    outcome (run d (try_catch p (fun e => log (m e) ;; Ret (h e))) w) = Done a
    /\ (forall x, outcome (run d p w) = Done x -> a = x)
    /\ (forall e, outcome (run d p w) = Raised e -> a = h e)
    /\ calls (trace (run d (try_catch p (fun e => log (m e) ;; Ret (h e))) w))
       = calls (trace (run d p w)).
Proof.
  intro Hd. rewrite run_try_catch.
  destruct (run d p w) as [[w1 t1] [a|e|]]; unfold outcome, trace in *; cbn [fst snd] in *.
  - exists a. repeat split; try congruence.
  - exists (h e). cbn. rewrite calls_app. cbn. rewrite app_nil_r.
    repeat split; try congruence.
  - congruence.
Qed.

End Semantic.

(** ** Nothing but [appendCsv] touches the log file *)

Lemma fillTextByLabel_notAppend labels value fieldName :
  Uses notAppend (fillTextByLabel labels value fieldName).
Proof. unfold fillTextByLabel. tree. Qed.

Lemma clickRadioByLabel_notAppend labels optionText fieldName :
  Uses notAppend (clickRadioByLabel labels optionText fieldName).
Proof. unfold clickRadioByLabel. tree. Qed.

Lemma selectByLabel_notAppend labels value fieldName :
  Uses notAppend (selectByLabel labels value fieldName).
Proof. unfold selectByLabel. tree. Qed.

Lemma setFileByLabel_notAppend labels filePath fieldName :
  Uses notAppend (setFileByLabel labels filePath fieldName).
Proof. unfold setFileByLabel. tree. Qed.

Lemma fillGenericField_notAppend fieldType value fieldName :
  Uses notAppend (fillGenericField fieldType value fieldName).
Proof. unfold fillGenericField, isThereAndVisible. tree. Qed.

Lemma debugFormFields_notAppend : Uses notAppend debugFormFields.
Proof. unfold debugFormFields. tree. Qed.

Lemma extractMeta_notAppend rt : Uses notAppend (extractMeta rt).
Proof. unfold extractMeta. tree. Qed.

Lemma stabilityLoop_notAppend fuel maxWaitTime startTime previous stable :
  Uses notAppend (stabilityLoop fuel maxWaitTime startTime previous stable).
Proof.
  revert previous stable.
  induction fuel as [|fuel IH]; intros previous stable; cbn [stabilityLoop].
  - constructor.
  - repeat first [ apply IH | tree_step; intros ].
Qed.

Lemma waitForFormStability_notAppend fuel maxWaitTime :
  Uses notAppend (waitForFormStability fuel maxWaitTime).
Proof.
  unfold waitForFormStability. apply Uses_bind; [apply Uses_sync|].
  intro. apply stabilityLoop_notAppend.
Qed.

Lemma fillNameFields_notAppend reg user : Uses notAppend (fillNameFields reg user).
Proof.
  unfold fillNameFields, pageFillQuietly, ignore.
  repeat (apply Uses_bind;
          [apply findFirstVisibleSelector_Uses; intro; exact I | intros]).
  destruct a as [f|]; destruct a0 as [l|]; destruct a1 as [u|];
    repeat first [ apply fillTextByLabel_notAppend | tree_step; intros ].
Qed.

Lemma fillContactFields_notAppend user : Uses notAppend (fillContactFields user).
Proof.
  unfold fillContactFields, unless, ignore.
  repeat first [ apply fillGenericField_notAppend | apply fillTextByLabel_notAppend
               | tree_step; intros ].
Qed.

Lemma uploadResume_notAppend L user : Uses notAppend (uploadResume L user).
Proof.
  unfold uploadResume, ignore.
  repeat first [ apply setFileByLabel_notAppend | tree_step; intros ].
Qed.

Lemma fillAdditionalQuestions_notAppend L user :
  Uses notAppend (fillAdditionalQuestions L user).
Proof.
  unfold fillAdditionalQuestions, ignore.
  repeat first [ apply clickRadioByLabel_notAppend | apply selectByLabel_notAppend
               | apply fillTextByLabel_notAppend | tree_step; intros ].
Qed.

Lemma holdForReview_notAppend : Uses notAppend holdForReview.
Proof. unfold holdForReview, showHoldBanner. tree. Qed.

Lemma fillAndHold_notAppend fuel user meta : Uses notAppend (fillAndHold fuel user meta).
Proof.
  unfold fillAndHold.
  repeat first [ apply waitForFormStability_notAppend | apply debugFormFields_notAppend
               | apply fillNameFields_notAppend | apply fillContactFields_notAppend
               | apply uploadResume_notAppend | apply fillAdditionalQuestions_notAppend
               | apply holdForReview_notAppend | tree_step; intros ].
Qed.

Lemma attempt_notAppend fuel rt user url : Uses notAppend (attempt fuel rt user url).
Proof.
  unfold attempt, reportError.
  repeat first [ apply extractMeta_notAppend | apply fillAndHold_notAppend
               | tree_step; intros ].
Qed.

Lemma AutoSubmit_fillAndSubmit_notAppend autoSubmit user meta :
  Uses notAppend (AutoSubmit.fillAndSubmit autoSubmit user meta).
Proof.
  unfold AutoSubmit.fillAndSubmit, AutoSubmit.fillContactFields, AutoSubmit.submitStep,
    ignore.
  repeat first [ apply fillNameFields_notAppend | apply fillTextByLabel_notAppend
               | apply uploadResume_notAppend | apply fillAdditionalQuestions_notAppend
               | tree_step; intros ].
Qed.

Lemma AutoSubmit_attempt_notAppend autoSubmit rt user url :
  Uses notAppend (AutoSubmit.attempt autoSubmit rt user url).
Proof.
  unfold AutoSubmit.attempt, reportError.
  repeat first [ apply extractMeta_notAppend | apply AutoSubmit_fillAndSubmit_notAppend
               | tree_step; intros ].
Qed.

Arguments Csv.csvLine : simpl never.
Arguments Js.take : simpl never.

Section OneUrl.

Context {W : Type} (d : Driver W).
Hypothesis HA : AppendsSucceed d.

(** Whatever the protected block decided is what gets recorded, in exactly
    one appended line. *)
Lemma processUrlWith_run (rt : Runtime) (user : User) (total jobNumber : nat)
      (url : string) (attempted : Prog (Meta * (string * string))) (w : W)
      (result : Meta * (string * string)) :
  Uses notAppend attempted ->
  outcome (run d attempted (afterStamps d w)) = Done result ->
  let r := run d (processUrlWith rt user total jobNumber url attempted) w in
  outcome r = Done tt
  /\ exists tsStart tsEnd,
      let line :=
        Csv.csvLine
          {| Csv.tsStart := tsStart; Csv.tsEnd := tsEnd;
             Csv.status := fst (snd result);
             Csv.company := m_company (fst result);
             Csv.title := m_title (fst result);
             Csv.source := m_source (fst result);
             Csv.url := url; Csv.resume := resumePath user;
             Csv.notes := snd (snd result);
             Csv.jobId := Js.take 12 (sha1Hex rt (url ++ tsStart)) |} in
      appended (trace r) = [line]
      /\ calls (trace r)
         = (calls (trace (run d attempted (afterStamps d w)))
            ++ [AppendFile CSV_PATH line])%list.
Proof.
  intros HU Hres r. subst r. unfold afterStamps in *.
  unfold processUrlWith, appendCsv. cbn [bind sync log]. cbn [run].
  destruct (observe d DateISO w) as [w1 tsStart] eqn:E1. cbn [fst] in Hres |- *.
  destruct (observe d DateNow w1) as [w2 startTime] eqn:E2. cbn [fst] in Hres |- *.
  rewrite run_bind.
  pose proof (Uses_run d notAppend attempted HU w2) as Hnone.
  apply notAppend_appended in Hnone.
  destruct (run d attempted w2) as [[w3 t3] o3].
  unfold outcome, trace in Hres, Hnone. cbn [fst snd] in Hres, Hnone. subst o3.
  cbn [bind sync await log]. cbn [run].
  destruct (observe d DateISO w3) as [w4 tsEnd].
  destruct (observe d DateNow w4) as [w5 endTime].
  cbn [fst snd].
  match goal with
  | |- context [answer d (AppendFile ?p ?line) w5] =>
      pose proof (HA p line w5) as Happ;
      destruct (answer d (AppendFile p line) w5) as [w6 r6]
  end.
  cbn [snd] in Happ. subst r6. unfold log. cbn [bind run].
  unfold outcome, trace. cbn [fst snd].
  split; [reflexivity|].
  exists tsStart, tsEnd. cbv zeta.
  cbn [appended calls]. rewrite appended_app, calls_app, Hnone.
  split; reflexivity.
Qed.

End OneUrl.

Section Protection.

Context {W : Type} (d : Driver W).

Lemma Guarded_inner (meta : Meta) (p : Prog (Meta * (string * string))) :
  Guarded d (try_catch p (reportError meta)) p.
Proof.
  intro w. rewrite run_try_catch.
  destruct (run d p w) as [[w1 t1] [x|e|]]; unfold outcome, trace; cbn [fst snd].
  - split; reflexivity.
  - unfold reportError. cbn. rewrite calls_app. cbn. rewrite app_nil_r.
    split; [reflexivity|]. right. exists meta. reflexivity.
  - split; reflexivity.
Qed.

Lemma Guarded_bind {A : Type} (p : Prog A) (f1 f2 : A -> Prog (Meta * (string * string))) :
  (forall a, Guarded d (f1 a) (f2 a)) -> Guarded d (bind p f1) (bind p f2).
Proof.
  intros H w. rewrite !run_bind.
  destruct (run d p w) as [[w1 t1] [a|e|]]; unfold outcome, trace; cbn [fst snd].
  - destruct (H a w1) as [Hc Ho].
    destruct (run d (f1 a) w1) as [[w2 t2] o2].
    destruct (run d (f2 a) w1) as [[w3 t3] o3].
    unfold outcome, trace in *. cbn [fst snd] in *.
    rewrite !calls_app, Hc. split; [reflexivity | exact Ho].
  - split; [reflexivity|]. left. reflexivity.
  - split; reflexivity.
Qed.

Lemma Protects_outer (meta : Meta) (q p : Prog (Meta * (string * string))) :
  Guarded d q p -> Protects d (try_catch q (reportError meta)) p.
Proof.
  intros H w. destruct (H w) as [Hc Ho]. rewrite run_try_catch.
  destruct (run d q w) as [[w1 t1] [x|e|]]; unfold outcome, trace in *;
    cbn [fst snd] in *.
  - split; [exact Hc|].
    destruct (snd (run d p w)) as [y|e'|]; try congruence.
    destruct Ho as [Ho|[m Ho]]; [discriminate|]. exists m. exact Ho.
  - unfold reportError. cbn. rewrite calls_app. cbn. rewrite app_nil_r.
    split; [exact Hc|].
    destruct (snd (run d p w)) as [y|e'|]; try congruence.
    destruct Ho as [Ho|[m Ho]]; [|discriminate].
    injection Ho as <-. exists meta. reflexivity.
  - split; [exact Hc|].
    destruct (snd (run d p w)) as [y|e'|]; try congruence.
    destruct Ho as [Ho|[m Ho]]; discriminate.
Qed.

Lemma attempt_Protects (fuel : nat) (rt : Runtime) (user : User) (url : string) :
  Protects d (attempt fuel rt user url) (tryBlock fuel rt user url).
Proof.
  unfold attempt, tryBlock. apply Protects_outer.
  repeat (apply Guarded_bind; intro).
  apply Guarded_inner.
Qed.

Lemma holdForReview_held : Yields d holdForReview held.
Proof.
  intros w a. unfold holdForReview, showHoldBanner. cbn.
  destruct (answer d (EvalHoldBanner holdBannerText) w) as [w1 [[]|e]]; cbn;
    [|discriminate].
  destruct (answer d WaitForClose w1) as [w2 [[]|e]]; cbn;
    intro H; injection H as <-; [left | right]; reflexivity.
Qed.

Lemma Yields_map {A B : Type} (p : Prog A) (g : A -> B) (Q' : A -> Prop) (Q : B -> Prop) :
  Yields d p Q' -> (forall a, Q' a -> Q (g a)) ->
  Yields d (bind p (fun a => Ret (g a))) Q.
Proof.
  intros Hp Hg w b. rewrite run_bind. specialize (Hp w).
  destruct (run d p w) as [[w1 t1] [a|e|]]; unfold outcome in *; cbn [snd] in *;
    try discriminate.
  cbn. intro H. injection H as <-. apply Hg. apply Hp. reflexivity.
Qed.

Lemma fillAndHold_held (fuel : nat) (user : User) (meta : Meta) :
  Yields d (fillAndHold fuel user meta) held.
Proof.
  unfold fillAndHold.
  do 8 (apply Yields_bind; intro).
  apply holdForReview_held.
Qed.

Lemma tryBlock_held (fuel : nat) (rt : Runtime) (user : User) (url : string) :
  Yields d (tryBlock fuel rt user url) (fun x => held (snd x)).
Proof.
  unfold tryBlock.
  do 3 (apply Yields_bind; intro).
  apply (Yields_map _ _ held); [apply fillAndHold_held|].
  intros r Hr. exact Hr.
Qed.

End Protection.

Lemma fillContactFields_Returns user : Returns (fillContactFields user).
Proof.
  unfold fillContactFields, unless, ignore.
  repeat first [ apply fillGenericField_Returns | apply fillTextByLabel_Returns
               | tree_step; intros ].
Qed.

Lemma uploadResume_Returns L user : Returns (uploadResume L user).
Proof.
  unfold uploadResume, ignore.
  repeat first [ apply setFileByLabel_Returns | tree_step; intros ].
Qed.

Lemma fillAdditionalQuestions_Returns L user : Returns (fillAdditionalQuestions L user).
Proof.
  unfold fillAdditionalQuestions, ignore.
  repeat first [ apply clickRadioByLabel_Returns | apply selectByLabel_Returns
               | apply fillTextByLabel_Returns | tree_step; intros ].
Qed.

Lemma holdForReview_Bounded : Bounded holdForReview.
Proof. unfold holdForReview, showHoldBanner. tree. Qed.

Section Ending.

Context {W : Type} (d : Driver W) (time : W -> Z).
Hypothesis T : Timed d time.

Lemma tryBlock_Ends (n : nat) (rt : Runtime) (user : User) (url : string) :
  (defaultMaxWaitTime <= 500 * Z.of_nat n)%Z ->
  Ends d (tryBlock (S n) rt user url).
Proof.
  intro Hb. unfold tryBlock, fillAndHold.
  apply Ends_bind; [apply Bounded_Ends; tree|]. intros _.
  apply Ends_bind; [apply Bounded_Ends; tree|]. intros _.
  apply Ends_bind;
    [apply Bounded_Ends, Returns_Bounded, extractMeta_Returns|]. intro meta.
  apply Ends_bind; [|intro; apply Bounded_Ends; constructor].
  apply Ends_bind; [apply Bounded_Ends; tree|]. intros _.
  apply Ends_bind.
  { intro w. apply (waitForFormStability_terminates d time T). exact Hb. }
  intro isStable. apply Bounded_Ends.
  apply Bounded_bind; [destruct isStable; tree|]. intros _.
  apply Bounded_bind; [apply Returns_Bounded, debugFormFields_Returns|]. intros _.
  apply Bounded_bind; [apply Returns_Bounded, fillNameFields_Returns|]. intros _.
  apply Bounded_bind; [apply Returns_Bounded, fillContactFields_Returns|]. intros _.
  apply Bounded_bind; [apply Returns_Bounded, uploadResume_Returns|]. intros _.
  apply Bounded_bind; [apply Returns_Bounded, fillAdditionalQuestions_Returns|].
  intros _. apply holdForReview_Bounded.
Qed.

End Ending.

(* ====================================================================== *)
(** * Failure isolation in the URL loop *)
(* ====================================================================== *)

Section Batch.

Context {W : Type} (d : Driver W) (time : W -> Z).
Hypothesis T : Timed d time.
Hypothesis HA : AppendsSucceed d.

Variables (rt : Runtime) (user : User) (n : nat).
Hypothesis Hfuel : (defaultMaxWaitTime <= 500 * Z.of_nat n)%Z.

Lemma processUrl_isolated (total jobNumber : nat) (url : string) (w : W) :
  let r := run d (processUrl (S n) rt user total jobNumber url) w in
  let block := run d (tryBlock (S n) rt user url) (afterStamps d w) in
  outcome r = Done tt
  /\ outcome block <> Diverged
  /\ exists row,
      appended (trace r) = [Csv.csvLine row]
      /\ Csv.url row = url
      /\ (forall e, outcome block = Raised e ->
            Csv.status row = "error" /\ Csv.notes row = errorNotes e)
      /\ (forall x, outcome block = Done x ->
            (Csv.status row, Csv.notes row) = snd x /\ held (snd x)).
Proof.
  intros r block.
  pose proof (tryBlock_Ends d time T n rt user url Hfuel (afterStamps d w)) as Hends.
  destruct (attempt_Protects d (S n) rt user url (afterStamps d w)) as [_ Hprot].
  pose proof (tryBlock_held d (S n) rt user url (afterStamps d w)) as Hheld.
  fold block in Hends, Hprot, Hheld.
  assert (Hres : exists result,
             outcome (run d (attempt (S n) rt user url) (afterStamps d w)) = Done result
             /\ (forall e, outcome block = Raised e -> snd result = ("error", errorNotes e))
             /\ (forall x, outcome block = Done x -> result = x)).
  { destruct (outcome block) as [x|e|].
    - exists x. split; [exact Hprot|]. split; [discriminate|].
      intros y Hy. congruence.
    - destruct Hprot as [meta Hm]. exists (meta, ("error", errorNotes e)).
      split; [exact Hm|]. split; [|discriminate].
      intros e' He'. injection He' as <-. reflexivity.
    - congruence. }
  destruct Hres as (result & Hrun & Hraised & Hdone).
  destruct (processUrlWith_run d HA rt user total jobNumber url
              (attempt (S n) rt user url) w result
              (attempt_notAppend (S n) rt user url) Hrun)
    as (Hout & tsStart & tsEnd & Happ & _).
  split; [exact Hout|]. split; [exact Hends|].
  eexists. split; [exact Happ|]. cbn [Csv.url Csv.status Csv.notes].
  split; [reflexivity|]. split.
  - intros e He. rewrite (Hraised e He). split; reflexivity.
  - intros x Hx. rewrite (Hdone x Hx).
    split; [destruct x as [m [s0 n0]]; reflexivity|].
    apply (Hheld x). exact Hx.
Qed.

Lemma urlLoop_continues (total : nat) (urls : list string) :
  forall (i : nat) (w : W),
    let r := run d (urlLoop (processUrl (S n) rt user total) i urls) w in
    outcome r = Done tt
    /\ exists rows,
        appended (trace r) = map Csv.csvLine rows
        /\ map Csv.url rows = urls.
Proof.
  induction urls as [|url rest IH]; intros i w r; subst r.
  - cbn. split; [reflexivity|]. exists []. split; reflexivity.
  - cbn [urlLoop]. rewrite run_bind.
    destruct (processUrl_isolated total (S i) url w)
      as (Hout & _ & row & Happ & Hurl & _).
    destruct (run d (processUrl (S n) rt user total (S i) url) w) as [[w1 t1] o1].
    unfold outcome, trace in Hout, Happ. cbn [fst snd] in Hout, Happ. subst o1.
    destruct (IH (S i) w1) as (Hout2 & rows & Happ2 & Hurls).
    destruct (run d (urlLoop (processUrl (S n) rt user total) (S i) rest) w1)
      as [[w2 t2] o2].
    unfold outcome, trace in *. cbn [fst snd] in *.
    split; [exact Hout2|].
    exists (row :: rows). rewrite appended_app, Happ, Happ2.
    split; [reflexivity|]. cbn [map]. rewrite Hurl, Hurls. reflexivity.
Qed.

End Batch.

Lemma simDriver_AppendsSucceed : AppendsSucceed (simDriver emptyPage).
Proof. intros path line w. reflexivity. Qed.


(** C2 as stated fails for the hold step.  The wait for the tab to close
    rejects with a message of the driver; the row appended for the URL has
    status [error], and its notes are the fixed text of the inner handler,
    not the message of the exception. *)
Lemma close_wait_error_keeps_fixed_notes :
  let closed := "Target page, context or browser has been closed" in
  let d := simDriver (failingPage isWaitForClose closed) in
  let r := run d (processUrl 11 simRuntime jane 1 1
                             "https://boards.greenhouse.io/acme/jobs/1") sim0 in
  snd (answer d WaitForClose sim0) = Err (mkExn (Some closed))
  /\ errorNotes (mkExn (Some closed)) = closed
  /\ appended (trace r)
     = [ Csv.csvLine
           {| Csv.tsStart := "2024-01-01T00:00:00.000Z";
              Csv.tsEnd := "2024-01-01T00:00:00.000Z";
              Csv.status := "error";
              Csv.company := "Acme"; Csv.title := "Engineer"; Csv.source := "Greenhouse";
              Csv.url := "https://boards.greenhouse.io/acme/jobs/1";
              Csv.resume := "config/resume.pdf";
              Csv.notes := "error waiting for tab close";
              Csv.jobId := "da39a3ee5e6b" |} ]
  /\ String.eqb "error waiting for tab close" closed = false.
Proof. vm_compute. repeat split; reflexivity. Qed.

Example navigation_error_is_recorded :
  let d := simDriver (failingPage isGoto "net::ERR_NAME_NOT_RESOLVED") in
  let r := run d (urlLoop (processUrl 11 simRuntime jane 2) 0
                          ["https://down.example/1"; "https://boards.greenhouse.io/acme/jobs/1"])
               sim0 in
  outcome r = Done tt
  /\ appended (trace r)
     = map Csv.csvLine
         [ {| Csv.tsStart := "2024-01-01T00:00:00.000Z";
              Csv.tsEnd := "2024-01-01T00:00:00.000Z";
              Csv.status := "error";
              Csv.company := ""; Csv.title := ""; Csv.source := "Other";
              Csv.url := "https://down.example/1";
              Csv.resume := "config/resume.pdf";
              Csv.notes := "net::ERR_NAME_NOT_RESOLVED";
              Csv.jobId := "da39a3ee5e6b" |};
           {| Csv.tsStart := "2024-01-01T00:00:00.000Z";
              Csv.tsEnd := "2024-01-01T00:00:00.000Z";
              Csv.status := "error";
              Csv.company := ""; Csv.title := ""; Csv.source := "Other";
              Csv.url := "https://boards.greenhouse.io/acme/jobs/1";
              Csv.resume := "config/resume.pdf";
              Csv.notes := "net::ERR_NAME_NOT_RESOLVED";
              Csv.jobId := "da39a3ee5e6b" |} ].
Proof. vm_compute. split; reflexivity. Qed.

(* ====================================================================== *)
(** * The auto-submit configuration, URL by URL *)
(* ====================================================================== *)

Section AutoSubmitFacts.

Context {W : Type} (d : Driver W).

Lemma YieldsT_bind {A B : Type} (p : Prog A) (f : A -> Prog B)
      (Q : list Cmd -> B -> Prop) :
  (forall a, YieldsT d (f a) Q) ->
  (forall t t' b, Q t b -> Q (t' ++ t)%list b) ->
  YieldsT d (bind p f) Q.
Proof.
  intros Hf Hmono w b. rewrite run_bind.
  destruct (run d p w) as [[w1 t1] [a|e|]]; unfold outcome, trace; cbn [fst snd];
    try discriminate.
  specialize (Hf a w1 b).
  destruct (run d (f a) w1) as [[w2 t2] o2]. unfold outcome, trace in *.
  cbn [fst snd] in *. intro H. rewrite calls_app. apply Hmono. apply Hf. exact H.
Qed.

Lemma YieldsT_map {A B : Type} (p : Prog A) (g : A -> B)
      (Q' : list Cmd -> A -> Prop) (Q : list Cmd -> B -> Prop) :
  YieldsT d p Q' -> (forall t a, Q' t a -> Q t (g a)) ->
  YieldsT d (bind p (fun a => Ret (g a))) Q.
Proof.
  intros Hp Hg w b. rewrite run_bind. specialize (Hp w).
  destruct (run d p w) as [[w1 t1] [a|e|]]; unfold outcome, trace in *;
    cbn [fst snd] in *; try discriminate.
  cbn. rewrite app_nil_r. intro H. injection H as <-. apply Hg. apply Hp. reflexivity.
Qed.

Lemma submitted_mono (autoSubmit : bool) (t t' : list Cmd) (b : string * string) :
  submitted d autoSubmit t b -> submitted d autoSubmit (t' ++ t)%list b.
Proof.
  intros [H1 H2]. split; [exact H1|].
  intro H. apply in_or_app. right. apply H2. exact H.
Qed.

Lemma submitStep_submitted (autoSubmit : bool) :
  YieldsT d (AutoSubmit.submitStep autoSubmit) (submitted d autoSubmit).
Proof.
  intros w a. unfold AutoSubmit.submitStep. cbn.
  destruct (answer d (Count AutoSubmit.submit) w) as [w1 [n|e]] eqn:E; cbn;
    [|discriminate].
  assert (Hn : snd (answer d (Count AutoSubmit.submit) w) = Ok n) by (rewrite E; reflexivity).
  unfold submitVerdict, submitted.
  destruct (positive n) eqn:Hp; destruct autoSubmit; cbn.
  - destruct (answer d (Click AutoSubmit.submit) w1) as [w2 [[]|e]]; cbn;
      intro H; injection H as <-;
      (split; [exists w, n; split; [exact Hn | unfold submitVerdict; rewrite Hp; reflexivity]
              | intros _; right; left; reflexivity]).
  - intro H; injection H as <-.
    split; [exists w, n; split; [exact Hn | unfold submitVerdict; rewrite Hp; reflexivity]
           | cbn; discriminate].
  - intro H; injection H as <-.
    split; [exists w, n; split; [exact Hn | unfold submitVerdict; rewrite Hp; reflexivity]
           | cbn; discriminate].
  - intro H; injection H as <-.
    split; [exists w, n; split; [exact Hn | unfold submitVerdict; rewrite Hp; reflexivity]
           | cbn; discriminate].
Qed.

Lemma autoTryBlock_submitted (autoSubmit : bool) (rt : Runtime) (user : User)
      (url : string) :
  YieldsT d (autoTryBlock autoSubmit rt user url)
          (fun made x => submitted d autoSubmit made (snd x)).
Proof.
  unfold autoTryBlock.
  do 3 (apply YieldsT_bind; [intro | intros t t' b; apply submitted_mono]).
  apply (YieldsT_map _ _ (submitted d autoSubmit)); [|intros t r Hr; exact Hr].
  unfold AutoSubmit.fillAndSubmit.
  do 5 (apply YieldsT_bind; [intro | intros t t' b; apply submitted_mono]).
  apply submitStep_submitted.
Qed.

Lemma AutoSubmit_attempt_Protects (autoSubmit : bool) (rt : Runtime) (user : User)
      (url : string) :
  Protects d (AutoSubmit.attempt autoSubmit rt user url)
           (autoTryBlock autoSubmit rt user url).
Proof.
  unfold AutoSubmit.attempt, autoTryBlock. apply Protects_outer.
  repeat (apply Guarded_bind; intro).
  apply Guarded_inner.
Qed.

End AutoSubmitFacts.

Lemma AutoSubmit_fillContactFields_Returns user :
  Returns (AutoSubmit.fillContactFields user).
Proof.
  unfold AutoSubmit.fillContactFields, ignore.
  repeat first [ apply fillTextByLabel_Returns | tree_step; intros ].
Qed.

Lemma autoTryBlock_Bounded autoSubmit rt user url :
  Bounded (autoTryBlock autoSubmit rt user url).
Proof.
  unfold autoTryBlock, AutoSubmit.fillAndSubmit, AutoSubmit.submitStep.
  repeat first [ apply Returns_Bounded, extractMeta_Returns
               | apply Returns_Bounded, fillNameFields_Returns
               | apply Returns_Bounded, AutoSubmit_fillContactFields_Returns
               | apply Returns_Bounded, uploadResume_Returns
               | apply Returns_Bounded, fillAdditionalQuestions_Returns
               | tree_step; intros ].
Qed.

(** ** With the flag unset the submit control is never clicked *)

Lemma fillTextByLabel_notSubmitClick labels value fieldName :
  Uses notSubmitClick (fillTextByLabel labels value fieldName).
Proof. unfold fillTextByLabel, notSubmitClick. tree. Qed.

Lemma clickRadioByLabel_notSubmitClick labels optionText fieldName :
  Uses notSubmitClick (clickRadioByLabel labels optionText fieldName).
Proof. unfold clickRadioByLabel, notSubmitClick. tree. Qed.

Lemma selectByLabel_notSubmitClick labels value fieldName :
  Uses notSubmitClick (selectByLabel labels value fieldName).
Proof. unfold selectByLabel, notSubmitClick. tree. Qed.

Lemma setFileByLabel_notSubmitClick labels filePath fieldName :
  Uses notSubmitClick (setFileByLabel labels filePath fieldName).
Proof. unfold setFileByLabel, notSubmitClick. tree. Qed.

Lemma extractMeta_notSubmitClick rt : Uses notSubmitClick (extractMeta rt).
Proof. unfold extractMeta, notSubmitClick. tree. Qed.

Lemma fillNameFields_notSubmitClick reg user :
  Uses notSubmitClick (fillNameFields reg user).
Proof.
  unfold fillNameFields, pageFillQuietly, ignore.
  repeat (apply Uses_bind;
          [apply findFirstVisibleSelector_Uses; intro; reflexivity | intros]).
  destruct a as [f|]; destruct a0 as [l|]; destruct a1 as [u|];
    unfold notSubmitClick;
    repeat first [ apply fillTextByLabel_notSubmitClick | tree_step; intros ].
Qed.

Lemma submitStep_off_notSubmitClick : Uses notSubmitClick (AutoSubmit.submitStep false).
Proof.
  unfold AutoSubmit.submitStep, notSubmitClick.
  apply Uses_bind; [tree|]. intro n.
  rewrite andb_false_r. tree.
Qed.

Lemma AutoSubmit_attempt_off_notSubmitClick rt user url :
  Uses notSubmitClick (AutoSubmit.attempt false rt user url).
Proof.
  unfold AutoSubmit.attempt, reportError, AutoSubmit.fillAndSubmit,
    AutoSubmit.fillContactFields, uploadResume, fillAdditionalQuestions, ignore.
  repeat first [ apply extractMeta_notSubmitClick | apply fillNameFields_notSubmitClick
               | apply fillTextByLabel_notSubmitClick
               | apply setFileByLabel_notSubmitClick
               | apply clickRadioByLabel_notSubmitClick
               | apply selectByLabel_notSubmitClick
               | apply submitStep_off_notSubmitClick
               | tree_step; intros ].
Qed.

Section AutoSubmitUrl.

Context {W : Type} (d : Driver W).
Hypothesis HA : AppendsSucceed d.

Variables (rt : Runtime) (user : User) (autoSubmit : bool).

Lemma AutoSubmit_processUrl_recorded (total jobNumber : nat) (url : string) (w : W) :
  let r := run d (AutoSubmit.processUrl autoSubmit rt user total jobNumber url) w in
  let block := run d (autoTryBlock autoSubmit rt user url) (afterStamps d w) in
  outcome r = Done tt
  /\ exists row,
      appended (trace r) = [Csv.csvLine row]
      /\ Csv.url row = url
      /\ (forall e, outcome block = Raised e ->
            Csv.status row = "error" /\ Csv.notes row = errorNotes e)
      /\ (forall x, outcome block = Done x ->
            (Csv.status row, Csv.notes row) = snd x
            /\ submitted d autoSubmit (calls (trace r)) (snd x))
      /\ (autoSubmit = false -> Forall notSubmitClick (calls (trace r))).
Proof.
  intros r block.
  pose proof (Bounded_run d _ (autoTryBlock_Bounded autoSubmit rt user url)
                (afterStamps d w)) as Hends.
  destruct (AutoSubmit_attempt_Protects d autoSubmit rt user url (afterStamps d w))
    as [Hcalls Hprot].
  pose proof (autoTryBlock_submitted d autoSubmit rt user url (afterStamps d w)) as Hsub.
  fold block in Hends, Hprot, Hsub, Hcalls.
  assert (Hres : exists result,
             outcome (run d (AutoSubmit.attempt autoSubmit rt user url) (afterStamps d w))
             = Done result
             /\ (forall e, outcome block = Raised e -> snd result = ("error", errorNotes e))
             /\ (forall x, outcome block = Done x -> result = x)).
  { destruct (outcome block) as [x|e|].
    - exists x. split; [exact Hprot|]. split; [discriminate|].
      intros y Hy. congruence.
    - destruct Hprot as [meta Hm]. exists (meta, ("error", errorNotes e)).
      split; [exact Hm|]. split; [|discriminate].
      intros e' He'. injection He' as <-. reflexivity.
    - congruence. }
  destruct Hres as (result & Hrun & Hraised & Hdone).
  destruct (processUrlWith_run d HA rt user total jobNumber url
              (AutoSubmit.attempt autoSubmit rt user url) w result
              (AutoSubmit_attempt_notAppend autoSubmit rt user url) Hrun)
    as (Hout & tsStart & tsEnd & Happ & Hmade).
  fold (AutoSubmit.processUrl autoSubmit rt user total jobNumber url) in Hout, Happ, Hmade.
  fold r in Hout, Happ, Hmade.
  split; [exact Hout|].
  eexists. split; [exact Happ|]. cbn [Csv.url Csv.status Csv.notes].
  split; [reflexivity|]. split; [|split].
  - intros e He. rewrite (Hraised e He). split; reflexivity.
  - intros x Hx. rewrite (Hdone x Hx).
    split; [destruct x as [m [s0 n0]]; reflexivity|].
    rewrite Hmade, Hcalls.
    destruct (Hsub x Hx) as [H1 H2]. split; [exact H1|].
    intro Hc. apply in_or_app. left. apply H2. exact Hc.
  - intros ->. rewrite Hmade. apply Forall_app. split.
    + apply Uses_run. apply AutoSubmit_attempt_off_notSubmitClick.
    + constructor; [reflexivity | constructor].
Qed.

End AutoSubmitUrl.

(** C9. In the auto-submit configuration the submit step counts the
    submit-like controls.  When one is present and the flag is set, it clicks
    the control and the status is [clicked]; when one is present and the
    flag is unset, it clicks nothing and the status is [skipped] with notes
    [autoSubmit=false]; when none is found the status is [skipped] with notes
    [no submit button].  For a URL whose [try] block returns, the appended
    row carries exactly that status and those notes, a recorded [clicked]
    comes with a click on the control, and with the flag unset the control
    is never clicked during the URL. *)
Theorem auto_submit_outcomes :
  forall (W : Type) (d : Driver W) (rt : Runtime) (user : User) (autoSubmit : bool),
    AppendsSucceed d ->
    (forall w found,
        snd (answer d (Count AutoSubmit.submit) w) = Ok found ->
        let r := run d (AutoSubmit.submitStep autoSubmit) w in
        outcome r = Done (submitVerdict found autoSubmit)
        /\ writes (trace r)
           = if (positive found && autoSubmit)%bool then [Click AutoSubmit.submit] else [])
    /\ (forall k, submitVerdict (S k) true = ("clicked", "")
                  /\ submitVerdict (S k) false = ("skipped", "autoSubmit=false")
                  /\ submitVerdict 0 autoSubmit = ("skipped", "no submit button"))
    /\ (forall total jobNumber url w,
          let r := run d (AutoSubmit.processUrl autoSubmit rt user total jobNumber url) w in
          let block := run d (autoTryBlock autoSubmit rt user url) (afterStamps d w) in
          outcome r = Done tt
          /\ exists row,
              appended (trace r) = [Csv.csvLine row]
              /\ Csv.url row = url
              /\ (forall e, outcome block = Raised e ->
                    Csv.status row = "error" /\ Csv.notes row = errorNotes e)
              /\ (forall x, outcome block = Done x ->
                    (Csv.status row, Csv.notes row) = snd x
                    /\ submitted d autoSubmit (calls (trace r)) (snd x))
              /\ (autoSubmit = false -> Forall notSubmitClick (calls (trace r)))).
Proof.
  intros W d rt user autoSubmit HA.
  split; [intros w found H; apply submitStep_run; exact H|].
  split; [intro k; destruct autoSubmit; repeat split; reflexivity|].
  intros. apply AutoSubmit_processUrl_recorded. exact HA.
Qed.

Lemma auto_submit_outcomes_witness :
  let r := run (simDriver applyPage)
               (AutoSubmit.processUrl true simRuntime jane 1 1
                  "https://boards.greenhouse.io/acme/jobs/1") sim0 in
  AppendsSucceed (simDriver applyPage) /\ outcome r = Done tt.
Proof.
  assert (HA : AppendsSucceed (simDriver applyPage)) by (intros path line w; reflexivity).
  split; [exact HA|].
  exact (proj1 (proj2 (proj2
    (auto_submit_outcomes Sim (simDriver applyPage) simRuntime jane true HA))
    1 1 "https://boards.greenhouse.io/acme/jobs/1" sim0)).
Defined.

Example scenario_C_clicked :
  let r := run (simDriver applyPage)
               (AutoSubmit.processUrl true simRuntime jane 1 1
                  "https://boards.greenhouse.io/acme/jobs/1") sim0 in
  writes (trace r) = [Click AutoSubmit.submit]
  /\ appended (trace r)
     = [ Csv.csvLine
           {| Csv.tsStart := "2024-01-01T00:00:00.000Z";
              Csv.tsEnd := "2024-01-01T00:00:00.000Z";
              Csv.status := "clicked";
              Csv.company := "Acme"; Csv.title := "Engineer"; Csv.source := "Greenhouse";
              Csv.url := "https://boards.greenhouse.io/acme/jobs/1";
              Csv.resume := "config/resume.pdf";
              Csv.notes := "";
              Csv.jobId := "da39a3ee5e6b" |} ].
Proof. vm_compute. split; reflexivity. Qed.

Example scenario_D_skipped :
  let r := run (simDriver applyPage)
               (AutoSubmit.processUrl false simRuntime jane 1 1
                  "https://boards.greenhouse.io/acme/jobs/1") sim0 in
  writes (trace r) = []
  /\ appended (trace r)
     = [ Csv.csvLine
           {| Csv.tsStart := "2024-01-01T00:00:00.000Z";
              Csv.tsEnd := "2024-01-01T00:00:00.000Z";
              Csv.status := "skipped";
              Csv.company := "Acme"; Csv.title := "Engineer"; Csv.source := "Greenhouse";
              Csv.url := "https://boards.greenhouse.io/acme/jobs/1";
              Csv.resume := "config/resume.pdf";
              Csv.notes := "autoSubmit=false";
              Csv.jobId := "da39a3ee5e6b" |} ].
Proof. vm_compute. split; reflexivity. Qed.

(* ====================================================================== *)
(** * Reasoning about every run *)
(* ====================================================================== *)

Lemma always_mono {A : Type} (p : Prog A) :
  forall (Q Q' : list Event -> Outcome A -> Prop),
    (forall t o, Q t o -> Q' t o) -> always p Q -> always p Q'.
Proof.
  induction p as [a|e| |c k IH|s k IH|msg k IH]; intros Q Q' HQ Hp; simpl in *.
  - apply HQ, Hp.
  - apply HQ, Hp.
  - apply HQ, Hp.
  - intro r. apply (IH r _ _ (fun t o => HQ _ o) (Hp r)).
  - intro r. apply (IH r _ _ (fun t o => HQ _ o) (Hp r)).
  - apply (IH _ _ (fun t o => HQ _ o) Hp).
Qed.

Lemma always_run {W A : Type} (d : Driver W) (p : Prog A) :
  forall (Q : list Event -> Outcome A -> Prop) (w : W),
    always p Q -> Q (trace (run d p w)) (outcome (run d p w)).
Proof.
  induction p as [a|e| |c k IH|s k IH|msg k IH]; intros Q w Hp; simpl in *.
  - exact Hp.
  - exact Hp.
  - exact Hp.
  - destruct (answer d c w) as [w1 r]. specialize (IH r _ w1 (Hp r)).
    unfold trace, outcome in *. destruct (run d (k r) w1) as [[w2 t] o]. exact IH.
  - destruct (observe d s w) as [w1 r]. specialize (IH r _ w1 (Hp r)).
    unfold trace, outcome in *. destruct (run d (k r) w1) as [[w2 t] o]. exact IH.
  - specialize (IH _ w Hp).
    unfold trace, outcome in *. destruct (run d k w) as [[w2 t] o]. exact IH.
Qed.

Lemma always_bind {A B : Type} (p : Prog A) (f : A -> Prog B) :
  forall Q : list Event -> Outcome B -> Prop,
    always p (fun t o =>
                match o with
                | Done a => always (f a) (fun t' o' => Q (t ++ t')%list o')
                | Raised e => Q t (Raised e)
                | Diverged => Q t Diverged
                end) ->
    always (bind p f) Q.
Proof.
  induction p as [a|e| |c k IH|s k IH|msg k IH]; intros Q Hp; simpl in *.
  - exact Hp.
  - exact Hp.
  - exact Hp.
  - intro r. apply IH. exact (Hp r).
  - intro r. apply IH. exact (Hp r).
  - apply IH. exact Hp.
Qed.

Lemma always_try_catch {A : Type} (p : Prog A) (h : Exn -> Prog A) :
  forall Q : list Event -> Outcome A -> Prop,
    always p (fun t o =>
                match o with
                | Raised e => always (h e) (fun t' o' => Q (t ++ t')%list o')
                | Done a => Q t (Done a)
                | Diverged => Q t Diverged
                end) ->
    always (try_catch p h) Q.
Proof.
  induction p as [a|e| |c k IH|s k IH|msg k IH]; intros Q Hp; simpl in *.
  - exact Hp.
  - exact Hp.
  - exact Hp.
  - intro r. apply IH. exact (Hp r).
  - intro r. apply IH. exact (Hp r).
  - apply IH. exact Hp.
Qed.

Lemma okCalls_app (t1 t2 : list Event) :
  okCalls (t1 ++ t2) = (okCalls t1 ++ okCalls t2)%list.
Proof.
  induction t1 as [|[c r|s r|msg] t1 IH]; simpl; rewrite ?IH; try reflexivity.
  destruct (resolved r); rewrite ?IH; reflexivity.
Qed.

Lemma okWrites_app (t1 t2 : list Event) :
  okWrites (t1 ++ t2) = (okWrites t1 ++ okWrites t2)%list.
Proof. unfold okWrites. rewrite okCalls_app. apply filter_app. Qed.

(* ====================================================================== *)
(** * The first write that resolves ends a helper *)
(* ====================================================================== *)

Lemma forEachTry_wins {X : Type} (xs : list X) (body : X -> Prog bool) :
  (forall x, always (body x) roundWins) ->
  always (forEachTry xs body) firstSuccessWins.
Proof.
  intro Hbody. induction xs as [|x rest IH]; simpl.
  - exists false. split; reflexivity.
  - apply always_bind, always_try_catch.
    eapply always_mono; [|apply Hbody].
    intros t [[|]|e|] Ht; simpl in *.
    + exists true. rewrite app_nil_r. split; [reflexivity | exact Ht].
    + eapply always_mono; [|exact IH].
      intros t' o' (b & -> & Hb). exists b. split; [reflexivity|].
      rewrite okWrites_app, length_app, Ht. exact Hb.
    + eapply always_mono; [|exact IH].
      intros t' o' (b & -> & Hb). exists b. split; [reflexivity|].
      rewrite app_nil_r, okWrites_app, length_app, Ht. exact Hb.
    + contradiction.
Qed.

(** [const r = await first; if (r) return true; rest] *)
Lemma orElse_wins (first rest : Prog bool) :
  always first firstSuccessWins ->
  always rest firstSuccessWins ->
  always (returned <- first ;; if returned then Ret true else rest) firstSuccessWins.
Proof.
  intros H1 H2. apply always_bind.
  eapply always_mono; [|exact H1].
  intros t o (b & -> & Hb). destruct b; simpl.
  - exists true. rewrite app_nil_r. split; [reflexivity | exact Hb].
  - eapply always_mono; [|exact H2].
    intros t' o' (b' & -> & Hb'). exists b'. split; [reflexivity|].
    rewrite okWrites_app, length_app, Hb. exact Hb'.
Qed.

(** [try { round } catch { }] where the round is not in a loop. *)
Lemma tryRound_wins (round : Prog bool) :
  always round roundWins ->
  always (try_catch round (fun _ => Ret false)) firstSuccessWins.
Proof.
  intro H. apply always_try_catch.
  eapply always_mono; [|exact H].
  intros t [b|e|] Ht; simpl in *.
  - exists b. split; [reflexivity | exact Ht].
  - exists false. rewrite app_nil_r, Ht. split; reflexivity.
  - contradiction.
Qed.

Lemma miss_wins (msg : string) : always (log msg ;; Ret false) firstSuccessWins.
Proof. simpl. exists false. split; reflexivity. Qed.

Ltac round :=
  cbn; intros;
  repeat match goal with
         | r : Result _ |- _ => destruct r; cbn; intros
         | u : unit |- _ => destruct u
         | |- context [positive ?n] => destruct (positive n); cbn; intros
         | |- context [if ?b then _ else _] => destruct b; cbn; intros
         end;
  try reflexivity.

Lemma fillTextByLabel_wins labels value fieldName :
  always (fillTextByLabel labels value fieldName) firstSuccessWins.
Proof.
  unfold fillTextByLabel. destruct (negb (Js.truthy value)).
  - apply miss_wins.
  - cbv zeta.
    apply orElse_wins; [apply forEachTry_wins; intro; round|].
    apply orElse_wins; [apply forEachTry_wins; intro; round|].
    apply miss_wins.
Qed.

Lemma setFileByLabel_wins labels filePath fieldName :
  always (setFileByLabel labels filePath fieldName) firstSuccessWins.
Proof.
  unfold setFileByLabel. destruct (negb (Js.truthy filePath)).
  - exists false. split; reflexivity.
  - cbv zeta.
    apply orElse_wins; [apply forEachTry_wins; intro; round|].
    apply orElse_wins; [apply tryRound_wins; round|].
    apply miss_wins.
Qed.

Lemma selectByLabel_wins labels value fieldName :
  always (selectByLabel labels value fieldName) firstSuccessWins.
Proof.
  unfold selectByLabel. destruct (negb (Js.truthy value)).
  - apply miss_wins.
  - cbv zeta.
    apply orElse_wins; [apply forEachTry_wins; intro; round|].
    apply orElse_wins; [apply forEachTry_wins; intro; round|].
    apply miss_wins.
Qed.

Lemma clickRadioByLabel_wins labels optionText fieldName :
  always (clickRadioByLabel labels optionText fieldName) firstSuccessWins.
Proof.
  unfold clickRadioByLabel. destruct (negb (Js.truthy optionText)).
  - exists false. split; reflexivity.
  - cbv zeta.
    apply orElse_wins; [apply forEachTry_wins; intro; round|].
    apply orElse_wins; [apply tryRound_wins; round|].
    apply miss_wins.
Qed.

Lemma fillGenericField_wins fieldType value fieldName :
  always (fillGenericField fieldType value fieldName) firstSuccessWins.
Proof.
  unfold fillGenericField, isThereAndVisible. destruct (negb (Js.truthy value)).
  - apply miss_wins.
  - cbv zeta.
    apply orElse_wins; [apply forEachTry_wins; intro; round|].
    apply orElse_wins; [apply tryRound_wins; round|].
    apply miss_wins.
Qed.

(** X5.  Each of the five form helpers -- [fillTextByLabel],
    [fillGenericField], [selectByLabel], [clickRadioByLabel] and
    [setFileByLabel] -- always returns, whatever the page answers; it
    returns [true] exactly when one write to the page resolved and [false]
    exactly when none did.  A helper therefore never writes a value twice and
    never reports success for a write that was rejected. *)
Theorem helpers_stop_at_first_resolved_write :
  forall (W : Type) (d : Driver W) (w : W)
         (labels : list string) (fieldType fieldName : string) (value : option string),
    let wins (r : W * list Event * Outcome bool) :=
      exists b, outcome r = Done b /\ length (okWrites (trace r)) = if b then 1 else 0 in
    wins (run d (fillTextByLabel labels value fieldName) w)
    /\ wins (run d (fillGenericField fieldType value fieldName) w)
    /\ wins (run d (selectByLabel labels value fieldName) w)
    /\ wins (run d (clickRadioByLabel labels value fieldName) w)
    /\ wins (run d (setFileByLabel labels value fieldName) w).
Proof.
  intros W d w labels fieldType fieldName value wins. subst wins. cbv beta.
  repeat split.
  - apply (always_run d _ firstSuccessWins), fillTextByLabel_wins.
  - apply (always_run d _ firstSuccessWins), fillGenericField_wins.
  - apply (always_run d _ firstSuccessWins), selectByLabel_wins.
  - apply (always_run d _ firstSuccessWins), clickRadioByLabel_wins.
  - apply (always_run d _ firstSuccessWins), setFileByLabel_wins.
Qed.

(* ====================================================================== *)
(** * Order of the probes *)
(* ====================================================================== *)

Lemma probeLoop_nil : probeLoop [] [] (Done false).
Proof. exists 0. split; [reflexivity|]. split; [apply le_n | reflexivity]. Qed.

Lemma probeLoop_step (l : Locator) (locs : list Locator) (t t' : list Event)
      (o : Outcome bool) :
  probes (calls t) = [l] -> okFills t = [] ->
  probeLoop locs t' o -> probeLoop (l :: locs) (t ++ t') o.
Proof.
  intros Hp Hf (k & Hk & Ho). exists (S k).
  split; [rewrite calls_app, probes_app, Hp, Hk; reflexivity|].
  destruct o as [[|]|e|]; try contradiction.
  - destruct Ho as (j & l' & -> & Hn & Hfill).
    exists (S j), l'. split; [reflexivity|]. split; [exact Hn|].
    rewrite okFills_app, Hf. exact Hfill.
  - destruct Ho as [Hlen Hfill]. split; [simpl; lia|].
    rewrite okFills_app, Hf. exact Hfill.
Qed.

Lemma probeLoop_hit (l : Locator) (locs : list Locator) (t : list Event) :
  probes (calls t) = [l] -> okFills t = [First l] ->
  probeLoop (l :: locs) t (Done true).
Proof.
  intros Hp Hf. exists 1. split; [exact Hp|].
  exists 0, l. repeat split. exact Hf.
Qed.

Lemma forEachTry_probes {X : Type} (loc : X -> Locator) (xs : list X)
      (body : X -> Prog bool) :
  (forall x, always (body x) (probeRound (loc x))) ->
  always (forEachTry xs body) (probeLoop (map loc xs)).
Proof.
  intro Hbody. induction xs as [|x rest IH]; simpl.
  - apply probeLoop_nil.
  - apply always_bind, always_try_catch.
    eapply always_mono; [|apply Hbody].
    intros t [[|]|e|] [Hp Hf]; simpl in *; try contradiction.
    + rewrite app_nil_r. apply probeLoop_hit; assumption.
    + eapply always_mono; [|exact IH].
      intros t' o' H. apply probeLoop_step; assumption.
    + eapply always_mono; [|exact IH].
      intros t' o' H. rewrite app_nil_r. apply probeLoop_step; assumption.
Qed.

Lemma probeLoop_app (locs1 locs2 : list Locator) (t t' : list Event) (o : Outcome bool) :
  probeLoop locs1 t (Done false) -> probeLoop locs2 t' o ->
  probeLoop (locs1 ++ locs2) (t ++ t') o.
Proof.
  intros (k & Hk & Hlen & Hf) (k' & Hk' & Ho).
  exists (length locs1 + k').
  assert (Hall : firstn k locs1 = locs1) by (apply firstn_all2; exact Hlen).
  split.
  - rewrite calls_app, probes_app, Hk, Hk', Hall.
    rewrite firstn_app_2. reflexivity.
  - destruct o as [[|]|e|]; try contradiction.
    + destruct Ho as (j & l & -> & Hn & Hfill).
      exists (length locs1 + j), l. split; [lia|].
      split; [rewrite nth_error_app2 by lia;
              replace (length locs1 + j - length locs1) with j by lia; exact Hn|].
      rewrite okFills_app, Hf. exact Hfill.
    + destruct Ho as [Hlen' Hfill]. split; [rewrite length_app; lia|].
      rewrite okFills_app, Hf. exact Hfill.
Qed.

Lemma probeLoop_log (locs : list Locator) (t : list Event) (msg : string) (o : Outcome bool) :
  probeLoop locs t o -> probeLoop locs (t ++ [ELog msg]) o.
Proof.
  intros (k & Hk & Ho). exists k.
  rewrite calls_app, probes_app, okFills_app. simpl. rewrite !app_nil_r.
  split; assumption.
Qed.

Lemma probeLoop_weaken (locs1 locs2 : list Locator) (t : list Event) :
  probeLoop locs1 t (Done true) -> probeLoop (locs1 ++ locs2) t (Done true).
Proof.
  intros (k & Hk & j & l & -> & Hn & Hf).
  assert (Hj : j < length locs1) by (apply nth_error_Some; congruence).
  exists (S j). split.
  - rewrite Hk. rewrite firstn_app.
    replace (S j - length locs1) with 0 by lia.
    simpl. rewrite app_nil_r. reflexivity.
  - exists j, l. split; [reflexivity|].
    split; [rewrite nth_error_app1 by exact Hj; exact Hn | exact Hf].
Qed.

Lemma probeLoop_absurd (locs : list Locator) (t : list Event) (o : Outcome bool) :
  probeLoop locs t o -> exists b, o = Done b.
Proof.
  intros (k & _ & Ho). destruct o as [b|e|]; try contradiction. exists b. reflexivity.
Qed.

(** [r = await loop1; if (r) return true; r = await loop2; if (r) return
    true; log(miss); return false] *)
Lemma twoLoops_probes (locs1 locs2 : list Locator) (loop1 loop2 : Prog bool) (miss : string) :
  always loop1 (probeLoop locs1) ->
  always loop2 (probeLoop locs2) ->
  always (returned <- loop1 ;;
          if returned then Ret true else
          returned <- loop2 ;;
          if returned then Ret true else
          log miss ;; Ret false)
         (probeLoop (locs1 ++ locs2)).
Proof.
  intros H1 H2. apply always_bind.
  eapply always_mono; [|exact H1].
  intros t o H. destruct (probeLoop_absurd _ _ _ H) as [b ->].
  destruct b; simpl.
  - rewrite app_nil_r. apply probeLoop_weaken. exact H.
  - apply always_bind. eapply always_mono; [|exact H2].
    intros t' o' H'. destruct (probeLoop_absurd _ _ _ H') as [b' ->].
    destruct b'; simpl.
    + rewrite app_nil_r. apply probeLoop_app; assumption.
    + rewrite app_assoc. apply probeLoop_log. apply probeLoop_app; assumption.
Qed.

Lemma fillTextByLabel_probes labels value fieldName :
  value <> "" ->
  always (fillTextByLabel labels (Some value) fieldName) (probeLoop (textLocators labels)).
Proof.
  intro Hv. unfold fillTextByLabel, textLocators.
  destruct value as [|c0 value0]; [congruence|].
  cbn [Js.truthy Js.isEmpty negb Js.orElse]. cbv zeta.
  apply twoLoops_probes.
  - apply (forEachTry_probes ByLabel). intro. round; split; reflexivity.
  - apply (forEachTry_probes (ByRole Textbox)). intro. round; split; reflexivity.
Qed.

(** X7.  With a non-empty value, [fillTextByLabel] looks the labels up by
    accessible label in the order given and only then by the role textbox,
    again in order; it stops at the first locator whose fill resolves and
    has then filled the first match of exactly that locator.  When it answers
    [false] every label was tried both ways and no fill resolved. *)
Theorem fillTextByLabel_tries_labels_then_roles :
  forall (W : Type) (d : Driver W) (w : W) (labels : list string) (value fieldName : string),
    value <> "" ->
    let r := run d (fillTextByLabel labels (Some value) fieldName) w in
    let locs := (map ByLabel labels ++ map (ByRole Textbox) labels)%list in
    exists k,
      probes (calls (trace r)) = firstn k locs
      /\ ((outcome r = Done true
           /\ exists j l, k = S j /\ nth_error locs j = Some l
                          /\ okFills (trace r) = [First l])
          \/ (outcome r = Done false
              /\ probes (calls (trace r)) = locs /\ okFills (trace r) = [])).
Proof.
  intros W d w labels value fieldName Hv r locs.
  pose proof (always_run d _ _ w (fillTextByLabel_probes labels value fieldName Hv)) as H.
  fold r in H. destruct H as (k & Hk & Ho). exists k. split; [exact Hk|].
  destruct (outcome r) as [[|]|e|]; try contradiction.
  - left. split; [reflexivity | exact Ho].
  - right. destruct Ho as [Hlen Hf]. split; [reflexivity|].
    split; [|exact Hf]. rewrite Hk. apply firstn_all2. exact Hlen.
Qed.

Lemma fillTextByLabel_tries_labels_then_roles_witness :
  let r := run (simDriver (pageWith [ByRole Textbox "Mobile"]))
               (fillTextByLabel ["Phone"; "Mobile"] (Some "030") "phone") sim0 in
  let locs := (map ByLabel ["Phone"; "Mobile"] ++ map (ByRole Textbox) ["Phone"; "Mobile"])%list in
  "030" <> ""
  /\ exists k,
      probes (calls (trace r)) = firstn k locs
      /\ ((outcome r = Done true
           /\ exists j l, k = S j /\ nth_error locs j = Some l
                          /\ okFills (trace r) = [First l])
          \/ (outcome r = Done false
              /\ probes (calls (trace r)) = locs /\ okFills (trace r) = [])).
Proof.
  split; [discriminate|].
  apply (fillTextByLabel_tries_labels_then_roles
           Sim (simDriver (pageWith [ByRole Textbox "Mobile"])) sim0
           ["Phone"; "Mobile"] "030" "phone").
  discriminate.
Defined.

Example fillTextByLabel_role_fallback :
  let r := run (simDriver (pageWith [ByRole Textbox "Mobile"]))
               (fillTextByLabel ["Phone"; "Mobile"] (Some "030") "phone") sim0 in
  probes (calls (trace r))
  = [ByLabel "Phone"; ByLabel "Mobile"; ByRole Textbox "Phone"; ByRole Textbox "Mobile"]
  /\ okFills (trace r) = [First (ByRole Textbox "Mobile")].
Proof. split; reflexivity. Qed.

(* ====================================================================== *)
(** * [findFirstVisibleSelector] *)
(* ====================================================================== *)

Lemma selectorSearch_step (s : string) (rest : list string) (t t' : list Event)
      (o : Outcome (option string)) :
  writes t = [] -> probes (calls t) = [First (Css s)] ->
  selectorSearch rest t' o -> selectorSearch (s :: rest) (t ++ t') o.
Proof.
  intros Hw Hp (Hw' & k & Hk & Ho). split.
  - rewrite writes_app, Hw, Hw'. reflexivity.
  - exists (S k). split; [rewrite calls_app, probes_app, Hp, Hk; reflexivity|].
    destruct o as [[s'|]|e|]; try contradiction.
    + destruct Ho as (j & -> & Hn). exists (S j). split; [reflexivity | exact Hn].
    + simpl. lia.
Qed.

Lemma findFirstVisibleSelector_search selectors label :
  always (findFirstVisibleSelector selectors label) (selectorSearch selectors).
Proof.
  induction selectors as [|s rest IH]; cbn [findFirstVisibleSelector].
  - cbn. split; [reflexivity|]. exists 0. split; [reflexivity | apply le_n].
  - apply always_bind, always_try_catch. unfold isThereAndVisible.
    assert (Hhit : forall t, writes t = [] -> probes (calls t) = [First (Css s)] ->
                             selectorSearch (s :: rest) (t ++ []) (Done (Some s))).
    { intros t Hw Hp. rewrite app_nil_r. split; [exact Hw|].
      exists 1. split; [exact Hp|]. exists 0. split; reflexivity. }
    assert (Hmiss : forall t, writes t = [] -> probes (calls t) = [First (Css s)] ->
                              always (findFirstVisibleSelector rest label)
                                     (fun t' o' => selectorSearch (s :: rest) (t ++ t') o')).
    { intros t Hw Hp. eapply always_mono; [|exact IH].
      intros t' o' H. apply selectorSearch_step; assumption. }
    cbn. intros [n|e]; cbn.
    + destruct (positive n); cbn.
      * intros [[|]|e]; cbn.
        -- apply (Hhit [_; _; _]); reflexivity.
        -- apply (Hmiss [_; _]); reflexivity.
        -- apply (Hhit [_; _; _]); reflexivity.
      * apply (Hmiss [_]); reflexivity.
    + apply (Hmiss [ECall (Count (First (Css s))) (Err e)]); reflexivity.
Qed.

Lemma findFirstVisibleSelector_static (page : forall c : Cmd, Result (Resp c))
      (selectors : list string) (label : string) :
  outcome (run (staticDriver page) (findFirstVisibleSelector selectors label) tt)
  = Done (find (fun s => shows page (First (Css s))) selectors).
Proof.
  induction selectors as [|s rest IH]; [reflexivity|].
  cbn [findFirstVisibleSelector find]. unfold shows, isThereAndVisible.
  rewrite run_bind, run_try_catch, run_bind, run_bind. cbn.
  destruct (page (Count (First (Css s)))) as [n|e]; cbn.
  - destruct (positive n); cbn.
    + destruct (page (IsVisible (First (Css s)))) as [[|]|e]; cbn; try reflexivity.
      revert IH. unfold outcome.
      destruct (run (staticDriver page) (findFirstVisibleSelector rest label) tt)
        as [[w1 t1] o1]. cbn. intros ->. reflexivity.
    + revert IH. unfold outcome.
      destruct (run (staticDriver page) (findFirstVisibleSelector rest label) tt)
        as [[w1 t1] o1]. cbn. intros ->. reflexivity.
  - revert IH. unfold outcome.
    destruct (run (staticDriver page) (findFirstVisibleSelector rest label) tt)
      as [[w1 t1] o1]. cbn. intros ->. reflexivity.
Qed.

(** X4.  [findFirstVisibleSelector] answers the first selector of the list,
    in list order, whose first match exists and counts as visible -- a count
    that fails is no match, a visibility check that fails counts as visible
    -- and [null] when there is none.  On every page it probes the selectors
    in order, stops at the one it answers, and writes nothing to the page. *)
Theorem findFirstVisibleSelector_answers_first_shown :
  (forall (page : forall c : Cmd, Result (Resp c)) (selectors : list string) (label : string),
      outcome (run (staticDriver page) (findFirstVisibleSelector selectors label) tt)
      = Done (find (fun s => shows page (First (Css s))) selectors))
  /\ (forall (W : Type) (d : Driver W) (w : W) (selectors : list string) (label : string),
         let r := run d (findFirstVisibleSelector selectors label) w in
         writes (trace r) = []
         /\ exists k,
             probes (calls (trace r)) = map (fun s => First (Css s)) (firstn k selectors)
             /\ ((outcome r = Done None /\ firstn k selectors = selectors)
                 \/ exists j s, outcome r = Done (Some s) /\ k = S j
                                /\ nth_error selectors j = Some s)).
Proof.
  split; [exact findFirstVisibleSelector_static|].
  intros W d w selectors label r.
  pose proof (always_run d _ _ w (findFirstVisibleSelector_search selectors label)) as H.
  fold r in H. destruct H as (Hw & k & Hk & Ho).
  split; [exact Hw|]. exists k. split; [exact Hk|].
  destruct (outcome r) as [[s|]|e|]; try contradiction.
  - right. destruct Ho as (j & -> & Hn). exists j, s. repeat split. exact Hn.
  - left. split; [reflexivity | apply firstn_all2; exact Ho].
Qed.

(* ====================================================================== *)
(** * Fallback writes come after a rejected write *)
(* ====================================================================== *)

Lemma afterFailure_app (fb : Cmd -> option Cmd) (t1 t2 : list Event) :
  forall prev,
    afterFailure fb prev t1 -> escalates fb t2 -> afterFailure fb prev (t1 ++ t2).
Proof.
  induction t1 as [|ev t1 IH]; intros prev H1 H2; simpl in *.
  - apply H2.
  - destruct H1 as [Hev H1]. split; [exact Hev|]. apply IH; assumption.
Qed.

Lemma escalates_app (fb : Cmd -> option Cmd) (t1 t2 : list Event) :
  escalates fb t1 -> escalates fb t2 -> escalates fb (t1 ++ t2).
Proof. intros H1 H2 prev. apply afterFailure_app; [apply H1 | exact H2]. Qed.

Lemma escalates_nil (fb : Cmd -> option Cmd) : escalates fb [].
Proof. intro prev. exact I. Qed.

Lemma escalates_bind (fb : Cmd -> option Cmd) {A B : Type} (p : Prog A) (f : A -> Prog B) :
  always p (fun t _ => escalates fb t) ->
  (forall a, always (f a) (fun t _ => escalates fb t)) ->
  always (bind p f) (fun t _ => escalates fb t).
Proof.
  intros Hp Hf. apply always_bind. eapply always_mono; [|exact Hp].
  intros t [a|e|] Ht; simpl; try exact Ht.
  eapply always_mono; [|apply Hf]. intros t' o' Ht'. apply escalates_app; assumption.
Qed.

Lemma escalates_forEachTry (fb : Cmd -> option Cmd) {X : Type} (xs : list X)
      (body : X -> Prog bool) :
  (forall x, always (try_catch (body x) (fun _ => Ret false)) (fun t _ => escalates fb t)) ->
  always (forEachTry xs body) (fun t _ => escalates fb t).
Proof.
  intro Hbody. induction xs as [|x rest IH]; simpl.
  - apply escalates_nil.
  - apply escalates_bind; [apply Hbody|].
    intros [|]; [apply escalates_nil | exact IH].
Qed.

Ltac escalation :=
  cbn; intros;
  repeat match goal with
         | r : Result _ |- _ => destruct r; cbn; intros
         | u : unit |- _ => destruct u
         | |- context [positive ?n] => destruct (positive n); cbn; intros
         end;
  intro prev; cbn; repeat split; try (eexists; reflexivity).

Lemma selectByLabel_escalates labels value fieldName :
  always (selectByLabel labels value fieldName) (fun t _ => escalates selectFallback t).
Proof.
  unfold selectByLabel. destruct (negb (Js.truthy value)); [escalation|].
  cbv zeta.
  apply escalates_bind; [apply escalates_forEachTry; intro; escalation|].
  intros [|]; [escalation|].
  apply escalates_bind; [apply escalates_forEachTry; intro; escalation|].
  intros [|]; escalation.
Qed.

Lemma clickRadioByLabel_escalates labels optionText fieldName :
  always (clickRadioByLabel labels optionText fieldName)
         (fun t _ => escalates radioFallback t).
Proof.
  unfold clickRadioByLabel. destruct (negb (Js.truthy optionText)); [escalation|].
  cbv zeta.
  apply escalates_bind; [apply escalates_forEachTry; intro; escalation|].
  intros [|]; [escalation|].
  apply escalates_bind; [escalation|].
  intros [|]; escalation.
Qed.

(** X6.  The fallback writes of [selectByLabel] and [clickRadioByLabel] are
    only ever made directly after the write they fall back from was
    rejected, on the same element and with the same value: selecting an
    option by value after selecting it by label failed, typing into a
    labelled control after selecting by value failed, typing key by key into
    a combobox after filling it failed, and clicking a radio option after
    checking it failed. *)
Theorem fallback_writes_follow_a_rejected_write :
  forall (W : Type) (d : Driver W) (w : W) (labels : list string)
         (value : option string) (fieldName : string),
    afterFailure selectFallback None (trace (run d (selectByLabel labels value fieldName) w))
    /\ afterFailure radioFallback None
                    (trace (run d (clickRadioByLabel labels value fieldName) w)).
Proof.
  intros W d w labels value fieldName. split.
  - apply (always_run d _ (fun t _ => escalates selectFallback t) w
                      (selectByLabel_escalates labels value fieldName)).
  - apply (always_run d _ (fun t _ => escalates radioFallback t) w
                      (clickRadioByLabel_escalates labels value fieldName)).
Qed.

Example select_falls_back_to_typing :
  let page := failingPage (fun c => match c with
                                    | SelectOptionLabel _ _ | SelectOptionValue _ _ => true
                                    | _ => false
                                    end) "not a select element" in
  calls (trace (run (simDriver {| page_matches := fun l => if locator_eqb l (ByLabel "Country") then 1 else 0;
                                  page_rejects := page_rejects page;
                                  page_data := page_data page;
                                  page_url := page_url page |})
                    (selectByLabel ["Country"] (Some "Germany") "country") sim0))
  = [ Count (ByLabel "Country");
      SelectOptionLabel (First (ByLabel "Country")) "Germany";
      SelectOptionValue (First (ByLabel "Country")) "Germany";
      Fill (First (ByLabel "Country")) "Germany" ].
Proof. reflexivity. Qed.

(* ====================================================================== *)
(** * [loadUser] *)
(* ====================================================================== *)

(** X1.  [loadUser] reads the profile file once and nothing else.  An
    error of the read or of the JSON parser is thrown on unchanged.  A parsed
    profile is rejected when one of [firstName], [lastName], [email] and
    [resumePath] is missing or empty, with an error that names the first
    such key in this order; otherwise the four values are kept, the resume
    path is resolved and the optional keys are passed through. *)
Theorem loadUser_validates_required_fields :
  forall (W : Type) (d : Driver W) (rt : Runtime) (w : W),
    let r := run d (loadUser rt) w in
    let read := snd (answer d (ReadFile CONFIG_PATH) w) in
    calls (trace r) = [ReadFile CONFIG_PATH]
    /\ (forall e, read = Err e -> outcome r = Raised e)
    /\ (forall rawConfig e,
          read = Ok rawConfig -> parseUserJson rt rawConfig = Err e -> outcome r = Raised e)
    /\ (forall rawConfig userConfig field,
          read = Ok rawConfig -> parseUserJson rt rawConfig = Ok userConfig ->
          firstMissing userConfig = Some field ->
          outcome r = Raised (missingField field) /\ In field requiredFields)
    /\ (forall rawConfig userConfig,
          read = Ok rawConfig -> parseUserJson rt rawConfig = Ok userConfig ->
          firstMissing userConfig = None ->
          exists user,
            outcome r = Done user
            /\ raw_firstName userConfig = Some (firstName user) /\ firstName user <> ""
            /\ raw_lastName userConfig = Some (lastName user) /\ lastName user <> ""
            /\ raw_email userConfig = Some (email user) /\ email user <> ""
            /\ (exists path, raw_resumePath userConfig = Some path /\ path <> ""
                             /\ resumePath user = resolvePath rt path)
            /\ extras user = raw_extras userConfig).
Proof.
  intros W d rt w r read. subst r read. unfold loadUser.
  cbn. destruct (answer d (ReadFile CONFIG_PATH) w) as [w1 [rawConfig|e]]; cbn.
  - change (Resp (ReadFile CONFIG_PATH)) with string in rawConfig.
    assert (Hsame : forall other : string,
               @Ok string rawConfig = @Ok string other -> other = rawConfig)
      by (intros other [= ->]; reflexivity).
    destruct (parseUserJson rt rawConfig) as [userConfig|e] eqn:Hparse.
    + unfold firstMissing, requiredFields, rawField, requireField. cbn.
      destruct userConfig as [f l m p x]. cbn.
      split.
      { destruct f as [[|? ?]|]; cbn; try reflexivity;
        destruct l as [[|? ?]|]; cbn; try reflexivity;
        destruct m as [[|? ?]|]; cbn; try reflexivity;
        destruct p as [[|? ?]|]; cbn; reflexivity. }
      split; [discriminate|].
      split; [intros other e0 H; apply Hsame in H; subst other; congruence|].
      split.
      * intros other cfg field H Hcfg. apply Hsame in H. subst other.
        rewrite Hparse in Hcfg. injection Hcfg as <-. cbn.
        destruct f as [[|? ?]|]; cbn;
          try (intros [= <-]; split; [reflexivity | cbn; tauto]);
        destruct l as [[|? ?]|]; cbn;
          try (intros [= <-]; split; [reflexivity | cbn; tauto]);
        destruct m as [[|? ?]|]; cbn;
          try (intros [= <-]; split; [reflexivity | cbn; tauto]);
        destruct p as [[|? ?]|]; cbn;
          try (intros [= <-]; split; [reflexivity | cbn; tauto]);
        discriminate.
      * intros other cfg H Hcfg. apply Hsame in H. subst other.
        rewrite Hparse in Hcfg. injection Hcfg as <-. cbn.
        destruct f as [[|? ?]|]; cbn; try discriminate;
        destruct l as [[|? ?]|]; cbn; try discriminate;
        destruct m as [[|? ?]|]; cbn; try discriminate;
        destruct p as [[|? ?]|]; cbn; try discriminate.
        intros _. eexists. split; [reflexivity|]. cbn.
        repeat split; try discriminate.
        eexists. split; [reflexivity|]. split; [discriminate | reflexivity].
    + cbn. split; [reflexivity|]. split; [discriminate|].
      split; [intros other e0 H He0; apply Hsame in H; subst other; congruence|].
      split; intros other cfg; intros; match goal with
                                       | H : Ok _ = Ok other |- _ => apply Hsame in H; subst other
                                       end; congruence.
  - split; [reflexivity|]. split; [intros ? [= <-]; reflexivity|].
    split; [discriminate|]. split; discriminate.
Qed.

Example loadUser_names_first_missing_key :
  let rt := {| sha1Hex := sha1Hex simRuntime; urlHostname := urlHostname simRuntime;
               parseUserJson := fun _ =>
                 Ok {| raw_firstName := Some "Jane"; raw_lastName := Some "";
                       raw_email := None; raw_resumePath := Some "cv.pdf";
                       raw_extras := noExtras |};
               resolvePath := resolvePath simRuntime;
               secondsFixed1 := secondsFixed1 simRuntime |} in
  outcome (run (simDriver emptyPage) (loadUser rt) sim0)
  = Raised (mkExn (Some ("Missing required field " ++ q ++ "lastName" ++ q
                         ++ " in config/user.json"))).
Proof. reflexivity. Qed.

(* ====================================================================== *)
(** * [getJobBoardSource] *)
(* ====================================================================== *)

Lemma firstSource_first (entries : list (string * string)) (hostname : string) :
  forall k domain source,
    nth_error entries k = Some (domain, source) ->
    Js.includes hostname domain = true ->
    (forall j domain' source',
        j < k -> nth_error entries j = Some (domain', source') ->
        Js.includes hostname domain' = false) ->
    firstSource entries hostname = source.
Proof.
  induction entries as [|[d0 s0] rest IH]; intros k domain source Hk Hin Hbefore.
  - destruct k; discriminate.
  - destruct k as [|k]; simpl in *.
    + injection Hk as -> ->. rewrite Hin. reflexivity.
    + rewrite (Hbefore 0 d0 s0 (Nat.lt_0_succ k) eq_refl).
      apply (IH k domain source Hk Hin).
      intros j d' s' Hj Hn. apply (Hbefore (S j) d' s'); [lia | exact Hn].
Qed.

Lemma firstSource_other_inv (entries : list (string * string)) (hostname : string) :
  (forall domain source, In (domain, source) entries -> source <> "Other") ->
  firstSource entries hostname = "Other" ->
  forall domain source, In (domain, source) entries -> Js.includes hostname domain = false.
Proof.
  induction entries as [|[d0 s0] rest IH]; intros Hne Hres domain source Hin.
  - contradiction.
  - simpl in Hres. destruct (Js.includes hostname d0) eqn:Hd0.
    + exfalso. apply (Hne d0 s0); [left; reflexivity | exact Hres].
    + destruct Hin as [[= <- <-]|Hin]; [exact Hd0|].
      apply (IH (fun d s H => Hne d s (or_intror H)) Hres domain source Hin).
Qed.

(** X2.  [getJobBoardSource] answers the source of the first entry of its
    table, in the order written, whose domain occurs anywhere in the
    hostname, and [Other] exactly when no domain occurs in it.  It computes
    the same source as the chain of tests that [extractMeta] had inline in
    the earlier revisions of the runner. *)
Theorem getJobBoardSource_first_matching_domain :
  forall hostname : string,
    (forall k domain source,
        nth_error sourceMap k = Some (domain, source) ->
        Js.includes hostname domain = true ->
        (forall j domain' source',
            j < k -> nth_error sourceMap j = Some (domain', source') ->
            Js.includes hostname domain' = false) ->
        getJobBoardSource hostname = source)
    /\ (getJobBoardSource hostname = "Other" <->
        forall domain source,
          In (domain, source) sourceMap -> Js.includes hostname domain = false)
    /\ getJobBoardSource hostname = Previous.sourceOfHost hostname.
Proof.
  intro hostname. split; [apply firstSource_first|]. split.
  - split.
    + apply firstSource_other_inv. unfold sourceMap. simpl.
      intros domain source H.
      repeat (destruct H as [[= <- <-]|H]; [discriminate|]). contradiction.
    + apply firstSource_other.
  - unfold getJobBoardSource, Previous.sourceOfHost, sourceMap, firstSource.
    destruct (Js.includes hostname "greenhouse.io"); [reflexivity|].
    destruct (Js.includes hostname "lever.co"); [reflexivity|].
    destruct (Js.includes hostname "myworkdayjobs"); [reflexivity|].
    destruct (Js.includes hostname "personio"); [reflexivity|].
    destruct (Js.includes hostname "join.com"); reflexivity.
Qed.

Example source_first_entry_wins :
  getJobBoardSource "personio.greenhouse.io" = "Greenhouse"
  /\ getJobBoardSource "jobs.lever.co.example.org" = "Lever".
Proof. split; reflexivity. Qed.

(* ====================================================================== *)
(** * The company of [extractMeta] *)
(* ====================================================================== *)

(** X3.  When the page evaluation and the URL parser succeed,
    [extractMeta] answers the title of the page as it is, the source of the
    hostname, and as company the hiring organisation of the structured data
    if it is not empty, else the site name if it is not empty, else the
    hostname without one leading [www.]; it makes no other call than the
    page evaluation. *)
Theorem extractMeta_company_precedence :
  forall (W : Type) (d : Driver W) (rt : Runtime) (w : W)
         (pageData : PageData) (hostname : string),
    snd (answer d EvalMeta w) = Ok pageData ->
    urlHostname rt (snd (observe d PageUrl (fst (answer d EvalMeta w)))) = Ok hostname ->
    let r := run d (extractMeta rt) w in
    outcome r = Done {| m_company := companyOf pageData hostname;
                        m_title := pd_title pageData;
                        m_source := getJobBoardSource hostname |}
    /\ calls (trace r) = [EvalMeta]
    /\ (forall c, pd_company pageData = Some c -> c <> "" ->
                  companyOf pageData hostname = c)
    /\ (forall s, Js.truthy (pd_company pageData) = false ->
                  pd_siteName pageData = Some s -> s <> "" ->
                  companyOf pageData hostname = s)
    /\ (Js.truthy (pd_company pageData) = false ->
        Js.truthy (pd_siteName pageData) = false ->
        companyOf pageData hostname = Js.stripWww hostname)
    /\ (forall rest, Js.stripWww ("www." ++ rest) = rest)
    /\ (Js.startsWith "www." hostname = false -> Js.stripWww hostname = hostname).
Proof.
  intros W d rt w pageData hostname Hmeta Hhost r. subst r.
  assert (Hpure :
            (forall c, pd_company pageData = Some c -> c <> "" ->
                       companyOf pageData hostname = c)
            /\ (forall s, Js.truthy (pd_company pageData) = false ->
                          pd_siteName pageData = Some s -> s <> "" ->
                          companyOf pageData hostname = s)
            /\ (Js.truthy (pd_company pageData) = false ->
                Js.truthy (pd_siteName pageData) = false ->
                companyOf pageData hostname = Js.stripWww hostname)
            /\ (forall rest, Js.stripWww ("www." ++ rest) = rest)
            /\ (Js.startsWith "www." hostname = false -> Js.stripWww hostname = hostname)).
  { unfold companyOf.
    split; [intros c -> Hc; destruct c; [congruence | reflexivity]|].
    split; [intros s -> -> Hs; destruct s; [congruence | reflexivity]|].
    split; [intros -> ->; reflexivity|].
    split; [intro rest; reflexivity|].
    intro H. unfold Js.stripWww. rewrite H. reflexivity. }
  split; [|split; [|exact Hpure]].
  - unfold extractMeta, outcome. rewrite run_try_catch, run_bind. cbn [run await].
    destruct (answer d EvalMeta w) as [w1 res]. cbn [fst snd] in *. subst res.
    cbn [run]. rewrite run_bind. cbn [run sync].
    destruct (observe d PageUrl w1) as [w2 pageUrl]. cbn [fst snd] in *.
    rewrite Hhost. cbn [run app snd fst].
    unfold companyOf, Js.orElse, Js.truthy.
    destruct (pd_company pageData) as [[|? ?]|]; cbn [Js.isEmpty negb];
      destruct (pd_siteName pageData) as [[|? ?]|]; reflexivity.
  - unfold extractMeta, trace. rewrite run_try_catch, run_bind. cbn [run await].
    destruct (answer d EvalMeta w) as [w1 res]. cbn [fst snd] in *. subst res.
    cbn [run]. rewrite run_bind. cbn [run sync].
    destruct (observe d PageUrl w1) as [w2 pageUrl]. cbn [fst snd] in *.
    rewrite Hhost. reflexivity.
Qed.

Lemma extractMeta_company_precedence_witness :
  let pg := {| page_matches := page_matches emptyPage;
               page_rejects := page_rejects emptyPage;
               page_data := {| pd_title := "Engineer"; pd_siteName := None;
                               pd_company := Some "" |};
               page_url := "https://www.acme.example" |} in
  let r := run (simDriver pg) (extractMeta simRuntime) sim0 in
  snd (answer (simDriver pg) EvalMeta sim0) = Ok (page_data pg)
  /\ urlHostname simRuntime
       (snd (observe (simDriver pg) PageUrl (fst (answer (simDriver pg) EvalMeta sim0))))
     = Ok "www.acme.example"
  /\ outcome r = Done {| m_company := "acme.example"; m_title := "Engineer";
                         m_source := "Other" |}.
Proof.
  intros pg r.
  split; [reflexivity|]. split; [reflexivity|].
  exact (proj1 (extractMeta_company_precedence
                  Sim (simDriver pg) simRuntime sim0 (page_data pg) "www.acme.example"
                  eq_refl eq_refl)).
Defined.

(* ====================================================================== *)
(** * [debugFormFields] *)
(* ====================================================================== *)

Lemma toLowerCase_app (a b : string) :
  Js.toLowerCase (a ++ b) = Js.toLowerCase a ++ Js.toLowerCase b.
Proof. induction a as [|c a IH]; simpl; [reflexivity | rewrite IH; reflexivity]. Qed.

Lemma startsWith_empty (p : string) :
  Js.startsWith p "" = Js.isEmpty p.
Proof. destruct p; reflexivity. Qed.

(** A word without a space that starts in [a] does not reach past the
    space that follows [a]. *)
Lemma startsWith_before_space (p a b : string) :
  hasSpace p = false ->
  Js.startsWith p (a ++ " " ++ b) = Js.startsWith p a.
Proof.
  revert p. induction a as [|c a IH]; intros p Hp.
  - destruct p as [|c0 p]; [reflexivity|].
    simpl in *. apply orb_false_iff in Hp. destruct Hp as [Hc0 _].
    rewrite Hc0. reflexivity.
  - destruct p as [|c0 p]; [reflexivity|].
    simpl in *. apply orb_false_iff in Hp. destruct Hp as [_ Hp].
    rewrite (IH p Hp). reflexivity.
Qed.

Lemma includes_empty (p : string) : Js.includes "" p = Js.isEmpty p.
Proof. simpl. rewrite startsWith_empty. apply orb_false_r. Qed.

Lemma includes_across_space (p a b : string) :
  hasSpace p = false ->
  Js.includes (a ++ " " ++ b) p = (Js.includes a p || Js.includes b p)%bool.
Proof.
  intro Hp. induction a as [|c a IH].
  - rewrite includes_empty.
    change ("" ++ " " ++ b) with (String " "%char b).
    cbn [Js.includes].
    destruct p as [|c0 p].
    + reflexivity.
    + simpl in Hp. apply orb_false_iff in Hp. destruct Hp as [Hc0 _].
      cbn [Js.startsWith Js.isEmpty]. rewrite Hc0. reflexivity.
  - change ((String c a) ++ " " ++ b) with (String c (a ++ " " ++ b)).
    cbn [Js.includes].
    change (String c (a ++ " " ++ b)) with ((String c a) ++ " " ++ b).
    rewrite (startsWith_before_space p (String c a) b Hp), IH.
    apply orb_assoc.
Qed.

Lemma searchText_matches (fieldType : string) (field : FieldInfo) :
  hasSpace fieldType = false ->
  Js.includes (searchText field) fieldType = Previous.matchesType fieldType field.
Proof.
  intro Hp. unfold searchText, Previous.matchesType. cbn [Js.join].
  rewrite !toLowerCase_app.
  change (Js.toLowerCase " ") with " ".
  rewrite !(includes_across_space fieldType _ _ Hp).
  rewrite !orb_assoc. reflexivity.
Qed.

Lemma commonFieldTypes_no_space :
  forallb (fun fieldType => negb (hasSpace fieldType)) commonFieldTypes = true.
Proof. reflexivity. Qed.

Lemma detectFields_previous (fields : list FieldInfo) :
  detectFields fields = Previous.detectFields fields.
Proof.
  unfold detectFields, Previous.detectFields.
  pose proof commonFieldTypes_no_space as H.
  induction commonFieldTypes as [|fieldType rest IH]; [reflexivity|].
  simpl in H. apply andb_true_iff in H. destruct H as [Hft Hrest].
  apply negb_true_iff in Hft.
  cbn [flat_map]. rewrite (IH Hrest). f_equal.
  replace (filter (fun f => Js.includes (searchText f) fieldType) fields)
    with (filter (Previous.matchesType fieldType) fields); [reflexivity|].
  apply filter_ext. intro f. symmetry. apply searchText_matches. exact Hft.
Qed.

Lemma debugFormFields_calls :
  always debugFormFields
         (fun t o => o = Done tt /\ calls t = [EvalFormFields]).
Proof.
  unfold debugFormFields. apply always_try_catch, always_bind.
  cbn -[detectFields]. intros [fields|e]; cbn -[detectFields]; [|split; reflexivity].
  apply always_bind.
  assert (Hlog : forall msgs (Q : list Event -> Outcome unit -> Prop),
             (forall t, calls t = [] -> Q t (Done tt)) -> always (logAll msgs) Q).
  { induction msgs as [|m msgs IH]; intros Q HQ; cbn.
    - apply HQ. reflexivity.
    - apply IH. intros t Ht. apply HQ. exact Ht. }
  apply Hlog. intros t Ht.
  destruct (detectFields fields) as [|entry rest].
  - cbn. rewrite !calls_app, Ht. split; reflexivity.
  - cbn -[flat_map]. apply Hlog. intros t' Ht'.
    rewrite !calls_app, Ht. cbn. rewrite Ht'. split; reflexivity.
Qed.

(** X8.  [debugFormFields] cannot fail and only reads: on every page it
    returns normally after the one page evaluation that lists the visible
    controls, and makes no other call.  A keyword is reported for a control
    exactly when one of its seven searched attributes (name, id, placeholder,
    label, aria-label, data-field, data-name) contains it after lowering the
    case: joining the attributes with spaces before the search, as the
    runner does now, finds the same controls as the per-attribute tests of
    the earlier revision, for every keyword without a space and so for all
    keywords of the list. *)
Theorem debugFormFields_only_reads :
  (forall (W : Type) (d : Driver W) (w : W),
      outcome (run d debugFormFields w) = Done tt
      /\ calls (trace (run d debugFormFields w)) = [EvalFormFields])
  /\ (forall fieldType field,
         hasSpace fieldType = false ->
         Js.includes (searchText field) fieldType = Previous.matchesType fieldType field)
  /\ (forall fields, detectFields fields = Previous.detectFields fields).
Proof.
  split; [|split; [exact searchText_matches | exact detectFields_previous]].
  intros W d w.
  apply (always_run d _ (fun t o => o = Done tt /\ calls t = [EvalFormFields]) w
                    debugFormFields_calls).
Qed.

Example debug_detects_by_any_attribute :
  map fst (detectFields
             [ {| fi_tag := "input"; fi_type := "text"; fi_name := "q1"; fi_id := "f1";
                  fi_placeholder := "Your LinkedIn URL"; fi_label := "";
                  fi_ariaLabel := ""; fi_dataField := ""; fi_dataName := "";
                  fi_className := "email" |} ])
  = ["linkedin"; "url"].
Proof. reflexivity. Qed.

(* ====================================================================== *)
(** * The time budget of [waitForFormStability] *)
(* ====================================================================== *)

Section StabilityBudget.

Context {W : Type} (d : Driver W) (time : W -> Z).
Hypothesis T : Timed d time.

Lemma stabilityLoop_budget (maxWaitTime startTime : Z) (fuel : nat) :
  forall (w : W) (previous stable : nat) (j : Z),
    (startTime + 500 * j <= time w)%Z ->
    let r := run d (stabilityLoop fuel maxWaitTime startTime previous stable) w in
    (polls (trace r) = 0 \/ (500 * (j + Z.of_nat (polls (trace r)) - 1) < maxWaitTime)%Z)
    /\ (outcome r = Done true -> 3 <= stable + polls (trace r)).
Proof.
  induction fuel as [|fuel IH]; intros w previous stable j Hj r; subst r.
  - cbn. split; [left; reflexivity | discriminate].
  - cbn [stabilityLoop]. cbn [bind sync run].
    pose proof (now_reads d time T w) as Hread.
    pose proof (sync_mono d time T DateNow w) as Hm1.
    destruct (observe d DateNow w) as [w1 now]. cbn [fst snd] in *. subst now.
    destruct (time w - startTime <? maxWaitTime)%Z eqn:Hnow.
    + apply Z.ltb_lt in Hnow.
      cbn [bind await run].
      pose proof (call_mono d time T EvalFieldCount w1) as Hm2.
      destruct (answer d EvalFieldCount w1) as [w2 [c|e]]; cbn [fst snd] in *.
      * assert (Hpause : forall previous' stable',
                   stable' <= S stable ->
                   let r := run d (bind (await (WaitForTimeout 500))
                                        (fun _ => stabilityLoop fuel maxWaitTime startTime
                                                                previous' stable')) w2 in
                   (500 * (j + Z.of_nat (S (polls (trace r))) - 1) < maxWaitTime)%Z
                   /\ (outcome r = Done true -> 3 <= stable + S (polls (trace r)))).
        { intros previous' stable' Hst r. subst r.
          cbn [bind await run].
          pose proof (pause_advances d time T 500 w2) as Hp.
          destruct (answer d (WaitForTimeout 500) w2) as [w3 [[]|e]]; cbn [fst snd] in *.
          - specialize (Hp w3 eq_refl). cbn [bind run].
            specialize (IH w3 previous' stable' (j + 1)%Z ltac:(lia)).
            cbv zeta in IH.
            destruct (run d (stabilityLoop fuel maxWaitTime startTime previous' stable') w3)
              as [[w4 t4] o4].
            unfold trace, outcome, polls in *. cbn [fst snd calls filter isPoll] in *.
            destruct IH as [[H0|Hlt] Htrue].
            + rewrite H0 in *. split; [lia|]. intro Ho. specialize (Htrue Ho). lia.
            + split; [lia|]. intro Ho. specialize (Htrue Ho). lia.
          - unfold trace, outcome, polls; cbn [bind run fst snd calls filter isPoll length]. split; [lia | discriminate]. }
        cbn [bind run].
        destruct (Nat.eqb c previous).
        -- destruct (3 <=? S stable)%nat eqn:H3.
           ++ cbn [bind sync run log]. destruct (observe d DateNow w2) as [w3 now'].
              unfold trace, outcome, polls; cbn [bind run fst snd calls filter isPoll length].
              apply Nat.leb_le in H3. split; [right; lia | intros _; lia].
           ++ specialize (Hpause c (S stable) (le_n _)). cbv zeta in Hpause.
              unfold await in Hpause. cbn [bind] in Hpause.
              match type of Hpause with
              | context [run d ?p w2] => destruct (run d p w2) as [[w3 t3] o3]
              end.
              unfold trace, outcome, polls in *.
              cbn [fst snd calls filter isPoll length] in *.
              destruct Hpause as [Hlt Htrue]. split; [right; exact Hlt | exact Htrue].
        -- cbn [bind log run].
           specialize (Hpause c 0 (Nat.le_0_l _)). cbv zeta in Hpause.
           unfold await in Hpause. cbn [bind run] in Hpause.
           destruct (answer d (WaitForTimeout 500) w2) as [w3 r3].
           match type of Hpause with
           | context [run d ?p w3] => destruct (run d p w3) as [[w4 t4] o4]
           end.
           unfold trace, outcome, polls in *.
           cbn [fst snd calls filter isPoll length] in *.
           destruct Hpause as [Hlt Htrue]. split; [right; exact Hlt | exact Htrue].
      * unfold trace, outcome, polls; cbn [bind run fst snd calls filter isPoll length]. split; [right; lia | discriminate].
    + cbn [bind log run]. unfold trace, outcome, polls; cbn [bind run fst snd calls filter isPoll length].
      split; [left; reflexivity | discriminate].
Qed.

Lemma waitForFormStability_budget (maxWaitTime : Z) (fuel : nat) (w : W) :
  let r := run d (waitForFormStability fuel maxWaitTime) w in
  (polls (trace r) = 0 \/ (500 * (Z.of_nat (polls (trace r)) - 1) < maxWaitTime)%Z)
  /\ (outcome r = Done true -> 3 <= polls (trace r)).
Proof.
  intro r. subst r. unfold waitForFormStability. cbn [bind sync run].
  pose proof (now_reads d time T w) as Hread.
  pose proof (sync_mono d time T DateNow w) as Hm1.
  destruct (observe d DateNow w) as [w1 now]. cbn [fst snd] in *. subst now.
  pose proof (stabilityLoop_budget maxWaitTime (time w) fuel w1 0 0 0%Z ltac:(lia)) as H.
  cbv zeta in H.
  destruct (run d (stabilityLoop fuel maxWaitTime (time w) 0 0) w1) as [[w2 t2] o2].
  unfold trace, outcome, polls in *. cbn [fst snd calls filter isPoll length] in *.
  destruct H as [[H0|Hlt] Htrue]; (split; [|exact Htrue]); [left; exact H0 | right; lia].
Qed.

Lemma waitForFormStability_no_budget (maxWaitTime : Z) (fuel : nat) (w : W) :
  (maxWaitTime <= 0)%Z ->
  let r := run d (waitForFormStability (S fuel) maxWaitTime) w in
  outcome r = Done false /\ calls (trace r) = [].
Proof.
  intros Hmax r. subst r. unfold waitForFormStability. cbn [bind sync run stabilityLoop].
  pose proof (now_reads d time T w) as Hread.
  pose proof (sync_mono d time T DateNow w) as Hm1.
  destruct (observe d DateNow w) as [w1 now]. cbn [fst snd] in *. subst now.
  pose proof (now_reads d time T w1) as Hread1.
  destruct (observe d DateNow w1) as [w2 now]. cbn [fst snd] in *. subst now.
  destruct (time w1 - time w <? maxWaitTime)%Z eqn:Hnow.
  - apply Z.ltb_lt in Hnow. lia.
  - split; reflexivity.
Qed.

End StabilityBudget.

(** X9.  With a clock that does not run backwards and pauses that last at
    least as long as asked, [waitForFormStability] asks the page for its
    field count at most once per 500 ms of its budget: the poll number [n]
    is only made while [500 * (n - 1)] is below [maxWaitTime], so the default
    budget of 5000 ms allows at most ten polls.  It answers [true] only
    after at least three polls, hence never with a budget of 1000 ms or
    less; with a budget of zero or less it answers [false] without touching
    the page. *)
Theorem waitForFormStability_poll_budget :
  forall (W : Type) (d : Driver W) (time : W -> Z) (fuel : nat) (maxWaitTime : Z) (w : W),
    Timed d time ->
    let r := run d (waitForFormStability fuel maxWaitTime) w in
    (polls (trace r) = 0 \/ (500 * (Z.of_nat (polls (trace r)) - 1) < maxWaitTime)%Z)
    /\ (maxWaitTime = defaultMaxWaitTime -> polls (trace r) <= 10)
    /\ (outcome r = Done true -> 3 <= polls (trace r) /\ (1000 < maxWaitTime)%Z)
    /\ ((maxWaitTime <= 1000)%Z -> outcome r <> Done true)
    /\ ((maxWaitTime <= 0)%Z -> calls (trace r) = []
                                /\ (fuel <> 0 -> outcome r = Done false)).
Proof.
  intros W d time fuel maxWaitTime w T r.
  pose proof (waitForFormStability_budget d time T maxWaitTime fuel w) as [Hb Htrue].
  fold r in Hb, Htrue.
  assert (H3 : outcome r = Done true -> 3 <= polls (trace r) /\ (1000 < maxWaitTime)%Z).
  { intro Ho. specialize (Htrue Ho). split; [exact Htrue|].
    destruct Hb as [H0|Hlt]; lia. }
  split; [exact Hb|]. split.
  - unfold defaultMaxWaitTime. intros ->. destruct Hb as [H0|Hlt]; lia.
  - split; [exact H3|]. split.
    + intros Hmax Ho. destruct (H3 Ho). lia.
    + intro Hmax. destruct fuel as [|fuel].
      * subst r. unfold waitForFormStability. cbn.
        destruct (observe d DateNow w) as [w1 now]. split; [reflexivity | congruence].
      * pose proof (waitForFormStability_no_budget d time T maxWaitTime fuel w Hmax)
          as [Ho Hc].
        split; [exact Hc | intros _; exact Ho].
Qed.

Lemma waitForFormStability_poll_budget_witness :
  let r := run (simDriver emptyPage) (waitForFormStability 11 5000)
               (simCounts [1; 2; 3; 4; 5; 6; 7; 8; 9; 10; 11; 12]) in
  Timed (simDriver emptyPage) sim_now
  /\ polls (trace r) = 10
  /\ (polls (trace r) = 0 \/ (500 * (Z.of_nat (polls (trace r)) - 1) < 5000)%Z).
Proof.
  split; [apply simDriver_Timed|]. split; [reflexivity|].
  exact (proj1 (waitForFormStability_poll_budget
                  Sim (simDriver emptyPage) sim_now 11 5000%Z
                  (simCounts [1; 2; 3; 4; 5; 6; 7; 8; 9; 10; 11; 12])
                  (simDriver_Timed emptyPage))).
Defined.


(* ====================================================================== *)
(** * Reading the log file back *)
(* ====================================================================== *)

Lemma length_append (a b : string) :
  String.length (a ++ b) = String.length a + String.length b.
Proof. induction a as [|c a IH]; simpl; [reflexivity | rewrite IH; reflexivity]. Qed.

Lemma csvLine_not_empty (row : Csv.Row) : 1 <= String.length (Csv.csvLine row).
Proof.
  unfold Csv.csvLine. rewrite length_append. simpl. lia.
Qed.

Lemma joinLines_length (rows : list Csv.Row) :
  length rows <= String.length (joinLines (map Csv.csvLine rows)).
Proof.
  induction rows as [|row rows IH]; simpl; [apply le_n|].
  rewrite length_append. pose proof (csvLine_not_empty row). lia.
Qed.

Lemma rowReadsBack_cells (row : Csv.Row) :
  Csv.rowReadsBack row = true ->
  Forall (fun cell => Csv.readsBack cell = true) (Csv.rowCells row).
Proof.
  unfold Csv.rowReadsBack. rewrite forallb_forall. intro H.
  apply Forall_forall. exact H.
Qed.

Lemma csvLine_read (row : Csv.Row) (rest : string) :
  Csv.rowReadsBack row = true ->
  Csv.readRecord Csv.FieldStart "" [] (Csv.csvLine row ++ rest)
  = Some (Csv.rowCells row, rest).
Proof.
  intro H. unfold Csv.csvLine. rewrite append_assoc.
  exact (read_cells "1" _ [] rest (rowReadsBack_cells row H)).
Qed.

Lemma csvLine_cons (row : Csv.Row) (rest : string) :
  exists c s, Csv.csvLine row ++ rest = String c s.
Proof.
  pose proof (csvLine_not_empty row) as H.
  destruct (Csv.csvLine row) as [|c s] eqn:E; simpl in *; [lia|].
  exists c, (s ++ rest). reflexivity.
Qed.

Lemma readRecords_rows (rows : list Csv.Row) :
  Forall (fun row => Csv.rowReadsBack row = true) rows ->
  forall fuel,
    length rows < fuel ->
    readRecords fuel (joinLines (map Csv.csvLine rows)) = Some (map Csv.rowCells rows).
Proof.
  induction 1 as [|row rows Hrow _ IH]; intros fuel Hfuel.
  - destruct fuel; [inversion Hfuel | reflexivity].
  - destruct fuel as [|fuel]; [inversion Hfuel|].
    simpl in Hfuel. cbn [map joinLines fold_right readRecords].
    fold (joinLines (map Csv.csvLine rows)).
    destruct (csvLine_cons row (joinLines (map Csv.csvLine rows))) as (c & s & E).
    rewrite E, <- E, (csvLine_read _ _ Hrow), IH by lia. reflexivity.
Qed.

Lemma csvHeader_line :
  Csv.csvHeader = Js.join "," (map Csv.escapeCsvValue headerCells) ++ Js.chr Js.newline.
Proof. reflexivity. Qed.

Lemma csvHeader_read (rest : string) :
  Csv.readRecord Csv.FieldStart "" [] (Csv.csvHeader ++ rest) = Some (headerCells, rest).
Proof.
  rewrite csvHeader_line, append_assoc.
  apply (read_cells "version" _ [] rest).
  apply Forall_forall. apply forallb_forall. vm_compute. reflexivity.
Qed.

Lemma readFile_log (rows : list Csv.Row) :
  Forall (fun row => Csv.rowReadsBack row = true) rows ->
  readFile (Csv.csvHeader ++ joinLines (map Csv.csvLine rows))
  = Some (headerCells :: map Csv.rowCells rows).
Proof.
  intro Hrows. unfold readFile. cbn [readRecords].
  rewrite length_append.
  pose proof (joinLines_length rows) as Hlen.
  assert (Hcons : exists c s, Csv.csvHeader ++ joinLines (map Csv.csvLine rows) = String c s).
  { rewrite csvHeader_line. cbn. eexists. eexists. reflexivity. }
  destruct Hcons as (c & s & E). rewrite E, <- E.
  rewrite csvHeader_read, (readRecords_rows rows Hrows).
  - reflexivity.
  - assert (H : 1 <= String.length Csv.csvHeader) by (rewrite csvHeader_line; cbn; lia).
    lia.
Qed.

(** X10.  A log file made of the header that [ensureOutFiles] writes and
    of any number of lines that [appendCsv] builds reads back with the CSV
    reader as the header record followed by one record per line, in order,
    each with the eleven cells of its row, provided that every value that
    holds a carriage return also holds a comma, a quote or a line feed (and
    so is written in quotes).  For such rows a comma, a quote, a line feed
    or a carriage return inside a value never splits or merges records. *)
Theorem log_file_reads_back :
  forall rows : list Csv.Row,
    Forall (fun row => Csv.rowReadsBack row = true) rows ->
    readFile (Csv.csvHeader ++ joinLines (map Csv.csvLine rows))
    = Some (headerCells :: map Csv.rowCells rows)
    /\ Forall (fun cells => length cells = 11) (headerCells :: map Csv.rowCells rows)
    /\ map (fun cells => nth 7 cells "") (map Csv.rowCells rows) = map Csv.url rows.
Proof.
  intros rows Hrows. split; [apply readFile_log, Hrows|]. split.
  - constructor; [reflexivity|].
    apply Forall_forall. intros cells Hin.
    apply in_map_iff in Hin. destruct Hin as (row & <- & _). reflexivity.
  - rewrite map_map. reflexivity.
Qed.

Lemma log_file_reads_back_witness :
  let row := {| Csv.tsStart := "t0"; Csv.tsEnd := "t1"; Csv.status := "error";
                Csv.company := "Acme, Inc."; Csv.title := ""; Csv.source := "Other";
                Csv.url := "https://a.example/1"; Csv.resume := "cv.pdf";
                Csv.notes := "Timeout 30000ms exceeded." ++ Js.chr Csv.carriage
                             ++ Js.chr Js.newline ++ "waiting for " ++ q ++ "#apply" ++ q;
                Csv.jobId := "da39a3ee5e6b" |} in
  Forall (fun row => Csv.rowReadsBack row = true) [row; row]
  /\ readFile (Csv.csvHeader ++ joinLines (map Csv.csvLine [row; row]))
     = Some (headerCells :: map Csv.rowCells [row; row])
  /\ Forall (fun cells => length cells = 11) (headerCells :: map Csv.rowCells [row; row])
  /\ map (fun cells => nth 7 cells "") (map Csv.rowCells [row; row])
     = map Csv.url [row; row].
Proof.
  intro row.
  assert (H : Forall (fun row => Csv.rowReadsBack row = true) [row; row])
    by (repeat constructor).
  split; [exact H|]. exact (log_file_reads_back [row; row] H).
Defined.

Example carriage_return_in_notes_splits_the_record :
  let row := {| Csv.tsStart := "t0"; Csv.tsEnd := "t1"; Csv.status := "error";
                Csv.company := "Acme"; Csv.title := ""; Csv.source := "Other";
                Csv.url := "https://a.example/1"; Csv.resume := "cv.pdf";
                Csv.notes := "Timeout" ++ Js.chr Csv.carriage ++ "retry";
                Csv.jobId := "da39a3ee5e6b" |} in
  Csv.rowReadsBack row = false
  /\ readFile (Csv.csvHeader ++ Csv.csvLine row)
     = Some [ headerCells;
              ["1"; "t0"; "t1"; "error"; "Acme"; ""; "Other"; "https://a.example/1";
               "cv.pdf"; "Timeout"];
              ["retry"; "da39a3ee5e6b"] ].
Proof. vm_compute. split; reflexivity. Qed.

(* ====================================================================== *)
(** * Which calls the parts of the runner make *)
(* ====================================================================== *)

Lemma Uses_mono (P Q : Cmd -> Prop) {A : Type} (p : Prog A) :
  (forall c, P c -> Q c) -> Uses P p -> Uses Q p.
Proof.
  intros HPQ H. induction H; constructor; auto.
Qed.

Lemma Uses_always (P : Cmd -> Prop) {A : Type} (p : Prog A) :
  Uses P p -> always p (fun t _ => Forall P (calls t)).
Proof.
  intro H. induction H as [a|e| |c k Hc _ IH|s k _ IH|msg k _ IH]; simpl.
  - constructor.
  - constructor.
  - constructor.
  - intro r. eapply always_mono; [|apply IH].
    intros t o Ht. simpl. constructor; assumption.
  - intro r. eapply always_mono; [|apply IH]. intros t o Ht. exact Ht.
  - eapply always_mono; [|apply IH]. intros t o Ht. exact Ht.
Qed.

Lemma always_and {A : Type} (p : Prog A) :
  forall Q1 Q2 : list Event -> Outcome A -> Prop,
    always p Q1 -> always p Q2 -> always p (fun t o => Q1 t o /\ Q2 t o).
Proof.
  induction p as [a|e| |c k IH|s k IH|msg k IH]; intros Q1 Q2 H1 H2; simpl in *.
  - split; assumption.
  - split; assumption.
  - split; assumption.
  - intro r. apply (IH r _ _ (H1 r) (H2 r)).
  - intro r. apply (IH r _ _ (H1 r) (H2 r)).
  - apply (IH _ _ H1 H2).
Qed.

Lemma fillTextByLabel_fillStep labels value fieldName :
  Uses fillStep (fillTextByLabel labels value fieldName).
Proof. unfold fillTextByLabel. tree. Qed.

Lemma clickRadioByLabel_fillStep labels optionText fieldName :
  Uses fillStep (clickRadioByLabel labels optionText fieldName).
Proof. unfold clickRadioByLabel. tree. Qed.

Lemma selectByLabel_fillStep labels value fieldName :
  Uses fillStep (selectByLabel labels value fieldName).
Proof. unfold selectByLabel. tree. Qed.

Lemma setFileByLabel_fillStep labels filePath fieldName :
  Uses fillStep (setFileByLabel labels filePath fieldName).
Proof. unfold setFileByLabel. tree. Qed.

Lemma fillGenericField_fillStep fieldType value fieldName :
  Uses fillStep (fillGenericField fieldType value fieldName).
Proof. unfold fillGenericField, isThereAndVisible. tree. Qed.

Lemma debugFormFields_fillStep : Uses fillStep debugFormFields.
Proof. unfold debugFormFields. tree. Qed.

Lemma extractMeta_fillStep rt : Uses fillStep (extractMeta rt).
Proof. unfold extractMeta. tree. Qed.

Lemma stabilityLoop_fillStep fuel maxWaitTime startTime previous stable :
  Uses fillStep (stabilityLoop fuel maxWaitTime startTime previous stable).
Proof.
  revert previous stable.
  induction fuel as [|fuel IH]; intros previous stable; cbn [stabilityLoop].
  - constructor.
  - repeat first [ apply IH | tree_step; intros ].
Qed.

Lemma waitForFormStability_fillStep fuel maxWaitTime :
  Uses fillStep (waitForFormStability fuel maxWaitTime).
Proof.
  unfold waitForFormStability. apply Uses_bind; [apply Uses_sync|].
  intro. apply stabilityLoop_fillStep.
Qed.

Lemma fillNameFields_fillStep reg user : Uses fillStep (fillNameFields reg user).
Proof.
  unfold fillNameFields, pageFillQuietly, ignore.
  repeat (apply Uses_bind;
          [apply findFirstVisibleSelector_Uses; intro; reflexivity | intros]).
  destruct a as [f|]; destruct a0 as [l|]; destruct a1 as [u|];
    repeat first [ apply fillTextByLabel_fillStep | tree_step; intros ].
Qed.

Lemma fillContactFields_fillStep user : Uses fillStep (fillContactFields user).
Proof.
  unfold fillContactFields, unless, ignore.
  repeat first [ apply fillGenericField_fillStep | apply fillTextByLabel_fillStep
               | tree_step; intros ].
Qed.

Lemma uploadResume_fillStep L user : Uses fillStep (uploadResume L user).
Proof.
  unfold uploadResume, ignore.
  repeat first [ apply setFileByLabel_fillStep | tree_step; intros ].
Qed.

Lemma fillAdditionalQuestions_fillStep L user :
  Uses fillStep (fillAdditionalQuestions L user).
Proof.
  unfold fillAdditionalQuestions, ignore.
  repeat first [ apply clickRadioByLabel_fillStep | apply selectByLabel_fillStep
               | apply fillTextByLabel_fillStep | tree_step; intros ].
Qed.

Lemma AutoSubmit_fillContactFields_fillStep user :
  Uses fillStep (AutoSubmit.fillContactFields user).
Proof.
  unfold AutoSubmit.fillContactFields, ignore.
  repeat first [ apply fillTextByLabel_fillStep | tree_step; intros ].
Qed.

(** A part of the runner that only makes fill steps, seen through a
    weaker property [P] of calls. *)
Ltac fill_part H :=
  eapply (Uses_mono fillStep); [exact H|];
  first [ apply waitForFormStability_fillStep | apply debugFormFields_fillStep
        | apply extractMeta_fillStep
        | apply fillNameFields_fillStep | apply fillContactFields_fillStep
        | apply AutoSubmit_fillContactFields_fillStep
        | apply uploadResume_fillStep | apply fillAdditionalQuestions_fillStep ].

Ltac parts H := repeat first [ fill_part H | tree_step; intros ].

Lemma fillStep_pageCall (c : Cmd) : fillStep c -> pageCall c.
Proof. unfold fillStep, pageCall. destruct c; simpl; congruence. Qed.

Lemma fillStep_radioClicksOnly (c : Cmd) : fillStep c -> radioClicksOnly c.
Proof. unfold fillStep. destruct c; simpl; auto. Qed.

Lemma fillStep_notAppend (c : Cmd) : fillStep c -> notAppend c.
Proof. unfold fillStep. destruct c; simpl; auto; discriminate. Qed.

(** [bind] after a part whose calls all satisfy [P], for a property [Q]
    that such calls in front do not disturb. *)
Lemma always_after (P : Cmd -> Prop) {A B : Type} (p : Prog A) (f : A -> Prog B)
      (Q : list Event -> Outcome B -> Prop) :
  Uses P p ->
  (forall t t' o, Forall P (calls t) -> Q t' o -> Q (t ++ t')%list o) ->
  (forall t e, Forall P (calls t) -> Q t (Raised e)) ->
  (forall t, Forall P (calls t) -> Q t Diverged) ->
  (forall a, always (f a) Q) ->
  always (bind p f) Q.
Proof.
  intros Hp Hpre Hraise Hdiv Hf. apply always_bind.
  eapply always_mono; [|apply Uses_always; exact Hp].
  intros t [a|e|] Ht; simpl.
  - eapply always_mono; [|apply Hf]. intros t' o' H'. apply Hpre; assumption.
  - apply Hraise. exact Ht.
  - apply Hdiv. exact Ht.
Qed.

(* ====================================================================== *)
(** * The hold banner comes last *)
(* ====================================================================== *)

Lemma holdLast_front (t t' : list Event) (o : Outcome (string * string)) :
  Forall fillStep (calls t) -> holdLast t' o -> holdLast (t ++ t')%list o.
Proof.
  intros Ht (pre & tail & Hc & Hpre & Htail & Hdone).
  exists (calls t ++ pre)%list, tail.
  split; [rewrite calls_app, Hc, app_assoc; reflexivity|].
  split; [apply Forall_app; split; assumption|].
  split; assumption.
Qed.

Lemma holdLast_early (t : list Event) (o : Outcome (string * string)) :
  Forall fillStep (calls t) -> (forall x, o <> Done x) -> holdLast t o.
Proof.
  intros Ht Ho. exists (calls t), [].
  split; [rewrite app_nil_r; reflexivity|]. split; [exact Ht|].
  split; [left; reflexivity|]. intros x Hx. destruct (Ho x Hx).
Qed.

Lemma holdForReview_holdLast : always holdForReview holdLast.
Proof.
  unfold holdForReview, showHoldBanner. cbn. intros [[]|e]; cbn.
  - intros [[]|e]; cbn;
      exists [], [EvalHoldBanner holdBannerText; WaitForClose];
      (split; [reflexivity|]); (split; [constructor|]); (split; [auto|]); auto.
  - exists [], [EvalHoldBanner holdBannerText].
    split; [reflexivity|]. split; [constructor|]. split; [auto | discriminate].
Qed.

Lemma fillAndHold_holdLast fuel user meta : always (fillAndHold fuel user meta) holdLast.
Proof.
  unfold fillAndHold.
  repeat (lazymatch goal with
          | |- always holdForReview _ => fail
          | _ => idtac
          end;
          apply (always_after fillStep);
          [ first [ apply waitForFormStability_fillStep | apply debugFormFields_fillStep
                  | apply fillNameFields_fillStep | apply fillContactFields_fillStep
                  | apply uploadResume_fillStep | apply fillAdditionalQuestions_fillStep
                  | solve [tree] ]
          | apply holdLast_front
          | intros; apply holdLast_early; [assumption | discriminate]
          | intros; apply holdLast_early; [assumption | discriminate]
          | intros ]).
  apply holdForReview_holdLast.
Qed.

(** X18.  In the manual-review runner the hold banner is shown at most
    once per URL and only after all filling is over: every call that
    [fillAndHold] makes before it is a fill step (no navigation, no file or
    session call, no click other than on a radio option), and after the
    banner the runner makes no call but the wait for the tab to close.  When
    [fillAndHold] returns, it has shown the banner and waited. *)
Theorem hold_banner_comes_last :
  forall (W : Type) (d : Driver W) (w : W) (fuel : nat) (user : User) (meta : Meta),
    let r := run d (fillAndHold fuel user meta) w in
    exists pre tail,
      calls (trace r) = (pre ++ tail)%list
      /\ Forall fillStep pre
      /\ (tail = [] \/ tail = [EvalHoldBanner holdBannerText]
          \/ tail = [EvalHoldBanner holdBannerText; WaitForClose])
      /\ (forall x, outcome r = Done x ->
                    tail = [EvalHoldBanner holdBannerText; WaitForClose]).
Proof.
  intros W d w fuel user meta r.
  exact (always_run d _ holdLast w (fillAndHold_holdLast fuel user meta)).
Qed.

(* ====================================================================== *)
(** * The manual-review runner never clicks a button *)
(* ====================================================================== *)

Lemma urlLoop_Uses (P : Cmd -> Prop) (step : nat -> string -> Prog unit) (urls : list string) :
  (forall i url, Uses P (step i url)) ->
  forall i, Uses P (urlLoop step i urls).
Proof.
  intro Hstep. induction urls as [|url rest IH]; intro i; cbn [urlLoop].
  - constructor.
  - apply Uses_bind; [apply Hstep | intros; apply IH].
Qed.

Lemma fillAndHold_radioClicksOnly fuel user meta :
  Uses radioClicksOnly (fillAndHold fuel user meta).
Proof.
  unfold fillAndHold, holdForReview, showHoldBanner. parts fillStep_radioClicksOnly.
Qed.

Lemma attempt_radioClicksOnly fuel rt user url :
  Uses radioClicksOnly (attempt fuel rt user url).
Proof.
  unfold attempt, reportError.
  repeat first [ apply fillAndHold_radioClicksOnly
               | fill_part fillStep_radioClicksOnly | tree_step; intros ].
Qed.

Lemma runBatch_radioClicksOnly fuel rt urls :
  Uses radioClicksOnly (runBatch fuel rt urls).
Proof.
  unfold runBatch, try_finally, ensureOutFiles, loadUser, requireField.
  repeat first [ apply urlLoop_Uses; intros; unfold processUrl, processUrlWith, appendCsv
               | apply attempt_radioClicksOnly
               | tree_step; intros ].
Qed.

(** X19.  The manual-review runner never clicks a button: on every page
    and whatever the calls answer, the only clicks of a whole batch are
    clicks on a radio option, made by [clickRadioByLabel] after checking the
    option was rejected.  In particular it never clicks a submit control. *)
Theorem manual_runner_clicks_radio_options_only :
  forall (W : Type) (d : Driver W) (w : W) (fuel : nat) (rt : Runtime) (urls : list string),
    Forall (fun c => match c with
                     | Click l => isRadioOption l = true
                     | _ => True
                     end)
           (calls (trace (run d (runBatch fuel rt urls) w))).
Proof.
  intros W d w fuel rt urls.
  exact (Uses_run d radioClicksOnly _ (runBatch_radioClicksOnly fuel rt urls) w).
Qed.

(* ====================================================================== *)
(** * One URL after the other *)
(* ====================================================================== *)

Lemma always_result_bind {A B : Type} (p : Prog A) (f : A -> Prog B) (R : B -> Prop) :
  (forall a, always (f a) (result R)) -> always (bind p f) (result R).
Proof.
  intro Hf. induction p as [a|e| |c k IH|s k IH|msg k IH]; simpl.
  - apply Hf.
  - intros a H. discriminate.
  - intros a H. discriminate.
  - intro r. eapply always_mono; [|apply IH]. intros t o H. exact H.
  - intro r. eapply always_mono; [|apply IH]. intros t o H. exact H.
  - eapply always_mono; [|apply IH]. intros t o H. exact H.
Qed.

Lemma always_result_try_catch {A : Type} (p : Prog A) (h : Exn -> Prog A) (R : A -> Prop) :
  always p (result R) -> (forall e, always (h e) (result R)) ->
  always (try_catch p h) (result R).
Proof.
  intros Hp Hh. apply always_try_catch. eapply always_mono; [|exact Hp].
  intros t [a|e|] H; simpl.
  - exact H.
  - eapply always_mono; [|apply Hh]. intros t' o' H'. exact H'.
  - intros a Ha. discriminate.
Qed.

Lemma always_result_map {A B : Type} (p : Prog A) (g : A -> B) (R' : A -> Prop)
      (R : B -> Prop) :
  always p (result R') -> (forall a, R' a -> R (g a)) ->
  always (bind p (fun a => Ret (g a))) (result R).
Proof.
  intros Hp Hg. apply always_bind. eapply always_mono; [|exact Hp].
  intros t [a|e|] H; simpl; intros b Hb; try discriminate.
  injection Hb as <-. apply Hg, H. reflexivity.
Qed.

Lemma always_await {B : Type} (c : Cmd) (f : Resp c -> Prog B)
      (Q : list Event -> Outcome B -> Prop) :
  (forall a, always (f a) (fun t o => Q (ECall c (Ok a) :: t) o)) ->
  (forall e, Q [ECall c (Err e)] (Raised e)) ->
  always (bind (await c) f) Q.
Proof.
  intros Hok Herr. simpl. intros [a|e]; simpl; [apply Hok | apply Herr].
Qed.

Lemma always_try_finally {A : Type} (p : Prog A) (fin : Prog unit) :
  forall Q : list Event -> Outcome A -> Prop,
    always p (fun t o =>
                match o with
                | Done a =>
                    always fin (fun t' o' =>
                                  Q (t ++ t')%list
                                    match o' with
                                    | Done _ => Done a
                                    | Raised e' => Raised e'
                                    | Diverged => Diverged
                                    end)
                | Raised e =>
                    always fin (fun t' o' =>
                                  Q (t ++ t')%list
                                    match o' with
                                    | Done _ => Raised e
                                    | Raised e' => Raised e'
                                    | Diverged => Diverged
                                    end)
                | Diverged => Q t Diverged
                end) ->
    always (try_finally p fin) Q.
Proof.
  unfold try_finally.
  induction p as [a|e| |c k IH|s k IH|msg k IH]; intros Q Hp; simpl in *.
  - apply always_bind. eapply always_mono; [|exact Hp].
    intros t [[]|e'|] H; simpl; [rewrite app_nil_r|..]; exact H.
  - apply always_bind. eapply always_mono; [|exact Hp].
    intros t [[]|e'|] H; simpl; [rewrite app_nil_r|..]; exact H.
  - exact Hp.
  - intro r. apply IH. exact (Hp r).
  - intro r. apply IH. exact (Hp r).
  - apply IH. exact Hp.
Qed.

Lemma gotos_app (l1 l2 : list Cmd) : gotos (l1 ++ l2) = (gotos l1 ++ gotos l2)%list.
Proof.
  induction l1 as [|c l1 IH]; simpl; [reflexivity|].
  destruct c; simpl; rewrite ?IH; reflexivity.
Qed.

Lemma pageCall_gotos (l : list Cmd) : Forall pageCall l -> gotos l = [].
Proof.
  induction 1 as [|c l Hc _ IH]; [reflexivity|].
  destruct c; simpl; try exact IH. discriminate.
Qed.

Lemma logged_app (t1 t2 : list Event) : logged (t1 ++ t2) = (logged t1 ++ logged t2)%list.
Proof.
  induction t1 as [|[c r|s r|msg] t1 IH]; simpl; rewrite ?IH; try reflexivity.
  destruct c; try reflexivity.
  destruct (resolved r && String.eqb path CSV_PATH)%bool; rewrite ?IH; reflexivity.
Qed.

Lemma appended_logged (t : list Event) : appended t = [] -> logged t = [].
Proof.
  induction t as [|[c r|s r|msg] t IH]; simpl; auto.
  destruct c; auto. discriminate.
Qed.

Lemma pageCall_appended (t : list Event) : Forall pageCall (calls t) -> appended t = [].
Proof.
  induction t as [|[c r|s r|msg] t IH]; simpl; intro H; auto.
  inversion H as [|? ? Hc Ht]; subst.
  destruct c; try (apply IH; exact Ht). discriminate.
Qed.

Lemma holdForReview_result : always holdForReview (result (fun x => manualStatus (fst x))).
Proof.
  unfold holdForReview, showHoldBanner. cbn. intros [[]|e]; cbn.
  - intros [[]|e]; cbn; intros a [= <-]; [left | right]; reflexivity.
  - intros a H. discriminate.
Qed.

Lemma fillAndHold_result fuel user meta :
  always (fillAndHold fuel user meta) (result (fun x => manualStatus (fst x))).
Proof.
  unfold fillAndHold.
  repeat (lazymatch goal with
          | |- always holdForReview _ => fail
          | _ => idtac
          end; apply always_result_bind; intros).
  apply holdForReview_result.
Qed.

Lemma fillAndHold_pageCall fuel user meta : Uses pageCall (fillAndHold fuel user meta).
Proof. unfold fillAndHold, holdForReview, showHoldBanner. parts fillStep_pageCall. Qed.

Lemma submitStep_result autoSubmit :
  always (AutoSubmit.submitStep autoSubmit) (result (fun x => autoStatus (fst x))).
Proof.
  unfold AutoSubmit.submitStep. cbn. intros [n|e]; cbn; [|intros a H; discriminate].
  destruct (positive n); destruct autoSubmit; cbn.
  - intros [[]|e]; cbn; intros a [= <-]; left; reflexivity.
  - intros a [= <-]. right. left. reflexivity.
  - intros a [= <-]. right. left. reflexivity.
  - intros a [= <-]. right. left. reflexivity.
Qed.

Lemma fillAndSubmit_result autoSubmit user meta :
  always (AutoSubmit.fillAndSubmit autoSubmit user meta)
         (result (fun x => autoStatus (fst x))).
Proof.
  unfold AutoSubmit.fillAndSubmit.
  repeat (lazymatch goal with
          | |- always (AutoSubmit.submitStep _) _ => fail
          | _ => idtac
          end; apply always_result_bind; intros).
  apply submitStep_result.
Qed.

Lemma fillAndSubmit_pageCall autoSubmit user meta :
  Uses pageCall (AutoSubmit.fillAndSubmit autoSubmit user meta).
Proof.
  unfold AutoSubmit.fillAndSubmit, AutoSubmit.submitStep. parts fillStep_pageCall.
Qed.

Section OneUrlAlways.

Variable allowed : string -> Prop.
Hypothesis allowed_error : allowed "error".

Variable fillAndEnd : Meta -> Prog (string * string).
Hypothesis fillAndEnd_pageCall : forall meta, Uses pageCall (fillAndEnd meta).
Hypothesis fillAndEnd_result :
  forall meta, always (fillAndEnd meta) (result (fun x => allowed (fst x))).

(** The [try ... catch] of the URL loop around a form phase. *)
Lemma guarded_attempt (rt : Runtime) (url : string) :
  always (try_catch
            (await (Goto url) ;;
             await (WaitForTimeout 1200) ;;
             meta <- extractMeta rt ;;
             try_catch
               (outcome <- fillAndEnd meta ;; Ret (meta, outcome))
               (reportError meta))
            (reportError defaultMeta))
         (attemptSpec allowed url).
Proof.
  set (body := (await (WaitForTimeout 1200) ;;
                meta <- extractMeta rt ;;
                try_catch
                  (outcome <- fillAndEnd meta ;; Ret (meta, outcome))
                  (reportError meta))).
  assert (Hbody : always body
                         (fun t o => Forall pageCall (calls t)
                                     /\ result (fun x => allowed (fst (snd x))) t o)).
  { apply always_and.
    - apply Uses_always. unfold body, reportError.
      repeat first [ apply fillAndEnd_pageCall | fill_part fillStep_pageCall
                   | tree_step; intros ].
    - unfold body. apply always_result_bind. intros _.
      apply always_result_bind. intro meta.
      apply always_result_try_catch.
      + eapply always_result_map; [apply fillAndEnd_result|]. intros a H. exact H.
      + intro e. unfold reportError. cbn. intros a [= <-]. exact allowed_error. }
  apply always_try_catch.
  change (always (bind (await (Goto url)) (fun _ => body))
                 (fun t o =>
                    match o with
                    | Raised e =>
                        always (reportError defaultMeta e)
                               (fun t' o' => attemptSpec allowed url (t ++ t')%list o')
                    | Done a => attemptSpec allowed url t (Done a)
                    | Diverged => attemptSpec allowed url t Diverged
                    end)).
  apply always_await.
  - intros []. eapply always_mono; [|exact Hbody].
    intros t o [Hc Hr].
    assert (Hg : gotos (calls (ECall (Goto url) (Ok tt) :: t)) = [url])
      by (simpl; rewrite (pageCall_gotos _ Hc); reflexivity).
    assert (Ha : appended (ECall (Goto url) (Ok tt) :: t) = [])
      by (simpl; apply pageCall_appended; exact Hc).
    destruct o as [x|e|].
    + split; [exact Hg|]. split; [exact Ha|]. apply Hr. reflexivity.
    + unfold reportError. cbn [bind log always app].
      unfold attemptSpec. cbn [calls gotos appended fst snd].
      rewrite calls_app, gotos_app, appended_app, (pageCall_gotos _ Hc),
        (pageCall_appended _ Hc).
      split; [reflexivity|]. split; [reflexivity | exact allowed_error].
    + split; [exact Hg|]. split; [exact Ha | exact I].
  - intro e. unfold reportError. cbn.
    split; [reflexivity|]. split; [reflexivity | exact allowed_error].
Qed.

(** One round of the URL loop. *)
Lemma processUrlWith_step (rt : Runtime) (user : User) (total jobNumber : nat)
      (url : string) (attempted : Prog (Meta * (string * string))) :
  always attempted (attemptSpec allowed url) ->
  always (processUrlWith rt user total jobNumber url attempted) (stepSpec allowed user url).
Proof.
  intro Hatt. unfold processUrlWith. cbn [bind sync log always].
  intros tsStart startTime. apply always_bind.
  eapply always_mono; [|exact Hatt].
  intros t [x|e|] (Hg & Ha & Ho); [| destruct Ho |].
  - cbn [bind sync always]. intros tsEnd endTime.
    unfold appendCsv. cbn [bind await log always].
    pose proof (appended_logged t Ha) as Hl.
    set (row := {| Csv.tsStart := tsStart; Csv.tsEnd := tsEnd;
                   Csv.status := fst (snd x);
                   Csv.company := m_company (fst x); Csv.title := m_title (fst x);
                   Csv.source := m_source (fst x); Csv.url := url;
                   Csv.resume := resumePath user; Csv.notes := snd (snd x);
                   Csv.jobId := Js.take 12 (sha1Hex rt (url ++ tsStart)) |}).
    assert (Hrow : rowFor allowed user url row)
      by (split; [reflexivity|]; split; [reflexivity | exact Ho]).
    intros [[]|e]; cbn [bind log always];
      unfold stepSpec; cbn [calls gotos appended logged app length];
      rewrite !calls_app, !gotos_app, !appended_app, !logged_app, Ha, Hl, Hg;
      cbn [calls gotos appended logged app length resolved andb];
      (split; [reflexivity|]); exists row; (split; [exact Hrow|]).
    + split; reflexivity.
    + split; [reflexivity|]. split; [reflexivity|].
      eexists (_ :: _ :: _ :: _ :: t ++ [_; _])%list, _.
      cbn. rewrite <- app_assoc. reflexivity.
  - unfold stepSpec. cbn [calls appended gotos logged]. rewrite Hg, Ha, (appended_logged t Ha).
    split; [reflexivity|]. split; reflexivity.
Qed.

Lemma urlLoop_loop (user : User) (step : nat -> string -> Prog unit) (urls : list string) :
  (forall i url, always (step i url) (stepSpec allowed user url)) ->
  forall i, always (urlLoop step i urls) (loopSpec allowed user urls).
Proof.
  intro Hstep. induction urls as [|url rest IH]; intro i; cbn [urlLoop].
  - cbn. exists [], 0. split; [constructor|]. repeat split; reflexivity.
  - apply always_bind. eapply always_mono; [|apply Hstep].
    intros t [[]|e|] (Hg & Ho).
    + destruct Ho as (row & (Hurl & Hres & Hst) & Ha & Hl).
      eapply always_mono; [|apply IH].
      intros t' o' (rows & j & Hrows & Ha' & Hurls & Hl' & Ho').
      exists (row :: rows), (S j).
      rewrite calls_app, gotos_app, appended_app, logged_app, Hg, Ha, Hl, Ha', Hl'.
      split; [constructor; [split; assumption | exact Hrows]|].
      split; [reflexivity|].
      split; [cbn; rewrite Hurl, Hurls; reflexivity|].
      split; [reflexivity|].
      destruct o' as [[]|e'|].
      * destruct Ho' as (Hg' & Hlen & Heq). rewrite Hg'.
        split; [reflexivity|]. split; [cbn; rewrite Hlen; reflexivity|].
        cbn. rewrite <- Hl', Heq, Ha'. reflexivity.
      * destruct Ho' as ((t0 & line & ->) & Hg' & Hlen). rewrite Hg'.
        split; [exists (t ++ t0)%list, line; rewrite app_assoc; reflexivity|].
        split; [reflexivity | cbn; lia].
      * destruct Ho' as (Hg' & Hlen). rewrite Hg'.
        split; [reflexivity | cbn; lia].
    + destruct Ho as (row & (Hurl & Hres & Hst) & Ha & Hl & Hend).
      exists [row], 0. rewrite Ha, Hl, Hg.
      split; [constructor; [split; assumption | constructor]|].
      split; [reflexivity|]. split; [cbn; rewrite Hurl; reflexivity|].
      split; [reflexivity|]. split; [exact Hend|]. split; [reflexivity | cbn; lia].
    + destruct Ho as [Ha Hl]. exists [], 0. rewrite Ha, Hl, Hg.
      split; [constructor|]. split; [reflexivity|]. split; [reflexivity|].
      split; [reflexivity|]. split; [reflexivity | cbn; lia].
Qed.

End OneUrlAlways.

(* ====================================================================== *)
(** * A whole batch *)
(* ====================================================================== *)

Lemma quiet_gotos (l : list Cmd) : Forall quietCall l -> gotos l = [].
Proof.
  induction 1 as [|c l Hc _ IH]; [reflexivity|].
  destruct c; simpl; try exact IH. destruct Hc.
Qed.

Lemma quiet_appended (t : list Event) : Forall quietCall (calls t) -> appended t = [].
Proof.
  induction t as [|[c r|s r|msg] t IH]; simpl; intro H; auto.
  inversion H as [|? ? Hc Ht]; subst.
  destruct c; try (apply IH; exact Ht). destruct Hc.
Qed.

Lemma batchSpec_front (allowed : string -> Prop) (urls : list string)
      (t t' : list Event) (o : Outcome unit) :
  Forall quietCall (calls t) -> batchSpec allowed urls t' o ->
  batchSpec allowed urls (t ++ t')%list o.
Proof.
  intros Hq. unfold batchSpec.
  rewrite calls_app, gotos_app, appended_app, logged_app, (quiet_gotos _ Hq),
    (quiet_appended _ Hq), (appended_logged _ (quiet_appended _ Hq)).
  intro H. exact H.
Qed.

Lemma batchSpec_early (allowed : string -> Prop) (urls : list string)
      (t : list Event) (o : Outcome unit) :
  Forall quietCall (calls t) -> (forall a, o <> Done a) -> batchSpec allowed urls t o.
Proof.
  intros Hq Ho. unfold batchSpec.
  rewrite (quiet_gotos _ Hq), (quiet_appended _ Hq),
    (appended_logged _ (quiet_appended _ Hq)).
  split; [exists 0; reflexivity|]. exists [], 0.
  split; [constructor|]. split; [reflexivity|]. split; [reflexivity|].
  split; [reflexivity|]. intros a Ha. destruct (Ho a Ha).
Qed.

Lemma loopSpec_batch (allowed : string -> Prop) (user : User) (urls : list string)
      (t t' : list Event) (o o' : Outcome unit) :
  loopSpec allowed user urls t o ->
  Forall quietCall (calls t') ->
  (forall a, o' = Done a -> exists b, o = Done b) ->
  batchSpec allowed urls (t ++ t')%list o'.
Proof.
  intros (rows & j & Hrows & Ha & Hurls & Hl & Ho) Hq Hdone. unfold batchSpec.
  rewrite calls_app, gotos_app, appended_app, logged_app, (quiet_gotos _ Hq),
    (quiet_appended _ Hq), (appended_logged _ (quiet_appended _ Hq)), !app_nil_r.
  assert (Hst : Forall (fun row => allowed (Csv.status row)) rows)
    by (eapply Forall_impl; [|exact Hrows]; intros row [_ H]; exact H).
  split.
  - destruct o as [[]|e|].
    + destruct Ho as (Hg & _). exists (length urls). rewrite firstn_all. exact Hg.
    + destruct Ho as (_ & Hg & _). eexists. exact Hg.
    + destruct Ho as (Hg & _). eexists. exact Hg.
  - exists rows, j. split; [exact Hst|]. split; [exact Ha|].
    split; [exact Hurls|]. split; [exact Hl|].
    intros a Ho'. destruct (Hdone a Ho') as [b ->]. exact Ho.
Qed.

Lemma batch_frame (allowed : string -> Prop) (rt : Runtime) (urls : list string)
      (start : string) (loop : User -> Prog unit) :
  (forall user, always (loop user) (loopSpec allowed user urls)) ->
  always (ensureOutFiles ;;
          user <- loadUser rt ;;
          await Launch ;;
          await NewContext ;;
          await NewPage ;;
          log start ;;
          try_finally (loop user)
                      (await CloseContext ;;
                       await CloseBrowser ;;
                       log "batch: finished"))
         (batchSpec allowed urls).
Proof.
  intro Hloop.
  apply (always_after quietCall);
    [ unfold ensureOutFiles; tree
    | apply batchSpec_front
    | intros; apply batchSpec_early; [assumption | discriminate]
    | intros; apply batchSpec_early; [assumption | discriminate]
    | intros _ ].
  apply (always_after quietCall);
    [ unfold loadUser, requireField; tree
    | apply batchSpec_front
    | intros; apply batchSpec_early; [assumption | discriminate]
    | intros; apply batchSpec_early; [assumption | discriminate]
    | intro user ].
  do 4 (apply (always_after quietCall);
        [ tree
        | apply batchSpec_front
        | intros; apply batchSpec_early; [assumption | discriminate]
        | intros; apply batchSpec_early; [assumption | discriminate]
        | intros _ ]).
  apply always_try_finally. eapply always_mono; [|apply Hloop].
  intros t o Hspec.
  assert (Hfin : forall o1 : Outcome unit,
             (forall a, o1 = Done a -> exists b, o = Done b) ->
             always (await CloseContext ;; await CloseBrowser ;; log "batch: finished")
                    (fun t' o' =>
                       batchSpec allowed urls (t ++ t')%list
                                 match o' with
                                 | Done _ => o1
                                 | Raised e' => Raised e'
                                 | Diverged => Diverged
                                 end)).
  { intros o1 Ho1. cbn. intros [[]|e]; cbn.
    - intros [[]|e]; cbn.
      + eapply loopSpec_batch; [exact Hspec | repeat constructor | exact Ho1].
      + eapply loopSpec_batch; [exact Hspec | repeat constructor | discriminate].
    - eapply loopSpec_batch; [exact Hspec | repeat constructor | discriminate]. }
  destruct o as [a|e|].
  - apply Hfin. intros b _. exists a. reflexivity.
  - apply (Hfin (Raised e)). discriminate.
  - rewrite <- (app_nil_r t).
    eapply loopSpec_batch; [exact Hspec | constructor | discriminate].
Qed.

Lemma processUrl_step fuel rt user total jobNumber url :
  always (processUrl fuel rt user total jobNumber url) (stepSpec manualStatus user url).
Proof.
  unfold processUrl. apply processUrlWith_step.
  apply (guarded_attempt manualStatus (or_intror eq_refl) (fillAndHold fuel user)).
  - apply fillAndHold_pageCall.
  - apply fillAndHold_result.
Qed.

Lemma AutoSubmit_processUrl_step autoSubmit rt user total jobNumber url :
  always (AutoSubmit.processUrl autoSubmit rt user total jobNumber url)
         (stepSpec autoStatus user url).
Proof.
  unfold AutoSubmit.processUrl. apply processUrlWith_step.
  apply (guarded_attempt autoStatus (or_intror (or_intror eq_refl))
                         (AutoSubmit.fillAndSubmit autoSubmit user)).
  - apply fillAndSubmit_pageCall.
  - apply fillAndSubmit_result.
Qed.

Lemma runBatch_batch fuel rt urls :
  always (runBatch fuel rt urls) (batchSpec manualStatus urls).
Proof.
  unfold runBatch. apply batch_frame. intro user.
  apply urlLoop_loop. intros i url. apply processUrl_step.
Qed.

Lemma AutoSubmit_runBatch_batch rt urls autoSubmit :
  always (AutoSubmit.runBatch rt urls autoSubmit) (batchSpec autoStatus urls).
Proof.
  unfold AutoSubmit.runBatch. apply batch_frame. intro user.
  apply urlLoop_loop. intros i url. apply AutoSubmit_processUrl_step.
Qed.

(** X14.  A batch navigates to the URLs in the order given and to each
    of them at most once: on every page and whatever the calls answer, the
    navigations of [runBatch] are a prefix of the list of URLs, and the
    whole list when the batch returns normally.  The URL loop leaves early
    with an exception only when appending the record of a URL to the log
    was rejected; it then throws that error directly after the rejected
    append, so that no later URL is visited. *)
Theorem batch_visits_urls_in_order :
  forall (W : Type) (d : Driver W) (w : W) (fuel : nat) (rt : Runtime) (user : User)
         (urls : list string),
    (let r := run d (runBatch fuel rt urls) w in
     (exists k, gotos (calls (trace r)) = firstn k urls)
     /\ (outcome r = Done tt -> gotos (calls (trace r)) = urls))
    /\ (forall total i e,
           let r := run d (urlLoop (processUrl fuel rt user total) i urls) w in
           outcome r = Raised e ->
           (exists t0 line,
               trace r = (t0 ++ [ECall (AppendFile CSV_PATH line) (Err e)])%list)
           /\ exists k, gotos (calls (trace r)) = firstn (S k) urls
                        /\ length (appended (trace r)) = S k).
Proof.
  intros W d w fuel rt user urls. split.
  - intro r.
    destruct (always_run d _ _ w (runBatch_batch fuel rt urls))
      as (Hk & rows & j & _ & _ & _ & _ & Hdone).
    split; [exact Hk|]. intro Ho. apply (Hdone tt Ho).
  - intros total i e r Ho.
    pose proof (always_run d _ _ w
                  (urlLoop_loop manualStatus user (processUrl fuel rt user total) urls
                     (fun i url => processUrl_step fuel rt user total i url) i))
      as (rows & j & _ & Ha & _ & _ & H).
    fold r in H, Ha. rewrite Ho in H. destruct H as (Hend & Hg & Hlen).
    split; [exact Hend|]. destruct rows as [|row rows]; [simpl in Hlen; lia|].
    exists (length rows). split; [exact Hg|]. rewrite Ha. simpl. rewrite length_map.
    reflexivity.
Qed.

Example rejected_append_stops_the_batch :
  let d := simDriver (failingPage (fun c => match c with
                                            | AppendFile _ _ => true
                                            | _ => false
                                            end) "ENOSPC: no space left on device") in
  let r := run d (urlLoop (processUrl 11 simRuntime jane 2) 0
                          ["https://a.example/1"; "https://b.example/2"]) sim0 in
  outcome r = Raised (mkExn (Some "ENOSPC: no space left on device"))
  /\ gotos (calls (trace r)) = ["https://a.example/1"]
  /\ logged (trace r) = [].
Proof. repeat split; reflexivity. Qed.

(** X15.  The lines that a batch hands to the log are the CSV lines of
    one record per URL visited, in the order of the URLs, and of one record
    for every URL when the batch returns normally.  The status of a record
    is [submitted] or [error] in the manual-review runner -- the value
    [filled] that the code assigns before the hold is never recorded -- and
    [clicked], [skipped] or [error] in the auto-submit revision. *)
Theorem recorded_status_values :
  forall (W : Type) (d : Driver W) (w : W) (fuel : nat) (rt : Runtime)
         (urls : list string) (autoSubmit : bool),
    let manual := run d (runBatch fuel rt urls) w in
    let auto := run d (AutoSubmit.runBatch rt urls autoSubmit) w in
    (exists rows,
        appended (trace manual) = map Csv.csvLine rows
        /\ map Csv.url rows = firstn (length rows) urls
        /\ Forall (fun row => Csv.status row = "submitted" \/ Csv.status row = "error") rows
        /\ (outcome manual = Done tt -> map Csv.url rows = urls))
    /\ (exists rows,
           appended (trace auto) = map Csv.csvLine rows
           /\ map Csv.url rows = firstn (length rows) urls
           /\ Forall (fun row => Csv.status row = "clicked" \/ Csv.status row = "skipped"
                                 \/ Csv.status row = "error") rows
           /\ (outcome auto = Done tt -> map Csv.url rows = urls)).
Proof.
  intros W d w fuel rt urls autoSubmit manual auto.
  destruct (always_run d _ _ w (runBatch_batch fuel rt urls))
    as (_ & rows & j & Hst & Ha & Hurls & _ & Hdone).
  destruct (always_run d _ _ w (AutoSubmit_runBatch_batch rt urls autoSubmit))
    as (_ & rows' & j' & Hst' & Ha' & Hurls' & _ & Hdone').
  split.
  - exists rows. split; [exact Ha|]. split; [exact Hurls|]. split; [exact Hst|].
    intro Ho. destruct (Hdone tt Ho) as (_ & Hlen & _).
    rewrite Hurls, Hlen. apply firstn_all.
  - exists rows'. split; [exact Ha'|]. split; [exact Hurls'|]. split; [exact Hst'|].
    intro Ho. destruct (Hdone' tt Ho) as (_ & Hlen & _).
    rewrite Hurls', Hlen. apply firstn_all.
Qed.

(* ====================================================================== *)
(** * The browser session of a batch *)
(* ====================================================================== *)

Lemma sessionCalls_app (t1 t2 : list Event) :
  sessionCalls (t1 ++ t2) = (sessionCalls t1 ++ sessionCalls t2)%list.
Proof. unfold sessionCalls. rewrite calls_app. apply filter_app. Qed.

Lemma notSession_sessionCalls (t : list Event) :
  Forall notSession (calls t) -> sessionCalls t = [].
Proof.
  unfold sessionCalls. induction (calls t) as [|c l IH]; intro H; [reflexivity|].
  inversion H as [|? ? Hc Hl]; subst. simpl. rewrite Hc. apply IH. exact Hl.
Qed.

Lemma okCalls_calls (t : list Event) (c : Cmd) : In c (okCalls t) -> In c (calls t).
Proof.
  induction t as [|[c0 r|s r|msg] t IH]; simpl; auto.
  destruct (resolved r); simpl; intuition.
Qed.

Lemma notSession_not_in (t : list Event) (c : Cmd) :
  Forall notSession (calls t) -> isSessionCall c = true -> ~ In c (calls t).
Proof.
  intros H Hc Hin. rewrite Forall_forall in H. specialize (H c Hin).
  unfold notSession in H. congruence.
Qed.

Lemma quietSession_notSession (l : list Cmd) :
  Forall quietSession l -> Forall notSession l.
Proof.
  apply Forall_impl. intros c H. destruct c; simpl in *; try exact H; reflexivity.
Qed.

Lemma quietSession_no_goto (l : list Cmd) (url : string) :
  Forall quietSession l -> ~ In (Goto url) l.
Proof.
  intros H Hin. rewrite Forall_forall in H. exact (H _ Hin).
Qed.

Lemma sessionSpec_front (t t' : list Event) (o : Outcome unit) :
  Forall quietSession (calls t) -> sessionSpec t' o -> sessionSpec (t ++ t')%list o.
Proof.
  intros Hq (Hopen & Hclosed & Hgoto).
  pose proof (quietSession_notSession _ Hq) as Hn.
  assert (Hin : forall c, isSessionCall c = true ->
                          In c (okCalls (t ++ t')) -> In c (okCalls t')).
  { intros c Hc H. rewrite okCalls_app in H. apply in_app_or in H.
    destruct H as [H|H]; [|exact H].
    destruct (notSession_not_in t c Hn Hc (okCalls_calls _ _ H)). }
  unfold sessionSpec. rewrite sessionCalls_app, (notSession_sessionCalls _ Hn). cbn [app].
  split; [|split].
  - intros Hpage Hdiv.
    destruct (Hopen (Hin NewPage eq_refl Hpage) Hdiv) as [[Hcc Hs]|(Hs & e & He & Hev)].
    + left. split; [rewrite okCalls_app; apply in_or_app; right; exact Hcc | exact Hs].
    + right. split; [exact Hs|]. exists e. split; [exact He|].
      apply in_or_app. right. exact Hev.
  - intro Hpage. apply Hclosed. intro H. apply Hpage.
    rewrite okCalls_app. apply in_or_app. right. exact H.
  - intros url H. rewrite calls_app in H. apply in_app_or in H.
    destruct H as [H|H]; [destruct (quietSession_no_goto _ url Hq H)|].
    rewrite okCalls_app. apply in_or_app. right. apply (Hgoto url H).
Qed.

Lemma sessionSpec_early (t : list Event) (o : Outcome unit) :
  Forall quietSession (calls t) -> sessionSpec t o.
Proof.
  intro Hq. pose proof (quietSession_notSession _ Hq) as Hn.
  unfold sessionSpec. rewrite (notSession_sessionCalls _ Hn).
  split; [|split].
  - intro H. destruct (notSession_not_in t NewPage Hn eq_refl (okCalls_calls _ _ H)).
  - intros _. left. reflexivity.
  - intros url H. destruct (quietSession_no_goto _ url Hq H).
Qed.


Lemma AutoSubmit_processUrl_notSession autoSubmit rt user total jobNumber url :
  Uses notSession (AutoSubmit.processUrl autoSubmit rt user total jobNumber url).
Proof.
  assert (H : forall c, fillStep c -> notSession c)
    by (intros c; unfold fillStep, notSession; destruct c; simpl; congruence).
  unfold AutoSubmit.processUrl, processUrlWith, appendCsv, AutoSubmit.attempt, reportError,
    AutoSubmit.fillAndSubmit, AutoSubmit.submitStep.
  parts H.
Qed.

Lemma sessionSpec_opened (start : string) (t tail : list Event) (o : Outcome unit) :
  Forall notSession (calls t) ->
  o = Diverged
  \/ (In CloseContext (okCalls tail) /\ sessionCalls tail = [CloseContext; CloseBrowser])
  \/ (sessionCalls tail = [CloseContext]
      /\ exists e, o = Raised e /\ In (ECall CloseContext (Err e)) tail) ->
  sessionSpec (ECall Launch (Ok tt) :: ECall NewContext (Ok tt) :: ECall NewPage (Ok tt)
                     :: ELog start :: t ++ tail)%list o.
Proof.
  intros Hn Htail.
  assert (Hs : sessionCalls (ECall Launch (Ok tt) :: ECall NewContext (Ok tt)
                                   :: ECall NewPage (Ok tt) :: ELog start :: t ++ tail)
               = (Launch :: NewContext :: NewPage :: sessionCalls tail)).
  { change (ECall Launch (Ok tt) :: ECall NewContext (Ok tt) :: ECall NewPage (Ok tt)
                  :: ELog start :: t ++ tail)%list
      with ([ECall Launch (Ok tt); ECall NewContext (Ok tt); ECall NewPage (Ok tt);
             ELog start] ++ t ++ tail)%list.
    rewrite !sessionCalls_app, (notSession_sessionCalls _ Hn). reflexivity. }
  unfold sessionSpec. rewrite Hs. cbn [okCalls resolved].
  split; [|split].
  - intros _ Hdiv. destruct Htail as [->|[[Hcc Ht]|(Ht & e & -> & Hev)]].
    + congruence.
    + left. split; [|rewrite Ht; reflexivity].
      do 3 right. rewrite okCalls_app. apply in_or_app. right. exact Hcc.
    + right. split; [rewrite Ht; reflexivity|]. exists e. split; [reflexivity|].
      do 4 right. apply in_or_app. right. exact Hev.
  - intro H. exfalso. apply H. right. right. left. reflexivity.
  - intros url _. right. right. left. reflexivity.
Qed.

Lemma session_frame (rt : Runtime) (start : string) (loop : User -> Prog unit) :
  (forall user, Uses notSession (loop user)) ->
  always (ensureOutFiles ;;
          user <- loadUser rt ;;
          await Launch ;;
          await NewContext ;;
          await NewPage ;;
          log start ;;
          try_finally (loop user)
                      (await CloseContext ;;
                       await CloseBrowser ;;
                       log "batch: finished"))
         sessionSpec.
Proof.
  intro Hloop.
  apply (always_after quietSession);
    [ unfold ensureOutFiles; tree
    | apply sessionSpec_front
    | intros; apply sessionSpec_early; assumption
    | intros; apply sessionSpec_early; assumption
    | intros _ ].
  apply (always_after quietSession);
    [ unfold loadUser, requireField; tree
    | apply sessionSpec_front
    | intros; apply sessionSpec_early; assumption
    | intros; apply sessionSpec_early; assumption
    | intro user ].
  assert (Hclosed : forall t o,
             ~ In NewPage (okCalls t) ->
             (forall url, ~ In (Goto url) (calls t)) ->
             In (sessionCalls t) [[]; [Launch]; [Launch; NewContext];
                                  [Launch; NewContext; NewPage]] ->
             sessionSpec t o).
  { intros t o Hpage Hgoto Hs. split; [intro H; destruct (Hpage H)|].
    split; [|intros url H; destruct (Hgoto url H)].
    intros _. simpl in Hs. intuition. }
  cbn [bind await log always]. intros [[]|e]; cbn [bind always];
    [|apply Hclosed; cbn; intuition discriminate].
  intros [[]|e]; cbn [bind always]; [|apply Hclosed; cbn; intuition discriminate].
  intros [[]|e]; cbn [bind always]; [|apply Hclosed; cbn; intuition discriminate].
  apply always_try_finally.
  eapply always_mono; [|apply Uses_always, (Hloop user)].
  intros t o Hn.
  assert (Hfin : forall o1 : Outcome unit,
             always (await CloseContext ;; await CloseBrowser ;; log "batch: finished")
                    (fun t' o' =>
                       sessionSpec
                         (ECall Launch (Ok tt) :: ECall NewContext (Ok tt)
                                :: ECall NewPage (Ok tt) :: ELog start :: t ++ t')%list
                         match o' with
                         | Done _ => o1
                         | Raised e' => Raised e'
                         | Diverged => Diverged
                         end)).
  { intro o1. cbn. intros [[]|e]; cbn.
    - intros [[]|e]; cbn; apply sessionSpec_opened; try exact Hn;
        right; left; (split; [left; reflexivity | reflexivity]).
    - apply sessionSpec_opened; [exact Hn|].
      right. right. split; [reflexivity|]. exists e. split; [reflexivity|].
      left. reflexivity. }
  destruct o as [a|e|].
  - apply Hfin.
  - apply Hfin.
  - rewrite <- (app_nil_r t). apply sessionSpec_opened; [exact Hn | left; reflexivity].
Qed.


Lemma AutoSubmit_runBatch_session rt urls autoSubmit :
  always (AutoSubmit.runBatch rt urls autoSubmit) sessionSpec.
Proof.
  unfold AutoSubmit.runBatch. apply session_frame. intro user.
  apply urlLoop_Uses. intros i url. apply AutoSubmit_processUrl_notSession.
Qed.


Lemma setup_notSession (rt : Runtime) : Uses notSession (ensureOutFiles ;; loadUser rt).
Proof. unfold ensureOutFiles, loadUser, requireField, notSession. tree. Qed.

(** X13.  [runBatch] launches the browser exactly when the output files
    could be prepared and the profile was read and passed the check of its
    required keys.  When that setup throws, [runBatch] throws the same
    error and has made no call beyond those of the setup: no browser is
    launched and no URL is visited. *)
Theorem browser_launches_only_after_setup :
  forall (W : Type) (d : Driver W) (w : W) (fuel : nat) (rt : Runtime) (urls : list string),
    let r := run d (runBatch fuel rt urls) w in
    let setup := run d (ensureOutFiles ;; loadUser rt) w in
    (In Launch (calls (trace r)) <-> exists user, outcome setup = Done user)
    /\ (forall e, outcome setup = Raised e ->
                  outcome r = Raised e /\ calls (trace r) = calls (trace setup)).
Proof.
  intros W d w fuel rt urls r setup. subst r setup.
  pose proof (Uses_run d notSession _ (setup_notSession rt) w) as Hn.
  unfold runBatch.
  change (run d (ensureOutFiles ;; loadUser rt) w)
    with (run d (bind ensureOutFiles (fun _ => loadUser rt)) w) in *.
  rewrite run_bind in *.
  match goal with
  | |- context [run d (bind ensureOutFiles ?f) w] => rewrite (run_bind d ensureOutFiles f w)
  end.
  destruct (run d ensureOutFiles w) as [[w1 t1] [[]|e1|]].
  - match goal with
    | |- context [run d (bind (loadUser rt) ?f) w1] =>
        rewrite (run_bind d (loadUser rt) f w1)
    end.
    destruct (run d (loadUser rt) w1) as [[w2 t2] [user|e2|]].
    + cbn [bind await run].
      destruct (answer d Launch w2) as [w3 r3].
      match goal with
      | |- context [run d ?p w3] => destruct (run d p w3) as [[w4 t4] o4]
      end.
      unfold trace, outcome. cbn [fst snd]. split.
      * split; [intros _; exists user; reflexivity|]. intros _.
        rewrite !calls_app. apply in_or_app. right. apply in_or_app. right.
        left. reflexivity.
      * intros e H. discriminate.
    + unfold trace, outcome in *. cbn [fst snd] in *. split.
      * split; [|intros [user H]; discriminate].
        intro H. exfalso. exact (notSession_not_in _ Launch Hn eq_refl H).
      * intros e [= <-]. split; reflexivity.
    + unfold trace, outcome in *. cbn [fst snd] in *. split.
      * split; [|intros [user H]; discriminate].
        intro H. exfalso. exact (notSession_not_in _ Launch Hn eq_refl H).
      * intros e H. discriminate.
  - unfold trace, outcome in *. cbn [fst snd] in *. split.
    + split; [|intros [user H]; discriminate].
      intro H. exfalso. exact (notSession_not_in _ Launch Hn eq_refl H).
    + intros e [= <-]. split; reflexivity.
  - unfold trace, outcome in *. cbn [fst snd] in *. split.
    + split; [|intros [user H]; discriminate].
      intro H. exfalso. exact (notSession_not_in _ Launch Hn eq_refl H).
    + intros e H. discriminate.
Qed.

Example batch_without_profile_launches_nothing :
  let r := run (simDriver emptyPage) (runBatch 11 simRuntime ["https://a.example/1"]) sim0 in
  outcome r = Raised (mkExn (Some "Unexpected end of JSON input"))
  /\ calls (trace r)
     = [Mkdir OUT_DIR; Access CSV_PATH; WriteFile CSV_PATH Csv.csvHeader;
        ReadFile CONFIG_PATH].
Proof. split; reflexivity. Qed.

(* ====================================================================== *)
(** * The log file after a batch *)
(* ====================================================================== *)

Section Store.

Context {W : Type} (d : Driver W) (csv : W -> option string).
Hypothesis S : LogStore d csv.

Lemma LogStore_FileSystem : FileSystem d csv.
Proof.
  constructor.
  - intros path w. apply (store_other d csv S). reflexivity.
  - intro w. apply (store_other d csv S). reflexivity.
  - intros w Hw. pose proof (store_access d csv S w) as H. rewrite Hw in H.
    destruct (snd (answer d (Access CSV_PATH) w)) as [a|e]; [discriminate|].
    exists e. reflexivity.
  - intros w Hw. pose proof (store_access d csv S w) as H.
    destruct (csv w); [|congruence].
    destruct (snd (answer d (Access CSV_PATH) w)) as [[]|e]; [reflexivity | discriminate].
  - intros content w. pose proof (store_write d csv S content w) as H.
    destruct (answer d (WriteFile CSV_PATH content) w) as [w' [a|e]]; exact H.
Qed.

Lemma store_step (c : Cmd) (w : W) :
  logPathOnly c ->
  csv (fst (answer d c w)) = fileStep c (resolved (snd (answer d c w))) (csv w).
Proof.
  intro Hc. destruct c; try (apply (store_other d csv S); reflexivity).
  - simpl in Hc. subst path. cbn [fileStep]. rewrite String.eqb_refl, andb_true_r.
    apply (store_write d csv S).
  - simpl in Hc. subst path. cbn [fileStep]. rewrite String.eqb_refl, andb_true_r.
    apply (store_append d csv S).
Qed.

Lemma store_run {A : Type} (p : Prog A) :
  Uses logPathOnly p ->
  forall w, csv (finalWorld (run d p w)) = fileAfter (csv w) (trace (run d p w)).
Proof.
  induction 1 as [a|e| |c k Hc _ IH|s k _ IH|msg k _ IH]; intro w; simpl.
  - reflexivity.
  - reflexivity.
  - reflexivity.
  - pose proof (store_step c w Hc) as Hstep.
    destruct (answer d c w) as [w1 r]. cbn [fst snd] in Hstep.
    specialize (IH r w1). unfold finalWorld, trace in *.
    destruct (run d (k r) w1) as [[w2 t] o]. cbn [fst snd] in *.
    rewrite IH, Hstep. reflexivity.
  - pose proof (store_sync d csv S s w) as Hstep.
    destruct (observe d s w) as [w1 r]. cbn [fst snd] in Hstep.
    specialize (IH r w1). unfold finalWorld, trace in *.
    destruct (run d (k r) w1) as [[w2 t] o]. cbn [fst snd] in *.
    rewrite IH, Hstep. reflexivity.
  - specialize (IH w). unfold finalWorld, trace in *.
    destruct (run d k w) as [[w2 t] o]. cbn [fst snd] in *. exact IH.
Qed.

End Store.

Lemma fileAfter_logged (t : list Event) :
  Forall appendsOnly (calls t) ->
  forall content, fileAfter (Some content) t = Some (content ++ joinLines (logged t)).
Proof.
  induction t as [|[c r|s r|msg] t IH]; intros H content; simpl in *.
  - rewrite append_nil_r. reflexivity.
  - inversion H as [|? ? Hc Ht]; subst.
    destruct c; try (cbn [fileStep]; apply IH; exact Ht).
    + destruct Hc.
    + simpl in Hc. subst path. cbn [fileStep Js.orElse Js.isEmpty].
      rewrite String.eqb_refl, !andb_true_r.
      destruct (resolved r).
      * rewrite IH by exact Ht. cbn [joinLines fold_right].
        destruct content; rewrite ?append_assoc; reflexivity.
      * apply IH. exact Ht.
  - apply IH. exact H.
  - apply IH. exact H.
Qed.

Lemma fillStep_appendsOnly (c : Cmd) : fillStep c -> appendsOnly c.
Proof. unfold fillStep. destruct c; simpl; auto; discriminate. Qed.

Lemma appendsOnly_logPathOnly (c : Cmd) : appendsOnly c -> logPathOnly c.
Proof. destruct c; simpl; auto. intros []. Qed.

Lemma processUrl_appendsOnly fuel rt user total jobNumber url :
  Uses appendsOnly (processUrl fuel rt user total jobNumber url).
Proof.
  unfold processUrl, processUrlWith, appendCsv, attempt, reportError, fillAndHold,
    holdForReview, showHoldBanner.
  parts fillStep_appendsOnly.
Qed.

Lemma ensureOutFiles_logPathOnly : Uses logPathOnly ensureOutFiles.
Proof. unfold ensureOutFiles. tree. Qed.

Lemma ensureOutFiles_notAppend : Uses notAppend ensureOutFiles.
Proof. unfold ensureOutFiles. tree. Qed.

Lemma firstn_rows (rows : list Csv.Row) (urls : list string) (j : nat) :
  map Csv.url rows = firstn (length rows) urls ->
  map Csv.url (firstn j rows) = firstn (length (firstn j rows)) urls.
Proof.
  intro H. rewrite <- firstn_map, H, firstn_firstn, length_firstn. reflexivity.
Qed.

Section BatchStore.

Context {W : Type} (d : Driver W) (csv : W -> option string).
Hypothesis S : LogStore d csv.

Variables (fuel : nat) (rt : Runtime) (urls : list string).

Lemma runBatch_store (w : W) :
  let r := run d (runBatch fuel rt urls) w in
  (forall old, csv w = Some old ->
               csv (finalWorld r) = Some (old ++ joinLines (logged (trace r))))
  /\ (csv w = None -> outcome r = Done tt ->
      csv (finalWorld r) = Some (Csv.csvHeader ++ joinLines (logged (trace r)))).
Proof.
  intro r. subst r. unfold runBatch.
  pose proof (ensureOutFiles_present d csv (LogStore_FileSystem d csv S) w) as Hpresent.
  pose proof (ensureOutFiles_absent d csv (LogStore_FileSystem d csv S) w) as Habsent.
  pose proof (Uses_run d notAppend _ ensureOutFiles_notAppend w) as Hquiet.
  apply notAppend_appended, appended_logged in Hquiet.
  rewrite run_bind.
  destruct (run d ensureOutFiles w) as [[w1 t1] o1].
  unfold finalWorld, trace, outcome in *. cbn [fst snd] in *.
  assert (Hrest : forall o1' : unit, o1 = Done o1' ->
             forall base, csv w1 = Some base ->
               match o1 with
               | Done a =>
                   let '(w2, t2, o2) :=
                     run d
                       (user <- loadUser rt ;;
                        await Launch ;;
                        await NewContext ;;
                        await NewPage ;;
                        log ("batch: starting " ++ Js.showNat (length urls) ++ " URL(s)") ;;
                        try_finally
                          (urlLoop (processUrl fuel rt user (length urls)) 0 urls)
                          (await CloseContext ;;
                           await CloseBrowser ;;
                           log "batch: finished")) w1 in
                   csv w2 = Some (base ++ joinLines (logged (t1 ++ t2)))
               | _ => True
               end).
  { intros a -> base Hbase.
    match goal with
    | |- context [run d ?rest w1] =>
        assert (Huses : Uses appendsOnly rest);
        [| pose proof (store_run d csv S rest
                         (Uses_mono _ _ _ appendsOnly_logPathOnly Huses) w1) as Hrun;
           pose proof (Uses_run d appendsOnly rest Huses w1) as Hcalls;
           destruct (run d rest w1) as [[w2 t2] o2] ]
    end.
    - unfold loadUser, requireField, try_finally.
      repeat first [ apply urlLoop_Uses; intros; apply processUrl_appendsOnly
                   | tree_step; intros ].
    - unfold finalWorld, trace in *. cbn [fst snd] in *.
      rewrite Hrun, Hbase, (fileAfter_logged _ Hcalls), logged_app, Hquiet.
      reflexivity. }
  split.
  - intros old Hold.
    destruct Hpresent as (Hcsv & _ & Ho); [congruence|]. subst o1.
    specialize (Hrest tt eq_refl old ltac:(congruence)). cbv beta iota in Hrest.
    match goal with
    | |- context [run d ?rest w1] => destruct (run d rest w1) as [[w2 t2] o2]
    end.
    exact Hrest.
  - intros Hnone Hdone.
    destruct (Habsent Hnone) as (_ & Hheader & _).
    destruct o1 as [[]|e|]; try discriminate.
    specialize (Hrest tt eq_refl Csv.csvHeader (Hheader eq_refl)).
    cbv beta iota in Hrest.
    match goal with
    | |- context [run d ?rest w1] => destruct (run d rest w1) as [[w2 t2] o2]
    end.
    exact Hrest.
Qed.

End BatchStore.

(** X11.  A batch only ever adds to an existing log file.  On a file
    system that behaves as Node's does, whatever the browser does and
    however the batch ends, the log after [runBatch] is the log before it
    followed by the lines of whole records, one for each of the first URLs
    of the batch in their order: no earlier record is lost or changed, no
    second header is written and no partial line is left. *)
Theorem batch_only_appends_to_the_log :
  forall (W : Type) (d : Driver W) (csv : W -> option string) (w : W)
         (fuel : nat) (rt : Runtime) (urls : list string) (old : string),
    LogStore d csv ->
    csv w = Some old ->
    exists rows,
      csv (finalWorld (run d (runBatch fuel rt urls) w))
      = Some (old ++ joinLines (map Csv.csvLine rows))
      /\ map Csv.url rows = firstn (length rows) urls.
Proof.
  intros W d csv w fuel rt urls old S Hold.
  destruct (runBatch_store d csv S fuel rt urls w) as [Hsome _].
  destruct (always_run d _ _ w (runBatch_batch fuel rt urls))
    as (_ & rows & j & _ & _ & Hurls & Hl & _).
  exists (firstn j rows). split.
  - rewrite (Hsome old Hold), Hl. reflexivity.
  - apply firstn_rows. exact Hurls.
Qed.

Lemma simDriver_LogStore : LogStore (simDriver emptyPage) sim_csv.
Proof.
  constructor.
  - intros c w Hc. destruct c; try discriminate; try reflexivity.
    + destruct w as [now [content|] counts]; reflexivity.
    + cbn. unfold nextCount. destruct (sim_counts w) as [|n [|m rest]]; reflexivity.
  - intros text w. reflexivity.
  - intros text w. reflexivity.
  - intros s w. destruct s; reflexivity.
  - intros [now [content|] counts]; reflexivity.
Qed.

Lemma batch_only_appends_to_the_log_witness :
  let w := {| sim_now := 0; sim_csv := Some Csv.csvHeader; sim_counts := [] |} in
  LogStore (simDriver emptyPage) sim_csv
  /\ sim_csv w = Some Csv.csvHeader
  /\ exists rows,
      sim_csv (finalWorld (run (simDriver emptyPage)
                               (runBatch 11 janeRuntime ["https://a.example/1"]) w))
      = Some (Csv.csvHeader ++ joinLines (map Csv.csvLine rows))
      /\ map Csv.url rows = firstn (length rows) ["https://a.example/1"].
Proof.
  intro w. split; [exact simDriver_LogStore|]. split; [reflexivity|].
  exact (batch_only_appends_to_the_log
           Sim (simDriver emptyPage) sim_csv w 11 janeRuntime ["https://a.example/1"]
           Csv.csvHeader simDriver_LogStore eq_refl).
Defined.

(** X16.  A batch that starts without a log file and returns normally
    leaves a complete log.  On a file system that behaves as Node's does,
    the file then holds the header line followed by the line of one record
    per URL, in the order of the URLs.  When no value of these records holds
    a carriage return outside quotes, the file reads back with the CSV reader
    as the header and the eleven cells of each record. *)
Theorem batch_on_a_fresh_directory_leaves_a_complete_log :
  forall (W : Type) (d : Driver W) (csv : W -> option string) (w : W)
         (fuel : nat) (rt : Runtime) (urls : list string),
    LogStore d csv ->
    csv w = None ->
    outcome (run d (runBatch fuel rt urls) w) = Done tt ->
    exists rows content,
      csv (finalWorld (run d (runBatch fuel rt urls) w)) = Some content
      /\ content = Csv.csvHeader ++ joinLines (map Csv.csvLine rows)
      /\ map Csv.url rows = urls
      /\ Forall (fun row => Csv.status row = "submitted" \/ Csv.status row = "error") rows
      /\ (Forall (fun row => Csv.rowReadsBack row = true) rows ->
          readFile content = Some (headerCells :: map Csv.rowCells rows)).
Proof.
  intros W d csv w fuel rt urls S Hnone Hdone.
  destruct (runBatch_store d csv S fuel rt urls w) as [_ Hfresh].
  destruct (always_run d _ _ w (runBatch_batch fuel rt urls))
    as (_ & rows & j & Hst & Ha & Hurls & _ & Hd).
  destruct (Hd tt Hdone) as (_ & Hlen & Hl).
  exists rows, (Csv.csvHeader ++ joinLines (map Csv.csvLine rows)).
  split; [rewrite (Hfresh Hnone Hdone), Hl, Ha; reflexivity|].
  split; [reflexivity|].
  split; [rewrite Hurls, Hlen; apply firstn_all|].
  split; [exact Hst | apply readFile_log].
Qed.

Lemma batch_on_a_fresh_directory_leaves_a_complete_log_witness :
  let r := run (simDriver emptyPage)
               (runBatch 11 janeRuntime ["https://a.example/1"; "https://b.example/2"])
               sim0 in
  LogStore (simDriver emptyPage) sim_csv
  /\ sim_csv sim0 = None
  /\ outcome r = Done tt
  /\ exists rows content,
      sim_csv (finalWorld r) = Some content
      /\ content = Csv.csvHeader ++ joinLines (map Csv.csvLine rows)
      /\ map Csv.url rows = ["https://a.example/1"; "https://b.example/2"]
      /\ Forall (fun row => Csv.status row = "submitted" \/ Csv.status row = "error") rows
      /\ (Forall (fun row => Csv.rowReadsBack row = true) rows ->
          readFile content = Some (headerCells :: map Csv.rowCells rows)).
Proof.
  intro r. split; [exact simDriver_LogStore|]. split; [reflexivity|].
  split; [reflexivity|].
  exact (batch_on_a_fresh_directory_leaves_a_complete_log
           Sim (simDriver emptyPage) sim_csv sim0 11 janeRuntime
           ["https://a.example/1"; "https://b.example/2"]
           simDriver_LogStore eq_refl eq_refl).
Defined.

(* ====================================================================== *)
(** * The web server and the page *)
(* ====================================================================== *)

Module WebFacts.
Import Web.

Lemma list_ascii_app (a b : string) :
  list_ascii_of_string (a ++ b) = (list_ascii_of_string a ++ list_ascii_of_string b)%list.
Proof. induction a as [|c a IH]; simpl; [|rewrite IH]; reflexivity. Qed.

Lemma string_of_list_app (a b : list ascii) :
  string_of_list_ascii (a ++ b) = string_of_list_ascii a ++ string_of_list_ascii b.
Proof. induction a as [|c a IH]; simpl; [|rewrite IH]; reflexivity. Qed.

Lemma reverse_involutive (s : string) : reverse (reverse s) = s.
Proof.
  unfold reverse.
  rewrite list_ascii_of_string_of_list_ascii, rev_involutive.
  apply string_of_list_ascii_of_string.
Qed.

Lemma reverse_app (a b : string) : reverse (a ++ b) = reverse b ++ reverse a.
Proof. unfold reverse. rewrite list_ascii_app, rev_app_distr. apply string_of_list_app. Qed.

Lemma trimLead_spec (back : bool) (n : nat) :
  forall s, (String.length s <= n)%nat ->
            headSpace back (trimLead back s) = false
            /\ exists w, s = w ++ trimLead back s.
Proof.
  induction n as [|n IH]; intros s Hlen.
  - destruct s; [|simpl in Hlen; lia].
    split; [reflexivity | exists ""; reflexivity].
  - destruct s as [|a s1]; [split; [reflexivity | exists ""; reflexivity]|].
    simpl in Hlen. cbn [trimLead].
    destruct (space1 a) eqn:Ha.
    { destruct (IH s1 ltac:(lia)) as [H1 [w Hw]]. split; [exact H1|].
      exists (String a w). simpl. rewrite <- Hw. reflexivity. }
    destruct s1 as [|b s2].
    { split; [simpl; rewrite Ha; reflexivity | exists ""; reflexivity]. }
    simpl in Hlen.
    destruct (if back then space2 b a else space2 a b) eqn:Hb.
    { destruct (IH s2 ltac:(lia)) as [H1 [w Hw]]. split; [exact H1|].
      exists (String a (String b w)). simpl. rewrite <- Hw. reflexivity. }
    destruct s2 as [|c s3].
    { split; [simpl; rewrite Ha, Hb; reflexivity | exists ""; reflexivity]. }
    simpl in Hlen.
    destruct (if back then space3 c b a else space3 a b c) eqn:Hc.
    { destruct (IH s3 ltac:(lia)) as [H1 [w Hw]]. split; [exact H1|].
      exists (String a (String b (String c w))). simpl. rewrite <- Hw. reflexivity. }
    split; [simpl; rewrite Ha, Hb, Hc; reflexivity | exists ""; reflexivity].
Qed.

Lemma trimLead_head (back : bool) (s : string) :
  headSpace back (trimLead back s) = false.
Proof. apply (trimLead_spec back (String.length s) s). lia. Qed.

Lemma trimLead_suffix (back : bool) (s : string) :
  exists w, s = w ++ trimLead back s.
Proof. apply (trimLead_spec back (String.length s) s). lia. Qed.

Lemma trimLead_fix (back : bool) (s : string) :
  headSpace back s = false -> trimLead back s = s.
Proof.
  destruct s as [|a [|b [|c s3]]]; simpl; intro H; try reflexivity.
  - apply orb_false_iff in H as [-> _]. reflexivity.
  - apply orb_false_iff in H as [-> H]. apply orb_false_iff in H as [-> _]. reflexivity.
  - apply orb_false_iff in H as [-> H]. apply orb_false_iff in H as [-> ->]. reflexivity.
Qed.

Lemma headSpace_app (back : bool) (a w : string) :
  a <> "" -> headSpace back (a ++ w) = false -> headSpace back a = false.
Proof.
  intros Ha H.
  destruct a as [|x [|y [|z a3]]]; [congruence| | |]; simpl in *.
  - apply orb_false_iff in H as [-> _]. reflexivity.
  - apply orb_false_iff in H as [-> H].
    destruct w; simpl in H; apply orb_false_iff in H as [-> _]; reflexivity.
  - exact H.
Qed.

Lemma trimEnd_prefix (s : string) : exists w, s = trimEnd s ++ w.
Proof.
  unfold trimEnd. destruct (trimLead_suffix true (reverse s)) as [w Hw].
  exists (reverse w).
  rewrite <- reverse_app, <- Hw, reverse_involutive. reflexivity.
Qed.

Lemma trimEnd_trimEnd (s : string) : trimEnd (trimEnd s) = trimEnd s.
Proof.
  unfold trimEnd. rewrite reverse_involutive.
  rewrite (trimLead_fix true _ (trimLead_head true _)). reflexivity.
Qed.

Lemma trimStart_trimEnd (s : string) :
  headSpace false s = false -> trimStart (trimEnd s) = trimEnd s.
Proof.
  intro H. apply trimLead_fix.
  destruct (trimEnd_prefix s) as [w Hw].
  destruct (string_dec (trimEnd s) "") as [->|Hne]; [reflexivity|].
  apply (headSpace_app false _ w Hne). rewrite <- Hw. exact H.
Qed.

Lemma trim_trim (s : string) : trim (trim s) = trim s.
Proof.
  unfold trim.
  change (trimStart s) with (trimLead false s).
  rewrite (trimStart_trimEnd _ (trimLead_head false s)).
  apply trimEnd_trimEnd.
Qed.

Lemma isEmpty_false (s : string) : Js.isEmpty s = false <-> s <> "".
Proof. destruct s; simpl; split; congruence. Qed.

Lemma clean_filter (l : list string) : clean (filterBoolean (map trim l)).
Proof.
  unfold clean, filterBoolean. apply Forall_forall. intros u Hu.
  apply filter_In in Hu as [Hin Hne].
  apply in_map_iff in Hin as (s & <- & _).
  split; [apply isEmpty_false, negb_true_iff, Hne | apply trim_trim].
Qed.

Lemma filter_clean (urls : list string) :
  clean urls -> filterBoolean (map trim urls) = urls.
Proof.
  unfold clean, filterBoolean. induction 1 as [|u urls [Hne Ht] _ IH]; simpl.
  - reflexivity.
  - rewrite Ht, IH. apply isEmpty_false in Hne. rewrite Hne. reflexivity.
Qed.

Lemma sequence_trims (items : list Json) (urls : list string) :
  sequence (map (fun u => match jsString u with
                          | Ok s => Ok (trim s)
                          | Err e => Err e
                          end) items) = Ok urls ->
  exists texts, urls = map trim texts.
Proof.
  revert urls. induction items as [|u items IH]; simpl; intros urls H.
  - injection H as <-. exists []. reflexivity.
  - destruct (jsString u) as [s|e]; [|discriminate].
    destruct (sequence _) as [rest|e]; [|discriminate].
    injection H as <-. destruct (IH rest eq_refl) as [texts ->].
    exists (s :: texts). reflexivity.
Qed.

Lemma normalise_clean (body : option Json) (urls : list string) :
  normalise body = Ok urls -> clean urls.
Proof.
  unfold normalise. destruct (urlsOf body) as [[| | | |items|]|];
    try (intro H; injection H as <-; constructor).
  destruct (sequence _) as [l|e] eqn:Hseq; [|discriminate].
  intro H. injection H as <-.
  destruct (sequence_trims _ _ Hseq) as [texts ->]. apply clean_filter.
Qed.

Lemma sequence_strings (urls : list string) :
  sequence (map (fun u => match jsString u with
                          | Ok s => Ok (trim s)
                          | Err e => Err e
                          end) (map JStr urls)) = Ok (map trim urls).
Proof. induction urls as [|u urls IH]; simpl; [|rewrite IH]; reflexivity. Qed.

Lemma normalise_page (page : Client) (urls : list string) :
  clean urls -> normalise (Some (bodyOf page urls)) = Ok urls.
Proof.
  intro H. unfold normalise.
  assert (Hurls : urlsOf (Some (bodyOf page urls)) = Some (JArr (map JStr urls)))
    by (destruct page; reflexivity).
  rewrite Hurls, sequence_strings, (filter_clean _ H). reflexivity.
Qed.

Lemma length_zero {A : Type} (l : list A) : (length l =? 0)%nat = true <-> l = [].
Proof. destruct l; simpl; split; congruence. Qed.

(** X17.  What the server starts is what it counted, and it is clean.  A
    request to [POST /jobs] that is answered with status 200 adds exactly one
    batch; the batch is not empty, its length is the [count] of the answer,
    and each of its URLs is not empty and has no white space at either end.
    It is only accepted while the flag [running] is off, and it sets the
    flag.  A request answered with any other status leaves the server as it
    was. *)
Theorem accepted_request_starts_one_clean_batch :
  forall (st : Server) (body : option Json),
    let st' := fst (postJobs st body) in
    let response := snd (postJobs st body) in
    (res_status response = 200 ->
     exists urls,
       pending st' = (pending st ++ [urls])%list
       /\ urls <> [] /\ clean urls
       /\ res_count response = Some (length urls)
       /\ res_ok response = true
       /\ running st = false /\ running st' = true)
    /\ (res_status response <> 200 -> st' = st /\ res_ok response = false).
Proof.
  intros st body. cbv zeta. unfold postJobs.
  destruct (normalise body) as [urls|e] eqn:Hn.
  - destruct (length urls =? 0)%nat eqn:Hlen;
      [|destruct (running st) eqn:Hrun]; cbn [fst snd res_status res_count res_ok];
      (split; [intro H; try discriminate | intro H; try congruence; auto]).
    exists urls. repeat split; auto.
    + intros ->. discriminate.
    + exact (normalise_clean _ _ Hn).
  - cbn [fst snd res_status]. split; [discriminate | auto].
Qed.

Lemma postJobs_oneBatch (st : Server) (body : option Json) :
  oneBatch st -> oneBatch (fst (postJobs st body)).
Proof.
  intro H. unfold postJobs.
  destruct (normalise body) as [urls|e]; [|exact H].
  destruct (length urls =? 0)%nat; [exact H|].
  destruct (running st) eqn:Hrun; [exact H|].
  destruct H as [[Hr _]|[_ Hp]]; [congruence|].
  left. cbn. rewrite Hp. split; [reflexivity | exists urls; reflexivity].
Qed.

Lemma settled_oneBatch (n : nat) (st st' : Server) :
  oneBatch st -> settled n st = Some st' -> oneBatch st'.
Proof.
  unfold settled. intros [[_ [urls Hp]]|[_ Hp]]; rewrite Hp.
  - destruct n as [|[|n]]; simpl; try discriminate.
    intro H. injection H as <-. right. split; reflexivity.
  - destruct n; discriminate.
Qed.

Lemma serve_oneBatch (evs : list ServerEvent) :
  forall st st' responses,
    oneBatch st -> serve evs st = Some (st', responses) -> oneBatch st'.
Proof.
  induction evs as [|[body|n] evs IH]; simpl; intros st st' responses Hst H.
  - injection H as <- _. exact Hst.
  - pose proof (postJobs_oneBatch st body Hst) as H1.
    destruct (postJobs st body) as [st1 response]. cbn [fst] in H1.
    destruct (serve evs st1) as [[st2 rs]|] eqn:Hs; [|discriminate].
    injection H as <- _. exact (IH _ _ _ H1 Hs).
  - destruct (settled n st) as [st1|] eqn:Hs; [|discriminate].
    exact (IH _ _ _ (settled_oneBatch _ _ _ Hst Hs) H).
Qed.

(** X20.  The server runs one batch at a time.  After any sequence of
    requests and of batches that settle, starting from the server as it is
    launched, at most one batch is pending, and the flag [running] is set
    exactly while one is.  So a request with URLs is answered 409 as long as
    the batch before it has not settled, whether that batch returns, throws
    or never ends, and is accepted again once it has. *)
Theorem server_runs_one_batch_at_a_time :
  forall (evs : list ServerEvent) (st : Server) (responses : list Response),
    serve evs initial = Some (st, responses) ->
    (length (pending st) <= 1)%nat
    /\ (running st = true <-> pending st <> [])
    /\ forall body urls,
        normalise body = Ok urls -> urls <> [] ->
        res_status (snd (postJobs st body)) = (if running st then 409 else 200).
Proof.
  intros evs st responses H.
  assert (Hinv : oneBatch st).
  { apply (serve_oneBatch evs initial st responses); [|exact H].
    right. split; reflexivity. }
  split; [|split].
  - destruct Hinv as [[_ [urls ->]]|[_ ->]]; simpl; lia.
  - destruct Hinv as [[-> [urls ->]]|[-> ->]]; split; congruence.
  - intros body urls Hn Hne. unfold postJobs. rewrite Hn.
    destruct urls as [|u urls]; [congruence|]. simpl.
    destruct (running st); reflexivity.
Qed.

Lemma server_runs_one_batch_at_a_time_witness :
  let body := Some (requestBody ["https://a.example/1"; "https://b.example/2"]) in
  let st := {| running := true; pending := [["https://a.example/1"; "https://b.example/2"]] |} in
  let responses := [mkResponse 200 true None (Some 2);
                    mkResponse 409 false (Some "Batch already running. Try again later.") None;
                    mkResponse 200 true None (Some 2)] in
  serve [Post body; Post body; Settled 0; Post body] initial = Some (st, responses)
  /\ (length (pending st) <= 1)%nat
  /\ (running st = true <-> pending st <> [])
  /\ forall body' urls,
      normalise body' = Ok urls -> urls <> [] ->
      res_status (snd (postJobs st body')) = (if running st then 409 else 200).
Proof.
  intros body st responses.
  assert (H : serve [Post body; Post body; Settled 0; Post body] initial
              = Some (st, responses)) by (vm_compute; reflexivity).
  split; [exact H|].
  exact (server_runs_one_batch_at_a_time _ st responses H).
Defined.

(** X21.  The page and the server agree on the list of URLs.  Both pages
    send the lines of the textarea that are not blank, each without the white
    space around it; the server's own [String], [trim] and [filter] leave
    that list as it is.  So the handler of [/jobs] never answers a request of
    the page with 400 or 500.  A click ends in one of these ways: nothing is
    sent when every line is blank; the request does not reach the server, or
    its body is larger than the limit of the JSON middleware and is refused
    before the handler, and the page shows a network error while the server
    stays as it was; the request is refused with 409 while a batch is
    running; or the batch that starts is exactly the list the page made, and
    the page shows its length unless the response was lost on the way. *)
Theorem page_and_server_agree_on_the_urls :
  forall (page : Client) (statusText parseError : string) (net : Transport)
         (raw : string) (st : Server),
    let urls := clientUrls raw in
    let started := {| running := true; pending := (pending st ++ [urls])%list |} in
    clean urls
    /\ normalise (Some (bodyOf page urls)) = Ok urls
    /\ click page statusText parseError net raw st
       = if (length urls =? 0)%nat then (st, "No URLs found.")
         else
           match net with
           | Unreachable message => (st, "Network error: " ++ message)
           | ResponseLost message =>
               (if (tooLarge (bodyOf page urls) || running st)%bool then st else started,
                "Network error: " ++ message)
           | Delivered =>
               if tooLarge (bodyOf page urls) then (st, "Network error: " ++ parseError)
               else if running st
                    then (st, "Error: Batch already running. Try again later.")
                    else (started,
                          "Batch started for " ++ Js.showNat (length urls)
                            ++ " URL(s). Check the browser window.")
           end.
Proof.
  intros page statusText parseError net raw st urls started.
  assert (Hclean : clean urls) by apply clean_filter.
  pose proof (normalise_page page urls Hclean) as Hn.
  split; [exact Hclean|]. split; [exact Hn|].
  unfold click. fold urls.
  destruct (length urls =? 0)%nat eqn:Hlen; [reflexivity|].
  unfold receive, postJobs. rewrite Hn, Hlen.
  destruct net as [message|message|];
    destruct (tooLarge (bodyOf page urls)); destruct (running st); reflexivity.
Qed.

Example body_of_the_page_as_sent :
  stringify (bodyOf (AutoSubmitPage true)
               ["https://a.example/1"; "https://b.example/?q=" ++ Js.chr Js.quote ++ "x"
                                         ++ Js.chr Js.quote ++ String (ascii_of_nat 9) "y"])
  = "{" ++ Js.chr Js.quote ++ "urls" ++ Js.chr Js.quote ++ ":["
        ++ Js.chr Js.quote ++ "https://a.example/1" ++ Js.chr Js.quote ++ ","
        ++ Js.chr Js.quote ++ "https://b.example/?q=" ++ String backslash (Js.chr Js.quote)
        ++ "x" ++ String backslash (Js.chr Js.quote) ++ String backslash "ty"
        ++ Js.chr Js.quote ++ "],"
        ++ Js.chr Js.quote ++ "autoSubmit" ++ Js.chr Js.quote ++ ":true}".
Proof. vm_compute. reflexivity. Qed.

Lemma splitLines_cons (c : ascii) (s1 : string) :
  splitLines (String c s1)
  = if Ascii.eqb c LF then "" :: splitLines s1
    else
      let keep :=
        match splitLines s1 with
        | piece :: pieces => String c piece :: pieces
        | [] => [String c ""]
        end in
      match s1 with
      | String c2 s2 =>
          if (Ascii.eqb c CR && Ascii.eqb c2 LF)%bool then "" :: splitLines s2 else keep
      | EmptyString => keep
      end.
Proof. reflexivity. Qed.

Lemma singleLine_cons (c : ascii) (u : string) :
  singleLine (String c u) -> Ascii.eqb c LF = false /\ singleLine u.
Proof.
  unfold singleLine. cbn [Js.includes Js.chr Js.startsWith].
  rewrite (Ascii.eqb_sym LF c).
  destruct (Ascii.eqb c LF); [destruct u; discriminate|].
  intro H. split; [reflexivity | exact H].
Qed.

Lemma splitLines_last (u : string) : singleLine u -> splitLines u = [u].
Proof.
  induction u as [|c u IH]; intro H; [reflexivity|].
  apply singleLine_cons in H as [Hc Hu].
  rewrite splitLines_cons, Hc, (IH Hu). cbv zeta.
  destruct u as [|c2 u2]; [reflexivity|].
  apply singleLine_cons in Hu as [Hc2 _]. rewrite Hc2, andb_false_r. reflexivity.
Qed.

Lemma splitLines_crlf (u rest : string) :
  singleLine u ->
  splitLines (u ++ String CR (String LF rest)) = u :: splitLines rest.
Proof.
  induction u as [|c u IH]; intro H.
  - reflexivity.
  - apply singleLine_cons in H as [Hc Hu].
    cbn [append]. rewrite splitLines_cons, Hc, (IH Hu). cbv zeta.
    destruct u as [|c2 u2]; cbn [append].
    + rewrite andb_false_r. reflexivity.
    + apply singleLine_cons in Hu as [Hc2 _]. rewrite Hc2, andb_false_r. reflexivity.
Qed.

Lemma splitLines_lf (u rest : string) :
  singleLine u -> (forall w, u <> w ++ String CR "") ->
  splitLines (u ++ String LF rest) = u :: splitLines rest.
Proof.
  induction u as [|c u IH]; intros H Hcr.
  - reflexivity.
  - apply singleLine_cons in H as [Hc Hu].
    cbn [append]. rewrite splitLines_cons, Hc. cbv zeta.
    assert (Hcr' : forall w, u <> w ++ String CR "").
    { intros w ->. apply (Hcr (String c w)). reflexivity. }
    rewrite (IH Hu Hcr').
    destruct u as [|c2 u2]; cbn [append].
    + destruct (Ascii.eqb c CR) eqn:Hc'; [|reflexivity].
      apply Ascii.eqb_eq in Hc'. subst c. destruct (Hcr ""). reflexivity.
    + apply singleLine_cons in Hu as [Hc2 _]. rewrite Hc2, andb_false_r. reflexivity.
Qed.

Lemma trimmed_no_final_cr (u : string) : trim u = u -> forall w, u <> w ++ String CR "".
Proof.
  intros Ht w Hw.
  assert (H : headSpace true (reverse u) = false).
  { rewrite <- Ht at 1. unfold trim, trimEnd. rewrite reverse_involutive.
    apply trimLead_head. }
  rewrite Hw, reverse_app in H.
  change (reverse (String CR "")) with (String CR "") in H.
  cbn [append headSpace] in H. change (space1 CR) with true in H. discriminate H.
Qed.

Lemma splitLines_join (urls : list string) :
  forall u,
    clean (u :: urls) -> Forall singleLine (u :: urls) ->
    splitLines (Js.join (Js.chr LF) (u :: urls)) = u :: urls
    /\ splitLines (Js.join (String CR (Js.chr LF)) (u :: urls)) = u :: urls.
Proof.
  induction urls as [|v urls IH]; intros u Hclean Hlines;
    inversion Hclean as [|u' l' [_ Ht] Hclean']; subst;
    inversion Hlines as [|u' l' Hu Hlines']; subst.
  - cbn [Js.join]. split; apply splitLines_last, Hu.
  - destruct (IH v Hclean' Hlines') as [IH1 IH2].
    change (Js.join (Js.chr LF) (u :: v :: urls))
      with (u ++ String LF (Js.join (Js.chr LF) (v :: urls))).
    change (Js.join (String CR (Js.chr LF)) (u :: v :: urls))
      with (u ++ String CR (String LF (Js.join (String CR (Js.chr LF)) (v :: urls)))).
    rewrite (splitLines_lf _ _ Hu (trimmed_no_final_cr u Ht)), IH1.
    rewrite (splitLines_crlf _ _ Hu), IH2. split; reflexivity.
Qed.

(** X23.  The page reads back a list it is given one URL per line.  For
    every list of URLs that are not empty, have no white space at either
    end and no line feed inside, the textarea that holds them joined by line
    feeds, or by carriage return and line feed, is split by the click
    handler into exactly that list, in order. *)
Theorem textarea_lines_read_back :
  forall urls : list string,
    clean urls -> Forall singleLine urls ->
    clientUrls (Js.join (Js.chr LF) urls) = urls
    /\ clientUrls (Js.join (String CR (Js.chr LF)) urls) = urls.
Proof.
  intros urls Hclean Hlines. unfold clientUrls.
  destruct urls as [|u urls]; [split; reflexivity|].
  destruct (splitLines_join urls u Hclean Hlines) as [-> ->].
  split; apply filter_clean, Hclean.
Qed.

Lemma textarea_lines_read_back_witness :
  let urls := ["https://a.example/jobs/1"; "https://b.example/apply?id=2"] in
  clean urls /\ Forall singleLine urls
  /\ clientUrls (Js.join (Js.chr LF) urls) = urls
  /\ clientUrls (Js.join (String CR (Js.chr LF)) urls) = urls.
Proof.
  intro urls.
  assert (Hclean : clean urls).
  { repeat constructor; try discriminate; vm_compute; reflexivity. }
  assert (Hlines : Forall singleLine urls).
  { repeat constructor; vm_compute; reflexivity. }
  split; [exact Hclean|]. split; [exact Hlines|].
  exact (textarea_lines_read_back urls Hclean Hlines).
Defined.

Example page_skips_blank_lines :
  clientUrls ("  https://a.example/1 " ++ String CR (String LF ("" ++ String LF
              (String (ascii_of_nat 194) (String (ascii_of_nat 160) "https://b.example/2"))
              ++ String LF "   ")))
  = ["https://a.example/1"; "https://b.example/2"].
Proof. vm_compute. reflexivity. Qed.

Example object_with_toString_key_is_answered_500 :
  postJobs initial (Some (JObj [("urls", JArr [JStr "https://a.example/1";
                                               JObj [("toString", JNum "1")]])]))
  = (initial, mkResponse 500 false (Some "Cannot convert object to primitive value") None).
Proof. reflexivity. Qed.

Example blank_list_is_answered_400_while_running :
  let st := {| running := true; pending := [["https://a.example/1"]] |} in
  postJobs st (Some (JObj [("urls", JArr [JStr "  "; JStr ""])]))
  = (st, mkResponse 400 false (Some "No URLs provided") None)
  /\ postJobs st None = (st, mkResponse 400 false (Some "No URLs provided") None)
  /\ postJobs st (Some (JObj [("urls", JStr "https://a.example/1")]))
     = (st, mkResponse 400 false (Some "No URLs provided") None).
Proof. vm_compute. repeat split. Qed.

Example non_string_items_are_converted :
  normalise (Some (JObj [("urls", JArr [JNum "42"; JNull; JBool true;
                                        JArr [JStr " a"; JNull; JStr "b "];
                                        JObj [("href", JStr "x")]])]))
  = Ok ["42"; "null"; "true"; "a,,b"; "[object Object]"].
Proof. vm_compute. reflexivity. Qed.

End WebFacts.

(* ====================================================================== *)
(** * The auto-submit revision submits at most once per URL *)
(* ====================================================================== *)

Lemma buttonClicks_app (t1 t2 : list Event) :
  buttonClicks (t1 ++ t2) = (buttonClicks t1 ++ buttonClicks t2)%list.
Proof. unfold buttonClicks. rewrite calls_app. apply filter_app. Qed.

Lemma radio_buttonClicks (t : list Event) :
  Forall radioClicksOnly (calls t) -> buttonClicks t = [].
Proof.
  unfold buttonClicks. induction (calls t) as [|c l IH]; intro H; [reflexivity|].
  inversion H as [|c' l' Hc Hl]; subst. simpl.
  rewrite (IH Hl). destruct c; try reflexivity. simpl in *. rewrite Hc. reflexivity.
Qed.

Lemma radio_allowedClick (autoSubmit : bool) (c : Cmd) :
  radioClicksOnly c -> allowedClick autoSubmit c.
Proof. destruct c; simpl; auto. Qed.

Lemma fillStep_allowedClick (autoSubmit : bool) (c : Cmd) :
  fillStep c -> allowedClick autoSubmit c.
Proof. intro H. apply radio_allowedClick, fillStep_radioClicksOnly, H. Qed.

(** [bind] before a part that clicks no button. *)
Lemma always_before {A B : Type} (p : Prog A) (f : A -> Prog B)
      (Q : list Event -> Prop) :
  always p (fun t _ => Q t) ->
  (forall a, Uses radioClicksOnly (f a)) ->
  (forall t t', Q t -> buttonClicks t' = [] -> Q (t ++ t')%list) ->
  always (bind p f) (fun t _ => Q t).
Proof.
  intros Hp Hf Hq. apply always_bind. eapply always_mono; [|exact Hp].
  intros t [a|e|] Ht; simpl; try exact Ht.
  eapply always_mono; [|apply Uses_always, Hf].
  intros t' o' H'. apply Hq; [exact Ht | apply radio_buttonClicks, H'].
Qed.

Lemma always_caught {A : Type} (p : Prog A) (h : Exn -> Prog A)
      (Q : list Event -> Prop) :
  always p (fun t _ => Q t) ->
  (forall e, Uses radioClicksOnly (h e)) ->
  (forall t t', Q t -> buttonClicks t' = [] -> Q (t ++ t')%list) ->
  always (try_catch p h) (fun t _ => Q t).
Proof.
  intros Hp Hh Hq. apply always_try_catch. eapply always_mono; [|exact Hp].
  intros t [a|e|] Ht; simpl; try exact Ht.
  eapply always_mono; [|apply Uses_always, Hh].
  intros t' o' H'. apply Hq; [exact Ht | apply radio_buttonClicks, H'].
Qed.

Lemma atMostOne_before {A B : Type} (p : Prog A) (f : A -> Prog B) :
  always p atMostOneButton ->
  (forall a, Uses radioClicksOnly (f a)) ->
  always (bind p f) atMostOneButton.
Proof.
  intros Hp Hf.
  apply (always_before p f (fun t => length (buttonClicks t) <= 1) Hp Hf).
  intros t t' H H'. rewrite buttonClicks_app, H', app_nil_r. exact H.
Qed.

Lemma atMostOne_caught {A : Type} (p : Prog A) (h : Exn -> Prog A) :
  always p atMostOneButton ->
  (forall e, Uses radioClicksOnly (h e)) ->
  always (try_catch p h) atMostOneButton.
Proof.
  intros Hp Hh.
  apply (always_caught p h (fun t => length (buttonClicks t) <= 1) Hp Hh).
  intros t t' H H'. rewrite buttonClicks_app, H', app_nil_r. exact H.
Qed.

Lemma atMostOne_front {A : Type} (t t' : list Event) (o : Outcome A) :
  Forall radioClicksOnly (calls t) -> atMostOneButton t' o -> atMostOneButton (t ++ t')%list o.
Proof.
  unfold atMostOneButton. intros H H'.
  rewrite buttonClicks_app, (radio_buttonClicks _ H). exact H'.
Qed.

Lemma atMostOne_quiet {A : Type} (t : list Event) (o : Outcome A) :
  Forall radioClicksOnly (calls t) -> atMostOneButton t o.
Proof. unfold atMostOneButton. intro H. rewrite (radio_buttonClicks _ H). simpl. lia. Qed.

Ltac quiet_front :=
  apply (always_after radioClicksOnly);
  [ first [ fill_part fillStep_radioClicksOnly | solve [tree] ]
  | apply atMostOne_front
  | intros; apply atMostOne_quiet; assumption
  | intros; apply atMostOne_quiet; assumption
  | intros ].

Lemma submitStep_atMostOne autoSubmit : always (AutoSubmit.submitStep autoSubmit) atMostOneButton.
Proof.
  unfold AutoSubmit.submitStep, atMostOneButton. cbn. intros [n|e]; cbn; [|lia].
  destruct (positive n && autoSubmit)%bool; cbn.
  - intros [[]|e]; cbn; lia.
  - destruct (positive n && negb autoSubmit)%bool; cbn; lia.
Qed.

Lemma fillAndSubmit_atMostOne autoSubmit user meta :
  always (AutoSubmit.fillAndSubmit autoSubmit user meta) atMostOneButton.
Proof.
  unfold AutoSubmit.fillAndSubmit.
  repeat (lazymatch goal with
          | |- always (AutoSubmit.submitStep _) _ => fail
          | _ => idtac
          end; quiet_front).
  apply submitStep_atMostOne.
Qed.

Lemma AutoSubmit_attempt_atMostOne autoSubmit rt user url :
  always (AutoSubmit.attempt autoSubmit rt user url) atMostOneButton.
Proof.
  unfold AutoSubmit.attempt.
  apply atMostOne_caught; [| intro; unfold reportError; tree].
  do 3 quiet_front.
  apply atMostOne_caught; [| intro; unfold reportError; tree].
  apply atMostOne_before; [| intro; tree].
  apply fillAndSubmit_atMostOne.
Qed.

Lemma AutoSubmit_processUrl_once autoSubmit rt user total jobNumber url :
  always (AutoSubmit.processUrl autoSubmit rt user total jobNumber url) oncePerVisit.
Proof.
  assert (H1 : always (AutoSubmit.processUrl autoSubmit rt user total jobNumber url)
                      atMostOneButton).
  { unfold AutoSubmit.processUrl, processUrlWith.
    do 4 quiet_front.
    apply atMostOne_before; [| intro; unfold appendCsv; tree].
    apply AutoSubmit_attempt_atMostOne. }
  eapply always_mono;
    [| exact (always_and _ _ _ H1
                (AutoSubmit_processUrl_step autoSubmit rt user total jobNumber url))].
  intros t o [Hone [Hgoto _]]. unfold oncePerVisit. rewrite Hgoto. exact Hone.
Qed.

Lemma oncePerVisit_app {A B : Type} (t t' : list Event) (o : Outcome A) (o' : Outcome B) :
  oncePerVisit t o -> oncePerVisit t' o' -> oncePerVisit (t ++ t')%list o'.
Proof.
  unfold oncePerVisit. intros H H'.
  rewrite buttonClicks_app, calls_app, gotos_app, !length_app. lia.
Qed.

Lemma oncePerVisit_quiet {A : Type} (t : list Event) (o : Outcome A) :
  Forall radioClicksOnly (calls t) -> oncePerVisit t o.
Proof. unfold oncePerVisit. intro H. rewrite (radio_buttonClicks _ H). simpl. lia. Qed.

Lemma urlLoop_once (step : nat -> string -> Prog unit) (urls : list string) :
  (forall i url, always (step i url) oncePerVisit) ->
  forall i, always (urlLoop step i urls) oncePerVisit.
Proof.
  intro Hstep. induction urls as [|url rest IH]; intro i; cbn [urlLoop].
  - simpl. unfold oncePerVisit. simpl. lia.
  - apply always_bind. eapply always_mono; [|apply Hstep].
    intros t [[]|e|] Ht; simpl; try exact Ht.
    eapply always_mono; [|apply IH].
    intros t' o' H'. exact (oncePerVisit_app t t' (Done tt) o' Ht H').
Qed.

Ltac once_front :=
  apply (always_after radioClicksOnly);
  [ solve [tree]
  | intros t t' o Ht Ht'; exact (oncePerVisit_app t t' (Done tt) o (oncePerVisit_quiet t _ Ht) Ht')
  | intros; apply oncePerVisit_quiet; assumption
  | intros; apply oncePerVisit_quiet; assumption
  | intros ].

Lemma AutoSubmit_runBatch_once rt urls autoSubmit :
  always (AutoSubmit.runBatch rt urls autoSubmit) oncePerVisit.
Proof.
  unfold AutoSubmit.runBatch.
  once_front.
  apply (always_after radioClicksOnly);
    [ unfold loadUser, requireField; tree
    | intros t t' o Ht Ht';
      exact (oncePerVisit_app t t' (Done tt) o (oncePerVisit_quiet t _ Ht) Ht')
    | intros; apply oncePerVisit_quiet; assumption
    | intros; apply oncePerVisit_quiet; assumption
    | intros user ].
  do 4 once_front.
  apply always_try_finally.
  eapply always_mono; [|apply urlLoop_once; intros; apply AutoSubmit_processUrl_once].
  assert (Hfin : Uses radioClicksOnly
                      (await CloseContext ;; await CloseBrowser ;; log "batch: finished"))
    by tree.
  intros t [[]|e|] Ht; try exact Ht;
    (eapply always_mono; [|apply Uses_always, Hfin]);
    intros t' o' H';
    exact (oncePerVisit_app t t' (Done tt) _ Ht (oncePerVisit_quiet t' (Done tt) H')).
Qed.

Lemma submitStep_allowedClick autoSubmit :
  Uses (allowedClick autoSubmit) (AutoSubmit.submitStep autoSubmit).
Proof.
  unfold AutoSubmit.submitStep, await, log. cbn.
  constructor; [exact I|]. intros [n|e]; cbn; [|constructor].
  constructor.
  destruct autoSubmit; destruct (positive n); cbn;
    try (constructor; constructor).
  constructor.
  - right. split; reflexivity.
  - intros [[]|e]; cbn; constructor; constructor.
Qed.

Lemma AutoSubmit_runBatch_allowedClick rt urls autoSubmit :
  Uses (allowedClick autoSubmit) (AutoSubmit.runBatch rt urls autoSubmit).
Proof.
  unfold AutoSubmit.runBatch, try_finally, ensureOutFiles, loadUser, requireField.
  repeat first [ apply urlLoop_Uses; intros;
                 unfold AutoSubmit.processUrl, processUrlWith, appendCsv,
                   AutoSubmit.attempt, reportError, AutoSubmit.fillAndSubmit
               | apply submitStep_allowedClick
               | fill_part (fillStep_allowedClick autoSubmit)
               | tree_step; intros ].
Qed.

Lemma clicksPerVisit_cons (l : list Cmd) :
  exists n counts, clicksPerVisit l = n :: counts.
Proof.
  induction l as [|c l (n & counts & IH)]; simpl.
  - exists 0, []. reflexivity.
  - rewrite IH. destruct c; simpl; try (destruct (negb _)); eexists; eexists; reflexivity.
Qed.

Lemma clicksPerVisit_length (l : list Cmd) :
  length (clicksPerVisit l) = S (length (gotos l)).
Proof.
  induction l as [|c l IH]; simpl; [reflexivity|].
  destruct (clicksPerVisit_cons l) as (n & counts & E). rewrite E in *.
  destruct c; simpl; try (destruct (negb _)); simpl in *; lia.
Qed.

Lemma clicksPerVisit_app (l1 l2 : list Cmd) :
  hd 0 (clicksPerVisit l2) = 0 ->
  clicksPerVisit (l1 ++ l2) = (clicksPerVisit l1 ++ tl (clicksPerVisit l2))%list.
Proof.
  intro H. induction l1 as [|c l1 IH]; simpl.
  - destruct (clicksPerVisit_cons l2) as (n & counts & E). rewrite E in *.
    simpl in *. subst n. reflexivity.
  - rewrite IH. destruct (clicksPerVisit_cons l1) as (n & counts & E). rewrite E.
    destruct c; simpl; try (destruct (negb _)); reflexivity.
Qed.

Lemma clicksPerVisit_one_visit (l : list Cmd) :
  gotos l = [] -> clicksPerVisit l = [length (filter isButtonClick l)].
Proof.
  induction l as [|c l IH]; simpl; [reflexivity|].
  destruct c; simpl; try (intro H; rewrite (IH H); reflexivity); try discriminate.
  intro H. rewrite (IH H). destruct (negb (isRadioOption l0)); reflexivity.
Qed.

Lemma oneClickPerVisit_app (t t' : list Event) :
  oneClickPerVisit t -> oneClickPerVisit t' -> oneClickPerVisit (t ++ t')%list.
Proof.
  unfold oneClickPerVisit. intros [H1 H2] [H1' H2'].
  rewrite calls_app, (clicksPerVisit_app _ _ H1').
  destruct (clicksPerVisit_cons (calls t)) as (n & counts & E). rewrite E in *.
  destruct (clicksPerVisit_cons (calls t')) as (n' & counts' & E'). rewrite E' in *.
  simpl in *. split; [exact H1|].
  inversion H2 as [|? ? Hn Hc]; subst. inversion H2' as [|? ? Hn' Hc']; subst.
  constructor; [exact Hn|]. apply Forall_app. split; assumption.
Qed.

Lemma oneClickPerVisit_noButtons (t : list Event) :
  buttonClicks t = [] -> oneClickPerVisit t.
Proof.
  unfold oneClickPerVisit, buttonClicks. induction (calls t) as [|c l IH]; intro H.
  - simpl. split; [reflexivity | repeat constructor].
  - simpl in H. destruct (isButtonClick c) eqn:Hc; [discriminate|].
    destruct (IH H) as [H1 H2].
    destruct c; simpl in *; try (split; assumption).
    + split; [reflexivity | constructor; [lia | exact H2]].
    + rewrite Hc. split; assumption.
Qed.

Lemma oneClickPerVisit_quiet (t : list Event) :
  Forall radioClicksOnly (calls t) -> oneClickPerVisit t.
Proof. intro H. apply oneClickPerVisit_noButtons, radio_buttonClicks, H. Qed.

Lemma always_any {A : Type} (p : Prog A) (Q : list Event -> Outcome A -> Prop) :
  (forall t o, Q t o) -> always p Q.
Proof.
  revert Q. induction p as [a|e| |c k IH|s k IH|msg k IH]; intros Q HQ; simpl; auto.
Qed.

Lemma AutoSubmit_attempt_starts_with_goto autoSubmit rt user url :
  always (AutoSubmit.attempt autoSubmit rt user url)
         (fun t _ => exists r t', t = ECall (Goto url) r :: t').
Proof.
  unfold AutoSubmit.attempt. simpl. intro r. apply always_any.
  intros t o. exists r, t. reflexivity.
Qed.

Lemma AutoSubmit_attempt_perVisit autoSubmit rt user url :
  always (AutoSubmit.attempt autoSubmit rt user url) (fun t _ => oneClickPerVisit t).
Proof.
  eapply always_mono;
    [| exact (always_and _ _ _
                (always_and _ _ _
                   (AutoSubmit_attempt_starts_with_goto autoSubmit rt user url)
                   (AutoSubmit_attempt_atMostOne autoSubmit rt user url))
                (guarded_attempt autoStatus (or_intror (or_intror eq_refl))
                   (AutoSubmit.fillAndSubmit autoSubmit user)
                   (fillAndSubmit_pageCall autoSubmit user)
                   (fillAndSubmit_result autoSubmit user) rt url))].
  intros t o [[(r & t' & ->) Hone] [Hgoto _]].
  unfold oneClickPerVisit, atMostOneButton, buttonClicks in *. simpl in *.
  injection Hgoto as Hgoto.
  rewrite (clicksPerVisit_one_visit _ Hgoto).
  split; [reflexivity|].
  constructor; [lia | constructor; [exact Hone | constructor]].
Qed.

Ltac visit_front :=
  apply (always_after radioClicksOnly);
  [ solve [tree]
  | intros t t' o Ht Ht'; exact (oneClickPerVisit_app t t' (oneClickPerVisit_quiet t Ht) Ht')
  | intros; apply oneClickPerVisit_quiet; assumption
  | intros; apply oneClickPerVisit_quiet; assumption
  | intros ].

Lemma AutoSubmit_processUrl_perVisit autoSubmit rt user total jobNumber url :
  always (AutoSubmit.processUrl autoSubmit rt user total jobNumber url)
         (fun t _ => oneClickPerVisit t).
Proof.
  unfold AutoSubmit.processUrl, processUrlWith.
  do 4 visit_front.
  apply (always_before _ _ oneClickPerVisit);
    [ apply AutoSubmit_attempt_perVisit
    | intro; unfold appendCsv; tree
    | intros t t' H H'; apply oneClickPerVisit_app;
      [exact H | apply oneClickPerVisit_noButtons, H'] ].
Qed.

Lemma urlLoop_perVisit (step : nat -> string -> Prog unit) (urls : list string) :
  (forall i url, always (step i url) (fun t _ => oneClickPerVisit t)) ->
  forall i, always (urlLoop step i urls) (fun t _ => oneClickPerVisit t).
Proof.
  intro Hstep. induction urls as [|url rest IH]; intro i; cbn [urlLoop].
  - simpl. apply oneClickPerVisit_noButtons. reflexivity.
  - apply always_bind. eapply always_mono; [|apply Hstep].
    intros t [[]|e|] Ht; simpl; try exact Ht.
    eapply always_mono; [|apply IH].
    intros t' o' H'. exact (oneClickPerVisit_app t t' Ht H').
Qed.

Lemma AutoSubmit_runBatch_perVisit rt urls autoSubmit :
  always (AutoSubmit.runBatch rt urls autoSubmit) (fun t _ => oneClickPerVisit t).
Proof.
  unfold AutoSubmit.runBatch.
  visit_front.
  apply (always_after radioClicksOnly);
    [ unfold loadUser, requireField; tree
    | intros t t' o Ht Ht';
      exact (oneClickPerVisit_app t t' (oneClickPerVisit_quiet t Ht) Ht')
    | intros; apply oneClickPerVisit_quiet; assumption
    | intros; apply oneClickPerVisit_quiet; assumption
    | intros user ].
  do 4 visit_front.
  apply always_try_finally.
  eapply always_mono; [|apply urlLoop_perVisit; intros; apply AutoSubmit_processUrl_perVisit].
  assert (Hfin : Uses radioClicksOnly
                      (await CloseContext ;; await CloseBrowser ;; log "batch: finished"))
    by tree.
  intros t [[]|e|] Ht; try exact Ht;
    (eapply always_mono; [|apply Uses_always, Hfin]);
    intros t' o' H';
    exact (oneClickPerVisit_app t t' Ht (oneClickPerVisit_quiet t' H')).
Qed.
(** X22.  The auto-submit revision submits an application at most once
    and only when asked.  On every page and whatever the calls answer, the
    only clicks of a whole batch are clicks on a radio option and, with the
    flag [autoSubmit] set, clicks on the submit control.  Counting the clicks
    on the submit control visit by visit -- before the first navigation and
    after each navigation up to the next one -- gives no click before the
    first navigation and at most one click for each navigation; the
    navigations are a prefix of the URLs of the batch.  With the flag off no
    click other than on a radio option is made at all. *)
Theorem auto_submit_clicks_once_per_url_when_asked :
  forall (W : Type) (d : Driver W) (w : W) (rt : Runtime) (urls : list string)
         (autoSubmit : bool),
    let r := run d (AutoSubmit.runBatch rt urls autoSubmit) w in
    let counts := clicksPerVisit (calls (trace r)) in
    Forall (fun c => c = Click AutoSubmit.submit /\ autoSubmit = true) (buttonClicks (trace r))
    /\ length counts = S (length (gotos (calls (trace r))))
    /\ hd 0 counts = 0
    /\ Forall (fun n => n <= 1) counts
    /\ (exists k, gotos (calls (trace r)) = firstn k urls)
    /\ length (buttonClicks (trace r)) <= length (gotos (calls (trace r)))
    /\ (autoSubmit = false -> buttonClicks (trace r) = []).
Proof.
  intros W d w rt urls autoSubmit r counts.
  pose proof (Uses_run d _ _ (AutoSubmit_runBatch_allowedClick rt urls autoSubmit) w) as Hall.
  fold r in Hall.
  assert (Hsubmit : Forall (fun c => c = Click AutoSubmit.submit /\ autoSubmit = true)
                           (buttonClicks (trace r))).
  { unfold buttonClicks. induction Hall as [|c l Hc _ IH]; simpl; [constructor|].
    destruct c; simpl; try exact IH.
    destruct (isRadioOption l0) eqn:Hr; simpl; [exact IH|].
    constructor; [|exact IH].
    destruct Hc as [Hc|[-> ->]]; [congruence | split; reflexivity]. }
  destruct (always_run d _ _ w (AutoSubmit_runBatch_perVisit rt urls autoSubmit))
    as [Hhd Hall1].
  fold r in Hhd, Hall1.
  split; [exact Hsubmit|].
  split; [apply clicksPerVisit_length|].
  split; [exact Hhd|]. split; [exact Hall1|].
  split.
  { destruct (always_run d _ _ w (AutoSubmit_runBatch_batch rt urls autoSubmit))
      as [Hk _]. exact Hk. }
  split.
  - exact (always_run d _ oncePerVisit w (AutoSubmit_runBatch_once rt urls autoSubmit)).
  - intros ->. destruct (buttonClicks (trace r)) as [|c l]; [reflexivity|].
    inversion Hsubmit as [|c' l' [_ Hc] _]. discriminate.
Qed.

Example two_clicks_on_one_visit_are_counted :
  clicksPerVisit [Goto "https://a.example/1"; Goto "https://b.example/2";
                  Click AutoSubmit.submit; Click AutoSubmit.submit]
  = [0; 0; 2].
Proof. reflexivity. Qed.

(* ====================================================================== *)
(** * What the wait for the tab to close decides *)
(* ====================================================================== *)

Lemma closeWaits_app (t1 t2 : list Event) :
  closeWaits (t1 ++ t2) = (closeWaits t1 ++ closeWaits t2)%list.
Proof.
  induction t1 as [|[c r|s r|msg] t1 IH]; simpl; rewrite ?IH; try reflexivity.
  destruct c; simpl; rewrite ?IH; reflexivity.
Qed.

Lemma quiet_closeWaits (t : list Event) :
  Forall notCloseWait (calls t) -> closeWaits t = [].
Proof.
  induction t as [|[c r|s r|msg] t IH]; simpl; intro H; auto.
  inversion H as [|c' l' Hc Hl]; subst.
  destruct c; try (apply IH; exact Hl).
  exfalso. revert Hc. unfold notCloseWait. simpl. discriminate.
Qed.

Lemma fillStep_notCloseWait (c : Cmd) : fillStep c -> notCloseWait c.
Proof.
  unfold fillStep, notCloseWait. destruct c; simpl; intro H; try reflexivity; discriminate.
Qed.

Lemma closeDecides_front {A : Type} (get : A -> string * string)
      (t t' : list Event) (o : Outcome A) :
  Forall notCloseWait (calls t) -> closeDecides get t' o -> closeDecides get (t ++ t')%list o.
Proof.
  unfold closeDecides. intros H H'. rewrite closeWaits_app, (quiet_closeWaits _ H). exact H'.
Qed.

Lemma closeDecides_early {A : Type} (get : A -> string * string)
      (t : list Event) (o : Outcome A) :
  Forall notCloseWait (calls t) -> (forall x, o <> Done x) -> closeDecides get t o.
Proof.
  unfold closeDecides. intros H Ho. rewrite (quiet_closeWaits _ H). exact Ho.
Qed.

Lemma holdForReview_decides : always holdForReview (closeDecides (fun x => x)).
Proof.
  unfold holdForReview, showHoldBanner, closeDecides. cbn. intros [[]|e]; cbn.
  - intros [[]|e]; cbn; eexists; split; reflexivity.
  - discriminate.
Qed.

Ltac wait_front :=
  apply (always_after notCloseWait);
  [ first [ fill_part fillStep_notCloseWait | solve [tree] ]
  | apply closeDecides_front
  | intros; apply closeDecides_early; [assumption | discriminate]
  | intros; apply closeDecides_early; [assumption | discriminate]
  | intros ].

Lemma fillAndHold_decides fuel user meta :
  always (fillAndHold fuel user meta) (closeDecides (fun x => x)).
Proof.
  unfold fillAndHold.
  repeat (lazymatch goal with
          | |- always holdForReview _ => fail
          | _ => idtac
          end; wait_front).
  apply holdForReview_decides.
Qed.

Lemma tryBlock_decides fuel rt user url :
  always (tryBlock fuel rt user url) (closeDecides snd).
Proof.
  unfold tryBlock. do 3 wait_front.
  apply always_bind. eapply always_mono; [|apply fillAndHold_decides].
  intros t o H. unfold closeDecides in *.
  destruct o as [x|e|]; simpl; rewrite ?app_nil_r.
  - destruct (closeWaits t) as [|[[]|e'] [|? ?]]; try exact H.
    + exfalso. apply (H x). reflexivity.
    + destruct H as (y & Hy & Hget). injection Hy as <-.
      eexists. split; [reflexivity | exact Hget].
    + destruct H as (y & Hy & Hget). injection Hy as <-.
      eexists. split; [reflexivity | exact Hget].
  - destruct (closeWaits t) as [|[[]|e'] [|? ?]]; try exact H.
    + intros y Hy. discriminate.
    + destruct H as (y & Hy & _). discriminate.
    + destruct H as (y & Hy & _). discriminate.
  - destruct (closeWaits t) as [|[[]|e'] [|? ?]]; try exact H.
    + intros y Hy. discriminate.
    + destruct H as (y & Hy & _). discriminate.
    + destruct H as (y & Hy & _). discriminate.
Qed.

(** C2 (as the code has it).  With a clock that pauses advance and a log
    file that can be appended to, every URL ends with exactly one appended
    CSV line for that URL and the loop goes on to the next one: for a list
    of URLs the appended lines are one per URL, in order.  An exception that
    escapes the [try] block (navigation, the settle pause, the stability
    polls, the hold banner) is recorded as status [error] with
    [error?.message || 'unknown error'] as notes; this is what happens
    whenever the block never came to wait for the tab to close.  The wait
    itself never lets an exception escape: when it was rejected, with
    whatever error, the block returns and the record has status [error] with
    the fixed notes [error waiting for tab close]; when it resolved, the
    record has status [submitted]. *)
Theorem url_loop_isolates_failures :
  forall (W : Type) (d : Driver W) (time : W -> Z) (rt : Runtime) (user : User)
         (n : nat),
    Timed d time ->
    AppendsSucceed d ->
    (defaultMaxWaitTime <= 500 * Z.of_nat n)%Z ->
    (forall total jobNumber url w,
        let r := run d (processUrl (S n) rt user total jobNumber url) w in
        let block := run d (tryBlock (S n) rt user url) (afterStamps d w) in
        outcome r = Done tt
        /\ outcome block <> Diverged
        /\ exists row,
            appended (trace r) = [Csv.csvLine row]
            /\ Csv.url row = url
            /\ (forall e, outcome block = Raised e ->
                  Csv.status row = "error" /\ Csv.notes row = errorNotes e)
            /\ (forall x, outcome block = Done x ->
                  (Csv.status row, Csv.notes row) = snd x /\ held (snd x))
            /\ match closeWaits (trace block) with
               | [] => exists e, outcome block = Raised e
               | [Ok _] =>
                   outcome block <> Diverged
                   /\ (forall e, outcome block <> Raised e)
                   /\ (Csv.status row, Csv.notes row)
                      = ("submitted", "form submitted and tab closed by user")
               | [Err _] =>
                   outcome block <> Diverged
                   /\ (forall e, outcome block <> Raised e)
                   /\ (Csv.status row, Csv.notes row)
                      = ("error", "error waiting for tab close")
               | _ => False
               end)
    /\ (forall total urls i w,
          let r := run d (urlLoop (processUrl (S n) rt user total) i urls) w in
          outcome r = Done tt
          /\ exists rows,
              appended (trace r) = map Csv.csvLine rows
              /\ map Csv.url rows = urls)
    /\ (forall m, errorNotes (mkExn (Some m)) = if Js.isEmpty m then "unknown error" else m)
    /\ errorNotes (mkExn None) = "unknown error".
Proof.
  intros W d time rt user n T HA Hfuel.
  split; [|split; [intros; apply (urlLoop_continues d time T HA rt user n Hfuel)|
                   split; [intro m; reflexivity | reflexivity]]].
  intros total jobNumber url w r block.
  destruct (processUrl_isolated d time T HA rt user n Hfuel total jobNumber url w)
    as (Hout & Hends & row & Happ & Hurl & Hraised & Hdone).
  fold r in Hout, Happ. fold block in Hends, Hraised, Hdone.
  split; [exact Hout|]. split; [exact Hends|].
  exists row. split; [exact Happ|]. split; [exact Hurl|].
  split; [exact Hraised|]. split; [exact Hdone|].
  pose proof (always_run d _ (closeDecides snd) (afterStamps d w)
                (tryBlock_decides (S n) rt user url)) as Hclose.
  fold block in Hclose. unfold closeDecides in Hclose.
  destruct (closeWaits (trace block)) as [|[[]|e'] [|? ?]]; try exact Hclose.
  - destruct (outcome block) as [x|e|].
    + destruct (Hclose x eq_refl).
    + exists e. reflexivity.
    + destruct (Hends eq_refl).
  - destruct Hclose as (x & Hx & Hget).
    split; [exact Hends|]. split; [intros e He; congruence|].
    destruct (Hdone x Hx) as [Hrow _]. rewrite Hrow. exact Hget.
  - destruct Hclose as (x & Hx & Hget).
    split; [exact Hends|]. split; [intros e He; congruence|].
    destruct (Hdone x Hx) as [Hrow _]. rewrite Hrow. exact Hget.
Qed.

Lemma url_loop_isolates_failures_witness :
  Timed (simDriver emptyPage) sim_now
  /\ AppendsSucceed (simDriver emptyPage)
  /\ (defaultMaxWaitTime <= 500 * Z.of_nat 10)%Z
  /\ outcome (run (simDriver emptyPage)
                  (urlLoop (processUrl 11 simRuntime jane 2) 0
                           ["https://a.example/1"; "https://b.example/2"]) sim0)
     = Done tt.
Proof.
  split; [apply simDriver_Timed|].
  split; [apply simDriver_AppendsSucceed|].
  split; [unfold defaultMaxWaitTime; lia|].
  exact (proj1 (proj1 (proj2
    (url_loop_isolates_failures Sim (simDriver emptyPage) sim_now simRuntime jane 10
       (simDriver_Timed emptyPage) simDriver_AppendsSucceed
       ltac:(unfold defaultMaxWaitTime; lia)))
    2 ["https://a.example/1"; "https://b.example/2"] 0 sim0)).
Defined.

(* ====================================================================== *)
(** * The label-based strategies are the fallback of the generic fill *)
(* ====================================================================== *)

Lemma role_eqb_refl (r : Role) : role_eqb r r = true.
Proof. destruct r; reflexivity. Qed.

Lemma locator_eqb_refl (l : Locator) : locator_eqb l l = true.
Proof.
  induction l as [s|s|r s|p IHp c IHc|l IH]; simpl;
    rewrite ?String.eqb_refl, ?role_eqb_refl, ?IHp, ?IHc, ?IH; reflexivity.
Qed.

Lemma among_In (cands : list Locator) (l : Locator) : In l cands -> among cands l = true.
Proof.
  intro H. unfold among. apply existsb_exists. exists l.
  split; [exact H | apply locator_eqb_refl].
Qed.

Lemma okFills_calls (t : list Event) (l : Locator) :
  In l (okFills t) -> exists v, In (Fill l v) (calls t).
Proof.
  induction t as [|[c r|s r|msg] t IH]; simpl; intro H; try (apply IH; exact H).
  - destruct H.
  - destruct c; try (destruct (IH H) as [v Hv]; exists v; right; exact Hv).
    destruct r as [u|e].
    + destruct H as [<-|H]; [exists value; left; reflexivity|].
      destruct (IH H) as [v Hv]. exists v. right. exact Hv.
    + destruct (IH H) as [v Hv]. exists v. right. exact Hv.
Qed.

Lemma probes_calls (l : list Cmd) (loc : Locator) : In loc (probes l) -> In (Count loc) l.
Proof.
  induction l as [|c l IH]; simpl; [tauto|].
  destruct c; simpl; try (intro H; right; apply IH; exact H).
  intros [<-|H]; [left; reflexivity | right; apply IH; exact H].
Qed.

Lemma filledGenerically_app (fieldType : string) (t t' : list Event) :
  filledGenerically fieldType (t ++ t')
  = (filledGenerically fieldType t || filledGenerically fieldType t')%bool.
Proof. unfold filledGenerically. rewrite okFills_app. apply existsb_app. Qed.

Lemma labelProbed_app (labels : list string) (t t' : list Event) :
  labelProbed labels (t ++ t') = (labelProbed labels t || labelProbed labels t')%bool.
Proof. unfold labelProbed. rewrite calls_app, probes_app. apply existsb_app. Qed.

Lemma neutral_untouched (fieldType : string) (labels : list string) (t : list Event) :
  Forall (neutralFor fieldType labels) (calls t) -> untouched fieldType labels t.
Proof.
  intro H. rewrite Forall_forall in H. split.
  - unfold filledGenerically.
    destruct (existsb _ (okFills t)) eqn:E; [exfalso | reflexivity].
    apply existsb_exists in E as (l & Hin & Ha).
    destruct (okFills_calls t l Hin) as [v Hv].
    specialize (H _ Hv). simpl in H. congruence.
  - unfold labelProbed.
    destruct (existsb _ (probes (calls t))) eqn:E; [exfalso | reflexivity].
    apply existsb_exists in E as (l & Hin & Ha).
    specialize (H _ (probes_calls _ _ Hin)). simpl in H. congruence.
Qed.

Lemma untouched_front (fieldType : string) (labels : list string) (t t' : list Event) :
  untouched fieldType labels t -> untouched fieldType labels t' ->
  untouched fieldType labels (t ++ t').
Proof.
  unfold untouched. intros [H1 H2] [H1' H2'].
  rewrite filledGenerically_app, labelProbed_app, H1, H2, H1', H2'. split; reflexivity.
Qed.

Lemma fallbackRan_back (labels : list string) (value : option string) (t t' : list Event) :
  fallbackRan labels value t' -> fallbackRan labels value (t ++ t').
Proof.
  unfold fallbackRan. intros H Hv first rest Hl.
  rewrite calls_app, probes_app. apply in_or_app. right. exact (H Hv first rest Hl).
Qed.

Lemma fallbackRan_front (labels : list string) (value : option string) (t t' : list Event) :
  fallbackRan labels value t -> fallbackRan labels value (t ++ t').
Proof.
  unfold fallbackRan. intros H Hv first rest Hl.
  rewrite calls_app, probes_app. apply in_or_app. left. exact (H Hv first rest Hl).
Qed.

Lemma fallbackOnly_front fieldType labels value (t t' : list Event) :
  untouched fieldType labels t -> fallbackOnly fieldType labels value t' ->
  fallbackOnly fieldType labels value (t ++ t').
Proof.
  unfold untouched, fallbackOnly. intros [H1 H2] [Ha Hb].
  rewrite filledGenerically_app, labelProbed_app, H1, H2. simpl.
  split; [exact Ha | intro H; apply fallbackRan_back, Hb, H].
Qed.

Lemma afterGeneric_front fieldType labels value filled (t t' : list Event) :
  untouched fieldType labels t -> afterGeneric fieldType labels value filled t' ->
  afterGeneric fieldType labels value filled (t ++ t').
Proof.
  unfold untouched, afterGeneric. intros [H1 H2] (Ha & Hb & Hc).
  rewrite filledGenerically_app, labelProbed_app, H1, H2. simpl.
  split; [exact Ha|]. split; [exact Hb | intro H; apply fallbackRan_back, Hc, H].
Qed.

Lemma Returns_always {A : Type} (p : Prog A) :
  Returns p -> always p (fun _ o => exists a, o = Done a).
Proof.
  induction 1 as [a|c k _ IH|s k _ IH|msg k _ IH]; simpl.
  - exists a. reflexivity.
  - intro r. eapply always_mono; [|apply IH]. intros t o H. exact H.
  - intro r. eapply always_mono; [|apply IH]. intros t o H. exact H.
  - eapply always_mono; [|apply IH]. intros t o H. exact H.
Qed.

(** [bind] after a part that always returns and whose calls are neutral
    for the field. *)
Lemma always_neutral {A B : Type} fieldType labels (p : Prog A) (f : A -> Prog B)
      (Q : list Event -> Prop) :
  Returns p -> Uses (neutralFor fieldType labels) p ->
  (forall t t', untouched fieldType labels t -> Q t' -> Q (t ++ t')%list) ->
  (forall a, always (f a) (fun t _ => Q t)) ->
  always (bind p f) (fun t _ => Q t).
Proof.
  intros Hr Hu HQ Hf. apply always_bind.
  eapply always_mono;
    [| exact (always_and _ _ _ (Returns_always p Hr) (Uses_always _ p Hu))].
  intros t o [[a ->] Ht]. simpl.
  eapply always_mono; [|apply Hf].
  intros t' o' H'. apply HQ; [apply neutral_untouched, Ht | exact H'].
Qed.

Lemma Uses_forEachTry_In (P : Cmd -> Prop) {X : Type} (xs : list X) (body : X -> Prog bool) :
  (forall x, In x xs -> Uses P (body x)) -> Uses P (forEachTry xs body).
Proof.
  induction xs as [|x xs IH]; intro Hb; simpl.
  - constructor.
  - apply Uses_bind.
    + apply Uses_try_catch; [apply Hb; left; reflexivity | intro; constructor].
    + intros [|]; [constructor | apply IH; intros y Hy; apply Hb; right; exact Hy].
Qed.

Lemma Uses_fillGenericField (P : Cmd -> Prop) fieldType value fieldName :
  (forall l, In l (genericLocators fieldType) ->
             P (Count l) /\ P (IsVisible l) /\ forall v, P (Fill l v)) ->
  Uses P (fillGenericField fieldType value fieldName).
Proof.
  intro H. unfold fillGenericField. destruct (negb (Js.truthy value)); [tree|].
  cbv zeta. apply Uses_bind.
  - apply Uses_forEachTry_In. intros s Hs.
    destruct (H (First (Css s))) as (H1 & H2 & H3).
    { unfold genericLocators, structuralLocators. apply in_or_app. left.
      apply in_map_iff. exists s. split; [reflexivity | exact Hs]. }
    unfold isThereAndVisible. tree.
  - intros [|]; [constructor|].
    destruct (H (nearbyInput fieldType)) as (H1 & H2 & H3).
    { unfold genericLocators. apply in_or_app. right. left. reflexivity. }
    unfold isThereAndVisible. tree.
Qed.

Lemma Uses_fillTextByLabel (P : Cmd -> Prop) labels value fieldName :
  (forall text, In text labels ->
                P (Count (ByLabel text)) /\ (forall v, P (Fill (First (ByLabel text)) v))
                /\ P (Count (ByRole Textbox text))
                /\ forall v, P (Fill (First (ByRole Textbox text)) v)) ->
  Uses P (fillTextByLabel labels value fieldName).
Proof.
  intro H. unfold fillTextByLabel. destruct (negb (Js.truthy value)); [tree|].
  cbv zeta. apply Uses_bind.
  - apply Uses_forEachTry_In. intros s Hs.
    destruct (H s Hs) as (H1 & H2 & H3 & H4). tree.
  - intros [|]; [constructor|]. apply Uses_bind.
    + apply Uses_forEachTry_In. intros s Hs.
      destruct (H s Hs) as (H1 & H2 & H3 & H4). tree.
    + intros [|]; tree.
Qed.

Lemma generic_not_label (fieldType : string) (l : Locator) :
  (forall s, l <> First (Css s)) -> among (genericLocators fieldType) l = false.
Proof.
  intro Hl. unfold among.
  destruct (existsb _ _) eqn:E; [exfalso | reflexivity].
  apply existsb_exists in E as (x & Hin & Heq).
  unfold genericLocators, structuralLocators, nearbyInput in Hin.
  apply in_app_or in Hin as [Hin|[<-|[]]].
  - apply in_map_iff in Hin as (s & <- & _).
    destruct l as [| | | |[]]; simpl in Heq; try discriminate.
    apply String.eqb_eq in Heq. subst. exact (Hl _ eq_refl).
  - destruct l as [| | | |[]]; simpl in Heq; try discriminate.
    apply String.eqb_eq in Heq. subst. exact (Hl _ eq_refl).
Qed.

Lemma generic_is_selector (fieldType : string) (labels : list string) (l : Locator) :
  In l (genericLocators fieldType) -> isLabelOf labels l = false.
Proof.
  unfold genericLocators, structuralLocators, nearbyInput. intro Hin.
  apply in_app_or in Hin as [Hin|[<-|[]]]; [|reflexivity].
  apply in_map_iff in Hin as (s & <- & _). reflexivity.
Qed.

Lemma genericFor_fills fieldType labels (t : list Event) :
  Forall (genericFor fieldType labels) (calls t) ->
  length (okFills t) = length (okWrites t)
  /\ Forall (fun l => among (genericLocators fieldType) l = true) (okFills t)
  /\ labelProbed labels t = false.
Proof.
  unfold labelProbed, okWrites.
  induction t as [|[c r|s r|msg] t IH]; simpl; intro H; try (apply IH; exact H).
  - split; [reflexivity|]. split; [constructor | reflexivity].
  - inversion H as [|c' l' Hc Hl]; subst.
    destruct (IH Hl) as (H1 & H2 & H3).
    destruct c; simpl in Hc; try discriminate;
      destruct r as [u|e]; simpl; rewrite ?Hc; simpl; rewrite ?H1;
      (split; [reflexivity|]); (split; [|first [exact H3 | rewrite Hc; exact H3]]);
      first [exact H2 | constructor; assumption].
Qed.

Lemma fillGenericField_generic fieldType labels value fieldName :
  always (fillGenericField fieldType value fieldName)
         (fun t o => exists filled,
              o = Done filled
              /\ filledGenerically fieldType t = filled
              /\ labelProbed labels t = false).
Proof.
  assert (Hu : Uses (genericFor fieldType labels)
                    (fillGenericField fieldType value fieldName)).
  { apply Uses_fillGenericField. intros l Hl. simpl.
    split; [exact (generic_is_selector _ _ _ Hl)|].
    split; [reflexivity|]. intro v. apply among_In, Hl. }
  eapply always_mono;
    [| exact (always_and _ _ _ (fillGenericField_wins fieldType value fieldName)
                (Uses_always _ _ Hu))].
  intros t o [(b & -> & Hb) Hcalls].
  destruct (genericFor_fills _ _ _ Hcalls) as (Hlen & Hall & Hp).
  exists b. split; [reflexivity|]. split; [|exact Hp].
  unfold filledGenerically. rewrite <- Hlen in Hb.
  destruct b.
  - destruct (okFills t) as [|l [|? ?]]; try discriminate.
    inversion Hall as [|? ? Hl _]; subst. simpl. rewrite Hl. reflexivity.
  - destruct (okFills t); [reflexivity | discriminate].
Qed.

Lemma own_generic {B : Type} fieldType labels value genericValue fieldName
      (f : bool -> Prog B) :
  (forall filled,
      always (f filled) (fun t _ => afterGeneric fieldType labels value filled t)) ->
  always (bind (fillGenericField fieldType genericValue fieldName) f)
         (fun t _ => fallbackOnly fieldType labels value t).
Proof.
  intro Hf. apply always_bind.
  eapply always_mono; [|apply (fillGenericField_generic fieldType labels)].
  intros t o (filled & -> & Hg & Hp). simpl.
  eapply always_mono; [|apply Hf].
  intros t' o' (Ha & Hb & Hc). unfold fallbackOnly.
  rewrite filledGenerically_app, labelProbed_app, Hg, Hp, Ha, orb_false_r. simpl.
  split; [exact Hb | intro H; apply fallbackRan_back, Hc, H].
Qed.

Lemma fillTextByLabel_first_probe labels value fieldName :
  always (fillTextByLabel labels value fieldName) (fun t _ => fallbackRan labels value t).
Proof.
  unfold fallbackRan, fillTextByLabel. destruct (Js.truthy value) eqn:Hv; simpl.
  - destruct labels as [|first rest].
    + apply always_any. intros t o _ first rest H. discriminate.
    + simpl. intro r. apply always_any. intros t o _ first' rest' H.
      injection H as <- <-. left. reflexivity.
  - intros H. discriminate.
Qed.

Lemma fillTextByLabel_label fieldType labels value fieldName :
  always (fillTextByLabel labels value fieldName)
         (fun t o => (exists b, o = Done b)
                     /\ filledGenerically fieldType t = false
                     /\ fallbackRan labels value t).
Proof.
  assert (Hu : Uses (neutralFor fieldType []) (fillTextByLabel labels value fieldName)).
  { apply Uses_fillTextByLabel. intros text _. simpl.
    split; [reflexivity|]. split; [intro v; apply generic_not_label; discriminate|].
    split; [reflexivity|]. intro v. apply generic_not_label. discriminate. }
  eapply always_mono;
    [| exact (always_and _ _ _
                (always_and _ _ _
                   (Returns_always _ (fillTextByLabel_Returns labels value fieldName))
                   (Uses_always _ _ Hu))
                (fillTextByLabel_first_probe labels value fieldName))].
  intros t o [[Hret Hcalls] Hfirst].
  split; [exact Hret|]. split; [|exact Hfirst].
  exact (proj1 (neutral_untouched _ _ _ Hcalls)).
Qed.

Lemma own_label {B : Type} fieldType labels value filled fieldName (f : unit -> Prog B) :
  (forall a, always (f a) (fun t _ => untouched fieldType labels t)) ->
  always (bind (unless filled (fillTextByLabel labels value fieldName)) f)
         (fun t _ => afterGeneric fieldType labels value filled t).
Proof.
  intro Hf. unfold unless, ignore. destruct filled.
  - simpl. eapply always_mono; [|apply Hf].
    intros t o [H1 H2]. split; [exact H1|]. split; [intro; exact H2 | discriminate].
  - apply always_bind. apply always_bind.
    eapply always_mono; [|apply (fillTextByLabel_label fieldType)].
    intros t o ([b ->] & Hg & Hfirst). simpl.
    eapply always_mono; [|apply Hf].
    intros t' o' [H1 H2]. rewrite app_nil_r. unfold afterGeneric.
    rewrite filledGenerically_app, Hg, H1.
    split; [reflexivity|]. split; [discriminate|].
    intros _. apply fallbackRan_front, Hfirst.
Qed.

Lemma neutral_generic fieldType labels other value fieldName :
  forallb (fun l => negb (among (genericLocators fieldType) l)) (genericLocators other) = true ->
  Uses (neutralFor fieldType labels) (fillGenericField other value fieldName).
Proof.
  intro H. rewrite forallb_forall in H.
  apply Uses_fillGenericField. intros l Hl. simpl.
  split; [exact (generic_is_selector _ _ _ Hl)|]. split; [exact I|].
  intros _. apply negb_true_iff, H, Hl.
Qed.

Lemma neutral_label fieldType labels others value fieldName :
  forallb (fun text => negb (existsb (String.eqb text) labels)) others = true ->
  Uses (neutralFor fieldType labels) (fillTextByLabel others value fieldName).
Proof.
  intro H. rewrite forallb_forall in H.
  apply Uses_fillTextByLabel. intros text Hin. simpl.
  split; [apply negb_true_iff, H, Hin|].
  split; [intro v; apply generic_not_label; discriminate|].
  split; [apply negb_true_iff, H, Hin|].
  intro v. apply generic_not_label. discriminate.
Qed.

Lemma neutral_unless fieldType labels others value fieldName filled :
  forallb (fun text => negb (existsb (String.eqb text) labels)) others = true ->
  Uses (neutralFor fieldType labels) (unless filled (fillTextByLabel others value fieldName)).
Proof.
  intro H. unfold unless, ignore. destruct filled; [constructor|].
  apply Uses_bind; [apply neutral_label, H | intro; constructor].
Qed.

Lemma Returns_unless (filled : bool) (p : Prog bool) : Returns p -> Returns (unless filled p).
Proof.
  intro H. unfold unless, ignore. destruct filled; [constructor|].
  apply Returns_bind; [exact H | intro; constructor].
Qed.

Lemma urlField_untouched fieldType labels (enabled : bool) (value : string) :
  among (genericLocators fieldType) (First urlFields) = false ->
  always (if enabled then
            try_catch
              (count <- await (Count urlFields) ;;
               if positive count then
                 await (Fill (First urlFields) value) ;;
                 log "fallback: filled LinkedIn URL in first URL field"
               else Ret tt)
              (fun _ => Ret tt)
          else Ret tt)
         (fun t _ => untouched fieldType labels t).
Proof.
  intro H.
  eapply always_mono; [|apply (Uses_always (neutralFor fieldType labels))].
  - intros t o Ht. apply neutral_untouched, Ht.
  - assert (Hc : neutralFor fieldType labels (Count urlFields)) by reflexivity.
    assert (Hf : neutralFor fieldType labels (Fill (First urlFields) value)) by exact H.
    destruct enabled; tree.
Qed.

(** One step of the contact block, seen from one of its fields. *)
Ltac contact_step :=
  first
    [ apply own_generic; intro
    | apply own_label; intro
    | apply urlField_untouched; vm_compute; reflexivity
    | match goal with
      | |- always _ (fun t _ => fallbackOnly ?ft ?ls ?v t) =>
          apply (always_neutral ft ls _ _ (fun t => fallbackOnly ft ls v t))
      | |- always _ (fun t _ => afterGeneric ?ft ?ls ?v ?b t) =>
          apply (always_neutral ft ls _ _ (fun t => afterGeneric ft ls v b t))
      | |- always _ (fun t _ => untouched ?ft ?ls t) =>
          apply (always_neutral ft ls _ _ (fun t => untouched ft ls t))
      end;
      [ first [ apply fillGenericField_Returns
              | apply Returns_unless, fillTextByLabel_Returns ]
      | first [ apply neutral_generic | apply neutral_unless ]; vm_compute; reflexivity
      | first [ apply fallbackOnly_front | apply afterGeneric_front | apply untouched_front ]
      | intro ] ].

Lemma fillContactFields_fallback (user : User) fieldType labels value :
  In (fieldType, labels, value) (contactFields user) ->
  always (fillContactFields user) (fun t _ => fallbackOnly fieldType labels value t).
Proof.
  intro Hin. unfold contactFields in Hin. cbv zeta in Hin.
  unfold fillContactFields. cbv zeta.
  repeat (destruct Hin as [Hin|Hin]; [injection Hin as <- <- <-|]); [..|destruct Hin];
    repeat contact_step.
Qed.

(** C8 (as the code has it).  For a generic field with a non-empty value,
    [fillGenericField] either fills through a structural pattern and never
    probes the nearby text, or it probes the nearby text after every
    structural pattern of the field was probed and none of them led to a
    resolved fill; it answers true exactly when a fill through one of these
    locators resolved.  The accessible-label and accessible-role strategies
    are not part of that cascade.  In the contact block every label or role
    probe comes after the last selector or nearby-text probe, and for each
    of the six fields: when the generic fill of the field filled a control,
    no control is looked up by a label of the field; when it did not and
    there is a value, the first label of the field is looked up. *)
Theorem nearby_text_after_structural_before_labels :
  forall (W : Type) (d : Driver W) (w : W),
    (forall fieldType value fieldName,
        value <> "" ->
        let r := run d (fillGenericField fieldType (Some value) fieldName) w in
        exists b,
          outcome r = Done b
          /\ ((b = true
               /\ (exists k, probes (calls (trace r))
                             = firstn k (structuralLocators fieldType))
               /\ exists l, okFills (trace r) = [l]
                            /\ In l (structuralLocators fieldType))
              \/ (probes (calls (trace r))
                  = (structuralLocators fieldType ++ [nearbyInput fieldType])%list
                  /\ okFills (trace r) = if b then [nearbyInput fieldType] else [])))
    /\ (forall fieldType value fieldName,
          let r := run d (fillGenericField fieldType value fieldName) w in
          exists filled,
            outcome r = Done filled /\ filledGenerically fieldType (trace r) = filled)
    /\ (forall user,
          exists t1 t2,
            trace (run d (fillContactFields user) w) = (t1 ++ t2)%list
            /\ Forall notLabelProbe (calls t1)
            /\ Forall notSelectorProbe (calls t2))
    /\ (forall user fieldType labels value,
          In (fieldType, labels, value) (contactFields user) ->
          let t := trace (run d (fillContactFields user) w) in
          (filledGenerically fieldType t = true -> labelProbed labels t = false)
          /\ (filledGenerically fieldType t = false ->
              Js.truthy value = true ->
              forall first rest,
                labels = first :: rest -> In (ByLabel first) (probes (calls t)))).
Proof.
  intros W d w. split; [|split; [|split]].
  - intros fieldType value fieldName Hv. apply fillGenericField_shape. exact Hv.
  - intros fieldType value fieldName r. subst r.
    destruct (always_run d _ _ w (fillGenericField_generic fieldType [] value fieldName))
      as (filled & Ho & Hg & _).
    exists filled. split; assumption.
  - intro user. apply TwoPhase_run. apply fillContactFields_TwoPhase.
  - intros user fieldType labels value Hin t. subst t.
    exact (always_run d _ _ w (fillContactFields_fallback user fieldType labels value Hin)).
Qed.

Example generic_fill_decides_the_fallback :
  let both := trace (run (simDriver (pageWith [nearbyInput "email"; ByLabel "Email"]))
                         (fillContactFields jane) sim0) in
  let blank := trace (run (simDriver emptyPage) (fillContactFields jane) sim0) in
  filledGenerically "email" both = true
  /\ labelProbed (l_email FIELD_LABELS) both = false
  /\ filledGenerically "email" blank = false
  /\ labelProbed (l_email FIELD_LABELS) blank = true.
Proof. vm_compute. repeat split; reflexivity. Qed.

(* ====================================================================== *)
(** * The name fields, selector by selector *)
(* ====================================================================== *)







Lemma nameSelectors_render :
  map render (nameSelectorsOf "first" "firstName" "first_name") = FIRST_NAME_SELECTORS
  /\ map render (nameSelectorsOf "last" "lastName" "last_name") = LAST_NAME_SELECTORS
  /\ map render fullNameSelectors = FULL_NAME_SELECTORS
  /\ map parseSelector (FIRST_NAME_SELECTORS ++ LAST_NAME_SELECTORS ++ FULL_NAME_SELECTORS)
     = map Some nameSelectors.
Proof. vm_compute. repeat split; reflexivity. Qed.


Example distinct_controls_are_filled_separately :
  let given := {| c_name := Some "first_name"; c_id := None; c_placeholder := None;
                  c_autocomplete := None; c_ariaLabel := None; c_visible := true |} in
  let family := {| c_name := Some "last_name"; c_id := None; c_placeholder := None;
                   c_autocomplete := None; c_ariaLabel := None; c_visible := true |} in
  let whole := {| c_name := Some "fullName"; c_id := None; c_placeholder := None;
                  c_autocomplete := Some "name"; c_ariaLabel := None; c_visible := true |} in
  finalWorld (run formDriver (fillNameFields registry jane)
                  [(whole, ""); (given, ""); (family, "")])
  = [(whole, ""); (given, "Jane"); (family, "Doe")].
Proof. vm_compute. reflexivity. Qed.

Example only_a_full_name_control :
  let whole := {| c_name := Some "applicant"; c_id := None; c_placeholder := None;
                  c_autocomplete := Some "name"; c_ariaLabel := None; c_visible := true |} in
  finalWorld (run formDriver (fillNameFields registry jane) [(whole, "")])
  = [(whole, "Jane Doe")].
Proof. vm_compute. reflexivity. Qed.
